(** * Solder for Fluxx: the document mutation engine

    A shallow embedding of the JSON operations of
    [src/content/fluxx-bridge.js] (the locator functions, the element
    factory, the colour-family matcher, the clone/transform engine and
    the operation interpreter [applyOperations]) together with the
    properties of the engine that its specification states.

    Conventions of the embedding.
    - A JavaScript string is a [string]: a sequence of 8-bit code units
      (the Latin-1 range).  Character classes of the regular expressions
      ([\s], [\d], [\b], the [i] flag) are the ECMAScript ones restricted
      to that range.
    - A JSON value is a [json]; an object is an association list in
      insertion order.  A property that is [undefined] is an absent key.
    - An element of the stencil is a [node]: the properties the engine
      reads or writes are fields of the record.
    - A reference into the working tree (the result of
      [findElementByUid] or the [array] of [findParentOf]) is a path of
      child indices from the top-level array.
    - [crypto.randomUUID()] and [new Date().toISOString()] are read from
      an environment: the n-th call returns [randomUUID n] / [isoNow n].
    - A [TypeError] escaping from the interpreter is the result [None].
    - A number is a binary64 datum ([spec_float]); the channels of a
      color are compared in that arithmetic.
    - The interpreter is embedded twice: as a function of the value of
      the document ([applyOperations]), and on a store of objects
      ([applyOperationsAt]), where a reference is a location of the
      store and every assignment, [push], [unshift] and [splice] of the
      source is a write to the object it addresses. *)

From Stdlib Require Import ZArith Ascii String Lia SpecFloat.
From stdpp Require Import base option list strings pretty gmap.

Set Warnings "-register-all".

Local Open Scope string_scope.
Local Open Scope list_scope.

(** ** JSON values *)

Inductive json :=
| JNull
| JBool (b : bool)
| JNum (n : Z)
| JStr (s : string)
| JArr (xs : list json)
| JObj (kv : list (string * json)).

(** A JavaScript object used as a record: keys in insertion order. *)
Definition obj := list (string * json).

(** [o[k]]: [None] is [undefined]. *)
Fixpoint getProp (k : string) (o : obj) : option json :=
  match o with
  | [] => None
  | (k', v) :: o' => if String.eqb k' k then Some v else getProp k o'
  end.

(** [o[k] = v]: an existing key keeps its place, a new key goes last. *)
Fixpoint setProp (k : string) (v : json) (o : obj) : obj :=
  match o with
  | [] => [(k, v)]
  | (k', v') :: o' =>
      if String.eqb k' k then (k, v) :: o' else (k', v') :: setProp k v o'
  end.

(** [for (const [key, value] of Object.entries(src)) dst[key] = value]. *)
Definition assignEntries (src : obj) (dst : obj) : obj :=
  fold_left (fun acc kv => setProp (fst kv) (snd kv) acc) src dst.

(** ToBoolean on a JSON value. *)
Definition truthy (v : json) : bool :=
  match v with
  | JNull => false
  | JBool b => b
  | JNum n => negb (Z.eqb n 0)
  | JStr s => negb (String.eqb s "")
  | JArr _ => true
  | JObj _ => true
  end.

(** ToBoolean on an optional string property. *)
Definition nonEmpty (s : option string) : bool :=
  match s with
  | Some x => negb (String.eqb x "")
  | None => false
  end.

(** ** The node model *)

Inductive node := Node {
  element_type : string;
  name : option string;
  uid : string;
  label : option string;
  config : option obj;
  visibility : option obj;
  styling : option obj;
  elements : option (list node)
}.

Definition setUid (u : string) (el : node) : node :=
  Node (element_type el) (name el) u (label el) (config el)
       (visibility el) (styling el) (elements el).

Definition setName (n : option string) (el : node) : node :=
  Node (element_type el) n (uid el) (label el) (config el)
       (visibility el) (styling el) (elements el).

Definition setLabel (l : option string) (el : node) : node :=
  Node (element_type el) (name el) (uid el) l (config el)
       (visibility el) (styling el) (elements el).

Definition setConfig (c : option obj) (el : node) : node :=
  Node (element_type el) (name el) (uid el) (label el) c
       (visibility el) (styling el) (elements el).

Definition setVisibility (v : option obj) (el : node) : node :=
  Node (element_type el) (name el) (uid el) (label el) (config el)
       v (styling el) (elements el).

Definition setStyling (s : option obj) (el : node) : node :=
  Node (element_type el) (name el) (uid el) (label el) (config el)
       (visibility el) s (elements el).

Definition setElements (es : option (list node)) (el : node) : node :=
  Node (element_type el) (name el) (uid el) (label el) (config el)
       (visibility el) (styling el) es.

(** [el.elements] read as an array: an absent list has no members. *)
Definition children (el : node) : list node :=
  match elements el with
  | Some ch => ch
  | None => []
  end.

(** ** Locator *)

(** The loop [for (const el of elements) { ... return ... }]: the first
    element on which the body returns is the result. *)
Definition firstSome {A B : Type} (f : A -> option B) : list A -> option B :=
  fix go (l : list A) : option B :=
    match l with
    | [] => None
    | x :: r =>
        match f x with
        | Some y => Some y
        | None => go r
        end
    end.

(** The same loop with the running index [i]. *)
Definition firstSomeFrom {A B : Type} (f : nat -> A -> option B)
  : nat -> list A -> option B :=
  fix go (i : nat) (l : list A) : option B :=
    match l with
    | [] => None
    | x :: r =>
        match f i x with
        | Some y => Some y
        | None => go (S i) r
        end
    end.

(** One iteration of the loop of [findElementByUid]: the element itself,
    or else the first match below it. *)
Fixpoint findInElement (u : string) (el : node) : option node :=
  if String.eqb (uid el) u then Some el
  else
    match elements el with
    | Some ch => firstSome (findInElement u) ch
    | None => None
    end.

(** [findElementByUid(elements, uid)]: depth-first, first match wins. *)
Definition findElementByUid (els : list node) (u : string) : option node :=
  firstSome (findInElement u) els.

(** One iteration of the loop of [findParentOf] at index [i]. The result
    is the path to the array that holds the element (the empty path is
    the array being scanned) and the element's index in that array. *)
Fixpoint findParentInElement (u : string) (i : nat) (el : node)
  : option (list nat * nat) :=
  if String.eqb (uid el) u then Some ([], i)
  else
    match elements el with
    | Some ch =>
        match firstSomeFrom (findParentInElement u) 0 ch with
        | Some (p, j) => Some (i :: p, j)
        | None => None
        end
    | None => None
    end.

(** [findParentOf(elements, uid)]: [{array, index}] with the array given
    by its path from the top-level array. *)
Definition findParentOf (els : list node) (u : string)
  : option (list nat * nat) :=
  firstSomeFrom (findParentInElement u) 0 els.

(** The array reached by a path. *)
Fixpoint arrayAt (p : list nat) (els : list node) : option (list node) :=
  match p with
  | [] => Some els
  | i :: p' =>
      match els !! i with
      | Some el =>
          match elements el with
          | Some ch => arrayAt p' ch
          | None => None
          end
      | None => None
      end
  end.

(** The element at index [i] of the array reached by [p]. *)
Definition nodeAt (p : list nat) (i : nat) (els : list node) : option node :=
  match arrayAt p els with
  | Some arr => arr !! i
  | None => None
  end.

(** In-place mutation of the array reached by a path. *)
Fixpoint modifyArrayAt (p : list nat) (f : list node -> list node)
    (els : list node) : list node :=
  match p with
  | [] => f els
  | i :: p' =>
      alter (fun el =>
               match elements el with
               | Some ch => setElements (Some (modifyArrayAt p' f ch)) el
               | None => el
               end) i els
  end.

(** In-place mutation of the element at index [i] of the array at [p]. *)
Definition modifyNodeAt (p : list nat) (i : nat) (f : node -> node)
    (els : list node) : list node :=
  modifyArrayAt p (alter f i) els.

(** [arr.splice(i, del, ...ins)]. *)
Definition splice (i del : nat) (ins : list node) (arr : list node)
  : list node :=
  take i arr ++ ins ++ drop (i + del) arr.

(** ** Strings and the regular expressions of the engine *)

(** The code units of a string. *)
Abbreviation text := (list ascii).

Definition chars (s : string) : text := list_ascii_of_string s.
Definition str (t : text) : string := string_of_list_ascii t.

Definition code (c : ascii) : N := N_of_ascii c.

Definition inRange (lo hi : N) (c : ascii) : bool :=
  (lo <=? code c)%N && (code c <=? hi)%N.

(** [\d] *)
Definition isDigit (c : ascii) : bool := inRange 48 57 c.

(** [[0-9a-fA-F]] *)
Definition isHex (c : ascii) : bool :=
  isDigit c || inRange 97 102 c || inRange 65 70 c.

(** [\w]: the class behind [\b]. *)
Definition isWord (c : ascii) : bool :=
  isDigit c || inRange 97 122 c || inRange 65 90 c || (code c =? 95)%N.

(** [\s] on 8-bit code units: TAB, LF, VT, FF, CR, space and NBSP. *)
Definition isSpace (c : ascii) : bool :=
  inRange 9 13 c || (code c =? 32)%N || (code c =? 160)%N.

(** Canonicalize of the [i] flag (no [u] flag): the upper-case code unit,
    as far as it stays a single code unit of the same range. *)
Definition canon (c : ascii) : ascii :=
  if inRange 97 122 c then ascii_of_N (code c - 32)
  else if inRange 224 254 c && negb (code c =? 247)%N
       then ascii_of_N (code c - 32)
  else c.

(** [String.prototype.toLowerCase] on 8-bit code units. *)
Definition lowerChar (c : ascii) : ascii :=
  if inRange 65 90 c then ascii_of_N (code c + 32)
  else if inRange 192 222 c && negb (code c =? 215)%N
       then ascii_of_N (code c + 32)
  else c.

Definition toLowerCase (s : string) : string := str (map lowerChar (chars s)).

Definition sameChar (a b : ascii) : bool := Ascii.eqb (canon a) (canon b).

(** A literal pattern under the [i] flag at the head of [s]: the text
    after the match. *)
Fixpoint matchLit (pat s : text) : option text :=
  match pat with
  | [] => Some s
  | p :: pat' =>
      match s with
      | c :: s' => if sameChar p c then matchLit pat' s' else None
      | [] => None
      end
  end.

(** A greedy class repetition [C*]: the text after the longest run. *)
Fixpoint skipWhile (P : ascii -> bool) (s : text) : text :=
  match s with
  | c :: s' => if P c then skipWhile P s' else s
  | [] => []
  end.

(** The longest run itself. *)
Fixpoint takeWhile (P : ascii -> bool) (s : text) : text :=
  match s with
  | c :: s' => if P c then c :: takeWhile P s' else []
  | [] => []
  end.

(** [\b] behind a word character: the next code unit is no word
    character, or the text ends. *)
Definition boundary (s : text) : bool :=
  match s with
  | [] => true
  | c :: _ => negb (isWord c)
  end.

(** [s.startsWith(p)], case-sensitive. *)
Fixpoint startsWith (p s : text) : bool :=
  match p with
  | [] => true
  | a :: p' =>
      match s with
      | c :: s' => Ascii.eqb a c && startsWith p' s'
      | [] => false
      end
  end.

(** *** GetSubstitution *)

Definition digitVal (c : ascii) : nat := N.to_nat (code c - 48).

(** The replacement text of [String.prototype.replace] for the template
    [tpl]: [caps] are the capture groups, [matched] the match, [before]
    and [after] the text around it. *)
(** [$n] names a capture group when [1 <= n <= m]. *)
Definition validRef (caps : list text) (n : nat) : bool :=
  Nat.leb 1 n && Nat.leb n (length caps).

Fixpoint getSubstitution (caps : list text) (matched before after : text)
    (tpl : text) : text :=
  match tpl with
  | [] => []
  | c :: rest =>
      if Ascii.eqb c "$" then
        match rest with
        | [] => [c]
        | d :: r =>
            if Ascii.eqb d "$" then
              d :: getSubstitution caps matched before after r
            else if Ascii.eqb d "&" then
              matched ++ getSubstitution caps matched before after r
            else if Ascii.eqb d "`" then
              before ++ getSubstitution caps matched before after r
            else if Ascii.eqb d "'" then
              after ++ getSubstitution caps matched before after r
            else if isDigit d then
              match r with
              | d2 :: r2 =>
                  if isDigit d2 && validRef caps (10 * digitVal d + digitVal d2)
                  then
                    nth (10 * digitVal d + digitVal d2 - 1) caps []
                      ++ getSubstitution caps matched before after r2
                  else if validRef caps (digitVal d)
                  then
                    nth (digitVal d - 1) caps []
                      ++ getSubstitution caps matched before after r
                  else
                    c :: d :: getSubstitution caps matched before after r
              | [] =>
                  if validRef caps (digitVal d)
                  then nth (digitVal d - 1) caps []
                  else [c; d]
              end
            else c :: getSubstitution caps matched before after rest
        end
      else c :: getSubstitution caps matched before after rest
  end.

(** *** [String.prototype.replace] with a global regular expression *)

(** A match at the head of the remaining text: its length (at least one
    code unit for every expression of the engine) and the replacement,
    given the text before the match. *)
Definition matcher := text -> option (nat * (text -> text)).

(** The scan of [replace]: [skip] code units of the current match are
    still to be passed over, [before] is the text already scanned. *)
Fixpoint scanFrom (m : matcher) (skip : nat) (before s : text) : text :=
  match s with
  | [] => []
  | c :: s' =>
      match skip with
      | S k => scanFrom m k (before ++ [c]) s'
      | O =>
          match m s with
          | Some (n, sub) =>
              sub before ++ scanFrom m (pred n) (before ++ [c]) s'
          | None => c :: scanFrom m 0 (before ++ [c]) s'
          end
      end
  end.

Definition replaceAll (m : matcher) (s : text) : text := scanFrom m 0 [] s.

(** [s.replace(new RegExp(escape(find), 'gi'), repl)]: every occurrence
    of the literal [find], compared under the [i] flag, is replaced by
    the expansion of the template [repl]. *)
Definition literalMatcher (find repl : text) : matcher :=
  fun s =>
    match matchLit find s with
    | Some after =>
        let n := length find in
        Some (n, fun before => getSubstitution [] (take n s) before after repl)
    | None => None
    end.

Definition replaceLiteral (find repl s : string) : string :=
  str (replaceAll (literalMatcher (chars find) (chars repl)) (chars s)).

(** ** Numbers *)

(** A JavaScript number is a binary64 floating-point datum; the
    arithmetic is the one of IEEE 754, rounding to nearest, ties to
    even. *)
Definition number := spec_float.

Definition NaN : number := S754_nan.

(** The Number value of a mathematical integer: the nearest double,
    an infinity beyond the largest one. *)
Definition numberOf (z : Z) : number := binary_normalize 53 1024 z 0 false.

(** A decimal literal [n/d] of the source text: the double nearest to
    it. *)
Definition literal (n d : Z) : number :=
  SFdiv 53 1024 (numberOf n) (numberOf d).

Definition isNaN (x : number) : bool :=
  match x with
  | S754_nan => true
  | _ => false
  end.

(** [Math.max] and [Math.min] of two numbers: [NaN] if one of them is,
    and the positive zero is above the negative one. *)
Definition max2 (a b : number) : number :=
  if isNaN a || isNaN b then NaN
  else if SFltb a b then b
  else if SFltb b a then a
  else match a, b with
       | S754_zero sa, S754_zero sb => S754_zero (sa && sb)
       | _, _ => a
       end.

Definition min2 (a b : number) : number :=
  if isNaN a || isNaN b then NaN
  else if SFltb a b then a
  else if SFltb b a then b
  else match a, b with
       | S754_zero sa, S754_zero sb => S754_zero (sa || sb)
       | _, _ => a
       end.

(** ** Color-family matcher *)

(** [isRgbInFamily(r, g, b, family)], on numbers as the source computes
    it: a comparison with [NaN] is false. *)
Definition isRgbInFamily (r g b : number) (family : string) : bool :=
  let add := SFadd 53 1024 in
  let sub := SFsub 53 1024 in
  let mul := SFmul 53 1024 in
  let div := SFdiv 53 1024 in
  let lt := SFltb in
  let gt (x y : number) := SFltb y x in
  let brightness := div (add (add r g) b) (numberOf 3) in
  let max := max2 (max2 r g) b in
  let min := min2 (min2 r g) b in
  let saturation :=
    if SFeqb max (numberOf 0) then numberOf 0 else div (sub max min) max in
  if String.eqb family "red" then
    gt r (numberOf 150) && gt r (mul g (literal 3 2))
    && gt r (mul b (literal 6 5)) && lt g (numberOf 150)
  else if String.eqb family "blue" then
    gt b (numberOf 150) && gt b (mul r (literal 13 10))
    && gt b (mul g (literal 11 10))
  else if String.eqb family "green" then
    gt g (numberOf 150) && gt g (mul r (literal 6 5))
    && gt g (mul b (literal 6 5))
  else if String.eqb family "orange" then
    gt r (numberOf 180) && gt g (numberOf 80) && lt g (numberOf 180)
    && lt b (numberOf 100)
  else if String.eqb family "yellow" then
    gt r (numberOf 180) && gt g (numberOf 180) && lt b (numberOf 120)
  else if String.eqb family "purple" then
    gt r (numberOf 100) && gt b (numberOf 100)
    && lt g (mul (min2 r b) (literal 4 5))
  else if String.eqb family "gray" then
    lt saturation (literal 1 5) && gt brightness (numberOf 50)
    && lt brightness (numberOf 220)
  else if String.eqb family "black" then
    lt brightness (numberOf 50)
  else if String.eqb family "white" then
    gt brightness (numberOf 220) && lt saturation (literal 1 10)
  else false.

(** The value of a hexadecimal digit. *)
Definition hexVal (c : ascii) : Z :=
  if isDigit c then Z.of_N (code c) - 48
  else if inRange 97 102 c then Z.of_N (code c) - 87
  else Z.of_N (code c) - 55.

(** [parseInt(digits)] on a run of decimal digits. *)
Definition parseDec (d : text) : Z :=
  fold_left (fun acc c => (10 * acc + (Z.of_N (code c) - 48))%Z) d 0%Z.

(** [parseInt(s, 16)]: white space, a sign and a [0x] prefix are passed
    over, then the longest run of hexadecimal digits counts. [None] is
    [NaN]. *)
Definition parseIntHex (s : text) : option Z :=
  let s1 := skipWhile isSpace s in
  let '(neg, s2) :=
    match s1 with
    | c :: t =>
        if Ascii.eqb c "-" then (true, t)
        else if Ascii.eqb c "+" then (false, t)
        else (false, s1)
    | [] => (false, s1)
    end in
  let s3 :=
    match s2 with
    | z :: x :: t =>
        if Ascii.eqb z "0" && (Ascii.eqb x "x" || Ascii.eqb x "X")
        then t else s2
    | _ => s2
    end in
  match takeWhile isHex s3 with
  | [] => None
  | d =>
      let v := fold_left (fun acc c => (16 * acc + hexVal c)%Z) d 0%Z in
      Some (if neg then (- v)%Z else v)
  end.

(** The number that [parseInt] returns. *)
Definition numberOfParse (v : option Z) : number :=
  match v with
  | Some z => numberOf z
  | None => NaN
  end.

(** [isColorInFamily(hex, family)]: [hex] is the matched literal, the
    number sign included. *)
Definition isColorInFamily (hex : text) (family : string) : bool :=
  match hex with
  | [_; r; g; b] =>
      isRgbInFamily (numberOfParse (parseIntHex [r; r]))
        (numberOfParse (parseIntHex [g; g]))
        (numberOfParse (parseIntHex [b; b])) family
  | [_; r1; r2; g1; g2; b1; b2] =>
      isRgbInFamily (numberOfParse (parseIntHex [r1; r2]))
        (numberOfParse (parseIntHex [g1; g2]))
        (numberOfParse (parseIntHex [b1; b2])) family
  | _ => false
  end.

(** The names that every object literal inherits from
    [Object.prototype]: a lookup of one of them in a table yields a
    function or an object, not [undefined]. *)
Definition prototypeNames : list string :=
  ["constructor"; "__defineGetter__"; "__defineSetter__"; "hasOwnProperty";
   "__lookupGetter__"; "__lookupSetter__"; "isPrototypeOf";
   "propertyIsEnumerable"; "toString"; "valueOf"; "__proto__";
   "toLocaleString"].

Definition isPrototypeName (k : string) : bool :=
  existsb (String.eqb k) prototypeNames.

(** The table [colors] of [getTargetColor]. *)
Definition colors : list (string * string) :=
  [("red", "#cc0000"); ("blue", "#0066cc"); ("green", "#008800");
   ("orange", "#ff6600"); ("yellow", "#ffcc00"); ("purple", "#9900cc");
   ("gray", "#666666"); ("black", "#000000"); ("white", "#ffffff")].

Fixpoint lookupTable {A : Type} (k : string) (t : list (string * A))
  : option A :=
  match t with
  | [] => None
  | (k', v) :: t' => if String.eqb k' k then Some v else lookupTable k t'
  end.

(** What a lookup in a table of the engine yields: a string of the
    table, or the member of this name that the table inherits from
    [Object.prototype] (the function [Object] for [constructor], the
    prototype itself for [__proto__], a method for the other names). *)
Inductive colorValue :=
| ColorText (s : string)
| Inherited (k : string).

(** [getTargetColor(colorName)]: [colors[colorName.toLowerCase()] ||
    colorName]. *)
Definition getTargetColor (colorName : string) : colorValue :=
  if startsWith (chars "#") (chars colorName) then ColorText colorName
  else
    match lookupTable (toLowerCase colorName) colors with
    | Some hex => ColorText hex
    | None =>
        if isPrototypeName (toLowerCase colorName)
        then Inherited (toLowerCase colorName)
        else ColorText colorName
    end.

(** ToString of a target color, as the result of a [replace] callback
    and a template literal take it: the prototype object prints as
    [[object Object]], a built-in function as V8 prints its source. *)
Definition colorText (v : colorValue) : string :=
  match v with
  | ColorText s => s
  | Inherited k =>
      if String.eqb k "__proto__" then "[object Object]"
      else
        "function "
        ++ (if String.eqb k "constructor" then "Object" else k)
        ++ "() { [native code] }"
  end.

(** *** The three rewrites of [replaceColorsInHtml] *)

(** [/#([0-9a-fA-F]{3}){1,2}\b/]: six digits if a boundary follows them,
    else three; the length of the match. *)
Definition matchHex (s : text) : option nat :=
  match s with
  | c :: t =>
      if Ascii.eqb c "#" then
        if (length (take 6 t) =? 6)%nat && forallb isHex (take 6 t)
           && boundary (drop 6 t)
        then Some 7%nat
        else if (length (take 3 t) =? 3)%nat && forallb isHex (take 3 t)
                && boundary (drop 3 t)
        then Some 4%nat
        else None
      else None
  | [] => None
  end.

Definition hexMatcher (findColor : string) (targetColor : text) : matcher :=
  fun s =>
    match matchHex s with
    | Some n =>
        Some (n, fun _ => if isColorInFamily (take n s) findColor
                          then targetColor else take n s)
    | None => None
    end.

Definition expect (c : ascii) (s : text) : option text :=
  match s with
  | x :: t => if Ascii.eqb x c then Some t else None
  | [] => None
  end.

(** [(\d+)]: the digits and the text after them. *)
Definition digits1 (s : text) : option (text * text) :=
  match takeWhile isDigit s with
  | [] => None
  | d => Some (d, skipWhile isDigit s)
  end.

(** The captures of one match of the [rgb] expression: whether the
    optional letter a is there, the three runs of digits, the text up to
    the closing parenthesis, and the text after the match. *)
Record rgbMatch := RgbMatch {
  rgb_a : bool;
  rgb_r : text;
  rgb_g : text;
  rgb_b : text;
  rgb_rest : text;
  rgb_after : text
}.

Definition notClose (c : ascii) : bool := negb (Ascii.eqb c ")").

(** The expression of the second rewrite, under the [i] flag: [rgb], an
    optional [a], an opening parenthesis, three runs of digits separated
    by commas, white space allowed around each of them, any text without
    a closing parenthesis, and the closing parenthesis. *)
Definition matchRgb (s : text) : option rgbMatch :=
  s1 ← matchLit (chars "rgb") s;
  let '(a, s2) :=
    match s1 with
    | c :: t => if sameChar "a" c then (true, t) else (false, s1)
    | [] => (false, s1)
    end in
  s3 ← expect "(" (skipWhile isSpace s2);
  '(r, s4) ← digits1 (skipWhile isSpace s3);
  s5 ← expect "," (skipWhile isSpace s4);
  '(g, s6) ← digits1 (skipWhile isSpace s5);
  s7 ← expect "," (skipWhile isSpace s6);
  '(b, s8) ← digits1 (skipWhile isSpace s7);
  s9 ← expect ")" (skipWhile notClose s8);
  Some (RgbMatch a r g b (takeWhile notClose s8) s9).

(** A number in a template literal. *)
Definition numberText (v : option Z) : text :=
  match v with
  | Some z => chars (pretty z)
  | None => chars "NaN"
  end.

(** [t.slice(i, j)]. *)
Definition slice (i j : nat) (t : text) : text := take (j - i) (drop i t).

Definition rgbMatcher (findColor : string) (targetColor : text) : matcher :=
  fun s =>
    match matchRgb s with
    | Some m =>
        let n := (length s - length (rgb_after m))%nat in
        Some (n, fun _ =>
          if isRgbInFamily (numberOf (parseDec (rgb_r m)))
               (numberOf (parseDec (rgb_g m)))
               (numberOf (parseDec (rgb_b m))) findColor
          then
            if startsWith (chars "#") targetColor then
              let tr := numberText (parseIntHex (slice 1 3 targetColor)) in
              let tg := numberText (parseIntHex (slice 3 5 targetColor)) in
              let tb := numberText (parseIntHex (slice 5 7 targetColor)) in
              if rgb_a m then
                chars "rgba(" ++ tr ++ chars ", " ++ tg ++ chars ", " ++ tb
                  ++ rgb_rest m ++ chars ")"
              else
                chars "rgb(" ++ tr ++ chars ", " ++ tg ++ chars ", " ++ tb
                  ++ chars ")"
            else targetColor
          else take n s)
    | None => None
    end.

(** [(?:color|background-color|border-color)] under the [i] flag. *)
Definition matchProperty (s : text) : option text :=
  match matchLit (chars "color") s with
  | Some t => Some t
  | None =>
      match matchLit (chars "background-color") s with
      | Some t => Some t
      | None => matchLit (chars "border-color") s
      end
  end.

(** The expression of the third rewrite, under the [i] flag: a first
    group made of the property name, a colon and white space around the
    colon, then the keyword [kw] and a word boundary.  The result is the
    text after the first group and the text after the match. *)
Definition matchKeyword (kw : text) (s : text) : option (text * text) :=
  s1 ← matchProperty s;
  s2 ← expect ":" (skipWhile isSpace s1);
  let s3 := skipWhile isSpace s2 in
  s4 ← matchLit kw s3;
  if boundary s4 then Some (s3, s4) else None.

(** The replacement is the template [`$1${targetColor}`]. *)
Definition keywordMatcher (kw : text) (targetColor : text) : matcher :=
  fun s =>
    match matchKeyword kw s with
    | Some (s3, s4) =>
        let n := (length s - length s4)%nat in
        let group1 := take (length s - length s3) s in
        Some (n, fun before =>
          getSubstitution [group1] (take n s) before s4
            (chars "$1" ++ targetColor))
    | None => None
    end.

(** The table [keywords] of [replaceColorsInHtml]. *)
Definition keywords : list (string * list string) :=
  [("red", ["red"; "crimson"; "darkred"; "firebrick"; "indianred"; "maroon"]);
   ("blue", ["blue"; "navy"; "darkblue"; "royalblue"; "steelblue";
             "dodgerblue"]);
   ("green", ["green"; "darkgreen"; "forestgreen"; "limegreen"; "seagreen"]);
   ("orange", ["orange"; "darkorange"; "coral"; "tomato"]);
   ("yellow", ["yellow"; "gold"; "khaki"]);
   ("purple", ["purple"; "violet"; "magenta"; "fuchsia"]);
   ("gray", ["gray"; "grey"; "darkgray"; "lightgray"; "silver"])].

(** The loop over the keywords of a family. *)
Definition replaceKeywords (kws : list string) (targetColor : text)
    (s : text) : text :=
  fold_left
    (fun acc kw => replaceAll (keywordMatcher (chars kw) targetColor) acc)
    kws s.

(** The callback of the second rewrite when the target color is no
    string: for a match of the family it raises ([targetColor.startsWith]
    is not a function), every other match is returned as it is.  [None]
    is the raise. *)
Definition rgbRaiser (findColor : string) (s : text)
  : option (nat * option text) :=
  match matchRgb s with
  | Some m =>
      let n := (length s - length (rgb_after m))%nat in
      Some (n,
            if isRgbInFamily (numberOf (parseDec (rgb_r m)))
                 (numberOf (parseDec (rgb_g m)))
                 (numberOf (parseDec (rgb_b m))) findColor
            then None
            else Some (take n s))
  | None => None
  end.

(** The scan of [replace] with a callback that may raise. *)
Fixpoint scanRaising (m : text -> option (nat * option text)) (skip : nat)
    (s : text) : option text :=
  match s with
  | [] => Some []
  | c :: s' =>
      match skip with
      | S k => scanRaising m k s'
      | O =>
          match m s with
          | Some (n, Some rep) =>
              out ← scanRaising m (pred n) s'; Some (rep ++ out)
          | Some (_, None) => None
          | None => out ← scanRaising m 0 s'; Some (c :: out)
          end
      end
  end.

(** [replaceColorsInHtml(html, findColor, replaceColor)].  [None] is a
    [TypeError]: the second rewrite meets a color of the family while
    the target color is no string, or [keywords[findColor]] is an
    inherited member of the table and the loop over it raises. *)
Definition replaceColorsInHtml (html findColor replaceColor : string)
  : option string :=
  let targetColor := getTargetColor replaceColor in
  let target := chars (colorText targetColor) in
  let result := replaceAll (hexMatcher findColor target) (chars html) in
  result ←
    match targetColor with
    | ColorText _ => Some (replaceAll (rgbMatcher findColor target) result)
    | Inherited _ => scanRaising (rgbRaiser findColor) 0 result
    end;
  match lookupTable findColor keywords with
  | Some kws => Some (str (replaceKeywords kws target result))
  | None => if isPrototypeName findColor then None else Some (str result)
  end.

(** ** Environment and documents *)

(** The sources of fresh identifiers and of time stamps. *)
Record env := Env {
  randomUUID : nat -> string;
  isoNow : nat -> string
}.

(** The part of the export that the engine works on:
    [records.Stencil[0].json.elements] and [records.ModelAttribute]. *)
Record exportData := ExportData {
  stencilElements : list node;
  modelAttribute : list obj
}.

(** The working state of one batch: the two arrays of the working copy,
    the alias table, and the numbers of identifiers and time stamps
    drawn so far. *)
Record state := State {
  st_elements : list node;
  st_modelAttrs : list obj;
  st_aliases : gmap string string;
  st_uids : nat;
  st_ticks : nat
}.

Definition withElements (els : list node) (st : state) : state :=
  State els (st_modelAttrs st) (st_aliases st) (st_uids st) (st_ticks st).

(** ** Alias table *)

(** [aliases[k]]: [None] when the table has no such own key (the value
    is [undefined], or an inherited member that equals no identifier). *)
Definition aliasGet (k : string) (aliases : gmap string string)
  : option string :=
  aliases !! k.

(** [aliases[k] = v]: an assignment of a string to [__proto__] is
    ignored. *)
Definition aliasSet (k v : string) (aliases : gmap string string)
  : gmap string string :=
  if String.eqb k "__proto__" then aliases else <[k := v]> aliases.

(** [s.startsWith('$')] *)
Definition isAliasRef (s : string) : bool := startsWith (chars "$") (chars s).

(** [s.slice(1)] *)
Definition slice1 (s : string) : string :=
  match s with
  | String _ s' => s'
  | EmptyString => EmptyString
  end.

(** [a || b] on optional strings. *)
Definition orElse (a b : option string) : option string :=
  if nonEmpty a then a else b.

(** ** Element factory *)

(** The quotation mark. *)
Definition dq : string := String "034"%char EmptyString.

(** The constant [advanced_query] of a new element. *)
Definition advancedQuery : string :=
  "{" ++ dq ++ "group_type" ++ dq ++ ":" ++ dq ++ "and" ++ dq ++ ","
      ++ dq ++ "conditions" ++ dq ++ ":[],"
      ++ dq ++ "relationship_filter_model_type" ++ dq ++ ":"
      ++ dq ++ "GrantRequest" ++ dq ++ "}".

Definition baseVisibility : obj :=
  [("visible_form", JBool true); ("visible_show", JBool true);
   ("advanced_filter", JStr "1");
   ("advanced_query", JStr advancedQuery);
   ("advanced_sort", JStr "[]")].

Definition baseStyling : obj := [("alignment", JStr "left")].

(** A property whose value may be [undefined]. *)
Definition optProp (k : string) (v : option string) : obj :=
  match v with
  | Some s => [(k, JStr s)]
  | None => []
  end.

Definition assignOpt (src : option obj) (dst : obj) : obj :=
  match src with
  | Some o => assignEntries o dst
  | None => dst
  end.

(** [if (c[k]) cfg[dst] = c[k]] *)
Definition copyIfTruthy (k dst : string) (c : obj) (cfg : obj) : obj :=
  match getProp k c with
  | Some v => if truthy v then setProp dst v cfg else cfg
  | None => cfg
  end.

(** [if (c[k] !== undefined) cfg[k] = c[k]] *)
Definition copyIfDefined (k : string) (c : obj) (cfg : obj) : obj :=
  match getProp k c with
  | Some v => setProp k v cfg
  | None => cfg
  end.

(** The conditional-visibility triple, as [createGroupElement] and the
    [edit] operation apply it. *)
Definition applyConditional (conditional : option obj) (cfg : obj) : obj :=
  match conditional with
  | Some c =>
      copyIfTruthy "type" "reveal_if_type" c
        (copyIfTruthy "values" "reveal_if_value" c
           (copyIfTruthy "field" "reveal_if_attribute" c cfg))
  | None => cfg
  end.

(** [createGroupElement(label, {config, styling, visibility, conditional})]
    with the identifier [u] drawn by [generateUid()]. *)
Definition createGroupElement (u : string) (label : option string)
    (config styling visibility conditional : option obj) : node :=
  let cfg :=
    optProp "label" label ++
    [("show_in_toc", JStr "0"); ("hide_label", JStr "0");
     ("collapsible", JStr "0"); ("default_open", JStr "0");
     ("disable_lazy_load", JStr "0"); ("reveal_if_type", JStr "show")] in
  Node "group" (Some "group") u label
       (Some (applyConditional conditional (assignOpt config cfg)))
       (Some (assignOpt visibility baseVisibility))
       (Some (assignOpt styling baseStyling))
       (Some []).

(** [createTextElement(html, {styling, visibility})]. *)
Definition createTextElement (u : string) (html : option string)
    (styling visibility : option obj) : node :=
  let cfg :=
    optProp "text" html ++
    [("strip_html", JStr "0"); ("allow_script", JStr "0")] in
  Node "text" (Some "text") u None
       (Some cfg)
       (Some (assignOpt visibility baseVisibility))
       (Some (assignOpt styling baseStyling))
       None.

(** [createAttributeElement(fieldName, label)]. *)
Definition createAttributeElement (u : string) (fieldName label : option string)
  : node :=
  Node "attribute" fieldName u label
       (Some (optProp "label" label ++ [("required", JBool false)]))
       (Some baseVisibility)
       (Some baseStyling)
       None.

(** [createModelAttribute(name, description, attributeType)]; the two
    time stamps are the readings [t] and [t + 1] of the clock. *)
Definition createModelAttribute (e : env) (t : nat)
    (name description : option string) (attributeType : string) : obj :=
  [("created_at", JStr (isoNow e t)); ("updated_at", JStr (isoNow e (S t)))]
  ++ optProp "name" name
  ++ optProp "description" (orElse description name)
  ++ [("model_type", JStr "GrantRequest");
      ("attribute_type", JStr attributeType);
      ("multi_allowed", JBool false);
      ("deleted_at", JNull);
      ("value_model_type", JNull);
      ("include_in_export", JBool true);
      ("include_in_fulltext_search", JBool false);
      ("api_style", JStr "full");
      ("force_dropdown", JBool false);
      ("translatable", JBool false);
      ("model_type_enum", JNum 98)].

(** [a.name === fieldName] *)
Definition hasName (fieldName : option string) (a : obj) : bool :=
  match getProp "name" a, fieldName with
  | Some (JStr n), Some f => String.eqb n f
  | None, None => true
  | _, _ => false
  end.

(** [if (!modelAttrs.find(a => a.name === fieldName))
       modelAttrs.push(createModelAttribute(fieldName, fieldName, type))] *)
Definition ensureModelAttribute (e : env) (fieldName : option string)
    (attributeType : string) (st : state) : state :=
  if existsb (hasName fieldName) (st_modelAttrs st) then st
  else
    State (st_elements st)
          (st_modelAttrs st ++
             [createModelAttribute e (st_ticks st) fieldName fieldName
                attributeType])
          (st_aliases st) (st_uids st) (2 + st_ticks st).

(** ** Operations *)

(** One record of the batch.  An absent property is [None]. *)
Record operation := Operation {
  op_type : string;
  op_after_uid : option string;
  op_uid : option string;
  op_target : option string;
  op_position : option string;
  (* add *)
  op_element_type : option string;
  op_label : option string;
  op_content : option string;
  op_field_name : option string;
  op_field_type : option string;
  op_alias : option string;
  op_config : option obj;
  op_styling : option obj;
  op_visibility : option obj;
  op_conditional : option obj;
  (* edit *)
  op_required : option json;
  op_read_only : option json;
  (* bulk_replace *)
  op_uids : option (list string);
  op_find_color : option string;
  op_replace_color : option string;
  op_find : option string;
  op_replace : option string;
  op_set_required : option json;
  op_set_read_only : option json;
  op_set_hidden : option json;
  op_set_collapsible : option json;
  op_set_show_in_toc : option json;
  op_set_default_open : option json;
  op_set_hide_label : option json;
  (* replace_subtree *)
  op_target_uid : option string;
  op_structure : option node;
  (* clone_subtree *)
  op_source_uid : option string;
  op_label_find : option string;
  op_label_replace : option string;
  op_field_suffix : option string
}.

Definition positionIs (op : operation) (p : string) : bool :=
  match op_position op with
  | Some q => String.eqb q p
  | None => false
  end.

(** ** Array primitives *)

(** [arr.findIndex(e => e.uid === u)]; [-1] when there is none. *)
Definition findIndex (u : string) (arr : list node) : Z :=
  match list_find (fun e => uid e = u) arr with
  | Some (i, _) => Z.of_nat i
  | None => (-1)%Z
  end.

(** The start index of [splice] after clamping. *)
Definition clampStart (start : Z) (len : nat) : nat :=
  if (start <? 0)%Z then Z.to_nat (Z.max (Z.of_nat len + start) 0)
  else Nat.min (Z.to_nat start) len.

(** [arr.splice(start, del, ...ins)]: the array afterwards. *)
Definition spliceAt (start : Z) (del : nat) (ins : list node)
    (arr : list node) : list node :=
  splice (clampStart start (length arr)) del ins arr.

(** The element addressed by [findElementByUid]: the elements after the
    mutation [f] of that element, or [None] when there is no such
    element. *)
Definition updateElementByUid (f : node -> node) (els : list node)
    (u : option string) : option (list node) :=
  match u with
  | Some u =>
      match findParentOf els u with
      | Some (p, i) => Some (modifyNodeAt p i f els)
      | None => None
      end
  | None => None
  end.

(** [findParentOf] on a reference that may be [undefined]. *)
Definition findParentOpt (els : list node) (u : option string)
  : option (list nat * nat) :=
  match u with
  | Some u => findParentOf els u
  | None => None
  end.

(** [target.elements = target.elements || []; target.elements.push(x)] *)
Definition pushChild (x : node) (target : node) : node :=
  setElements (Some (children target ++ [x])) target.

(** [target.elements = target.elements || []; target.elements.unshift(x)] *)
Definition unshiftChild (x : node) (target : node) : node :=
  setElements (Some (x :: children target)) target.

(** Insertion next to the element [u]: before it, or after it. *)
Definition insertNextTo (before : bool) (x : node) (els : list node)
    (u : option string) : list node :=
  match u, findParentOpt els u with
  | Some u', Some (p, _) =>
      modifyArrayAt p
        (fun arr =>
           let idx := findIndex u' arr in
           spliceAt (if before then idx else (idx + 1)%Z) 0 [x] arr)
        els
  | _, _ => els
  end.

(** ** The operations of the interpreter *)

Definition typeIs (t : option string) (s : string) : bool :=
  match t with
  | Some x => String.eqb x s
  | None => false
  end.

(** [generateUid()]: the identifier and the state afterwards. *)
Definition generateUid (e : env) (st : state) : string * state :=
  (randomUUID e (st_uids st),
   State (st_elements st) (st_modelAttrs st) (st_aliases st)
         (S (st_uids st)) (st_ticks st)).

(** The element that [add] builds, if [op.element_type] is one of the
    three kinds. *)
Definition buildElement (e : env) (op : operation) (st : state)
  : option node * state :=
  if typeIs (op_element_type op) "group" then
    let '(u, st1) := generateUid e st in
    (Some (createGroupElement u (op_label op) (op_config op) (op_styling op)
             (op_visibility op) (op_conditional op)), st1)
  else if typeIs (op_element_type op) "text" then
    let '(u, st1) := generateUid e st in
    (Some (createTextElement u (op_content op) (op_styling op)
             (op_visibility op)), st1)
  else if typeIs (op_element_type op) "field" then
    let st1 :=
      ensureModelAttribute e (op_field_name op)
        (match orElse (op_field_type op) (Some "string") with
         | Some t => t
         | None => "string"
         end) st in
    let '(u, st2) := generateUid e st1 in
    (Some (createAttributeElement u (op_field_name op) (op_label op)), st2)
  else (None, st).

Definition orSame (els : list node) (r : option (list node)) : list node :=
  match r with
  | Some els' => els'
  | None => els
  end.

(** The branch [op.type === 'add']. *)
Definition execAdd (e : env) (op : operation) (isRoot : bool)
    (targetUid : option string) (st : state) : state :=
  let '(newElement, st1) := buildElement e op st in
  match newElement with
  | None => st1
  | Some x =>
      let st2 :=
        match op_alias op with
        | Some a =>
            if nonEmpty (Some a) then
              State (st_elements st1) (st_modelAttrs st1)
                    (aliasSet a (uid x) (st_aliases st1))
                    (st_uids st1) (st_ticks st1)
            else st1
        | None => st1
        end in
      let els := st_elements st2 in
      let els' :=
        if isRoot then
          if positionIs op "inside" then els ++ [x]
          else if positionIs op "before" then x :: els
          else els ++ [x]
        else if positionIs op "inside" || positionIs op "inside_end" then
          orSame els (updateElementByUid (pushChild x) els targetUid)
        else if positionIs op "inside_start" || positionIs op "inside_top"
        then
          orSame els (updateElementByUid (unshiftChild x) els targetUid)
        else insertNextTo (positionIs op "before") x els targetUid in
      withElements els' st2
  end.

Definition orEmpty (o : option obj) : obj :=
  match o with
  | Some c => c
  | None => []
  end.

Definition setIfDefined (k : string) (v : option json) (cfg : obj) : obj :=
  match v with
  | Some x => setProp k x cfg
  | None => cfg
  end.

(** The styling keys that [edit] accepts on an element that is no
    group. *)
Definition spacingProps : list string :=
  ["margin_top"; "margin_bottom"; "margin_left"; "margin_right";
   "padding_top"; "padding_bottom"; "padding_left"; "padding_right";
   "alignment"].

(** The patch of [edit] on the element it found. *)
Definition editElement (op : operation) (el : node) : node :=
  let cfg := orEmpty (config el) in
  let '(cfg, lbl) :=
    match op_label op with
    | Some l =>
        if nonEmpty (Some l) then
          (setProp "label" (JStr l) cfg,
           match label el with
           | Some _ => Some l
           | None => None
           end)
        else (cfg, label el)
    | None => (cfg, label el)
    end in
  let cfg := setIfDefined "required" (op_required op) cfg in
  let cfg := setIfDefined "read_only" (op_read_only op) cfg in
  let cfg :=
    match op_content op with
    | Some c =>
        if nonEmpty (Some c) && String.eqb (element_type el) "text"
        then setProp "text" (JStr c) cfg else cfg
    | None => cfg
    end in
  let cfg :=
    match op_config op with
    | Some c =>
        copyIfDefined "open_states" c
          (copyIfDefined "default_open" c
             (copyIfDefined "collapsible" c
                (copyIfDefined "hide_label" c
                   (copyIfDefined "show_in_toc" c cfg))))
    | None => cfg
    end in
  let cfg := applyConditional (op_conditional op) cfg in
  let sty :=
    match op_styling op with
    | Some s =>
        Some (fold_left
                (fun acc kv =>
                   if negb (String.eqb (element_type el) "group")
                      && negb (existsb (String.eqb (fst kv)) spacingProps)
                   then acc
                   else setProp (fst kv) (snd kv) acc)
                s (orEmpty (styling el)))
    | None => styling el
    end in
  let vis :=
    match op_visibility op with
    | Some v =>
        Some (copyIfDefined "user_profile" v
                (copyIfDefined "read_only_states" v
                   (copyIfDefined "show_states" v
                      (copyIfDefined "visible_list" v
                         (copyIfDefined "visible_show" v
                            (copyIfDefined "visible_form" v
                               (orEmpty (visibility el))))))))
    | None => visibility el
    end in
  Node (element_type el) (name el) (uid el) lbl (Some cfg) vis sty
       (elements el).

(** The branch [op.type === 'edit']. *)
Definition execEdit (op : operation) (targetUid : option string)
    (st : state) : state :=
  withElements
    (orSame (st_elements st)
       (updateElementByUid (editElement op) (st_elements st) targetUid))
    st.

(** The destination of a [move]: [op.target], looked up in the alias
    table when it starts with the alias sign. *)
Definition moveDestination (op : operation) (aliases : gmap string string)
  : option string :=
  match op_target op with
  | Some d =>
      if nonEmpty (Some d) && isAliasRef d then aliasGet (slice1 d) aliases
      else Some d
  | None => None
  end.

(** The branch [op.type === 'move']: the source is taken out of its
    array, then the destination is looked up in what remains.  (The two
    inner [None] results stand for a [findParentOf] whose array does not
    hold the element; the locator lemmas below rule that out.) *)
Definition execMove (op : operation) (targetUid : option string)
    (st : state) : option state :=
  let destUid := moveDestination op (st_aliases st) in
  let els := st_elements st in
  match targetUid, findParentOpt els targetUid with
  | Some u, Some (p, _) =>
      match arrayAt p els with
      | Some arr =>
          let idx := findIndex u arr in
          match arr !! clampStart idx (length arr) with
          | Some removed =>
              let els1 := modifyArrayAt p (spliceAt idx 1 []) els in
              let els2 :=
                if positionIs op "inside" || positionIs op "inside_end" then
                  orSame els1 (updateElementByUid (pushChild removed) els1
                                 destUid)
                else if positionIs op "inside_start"
                        || positionIs op "inside_top" then
                  orSame els1 (updateElementByUid (unshiftChild removed) els1
                                 destUid)
                else insertNextTo (positionIs op "before") removed els1 destUid
              in
              Some (withElements els2 st)
          | None => None
          end
      | None => None
      end
  | _, _ => Some st
  end.

(** [if (result && result.array) { idx = findIndex; if (idx !== -1)
    result.array.splice(idx + offset, del, ...ins) }] for the element [u]:
    the guarded splice of [delete], [replace_subtree] and
    [clone_subtree]. *)
Definition spliceOut (del : nat) (ins : list node) (offset : Z)
    (els : list node) (u : option string) : list node :=
  match u, findParentOpt els u with
  | Some u', Some (p, _) =>
      modifyArrayAt p
        (fun arr =>
           let idx := findIndex u' arr in
           if (idx =? -1)%Z then arr
           else spliceAt (idx + offset)%Z del ins arr)
        els
  | _, _ => els
  end.

(** The branch [op.type === 'delete']. *)
Definition execDelete (targetUid : option string) (st : state) : state :=
  withElements (spliceOut 1 [] 0 (st_elements st) targetUid) st.

(** The patch of [bulk_replace] on one element it found.  [None]: the
    text property is no string and [replace] raises, or the color
    rewrite raises. *)
Definition bulkElement (op : operation) (el : node) : option node :=
  let cfg := orEmpty (config el) in
  let cfg := setIfDefined "required" (op_set_required op) cfg in
  let cfg := setIfDefined "read_only" (op_set_read_only op) cfg in
  let vis :=
    match op_set_hidden op with
    | Some h =>
        Some (setProp "visible_show" (JBool (negb (truthy h)))
                (setProp "visible_form" (JBool (negb (truthy h)))
                   (orEmpty (visibility el))))
    | None => visibility el
    end in
  let isGroup := String.eqb (element_type el) "group" in
  let cfg :=
    if isGroup then setIfDefined "collapsible" (op_set_collapsible op) cfg
    else cfg in
  let cfg :=
    if isGroup then setIfDefined "show_in_toc" (op_set_show_in_toc op) cfg
    else cfg in
  let cfg :=
    if isGroup then setIfDefined "default_open" (op_set_default_open op) cfg
    else cfg in
  let cfg := setIfDefined "hide_label" (op_set_hide_label op) cfg in
  let finish (c : obj) : node :=
    Node (element_type el) (name el) (uid el) (label el) (Some c) vis
         (styling el) (elements el) in
  match getProp "text" cfg with
  | Some t =>
      if truthy t && nonEmpty (op_find_color op)
         && nonEmpty (op_replace_color op) then
        match t, op_find_color op, op_replace_color op with
        | JStr html, Some fc, Some rc =>
            html' ← replaceColorsInHtml html fc rc;
            Some (finish (setProp "text" (JStr html') cfg))
        | _, _, _ => None
        end
      else if truthy t && nonEmpty (op_find op) && nonEmpty (op_replace op)
      then
        match t, op_find op, op_replace op with
        | JStr html, Some f, Some r =>
            Some (finish (setProp "text" (JStr (replaceLiteral f r html)) cfg))
        | _, _, _ => None
        end
      else Some (finish cfg)
  | None => Some (finish cfg)
  end.

(** The loop [for (const uid of uids)] of [bulk_replace]. *)
Fixpoint bulkLoop (op : operation) (uids : list string) (els : list node)
  : option (list node) :=
  match uids with
  | [] => Some els
  | u :: rest =>
      match findElementByUid els u with
      | Some el =>
          el' ← bulkElement op el;
          bulkLoop op rest
            (orSame els (updateElementByUid (fun _ => el') els (Some u)))
      | None => bulkLoop op rest els
      end
  end.

(** The branch [op.type === 'bulk_replace']. *)
Definition execBulkReplace (op : operation) (st : state) : option state :=
  els ← bulkLoop op (default [] (op_uids op)) (st_elements st);
  Some (withElements els st).

(** A loop over an array that threads a counter through its body. *)
Definition mapThread {A B : Type} (f : A -> nat -> B * nat)
  : list A -> nat -> list B * nat :=
  fix go (l : list A) (n : nat) : list B * nat :=
    match l with
    | [] => ([], n)
    | x :: r =>
        let '(y, n1) := f x n in
        let '(ys, n2) := go r n1 in
        (y :: ys, n2)
    end.

(** The same loop with a body that may raise. *)
Definition mapThreadOpt {A B : Type} (f : A -> nat -> option (B * nat))
  : list A -> nat -> option (list B * nat) :=
  fix go (l : list A) (n : nat) : option (list B * nat) :=
    match l with
    | [] => Some ([], n)
    | x :: r =>
        match f x n with
        | Some (y, n1) =>
            match go r n1 with
            | Some (ys, n2) => Some (y :: ys, n2)
            | None => None
            end
        | None => None
        end
    end.

(** [regenerateUids(el)]: every element of the structure gets a fresh
    identifier, parents before children; [n] counts the identifiers
    drawn. *)
Fixpoint regenerateUids (e : env) (el : node) (n : nat) : node * nat :=
  match elements el with
  | Some ch =>
      let '(ch', n') := mapThread (regenerateUids e) ch (S n) in
      (setElements (Some ch') (setUid (randomUUID e n) el), n')
  | None => (setUid (randomUUID e n) el, S n)
  end.

(** [op.position || 'after'] *)
Definition positionOrAfter (op : operation) : string :=
  match orElse (op_position op) (Some "after") with
  | Some p => p
  | None => "after"
  end.

(** The branch [op.type === 'replace_subtree']. *)
Definition execReplaceSubtree (e : env) (op : operation) (st : state)
  : state :=
  match op_structure op with
  | None => st
  | Some structure =>
      let '(newStructure, n) := regenerateUids e structure (st_uids st) in
      let els := st_elements st in
      let position := positionOrAfter op in
      let els' :=
        if String.eqb position "replace" then
          spliceOut 1 [newStructure] 0 els (op_target_uid op)
        else
          spliceOut 0 [newStructure]
            (if String.eqb position "before" then 0 else 1)
            els (op_target_uid op) in
      State els' (st_modelAttrs st) (st_aliases st) n (st_ticks st)
  end.

(** ** Clone/transform engine *)

(** The label rewrite of [transformElement] on [el.config.label].
    [None]: the label is a truthy value that is no string. *)
Definition transformConfigLabel (labelFind labelReplace : string)
    (c : option obj) : option (option obj) :=
  match c with
  | Some cfg =>
      match getProp "label" cfg with
      | Some v =>
          if truthy v then
            match v with
            | JStr l =>
                Some (Some (setProp "label"
                              (JStr (replaceLiteral labelFind labelReplace l))
                              cfg))
            | _ => None
            end
          else Some c
      | None => Some c
      end
  | None => Some c
  end.

(** The rewrite on [el.label]. *)
Definition transformLabel (labelFind labelReplace : string)
    (l : option string) : option string :=
  if nonEmpty l then
    match l with
    | Some x => Some (replaceLiteral labelFind labelReplace x)
    | None => l
    end
  else l.

(** The suffix on the field name of an attribute element. *)
Definition suffixName (fieldSuffix : string) (el : node) : option string :=
  if negb (String.eqb fieldSuffix "")
     && String.eqb (element_type el) "attribute" && nonEmpty (name el)
  then
    match name el with
    | Some n => Some (String.append n fieldSuffix)
    | None => None
    end
  else name el.

(** The work of [transformElement] on one element, children apart. *)
Definition transformOne (e : env) (labelFind labelReplace : option string)
    (fieldSuffix : string) (el : node) (n : nat) : option node :=
  match
    (if nonEmpty labelFind && nonEmpty labelReplace then
       match labelFind, labelReplace with
       | Some f, Some r =>
           c ← transformConfigLabel f r (config el);
           Some (c, transformLabel f r (label el))
       | _, _ => Some (config el, label el)
       end
     else Some (config el, label el))
  with
  | Some (c, l) =>
      Some (Node (element_type el) (suffixName fieldSuffix el)
                 (randomUUID e n) l c (visibility el) (styling el)
                 (elements el))
  | None => None
  end.

(** [transformElement(el)], parents before children. *)
Fixpoint transformElement (e : env) (labelFind labelReplace : option string)
    (fieldSuffix : string) (el : node) (n : nat) : option (node * nat) :=
  match transformOne e labelFind labelReplace fieldSuffix el n with
  | Some el1 =>
      match elements el with
      | Some ch =>
          match
            mapThreadOpt
              (transformElement e labelFind labelReplace fieldSuffix) ch (S n)
          with
          | Some (ch', n') => Some (setElements (Some ch') el1, n')
          | None => None
          end
      | None => Some (el1, S n)
      end
  | None => None
  end.

(** [collectFieldNames(el)] *)
Fixpoint collectFieldNames (el : node) : list string :=
  (if String.eqb (element_type el) "attribute" && nonEmpty (name el)
   then match name el with Some n => [n] | None => [] end
   else [])
  ++ match elements el with
     | Some ch => flat_map collectFieldNames ch
     | None => []
     end.

(** The branch [op.type === 'clone_subtree']. *)
Definition execCloneSubtree (e : env) (op : operation) (st : state)
  : option state :=
  let fieldSuffix := default "" (op_field_suffix op) in
  let els := st_elements st in
  match op_source_uid op ≫= findElementByUid els with
  | None => Some st
  | Some sourceEl =>
      '(cloned, n) ←
        transformElement e (op_label_find op) (op_label_replace op)
          fieldSuffix sourceEl (st_uids st);
      let st1 := State els (st_modelAttrs st) (st_aliases st) n (st_ticks st) in
      let st2 :=
        if negb (String.eqb fieldSuffix "") then
          fold_left
            (fun acc fieldName =>
               ensureModelAttribute e (Some fieldName) "string" acc)
            (collectFieldNames cloned) st1
        else st1 in
      Some (withElements
              (spliceOut 0 [cloned]
                 (if String.eqb (positionOrAfter op) "before" then 0 else 1)
                 els (op_source_uid op))
              st2)
  end.

(** ** Operation interpreter *)

(** [op.after_uid || op.uid || op.target] *)
Definition rawTarget (op : operation) : option string :=
  orElse (op_after_uid op) (orElse (op_uid op) (op_target op)).

(** The target after alias resolution; the root reference is kept. *)
Definition resolveTarget (op : operation) (aliases : gmap string string)
  : option string :=
  match rawTarget op with
  | Some t =>
      if nonEmpty (Some t) && isAliasRef t && negb (String.eqb t "$root")
      then aliasGet (slice1 t) aliases
      else Some t
  | None => None
  end.

(** One turn of the loop [for (const op of operations)]. *)
Definition execOperation (e : env) (op : operation) (st : state)
  : option state :=
  let isRoot := typeIs (rawTarget op) "$root" in
  let targetUid := resolveTarget op (st_aliases st) in
  if String.eqb (op_type op) "add" then
    Some (execAdd e op isRoot targetUid st)
  else if String.eqb (op_type op) "edit" then
    Some (execEdit op targetUid st)
  else if String.eqb (op_type op) "move" then
    execMove op targetUid st
  else if String.eqb (op_type op) "delete" then
    Some (execDelete targetUid st)
  else if String.eqb (op_type op) "bulk_replace" then
    execBulkReplace op st
  else if String.eqb (op_type op) "replace_subtree" then
    Some (execReplaceSubtree e op st)
  else if String.eqb (op_type op) "clone_subtree" then
    execCloneSubtree e op st
  else Some st.

Fixpoint execOperations (e : env) (ops : list operation) (st : state)
  : option state :=
  match ops with
  | [] => Some st
  | op :: rest =>
      match execOperation e op st with
      | Some st' => execOperations e rest st'
      | None => None
      end
  end.

(** The state at the start of a batch: the working copy
    [JSON.parse(JSON.stringify(exportData))] and an empty alias table. *)
Definition initialState (d : exportData) : state :=
  State (stencilElements d) (modelAttribute d) ∅ 0 0.

Definition resultOf (st : state) : exportData :=
  ExportData (st_elements st) (st_modelAttrs st).

(** [applyOperations(exportData, operations)] as a function of the value
    of the export: the document it returns, or [None] when it raises. *)
Definition applyOperations (e : env) (d : exportData)
    (operations : list operation) : option exportData :=
  resultOf <$> execOperations e operations (initialState d).

(** ** The interpreter on the caller's heap *)

(** The engine writes to four kinds of objects: an element ([el.uid],
    [el.name], [el.label], [el.config], [el.visibility], [el.styling] and
    [el.elements] are assigned to), the [config], [visibility] or
    [styling] object of an element ([el.config.label = ...] and the
    like), an array of elements ([push], [unshift], [splice]) and the
    array [records.ModelAttribute] ([push]).  These are the objects of
    the store.  What lies below them (the value of a property of a
    [config] object, an entry of the registry) is never written to and
    stays a value.  So does the batch: the engine reads the operations
    and writes to none of their objects, [op.structure] is copied
    before its identifiers are redrawn, and the factories copy the
    entries of [op.config], [op.styling] and [op.visibility] into
    objects of their own. *)

(** A reference to an object of the store. *)
Record loc := Loc { addr : nat }.

(** An element object: its scalar properties, and its references to
    its [config], [visibility] and [styling] objects and to its
    [elements] array. *)
Record element := Element {
  e_type : string;
  e_name : option string;
  e_uid : string;
  e_label : option string;
  e_config : option loc;
  e_visibility : option loc;
  e_styling : option loc;
  e_elements : option loc
}.

Inductive cell :=
| CElement (x : element)
| CObject (o : obj)
| CArray (items : list loc)
| CRegistry (attrs : list obj)
| CDocument (elementsRef registryRef : loc).

(** The heap: the object behind [Loc n] is the [n]-th cell, and a new
    object goes to the end. *)
Abbreviation store := (list cell).

Definition putName (n : option string) (x : element) : element :=
  Element (e_type x) n (e_uid x) (e_label x) (e_config x) (e_visibility x)
          (e_styling x) (e_elements x).

Definition putUid (u : string) (x : element) : element :=
  Element (e_type x) (e_name x) u (e_label x) (e_config x) (e_visibility x)
          (e_styling x) (e_elements x).

Definition putLabel (l : option string) (x : element) : element :=
  Element (e_type x) (e_name x) (e_uid x) l (e_config x) (e_visibility x)
          (e_styling x) (e_elements x).

Definition putConfig (r : option loc) (x : element) : element :=
  Element (e_type x) (e_name x) (e_uid x) (e_label x) r (e_visibility x)
          (e_styling x) (e_elements x).

Definition putVisibility (r : option loc) (x : element) : element :=
  Element (e_type x) (e_name x) (e_uid x) (e_label x) (e_config x) r
          (e_styling x) (e_elements x).

Definition putStyling (r : option loc) (x : element) : element :=
  Element (e_type x) (e_name x) (e_uid x) (e_label x) (e_config x)
          (e_visibility x) r (e_elements x).

Definition putElements (r : option loc) (x : element) : element :=
  Element (e_type x) (e_name x) (e_uid x) (e_label x) (e_config x)
          (e_visibility x) (e_styling x) r.

(** *** Computations on the store *)

(** A computation: its value, or [None] when it raises, and the store
    it leaves. *)
Definition action (A : Type) : Type := store -> option A * store.

#[global] Instance action_ret : MRet action := fun A a h => (Some a, h).

#[global] Instance action_bind : MBind action :=
  fun A B k m h =>
    match m h with
    | (Some a, h') => k a h'
    | (None, h') => (None, h')
    end.

Definition raise {A : Type} : action A := fun h => (None, h).

(** A computation that only looks at the store. *)
Definition read {A : Type} (f : store -> option A) : action A :=
  fun h => (f h, h).

(** A new object. *)
Definition new (c : cell) : action loc :=
  fun h => (Some (Loc (length h)), h ++ [c]).

Definition getCell (l : loc) : action cell := read (fun h => h !! addr l).

(** A write to the object behind [l]. *)
Definition setCell (l : loc) (c : cell) : action unit :=
  fun h =>
    if Nat.ltb (addr l) (length h) then (Some tt, <[addr l := c]> h) else (None, h).

Definition getElement (l : loc) : action element :=
  c ← getCell l;
  match c with
  | CElement x => mret x
  | _ => raise
  end.

Definition getObject (l : loc) : action obj :=
  c ← getCell l;
  match c with
  | CObject o => mret o
  | _ => raise
  end.

Definition getArray (l : loc) : action (list loc) :=
  c ← getCell l;
  match c with
  | CArray items => mret items
  | _ => raise
  end.

Definition getRegistry (l : loc) : action (list obj) :=
  c ← getCell l;
  match c with
  | CRegistry attrs => mret attrs
  | _ => raise
  end.

(** A loop over an array that threads a value through its body. *)
Definition foldEach {A S : Type} (f : A -> S -> action S)
  : list A -> S -> action S :=
  fix go (l : list A) (s : S) : action S :=
    match l with
    | [] => mret s
    | x :: r => s' ← f x s; go r s'
    end.

Definition forEach {A : Type} (f : A -> action unit) (l : list A)
  : action unit :=
  foldEach (fun x _ => f x) l tt.

(** The recursions of the engine on the objects of the store get as
    many steps as the store has objects: a descent that is longer runs
    on a cycle, where [JSON.stringify] raises and a recursive function
    overflows the stack. *)
Definition steps : action nat := read (fun h => Some (length h)).

(** *** [JSON.stringify] and [JSON.parse] *)

Definition readObject (h : store) (r : option loc) : option (option obj) :=
  match r with
  | Some l =>
      match h !! addr l with
      | Some (CObject o) => Some (Some o)
      | _ => None
      end
  | None => Some None
  end.

(** The value of the element behind [l]. *)
Fixpoint readElement (fuel : nat) (h : store) (l : loc) : option node :=
  match fuel with
  | 0 => None
  | S fuel =>
      match h !! addr l with
      | Some (CElement x) =>
          cfg ← readObject h (e_config x);
          vis ← readObject h (e_visibility x);
          sty ← readObject h (e_styling x);
          els ← match e_elements x with
                | Some a =>
                    match h !! addr a with
                    | Some (CArray items) =>
                        ch ← mapM (readElement fuel h) items; Some (Some ch)
                    | _ => None
                    end
                | None => Some None
                end;
          Some (Node (e_type x) (e_name x) (e_uid x) (e_label x) cfg vis sty
                     els)
      | _ => None
      end
  end.

(** The value of the document behind [l]. *)
Definition readDocument (h : store) (l : loc) : option exportData :=
  match h !! addr l with
  | Some (CDocument a r) =>
      match h !! addr a, h !! addr r with
      | Some (CArray items), Some (CRegistry attrs) =>
          els ← mapM (readElement (length h) h) items;
          Some (ExportData els attrs)
      | _, _ => None
      end
  | _ => None
  end.

Definition newObject (o : option obj) : action (option loc) :=
  match o with
  | Some o => l ← new (CObject o); mret (Some l)
  | None => mret None
  end.

(** New objects for the value of an element. *)
Fixpoint newElement (el : node) : action loc :=
  cfg ← newObject (config el);
  vis ← newObject (visibility el);
  sty ← newObject (styling el);
  els ← match elements el with
        | Some ch =>
            items ← mapM newElement ch; a ← new (CArray items); mret (Some a)
        | None => mret None
        end;
  new (CElement (Element (element_type el) (name el) (uid el) (label el)
                         cfg vis sty els)).

(** New objects for the value of a document. *)
Definition newDocument (d : exportData) : action loc :=
  items ← mapM newElement (stencilElements d);
  a ← new (CArray items);
  r ← new (CRegistry (modelAttribute d));
  new (CDocument a r).

(** *** The locator on the store *)

(** [el.uid === uid] *)
Definition uidIs (u : option string) (x : element) : bool :=
  match u with
  | Some u => String.eqb (e_uid x) u
  | None => false
  end.

(** [findElementByUid(elements, uid)] on the array behind [arr]: the
    element found, or [Some None] for [null]. *)
Fixpoint findElementByUidAt (fuel : nat) (h : store) (u : option string)
    (arr : loc) : option (option loc) :=
  match fuel with
  | 0 => None
  | S fuel =>
      match h !! addr arr with
      | Some (CArray items) =>
          (fix go (items : list loc) : option (option loc) :=
             match items with
             | [] => Some None
             | el :: rest =>
                 match h !! addr el with
                 | Some (CElement x) =>
                     if uidIs u x then Some (Some el)
                     else
                       match e_elements x with
                       | Some a =>
                           match findElementByUidAt fuel h u a with
                           | Some (Some found) => Some (Some found)
                           | Some None => go rest
                           | None => None
                           end
                       | None => go rest
                       end
                 | _ => None
                 end
             end) items
      | _ => None
      end
  end.

(** [findParentOf(elements, uid)]: the array and the index. *)
Fixpoint findParentOfAt (fuel : nat) (h : store) (u : option string)
    (arr : loc) : option (option (loc * nat)) :=
  match fuel with
  | 0 => None
  | S fuel =>
      match h !! addr arr with
      | Some (CArray items) =>
          (fix go (i : nat) (items : list loc) : option (option (loc * nat)) :=
             match items with
             | [] => Some None
             | el :: rest =>
                 match h !! addr el with
                 | Some (CElement x) =>
                     if uidIs u x then Some (Some (arr, i))
                     else
                       match e_elements x with
                       | Some a =>
                           match findParentOfAt fuel h u a with
                           | Some (Some found) => Some (Some found)
                           | Some None => go (S i) rest
                           | None => None
                           end
                       | None => go (S i) rest
                       end
                 | _ => None
                 end
             end) 0 items
      | _ => None
      end
  end.

(** [items.findIndex(e => e.uid === uid)] from index [i] on. *)
Fixpoint findIndexAt (h : store) (u : option string) (items : list loc)
    (i : nat) : option Z :=
  match items with
  | [] => Some (-1)%Z
  | el :: rest =>
      match h !! addr el with
      | Some (CElement x) =>
          if uidIs u x then Some (Z.of_nat i)
          else findIndexAt h u rest (S i)
      | _ => None
      end
  end.

Definition findElement (u : option string) (elements : loc)
  : action (option loc) :=
  read (fun h => findElementByUidAt (length h) h u elements).

Definition findParent (u : option string) (elements : loc)
  : action (option (loc * nat)) :=
  read (fun h => findParentOfAt (length h) h u elements).

Definition indexOfUid (u : option string) (items : list loc) : action Z :=
  read (fun h => findIndexAt h u items 0).

(** *** Writes to arrays and objects *)

(** [items.splice(start, del, ...ins)] on an array of references. *)
Definition spliceRefs (start : Z) (del : nat) (ins items : list loc)
  : list loc :=
  let i := clampStart start (length items) in
  take i items ++ ins ++ drop (i + del) items.

(** [target.elements = target.elements || []], then [push] or
    [unshift]. *)
Definition addChildAt (front : bool) (x target : loc) : action unit :=
  t ← getElement target;
  a ← match e_elements t with
      | Some a => mret a
      | None =>
          a ← new (CArray []);
          setCell target (CElement (putElements (Some a) t));;
          mret a
      end;
  items ← getArray a;
  setCell a (CArray (if front then x :: items else items ++ [x])).

(** [if (result && result.array) { idx = findIndex;
    result.array.splice(before ? idx : idx + 1, 0, x) }] *)
Definition insertNextToAt (before : bool) (x : loc) (u : option string)
    (elements : loc) : action unit :=
  result ← findParent u elements;
  match result with
  | Some (arr, _) =>
      items ← getArray arr;
      idx ← indexOfUid u items;
      setCell arr
        (CArray (spliceRefs (if before then idx else (idx + 1)%Z) 0 [x] items))
  | None => mret tt
  end.

(** The guarded splice of [delete], [replace_subtree] and
    [clone_subtree]. *)
Definition spliceOutAt (del : nat) (ins : list loc) (offset : Z)
    (u : option string) (elements : loc) : action unit :=
  result ← findParent u elements;
  match result with
  | Some (arr, _) =>
      items ← getArray arr;
      idx ← indexOfUid u items;
      if (idx =? -1)%Z then mret tt
      else setCell arr (CArray (spliceRefs (idx + offset)%Z del ins items))
  | None => mret tt
  end.

(** [o[k] = v] on the object behind [c]. *)
Definition setPropAt (c : loc) (k : string) (v : json) : action unit :=
  o ← getObject c;
  setCell c (CObject (setProp k v o)).

(** [if (v !== undefined) ...] *)
Definition whenDefined {A : Type} (v : option A) (f : A -> action unit)
  : action unit :=
  match v with
  | Some x => f x
  | None => mret tt
  end.

(** [if (src[k] !== undefined) o[k] = src[k]] *)
Definition copyPropAt (c : loc) (k : string) (src : obj) : action unit :=
  whenDefined (getProp k src) (setPropAt c k).

(** [if (src[k]) o[dst] = src[k]] *)
Definition copyTruthyAt (c : loc) (k dst : string) (src : obj)
  : action unit :=
  whenDefined (getProp k src)
    (fun v => if truthy v then setPropAt c dst v else mret tt).

(** [el.config = el.config || {}] and its two likes: the object that
    the property refers to afterwards. *)
Definition ensureObjectAt (get : element -> option loc)
    (put : option loc -> element -> element) (el : loc) : action loc :=
  x ← getElement el;
  match get x with
  | Some c => mret c
  | None =>
      c ← new (CObject []);
      setCell el (CElement (put (Some c) x));;
      mret c
  end.

(** *** The operations on the store *)

(** The local variables of a batch next to the working copy. *)
Record locals := Locals {
  l_aliases : gmap string string;
  l_uids : nat;
  l_ticks : nat
}.

(** [if (!modelAttrs.find(a => a.name === fieldName))
       modelAttrs.push(createModelAttribute(fieldName, fieldName, type))] *)
Definition ensureModelAttributeAt (e : env) (fieldName : option string)
    (attributeType : string) (modelAttrs : loc) (l : locals)
  : action locals :=
  attrs ← getRegistry modelAttrs;
  if existsb (hasName fieldName) attrs then mret l
  else
    setCell modelAttrs
      (CRegistry (attrs ++ [createModelAttribute e (l_ticks l) fieldName
                              fieldName attributeType]));;
    mret (Locals (l_aliases l) (l_uids l) (2 + l_ticks l)).

(** The element that [add] builds: the factories make new objects. *)
Definition buildElementAt (e : env) (op : operation) (modelAttrs : loc)
    (l : locals) : action (option loc * locals) :=
  let drawn (l : locals) := Locals (l_aliases l) (S (l_uids l)) (l_ticks l) in
  if typeIs (op_element_type op) "group" then
    x ← newElement
          (createGroupElement (randomUUID e (l_uids l)) (op_label op)
             (op_config op) (op_styling op) (op_visibility op)
             (op_conditional op));
    mret (Some x, drawn l)
  else if typeIs (op_element_type op) "text" then
    x ← newElement
          (createTextElement (randomUUID e (l_uids l)) (op_content op)
             (op_styling op) (op_visibility op));
    mret (Some x, drawn l)
  else if typeIs (op_element_type op) "field" then
    l1 ← ensureModelAttributeAt e (op_field_name op)
           (match orElse (op_field_type op) (Some "string") with
            | Some t => t
            | None => "string"
            end) modelAttrs l;
    x ← newElement
          (createAttributeElement (randomUUID e (l_uids l1))
             (op_field_name op) (op_label op));
    mret (Some x, drawn l1)
  else mret (None, l).

(** The branch [op.type === 'add']. *)
Definition execAddAt (e : env) (op : operation) (isRoot : bool)
    (targetUid : option string) (elements modelAttrs : loc) (l : locals)
  : action locals :=
  '(newEl, l1) ← buildElementAt e op modelAttrs l;
  match newEl with
  | None => mret l1
  | Some x =>
      nx ← getElement x;
      let l2 :=
        match op_alias op with
        | Some a =>
            if nonEmpty (Some a) then
              Locals (aliasSet a (e_uid nx) (l_aliases l1)) (l_uids l1)
                     (l_ticks l1)
            else l1
        | None => l1
        end in
      (if isRoot then
         items ← getArray elements;
         if positionIs op "inside" then
           setCell elements (CArray (items ++ [x]))
         else if positionIs op "before" then
           setCell elements (CArray (x :: items))
         else setCell elements (CArray (items ++ [x]))
       else if positionIs op "inside" || positionIs op "inside_end" then
         target ← findElement targetUid elements;
         whenDefined target (addChildAt false x)
       else if positionIs op "inside_start" || positionIs op "inside_top" then
         target ← findElement targetUid elements;
         whenDefined target (addChildAt true x)
       else insertNextToAt (positionIs op "before") x targetUid elements);;
      mret l2
  end.

(** The branch [op.type === 'edit']. *)
Definition execEditAt (op : operation) (targetUid : option string)
    (elements : loc) : action unit :=
  found ← findElement targetUid elements;
  whenDefined found
    (fun el =>
       cfg ← ensureObjectAt e_config putConfig el;
       (if nonEmpty (op_label op) then
          whenDefined (op_label op)
            (fun l =>
               setPropAt cfg "label" (JStr l);;
               x ← getElement el;
               match e_label x with
               | Some _ => setCell el (CElement (putLabel (Some l) x))
               | None => mret tt
               end)
        else mret tt);;
       whenDefined (op_required op) (setPropAt cfg "required");;
       whenDefined (op_read_only op) (setPropAt cfg "read_only");;
       x ← getElement el;
       (if nonEmpty (op_content op) && String.eqb (e_type x) "text" then
          whenDefined (op_content op)
            (fun c => setPropAt cfg "text" (JStr c))
        else mret tt);;
       whenDefined (op_config op)
         (fun c =>
            copyPropAt cfg "show_in_toc" c;;
            copyPropAt cfg "hide_label" c;;
            copyPropAt cfg "collapsible" c;;
            copyPropAt cfg "default_open" c;;
            copyPropAt cfg "open_states" c);;
       whenDefined (op_conditional op)
         (fun c =>
            copyTruthyAt cfg "field" "reveal_if_attribute" c;;
            copyTruthyAt cfg "values" "reveal_if_value" c;;
            copyTruthyAt cfg "type" "reveal_if_type" c);;
       whenDefined (op_styling op)
         (fun s =>
            sty ← ensureObjectAt e_styling putStyling el;
            forEach
              (fun kv : string * json =>
                 if negb (String.eqb (e_type x) "group")
                    && negb (existsb (String.eqb (fst kv)) spacingProps)
                 then mret tt
                 else setPropAt sty (fst kv) (snd kv))
              s);;
       whenDefined (op_visibility op)
         (fun v =>
            vis ← ensureObjectAt e_visibility putVisibility el;
            copyPropAt vis "visible_form" v;;
            copyPropAt vis "visible_show" v;;
            copyPropAt vis "visible_list" v;;
            copyPropAt vis "show_states" v;;
            copyPropAt vis "read_only_states" v;;
            copyPropAt vis "user_profile" v)).

(** The branch [op.type === 'move'].  (A [removed] that is [undefined]
    stands for a [findParentOf] whose array does not hold the element,
    as in [execMove].) *)
Definition execMoveAt (op : operation) (targetUid : option string)
    (elements : loc) (l : locals) : action unit :=
  let destUid := moveDestination op (l_aliases l) in
  srcResult ← findParent targetUid elements;
  match srcResult with
  | Some (arr, _) =>
      items ← getArray arr;
      idx ← indexOfUid targetUid items;
      setCell arr (CArray (spliceRefs idx 1 [] items));;
      match items !! clampStart idx (length items) with
      | Some removed =>
          if positionIs op "inside" || positionIs op "inside_end" then
            dest ← findElement destUid elements;
            whenDefined dest (addChildAt false removed)
          else if positionIs op "inside_start" || positionIs op "inside_top"
          then
            dest ← findElement destUid elements;
            whenDefined dest (addChildAt true removed)
          else insertNextToAt (positionIs op "before") removed destUid elements
      | None => raise
      end
  | None => mret tt
  end.

(** The body of the loop of [bulk_replace] on the element it found. *)
Definition bulkElementAt (op : operation) (el : loc) : action unit :=
  cfg ← ensureObjectAt e_config putConfig el;
  whenDefined (op_set_required op) (setPropAt cfg "required");;
  whenDefined (op_set_read_only op) (setPropAt cfg "read_only");;
  whenDefined (op_set_hidden op)
    (fun hidden =>
       vis ← ensureObjectAt e_visibility putVisibility el;
       setPropAt vis "visible_form" (JBool (negb (truthy hidden)));;
       setPropAt vis "visible_show" (JBool (negb (truthy hidden))));;
  x ← getElement el;
  let isGroup := String.eqb (e_type x) "group" in
  (if isGroup then
     whenDefined (op_set_collapsible op) (setPropAt cfg "collapsible")
   else mret tt);;
  (if isGroup then
     whenDefined (op_set_show_in_toc op) (setPropAt cfg "show_in_toc")
   else mret tt);;
  (if isGroup then
     whenDefined (op_set_default_open op) (setPropAt cfg "default_open")
   else mret tt);;
  whenDefined (op_set_hide_label op) (setPropAt cfg "hide_label");;
  o ← getObject cfg;
  match getProp "text" o with
  | Some t =>
      if truthy t && nonEmpty (op_find_color op)
         && nonEmpty (op_replace_color op) then
        match t, op_find_color op, op_replace_color op with
        | JStr html, Some fc, Some rc =>
            match replaceColorsInHtml html fc rc with
            | Some html' => setPropAt cfg "text" (JStr html')
            | None => raise
            end
        | _, _, _ => raise
        end
      else if truthy t && nonEmpty (op_find op) && nonEmpty (op_replace op)
      then
        match t, op_find op, op_replace op with
        | JStr html, Some f, Some r =>
            setPropAt cfg "text" (JStr (replaceLiteral f r html))
        | _, _, _ => raise
        end
      else mret tt
  | None => mret tt
  end.

(** The branch [op.type === 'bulk_replace']. *)
Definition execBulkReplaceAt (op : operation) (elements : loc)
  : action unit :=
  forEach
    (fun u =>
       found ← findElement (Some u) elements;
       whenDefined found (bulkElementAt op))
    (default [] (op_uids op)).

(** [regenerateUids(el)] on the element behind [el]; [n] counts the
    identifiers drawn. *)
Fixpoint regenerateUidsAt (fuel : nat) (e : env) (el : loc) (n : nat)
  : action nat :=
  match fuel with
  | 0 => raise
  | S fuel =>
      x ← getElement el;
      setCell el (CElement (putUid (randomUUID e n) x));;
      match e_elements x with
      | Some a =>
          items ← getArray a;
          foldEach (regenerateUidsAt fuel e) items (S n)
      | None => mret (S n)
      end
  end.

(** The branch [op.type === 'replace_subtree']. *)
Definition execReplaceSubtreeAt (e : env) (op : operation) (elements : loc)
    (l : locals) : action locals :=
  match op_structure op with
  | None => mret l
  | Some structure =>
      newStructure ← newElement structure;
      fuel ← steps;
      n ← regenerateUidsAt fuel e newStructure (l_uids l);
      let position := positionOrAfter op in
      (if String.eqb position "replace" then
         spliceOutAt 1 [newStructure] 0 (op_target_uid op) elements
       else
         spliceOutAt 0 [newStructure]
           (if String.eqb position "before" then 0 else 1)
           (op_target_uid op) elements);;
      mret (Locals (l_aliases l) n (l_ticks l))
  end.

(** [transformElement(el)] on the element behind [el]. *)
Fixpoint transformElementAt (fuel : nat) (e : env)
    (labelFind labelReplace : option string) (fieldSuffix : string)
    (el : loc) (n : nat) : action nat :=
  match fuel with
  | 0 => raise
  | S fuel =>
      x ← getElement el;
      setCell el (CElement (putUid (randomUUID e n) x));;
      (if nonEmpty labelFind && nonEmpty labelReplace then
         match labelFind, labelReplace with
         | Some f, Some r =>
             whenDefined (e_config x)
               (fun c =>
                  o ← getObject c;
                  whenDefined (getProp "label" o)
                    (fun v =>
                       if truthy v then
                         match v with
                         | JStr s =>
                             setPropAt c "label" (JStr (replaceLiteral f r s))
                         | _ => raise
                         end
                       else mret tt));;
             x1 ← getElement el;
             if nonEmpty (e_label x1) then
               whenDefined (e_label x1)
                 (fun s =>
                    setCell el
                      (CElement (putLabel (Some (replaceLiteral f r s)) x1)))
             else mret tt
         | _, _ => mret tt
         end
       else mret tt);;
      x2 ← getElement el;
      (if negb (String.eqb fieldSuffix "")
          && String.eqb (e_type x2) "attribute" && nonEmpty (e_name x2)
       then
         whenDefined (e_name x2)
           (fun nm =>
              setCell el
                (CElement (putName (Some (String.append nm fieldSuffix)) x2)))
       else mret tt);;
      match e_elements x with
      | Some a =>
          items ← getArray a;
          foldEach
            (transformElementAt fuel e labelFind labelReplace fieldSuffix)
            items (S n)
      | None => mret (S n)
      end
  end.

(** [collectFieldNames(el)] on the element behind [el]. *)
Fixpoint collectFieldNamesAt (fuel : nat) (h : store) (el : loc)
  : option (list string) :=
  match fuel with
  | 0 => None
  | S fuel =>
      match h !! addr el with
      | Some (CElement x) =>
          let own :=
            if String.eqb (e_type x) "attribute" && nonEmpty (e_name x)
            then match e_name x with Some n => [n] | None => [] end
            else [] in
          match e_elements x with
          | Some a =>
              match h !! addr a with
              | Some (CArray items) =>
                  below ← mapM (collectFieldNamesAt fuel h) items;
                  Some (own ++ concat below)
              | _ => None
              end
          | None => Some own
          end
      | _ => None
      end
  end.

(** The branch [op.type === 'clone_subtree']. *)
Definition execCloneSubtreeAt (e : env) (op : operation)
    (elements modelAttrs : loc) (l : locals) : action locals :=
  let fieldSuffix := default "" (op_field_suffix op) in
  sourceEl ← findElement (op_source_uid op) elements;
  match sourceEl with
  | None => mret l
  | Some sourceEl =>
      value ← read (fun h => readElement (length h) h sourceEl);
      cloned ← newElement value;
      fuel ← steps;
      n ← transformElementAt fuel e (op_label_find op) (op_label_replace op)
            fieldSuffix cloned (l_uids l);
      let l1 := Locals (l_aliases l) n (l_ticks l) in
      l2 ← (if negb (String.eqb fieldSuffix "") then
              newFieldNames ←
                read (fun h => collectFieldNamesAt (length h) h cloned);
              foldEach
                (fun fieldName acc =>
                   ensureModelAttributeAt e (Some fieldName) "string"
                     modelAttrs acc)
                newFieldNames l1
            else mret l1);
      spliceOutAt 0 [cloned]
        (if String.eqb (positionOrAfter op) "before" then 0 else 1)
        (op_source_uid op) elements;;
      mret l2
  end.

(** One turn of the loop [for (const op of operations)]. *)
Definition execOperationAt (e : env) (elements modelAttrs : loc)
    (op : operation) (l : locals) : action locals :=
  let isRoot := typeIs (rawTarget op) "$root" in
  let targetUid := resolveTarget op (l_aliases l) in
  if String.eqb (op_type op) "add" then
    execAddAt e op isRoot targetUid elements modelAttrs l
  else if String.eqb (op_type op) "edit" then
    execEditAt op targetUid elements;; mret l
  else if String.eqb (op_type op) "move" then
    execMoveAt op targetUid elements l;; mret l
  else if String.eqb (op_type op) "delete" then
    spliceOutAt 1 [] 0 targetUid elements;; mret l
  else if String.eqb (op_type op) "bulk_replace" then
    execBulkReplaceAt op elements;; mret l
  else if String.eqb (op_type op) "replace_subtree" then
    execReplaceSubtreeAt e op elements l
  else if String.eqb (op_type op) "clone_subtree" then
    execCloneSubtreeAt e op elements modelAttrs l
  else mret l.

(** The loop of [applyOperations] on the document behind [data]. *)
Definition runBatch (e : env) (data : loc) (operations : list operation)
  : action loc :=
  c ← getCell data;
  match c with
  | CDocument elements modelAttrs =>
      foldEach (execOperationAt e elements modelAttrs) operations
        (Locals ∅ 0 0);;
      mret data
  | _ => raise
  end.

(** [applyOperations(exportData, operations)] called with the reference
    [exportData]: the reference it returns, [None] when it raises, and
    the store afterwards. *)
Definition applyOperationsAt (e : env) (exportData : loc)
    (operations : list operation) : action loc :=
  value ← read (fun h => readDocument h exportData);
  data ← newDocument value;
  runBatch e data operations.

(** *** Objects of the working copy *)

(** The references that an object holds. *)
Definition refs (c : cell) : list loc :=
  match c with
  | CElement x =>
      option_list (e_config x) ++ option_list (e_visibility x)
        ++ option_list (e_styling x) ++ option_list (e_elements x)
  | CObject _ => []
  | CArray items => items
  | CRegistry _ => []
  | CDocument a r => [a; r]
  end.

(** The objects made since the store had [n] objects refer to such
    objects only. *)
Definition closed (n : nat) (h : store) : Prop :=
  forall l c, n <= l -> h !! l = Some c -> Forall (fun r => n <= addr r) (refs c).

(** What a value has of references is to objects made since the store
    had [n] objects. *)
Class Owned (A : Type) := owned : nat -> A -> Prop.

#[global] Instance owned_loc : Owned loc := fun n l => n <= addr l.
#[global] Instance owned_unit : Owned unit := fun _ _ => True.
#[global] Instance owned_nat : Owned nat := fun _ _ => True.
#[global] Instance owned_Z : Owned Z := fun _ _ => True.
#[global] Instance owned_string : Owned string := fun _ _ => True.
#[global] Instance owned_obj : Owned obj := fun _ _ => True.
#[global] Instance owned_node : Owned node := fun _ _ => True.
#[global] Instance owned_exportData : Owned exportData := fun _ _ => True.
#[global] Instance owned_locals : Owned locals := fun _ _ => True.
#[global] Instance owned_cell : Owned cell :=
  fun n c => Forall (fun r => n <= addr r) (refs c).
#[global] Instance owned_element : Owned element :=
  fun n x => owned n (CElement x).
#[global] Instance owned_option {A : Type} `{Owned A} : Owned (option A) :=
  fun n o => match o with Some a => owned n a | None => True end.
#[global] Instance owned_list {A : Type} `{Owned A} : Owned (list A) :=
  fun n l => Forall (owned n) l.
#[global] Instance owned_prod {A B : Type} `{Owned A} `{Owned B}
  : Owned (A * B) :=
  fun n p => owned n (fst p) /\ owned n (snd p).

(** The computation [m] writes to the objects made since the store had
    [n] objects only, and what it returns refers to such objects only. *)
Definition safe {A : Type} `{Owned A} (n : nat) (m : action A) : Prop :=
  forall h,
    n <= length h -> closed n h ->
    take n (m h).2 = take n h /\
    length h <= length (m h).2 /\
    closed n (m h).2 /\
    forall a, (m h).1 = Some a -> owned n a.

(** The three properties of an element that refer to an object. *)
Inductive objectProperty
  : (element -> option loc) -> (option loc -> element -> element) -> Prop :=
| ConfigProperty : objectProperty e_config putConfig
| VisibilityProperty : objectProperty e_visibility putVisibility
| StylingProperty : objectProperty e_styling putStyling.

(** ** Predicates of the specification *)

(** A Field-reference node. *)
Definition isAttribute (el : node) : bool :=
  String.eqb (element_type el) "attribute".

(** Every node of a forest, parents before children. *)
Fixpoint nodesOf (el : node) : list node :=
  el :: match elements el with
        | Some ch => flat_map nodesOf ch
        | None => []
        end.

Definition allNodes (els : list node) : list node := flat_map nodesOf els.

(** The Attribute Registry has an entry for the field name [n]. *)
Definition registered (n : option string) (modelAttrs : list obj) : bool :=
  existsb (hasName n) modelAttrs.

(** Every Field-reference node of the document has a registry entry. *)
Definition fieldsRegistered (d : exportData) : bool :=
  forallb (fun el => negb (isAttribute el)
                     || registered (name el) (modelAttribute d))
          (allNodes (stencilElements d)).

(** Only Group nodes have a child list with members. *)
Definition onlyGroupsHaveChildren (els : list node) : bool :=
  forallb (fun el => String.eqb (element_type el) "group"
                     || match children el with [] => true | _ => false end)
          (allNodes els).

(** The number of nodes of a forest. *)
Definition nodeCount (els : list node) : nat := length (allNodes els).

(** The identifiers of a forest. *)
Definition uidsOf (els : list node) : list string := uid <$> allNodes els.

(** Two arrays of the same length whose members are related pairwise. *)
Definition all2 {A B : Type} (R : A -> B -> Prop)
  : list A -> list B -> Prop :=
  fix go (l : list A) (l' : list B) : Prop :=
    match l, l' with
    | [], [] => True
    | x :: r, y :: r' => R x y /\ go r r'
    | _, _ => False
    end.

(** [clone] has the shape and the element types of [src], and [Q] holds
    of every pair of corresponding nodes. *)
Fixpoint copyWith (Q : node -> node -> Prop) (src clone : node) : Prop :=
  element_type clone = element_type src
  /\ Q src clone
  /\ match elements src, elements clone with
     | Some ch, Some ch' => all2 (copyWith Q) ch ch'
     | None, None => True
     | _, _ => False
     end.

(** The field name of a Field-reference node of the clone is the one of
    the source followed by [sfx]. *)
Definition nameSuffixed (sfx : string) (src clone : node) : Prop :=
  isAttribute src = true ->
  forall n, name src = Some n -> name clone = Some (String.append n sfx).

(** The same, for the source nodes whose field name is not empty. *)
Definition nameSuffixedIfNamed (sfx : string) (src clone : node) : Prop :=
  isAttribute src = true ->
  forall n, name src = Some n -> n <> "" ->
            name clone = Some (String.append n sfx).

(** [clone] is a copy of [src] with the suffix on every field name. *)
Definition suffixedCopy (sfx : string) : node -> node -> Prop :=
  copyWith (nameSuffixed sfx).

(** [clone] is a copy of [src] with the suffix on every field name that
    is not empty. *)
Definition suffixedWhereNamed (sfx : string) : node -> node -> Prop :=
  copyWith (nameSuffixedIfNamed sfx).

(** The registry has an entry for every Field-reference node of [el]
    whose field name is not empty. *)
Definition namedFieldsRegistered (modelAttrs : list obj) (el : node) : Prop :=
  Forall (fun c => isAttribute c = true ->
                   forall n, name c = Some n -> n <> "" ->
                             registered (Some n) modelAttrs = true)
         (nodesOf el).

(** The index at which [clone_subtree] puts the clone of the element at
    index [i]. *)
Definition cloneIndex (op : operation) (i : nat) : nat :=
  if String.eqb (positionOrAfter op) "before" then i else S i.

(** ** Sample documents and batches *)

(** An environment for the examples: the n-th identifier is [uid-n]. *)
Definition sampleEnv : env :=
  Env (fun n => String.append "uid-" (pretty n))
      (fun n => String.append "2025-01-01T00:00:00." (pretty n)).

(** An operation of type [ty] with no other property. *)
Definition bareOp (ty : string) : operation :=
  Operation ty None None None None
            None None None None None None None None None None
            None None
            None None None None None None None None None None None None
            None None
            None None None None.

Definition withUid (u : string) (op : operation) : operation :=
  Operation (op_type op) (op_after_uid op) (Some u) (op_target op)
    (op_position op) (op_element_type op) (op_label op) (op_content op)
    (op_field_name op) (op_field_type op) (op_alias op) (op_config op)
    (op_styling op) (op_visibility op) (op_conditional op) (op_required op)
    (op_read_only op) (op_uids op) (op_find_color op) (op_replace_color op)
    (op_find op) (op_replace op) (op_set_required op) (op_set_read_only op)
    (op_set_hidden op) (op_set_collapsible op) (op_set_show_in_toc op)
    (op_set_default_open op) (op_set_hide_label op) (op_target_uid op)
    (op_structure op) (op_source_uid op) (op_label_find op)
    (op_label_replace op) (op_field_suffix op).

(** [{type: 'move', uid, target, position}] *)
Definition moveOp (u target position : string) : operation :=
  Operation "move" None (Some u) (Some target) (Some position)
            None None None None None None None None None None
            None None
            None None None None None None None None None None None None
            None None
            None None None None.

(** [{type: 'add', element_type, target, position, alias, label,
      content, field_name}] *)
Definition addOp (elementType target position : string)
    (alias label content fieldName : option string) : operation :=
  Operation "add" None None (Some target) (Some position)
            (Some elementType) label content fieldName None alias
            None None None None
            None None
            None None None None None None None None None None None None
            None None
            None None None None.

(** [{type: 'replace_subtree', target_uid, position, structure}] *)
Definition replaceSubtreeOp (targetUid position : string) (structure : node)
  : operation :=
  Operation "replace_subtree" None None None (Some position)
            None None None None None None None None None None
            None None
            None None None None None None None None None None None None
            (Some targetUid) (Some structure)
            None None None None.

(** [{type: 'clone_subtree', source_uid, position, field_suffix}] *)
Definition cloneSubtreeOp (sourceUid position fieldSuffix : string)
  : operation :=
  Operation "clone_subtree" None None None (Some position)
            None None None None None None None None None None
            None None
            None None None None None None None None None None None None
            None None
            (Some sourceUid) None None (Some fieldSuffix).

(** [{type: 'bulk_replace', uids, find_color, replace_color, find,
      replace}] *)
Definition bulkReplaceOp (uids : list string)
    (findColor replaceColor find replace : option string) : operation :=
  Operation "bulk_replace" None None None None
            None None None None None None None None None None
            None None
            (Some uids) findColor replaceColor find replace
            None None None None None None None
            None None
            None None None None.

(** A Group, a Text and a Field-reference node as the factory shapes
    them, with given identifiers. *)
Definition groupNode (u l : string) (ch : list node) : node :=
  setElements (Some ch)
    (createGroupElement u (Some l) None None None None).

Definition textNode (u html : string) : node :=
  createTextElement u (Some html) None None.

Definition fieldNode (u fieldName : string) : node :=
  createAttributeElement u (Some fieldName) (Some fieldName).

(** A registry entry for the field [n]. *)
Definition registryEntry (n : string) : obj :=
  createModelAttribute sampleEnv 0 (Some n) (Some n) "string".

(** The documents of the examples. *)

(** A section with a text and a field, followed by a text. *)
Definition sampleDoc : exportData :=
  ExportData
    [groupNode "g" "Section 1"
       [textNode "t" "Hello"; fieldNode "f" "amount"];
     textNode "x" "Footer"]
    [registryEntry "amount"].

(** Two sections, the second one empty. *)
Definition twoSections : exportData :=
  ExportData
    [groupNode "g" "Section 1" [textNode "t" "Hello"];
     groupNode "h" "Section 2" []]
    [].

(** The operation [op] with the literal pair [find], [replace]. *)
Definition withLiteral (find replace : option string) (op : operation)
  : operation :=
  Operation (op_type op) (op_after_uid op) (op_uid op) (op_target op)
    (op_position op) (op_element_type op) (op_label op) (op_content op)
    (op_field_name op) (op_field_type op) (op_alias op) (op_config op)
    (op_styling op) (op_visibility op) (op_conditional op) (op_required op)
    (op_read_only op) (op_uids op) (op_find_color op) (op_replace_color op)
    find replace (op_set_required op) (op_set_read_only op)
    (op_set_hidden op) (op_set_collapsible op) (op_set_show_in_toc op)
    (op_set_default_open op) (op_set_hide_label op) (op_target_uid op)
    (op_structure op) (op_source_uid op) (op_label_find op)
    (op_label_replace op) (op_field_suffix op).

(** [el.config.text] *)
Definition textOf (el : node) : option json :=
  getProp "text" (orEmpty (config el)).

(** ** Statements about the locator *)

(** [el] is the element of [arr] at index [j], it has the identifier
    [u], and [findIndex] finds it there. *)
Definition locatedIn (u : string) (arr : list node) (j : nat) (el : node)
  : Prop :=
  arr !! j = Some el /\ uid el = u /\ findIndex u arr = Z.of_nat j.

(** What one iteration of [findParentOf] returns, against the same
    iteration of [findElementByUid]. *)
Definition nodeLocates (u : string) (el : node) : Prop :=
  forall i,
    match findParentInElement u i el with
    | Some (p, j) =>
        exists found,
          findInElement u el = Some found /\
          ((p = [] /\ j = i /\ found = el /\ uid el = u) \/
           (exists p' ch arr,
               p = i :: p' /\ elements el = Some ch /\
               arrayAt p' ch = Some arr /\ locatedIn u arr j found))
    | None => findInElement u el = None /\ uid el <> u
    end.

(** The same for the whole loop, entered at index [i]. *)
Definition listLocates (u : string) (els : list node) : Prop :=
  forall i,
    match firstSomeFrom (findParentInElement u) i els with
    | Some (p, j) =>
        exists found,
          firstSome (findInElement u) els = Some found /\
          match p with
          | [] => i <= j /\ locatedIn u els (j - i) found
          | k :: p' =>
              i <= k /\
              exists x ch arr,
                els !! (k - i) = Some x /\ elements x = Some ch /\
                arrayAt p' ch = Some arr /\ locatedIn u arr j found
          end
    | None =>
        firstSome (findInElement u) els = None /\
        Forall (fun x => uid x <> u) els
    end.

(** A section with a named field and a Field-reference node whose field
    name is the empty string. *)
Definition unnamedFieldDoc : exportData :=
  ExportData
    [groupNode "g" "Section 1" [fieldNode "f" "amount"; fieldNode "u" ""]]
    [registryEntry "amount"].

(** ** Statements about the rewrites *)

(** The scan of [replace], as a relation: [scansFrom m before s out]
    when the scan of [s] with the matcher [m], behind the text
    [before], produces [out].  A code unit where nothing matches is
    copied; a match is replaced and the scan goes on behind it. *)
Inductive scansFrom (m : matcher) : text -> text -> text -> Prop :=
| scans_end before : scansFrom m before [] []
| scans_miss before c s out :
    m (c :: s) = None ->
    scansFrom m (before ++ [c]) s out ->
    scansFrom m before (c :: s) (c :: out)
| scans_hit before tok z sub out :
    m (tok ++ z) = Some (length tok, sub) ->
    tok <> [] ->
    scansFrom m (before ++ tok) z out ->
    scansFrom m before (tok ++ z) (sub before ++ out).

(** A matcher whose matches are not empty and lie within the text. *)
Definition matchesWithin (m : matcher) : Prop :=
  forall s n sub, m s = Some (n, sub) -> 1 <= n /\ n <= length s.

(** Equality of texts under the [i] flag. *)
Definition sameText (a b : text) : Prop := map canon a = map canon b.

(** One of the three property names, in any case. *)
Definition isPropertyName (p : text) : Prop :=
  sameText p (chars "color") \/ sameText p (chars "background-color")
  \/ sameText p (chars "border-color").

(** A styling-declaration context: a property name, a colon, and white
    space around the colon. *)
Inductive declarationContext : text -> Prop :=
| DeclarationContext p w1 w2 :
    isPropertyName p ->
    forallb isSpace w1 = true -> forallb isSpace w2 = true ->
    declarationContext (p ++ w1 ++ ":"%char :: w2).







(** ** Notions for the idempotence of the color rewrite *)

(** A target color of the form [#rrggbb]. *)
Definition isHexColor (t : text) : bool :=
  match t with
  | c :: d => Ascii.eqb c "#" && (length d =? 6)%nat && forallb isHex d
  | [] => false
  end.

(** The three rewrites as token functions: the length of the match at
    the head of the text and its replacement. *)
Definition hexToken (findColor : string) (targetColor : text) (s : text)
  : option (nat * text) :=
  match matchHex s with
  | Some n =>
      Some (n, if isColorInFamily (take n s) findColor
               then targetColor else take n s)
  | None => None
  end.

(** The text that replaces an [rgb] match of the family when the target
    is a hex color. *)
Definition rgbCanonical (targetColor : text) (a : bool) (rest : text) : text :=
  let tr := numberText (parseIntHex (slice 1 3 targetColor)) in
  let tg := numberText (parseIntHex (slice 3 5 targetColor)) in
  let tb := numberText (parseIntHex (slice 5 7 targetColor)) in
  if a then
    chars "rgba(" ++ tr ++ chars ", " ++ tg ++ chars ", " ++ tb
      ++ rest ++ chars ")"
  else
    chars "rgb(" ++ tr ++ chars ", " ++ tg ++ chars ", " ++ tb ++ chars ")".

Definition inRgbFamily (findColor : string) (m : rgbMatch) : bool :=
  isRgbInFamily (numberOf (parseDec (rgb_r m)))
    (numberOf (parseDec (rgb_g m))) (numberOf (parseDec (rgb_b m)))
    findColor.

Definition rgbToken (findColor : string) (targetColor : text) (s : text)
  : option (nat * text) :=
  match matchRgb s with
  | Some m =>
      let n := (length s - length (rgb_after m))%nat in
      Some (n, if inRgbFamily findColor m
               then rgbCanonical targetColor (rgb_a m) (rgb_rest m)
               else take n s)
  | None => None
  end.

Definition keywordToken (kw targetColor : text) (s : text)
  : option (nat * text) :=
  match matchKeyword kw s with
  | Some (s3, s4) =>
      Some ((length s - length s4)%nat,
            take (length s - length s3) s ++ targetColor)
  | None => None
  end.

(** The scan of a token function. *)
Inductive rewrites (mu : text -> option (nat * text)) : text -> text -> Prop :=
| rewrites_end : rewrites mu [] []
| rewrites_miss c s out :
    mu (c :: s) = None -> rewrites mu s out ->
    rewrites mu (c :: s) (c :: out)
| rewrites_hit tok z rep out :
    mu (tok ++ z) = Some (length tok, rep) -> tok <> [] ->
    rewrites mu z out ->
    rewrites mu (tok ++ z) (rep ++ out).

(** A matcher that is a token function: the replacement does not depend
    on the text before the match. *)
Definition tokenOf (m : matcher) (mu : text -> option (nat * text)) : Prop :=
  forall s,
    match m s with
    | Some (n, sub) => exists rep, mu s = Some (n, rep) /\ forall b, sub b = rep
    | None => mu s = None
    end.

(** [P] holds of every suffix of the text. *)
Definition everySuffix (P : text -> Prop) (u : text) : Prop :=
  forall pre suf, u = pre ++ suf -> P suf.

(** A hex literal at the head of [suf] that belongs to the family is the
    target color. *)
Definition hexSettled (findColor : string) (targetColor : text) (suf : text)
  : Prop :=
  forall n, matchHex suf = Some n ->
            isColorInFamily (take n suf) findColor = true ->
            take n suf = targetColor.

Definition isLetter (c : ascii) : bool :=
  inRange 97 122 c || inRange 65 90 c.

(** An [r] followed by a [g], in any case, at the head of the text. *)
Definition rgAt (s : text) : bool :=
  match s with
  | c :: d :: _ => sameChar "r" c && sameChar "g" d
  | _ => false
  end.

Fixpoint rgFree (s : text) : bool :=
  match s with
  | [] => true
  | _ :: t => negb (rgAt s) && rgFree t
  end.

(** The shape of the keywords of the table: lower-case letters, at
    least one, and no [r] directly before a [g]. *)
Definition keywordShaped (kw : text) : bool :=
  negb (length kw =? 0)%nat && forallb (inRange 97 122) kw && rgFree kw.

(** The text stops the run of a class: it is empty, or its first code
    unit is outside the class. *)
Definition stops (P : ascii -> bool) (s : text) : bool :=
  match s with
  | [] => true
  | c :: _ => negb (P c)
  end.

(** The part of an [rgb] match before the text that leads to the
    closing parenthesis, with its captures: [rgb], the optional [a],
    the opening parenthesis and the three runs of digits, with white
    space where the expression allows it. *)
Inductive rgbHeadOf (a : bool) (r g b : text) : text -> Prop :=
| RgbHeadOf m3 ma w0 w1 w2 w3 w4 w5 :
    sameText m3 (chars "rgb") ->
    (if a then exists c, ma = [c] /\ sameChar "a" c = true else ma = []) ->
    forallb isSpace w0 = true -> forallb isSpace w1 = true ->
    forallb isSpace w2 = true -> forallb isSpace w3 = true ->
    forallb isSpace w4 = true -> forallb isSpace w5 = true ->
    r <> [] -> forallb isDigit r = true ->
    g <> [] -> forallb isDigit g = true ->
    b <> [] -> forallb isDigit b = true ->
    rgbHeadOf a r g b
      (m3 ++ ma ++ w0 ++ "("%char :: w1 ++ r ++ w2 ++ ","%char :: w3 ++ g
          ++ w4 ++ ","%char :: w5 ++ b).

(** A token function whose matches and replacements share a prefix that
    ends in a code unit which is no hex digit (up to that code unit
    being a word character or not). *)
Definition hexBlind (mu : text -> option (nat * text)) : Prop :=
  forall tok z rep,
    mu (tok ++ z) = Some (length tok, rep) -> tok <> [] ->
    exists p c d t r,
      tok = p ++ c :: t /\ rep = p ++ d :: r /\
      isHex c = false /\ isHex d = false /\ isWord c = isWord d.

(** A token function whose replacements start with a word character
    exactly when the match does. *)
Definition headWordKept (mu : text -> option (nat * text)) : Prop :=
  forall tok z rep,
    mu (tok ++ z) = Some (length tok, rep) -> tok <> [] ->
    exists c t d r, tok = c :: t /\ rep = d :: r /\ isWord c = isWord d.

(** The code units of the head of an [rgb] match behind its first
    three. *)
Definition headTailChar (c : ascii) : bool :=
  sameChar "a" c || isSpace c || isDigit c || Ascii.eqb c "("
  || Ascii.eqb c ",".

(** The code units of the property names, and those of a declaration
    context in any case. *)
Definition nameChar (c : ascii) : bool :=
  inRange 97 122 c || Ascii.eqb c "-".

Definition contextChar (c : ascii) : bool :=
  isLetter c || Ascii.eqb c "-" || isSpace c || Ascii.eqb c ":".

(** No match of the keyword expression starts at the head of the
    text. *)
Definition keywordFree (kw : text) (suf : text) : Prop :=
  matchKeyword kw suf = None.

(** The code unit does not occur in the text. *)
Definition lacks (x : ascii) (w : text) : bool :=
  forallb (fun c => negb (Ascii.eqb c x)) w.

(** The first three code units of a property name, in any case, at the
    head of the text. *)
Definition propertyStart (s : text) : bool :=
  match s with
  | c0 :: c1 :: c2 :: _ =>
      (sameChar "c" c0 && sameChar "o" c1 && sameChar "l" c2)
      || (sameChar "b" c0 && sameChar "a" c1 && sameChar "c" c2)
      || (sameChar "b" c0 && sameChar "o" c1 && sameChar "r" c2)
  | _ => false
  end.

(** The scan of a token function over the text replaces every match by
    itself. *)
Inductive quiet (mu : text -> option (nat * text)) : text -> Prop :=
| quiet_end : quiet mu []
| quiet_miss c s : mu (c :: s) = None -> quiet mu s -> quiet mu (c :: s)
| quiet_hit tok z :
    mu (tok ++ z) = Some (length tok, tok) -> tok <> [] ->
    quiet mu z -> quiet mu (tok ++ z).

(** ** The element counter of the side panel *)

(** One turn of the loop of [countElements]: the element, then its
    children with the running count. *)
Fixpoint countElement (el : node) (count : nat) : nat :=
  match elements el with
  | Some ch => fold_left (fun c x => countElement x c) ch (S count)
  | None => S count
  end.

(** [countElements(elements, count)] *)
Definition countElements (els : list node) (count : nat) : nat :=
  fold_left (fun c x => countElement x c) els count.

(** What an element is apart from its content and its children: the
    identifier, the element type and the field name. *)
Definition identityOf (el : node) : string * string * option string :=
  (uid el, element_type el, name el).

Definition identitiesOf (els : list node)
  : list (string * string * option string) :=
  identityOf <$> allNodes els.

(** [{type: 'delete', uid}] *)
Definition deleteOp (u : string) : operation := withUid u (bareOp "delete").

(** [{type: 'edit', uid, label}] *)
Definition editLabelOp (u l : string) : operation :=
  Operation "edit" None (Some u) None None
            None (Some l) None None None None None None None None
            None None
            None None None None None None None None None None None None
            None None
            None None None None.

(** [els'] is [els] with the subtree [x] put in at one place: the
    identities of the other nodes stay, in their order. *)
Definition insertedInto (x : node) (els els' : list node) : Prop :=
  exists before after,
    identitiesOf els = before ++ after /\
    identitiesOf els' = before ++ identitiesOf [x] ++ after.

(** [{type: 'edit', uid, styling}] *)
Definition editStylingOp (u : string) (s : obj) : operation :=
  Operation "edit" None (Some u) None None
            None None None None None None None (Some s) None None
            None None
            None None None None None None None None None None None None
            None None
            None None None None.

(** The registry [attrs'] is [attrs] with entries added behind it. *)
Definition extends (attrs attrs' : list obj) : Prop :=
  exists added, attrs' = attrs ++ added.

(** The names of the entries of the registry; [None] is an entry
    without a name. *)
Definition registryNames (attrs : list obj) : list (option json) :=
  getProp "name" <$> attrs.

(** [{type: 'add', element_type: 'field', field_name, target, position}] *)
Definition addFieldOp (fieldName target position : string) : operation :=
  addOp "field" target position None (Some fieldName) None (Some fieldName).

(** [{type: 'add', element_type: 'group', target, position, alias,
      label}] *)
Definition addGroupOp (target position alias label : string) : operation :=
  addOp "group" target position (Some alias) (Some label) None None.

(** The element type and the field name of an element. *)
Definition kindOf (el : node) : string * option string :=
  (element_type el, name el).

(** The families that [isRgbInFamily] knows: the labels of its
    [switch]. *)
Definition families : list string :=
  ["red"; "blue"; "green"; "orange"; "yellow"; "purple"; "gray"; "black";
   "white"].

(** ** Display names and export links of the content script *)

(** The table [modelNames] of [formatModelType]. *)
Definition modelNames : list (string * string) :=
  [("GrantRequest", "Grant Request"); ("GenericTemplate", "Portal Page");
   ("PortfolioOverview", "Portfolio Overview");
   ("RequestReport", "Request Report"); ("RequestReview", "Request Review");
   ("Organization", "Organization"); ("User", "User"); ("Program", "Program");
   ("SubProgram", "Sub Program"); ("Initiative", "Initiative");
   ("FundingSource", "Funding Source")].

(** What [formatModelType] returns: [null], a member that the table
    inherits from [Object.prototype], or a text. *)
Inductive displayName :=
| NoDisplay
| InheritedMember
| Display (s : string).

(** The expression of the fallback of [formatModelType]: one capital
    letter, replaced by the template of a blank and the first group. *)
Definition capitalMatcher : matcher :=
  fun s =>
    match s with
    | c :: after =>
        if inRange 65 90 c
        then Some (1, fun before =>
                        getSubstitution [[c]] [c] before after (chars " $1"))
        else None
    | [] => None
    end.

(** [t.trim()] *)
Definition trim (t : text) : text :=
  rev (skipWhile isSpace (rev (skipWhile isSpace t))).

(** [formatModelType(modelType)] *)
Definition formatModelType (modelType : option string) : displayName :=
  match modelType with
  | None => NoDisplay
  | Some m =>
      if String.eqb m "" then NoDisplay
      else
        match lookupTable m modelNames with
        | Some v => Display v
        | None =>
            if isPrototypeName m then InheritedMember
            else Display (str (trim (replaceAll capitalMatcher (chars m))))
        end
  end.

(** A blank before every capital letter of the text. *)
Definition blankBeforeCapitals (t : text) : text :=
  flat_map (fun c => if inRange 65 90 c then [" "%char; c] else [c]) t.

(** A literal pattern at the head of [s], compared as it stands: the text
    after the match. *)
Fixpoint matchExact (pat s : text) : option text :=
  match pat with
  | [] => Some s
  | p :: pat' =>
      match s with
      | c :: s' => if Ascii.eqb p c then matchExact pat' s' else None
      | [] => None
      end
  end.

(** The expression of [getStencilIdFromLink] at the head of the text:
    the digits of its group. *)
Definition matchStencilExport (s : text) : option text :=
  s1 ← matchExact (chars "stencil_export/") s;
  '(d, s2) ← digits1 s1;
  _ ← matchExact (chars ".json") s2;
  Some d.

(** [s.match(re)] without the [g] flag: the first place of the text
    where the expression matches. *)
Fixpoint searchFirst {A : Type} (m : text -> option A) (s : text)
  : option A :=
  match m s with
  | Some r => Some r
  | None =>
      match s with
      | [] => None
      | _ :: t => searchFirst m t
      end
  end.

(** [getStencilIdFromLink(exportLink)]: the link may be absent, and it
    may have no [href]. *)
Definition getStencilIdFromLink (exportLink : option (option string))
  : option string :=
  match exportLink with
  | Some (Some href) => str <$> searchFirst matchStencilExport (chars href)
  | _ => None
  end.

(** [s.includes(p)] *)
Fixpoint includes (p s : text) : bool :=
  startsWith p s
  || match s with
     | [] => false
     | _ :: t => includes p t
     end.

(** The test of [findExportLink] on the [href] of a link, for a target
    identifier. *)
Definition linksToStencil (href targetStencilId : string) : bool :=
  includes (chars ("stencil_export/" ++ targetStencilId ++ ".json"))
    (chars href).

(** ** Channels of eight bits *)

(** The integers from 0 below [n]. *)
Definition upTo (n : nat) : list Z := map Z.of_nat (seq 0 n).

(** [P] holds of every pair of an integer below [n] and one below [m],
    each with its Number value. *)
Definition allPairs (n m : nat) (P : Z -> number -> Z -> number -> bool)
  : bool :=
  forallb (fun x =>
             let fx := numberOf x in
             forallb (fun y => P x fx y (numberOf y)) (upTo m))
          (upTo n).

(** The same datum. *)
Definition sameNumber (a b : number) : bool :=
  match a, b with
  | S754_zero s, S754_zero s' => Bool.eqb s s'
  | S754_infinity s, S754_infinity s' => Bool.eqb s s'
  | S754_nan, S754_nan => true
  | S754_finite s m e, S754_finite s' m' e' =>
      Bool.eqb s s' && Pos.eqb m m' && Z.eqb e e'
  | _, _ => false
  end.

(** The comparison [x > y * c] of the source for the literal [c] that
    is [n/d], against the comparison of integers. *)
Definition ratioAgrees (c : number) (n d : Z) (x : Z) (fx : number)
    (y : Z) (fy : number) : bool :=
  Bool.eqb (SFltb (SFmul 53 1024 fy c) fx) (n * y <? d * x)%Z.

(** The mean of three channels with the sum [t], against the bounds of
    the source. *)
Definition brightnessAgrees (t : Z) : bool :=
  let m := SFdiv 53 1024 (numberOf t) (numberOf 3) in
  Bool.eqb (SFltb m (numberOf 50)) (t <? 150)%Z
  && Bool.eqb (SFltb (numberOf 50) m) (150 <? t)%Z
  && Bool.eqb (SFltb m (numberOf 220)) (t <? 660)%Z
  && Bool.eqb (SFltb (numberOf 220) m) (660 <? t)%Z.

(** ** Statements about [bulk_replace] *)

(** The color rewrite as the loop of [bulk_replace] applies it to the
    text of an element whose identifier is listed [n] times: once per
    turn, and not at all once the text is empty.  [None] is a raise. *)
Fixpoint colorRewriteTimes (n : nat) (findColor replaceColor html : string)
  : option string :=
  match n with
  | O => Some html
  | S k =>
      if String.eqb html "" then Some html
      else
        html' ← replaceColorsInHtml html findColor replaceColor;
        colorRewriteTimes k findColor replaceColor html'
  end.

(** The element without the elements below it. *)
Definition withoutChildren (el : node) : node := setElements None el.

(** The elements after the element with the identifier [u] is replaced
    by [f] of it; as they are when there is no such element. *)
Definition patched (f : node -> node) (u : string) (els : list node)
  : list node :=
  orSame els (updateElementByUid f els (Some u)).

(** What a lookup finds after the patch of the element [x0] with the
    identifier [u0], when the patch keeps the identifier and the
    elements below: the patched element under [u0], and under every
    other identifier the element found before, up to the elements
    below it. *)
Definition lookupKept (f : node -> node) (u0 : string) (els els' : list node)
  : Prop :=
  forall u,
    match findElementByUid els u with
    | Some el =>
        exists el',
          findElementByUid els' u = Some el' /\
          (u = u0 -> el' = f el) /\
          (u <> u0 -> withoutChildren el' = withoutChildren el)
    | None => findElementByUid els' u = None
    end.


(** A section whose text holds a red declaration, a hex literal and an
    [rgb] literal. *)
Definition coloredDoc : exportData :=
  ExportData
    [groupNode "g" "Section 1"
       [textNode "t" "color: red; #cc0000 rgb(200,0,0)";
        fieldNode "f" "amount"]]
    [registryEntry "amount"].

(** [clone] has every property of [src] but the identifier, the
    elements below them apart. *)
Definition sameButUid (src clone : node) : Prop :=
  withoutChildren (setUid (uid src) clone) = withoutChildren src.

(** [clone] has the shape and the element types of [src]. *)
Definition sameShape : node -> node -> Prop := copyWith (fun _ _ => True).

(** ** A batch for the store *)

(** A batch with every type of operation. *)
Definition sampleBatch : list operation :=
  [addGroupOp "$root" "inside" "a" "Section 2";
   addOp "text" "$a" "inside" (Some "b") None (Some "color: red") None;
   addFieldOp "budget" "$b" "after";
   editLabelOp "g" "Renamed";
   editStylingOp "t" [("margin_top", JNum 3); ("color", JStr "x")];
   moveOp "t" "$a" "inside_start";
   moveOp "x" "g" "before";
   bulkReplaceOp ["t"; "uid-1"; "none"] (Some "red") (Some "blue")
     (Some "l") (Some "L");
   replaceSubtreeOp "x" "replace"
     (groupNode "q" "Q" [textNode "q1" "a"; fieldNode "q2" "n"]);
   cloneSubtreeOp "g" "after" "_2";
   deleteOp "t";
   moveOp "g" "uid-1" "inside"].

(** The value of the document that [applyOperationsAt] returns for the
    value [d] of the input: [d] is put into an empty store, and the
    document behind the reference returned is read. *)
Definition returnedValue (e : env) (d : exportData)
    (operations : list operation) : option exportData :=
  match newDocument d [] with
  | (Some exportData, h) =>
      match applyOperationsAt e exportData operations h with
      | (Some data, h') => readDocument h' data
      | (None, _) => None
      end
  | (None, _) => None
  end.

(** * Properties *)

(** ** Locator *)

Section NodeInduction.

Variable P : node -> Prop.

Hypothesis step :
  forall el, (forall ch, elements el = Some ch -> Forall P ch) -> P el.

(** Induction on a node with the property at hand for all its
    children. *)
Fixpoint node_nested_ind (el : node) : P el :=
  step el
    (match el as x return forall ch, elements x = Some ch -> Forall P ch with
     | Node _ _ _ _ _ _ _ es =>
         fun ch (H : es = Some ch) =>
           match H in _ = o
                 return match o with
                        | Some c => Forall P c
                        | None => True
                        end
           with
           | eq_refl =>
               match es as o
                     return match o with
                            | Some c => Forall P c
                            | None => True
                            end
               with
               | Some l =>
                   (fix all (l : list node) : Forall P l :=
                      match l with
                      | [] => @List.Forall_nil node P
                      | x :: r =>
                          @List.Forall_cons node P x r
                            (node_nested_ind x) (all r)
                      end) l
               | None => I
               end
           end
     end).

End NodeInduction.

(** Every forest satisfies a property that every node passes on from
    its child list. *)
Lemma forest_ind (P : node -> Prop) :
  (forall el, (forall ch, elements el = Some ch -> Forall P ch) -> P el) ->
  forall els, Forall P els.
Proof.
  intros H els. induction els as [|el r IH]; constructor; auto.
  apply node_nested_ind, H.
Qed.

(** The loop of [findElementByUid], as the source writes it. *)
Lemma findElementByUid_cons el rest u :
  findElementByUid (el :: rest) u =
    if String.eqb (uid el) u then Some el
    else match
           match elements el with
           | Some ch => findElementByUid ch u
           | None => None
           end
         with
         | Some found => Some found
         | None => findElementByUid rest u
         end.
Proof.
  unfold findElementByUid. simpl. destruct el as [ty nm ud lb cf vs sy es].
  simpl. destruct (String.eqb ud u); [reflexivity|].
  destruct es; reflexivity.
Qed.

Lemma findIndex_here u x l : uid x = u -> findIndex u (x :: l) = 0%Z.
Proof.
  intros H. unfold findIndex. simpl. rewrite decide_True by exact H.
  reflexivity.
Qed.

Lemma findIndex_later u x l j :
  uid x <> u -> findIndex u l = Z.of_nat j ->
  findIndex u (x :: l) = Z.of_nat (S j).
Proof.
  unfold findIndex. simpl. intros Hne H. rewrite decide_False by exact Hne.
  destruct (list_find (fun e => uid e = u) l) as [[k y]|]; simpl in *; lia.
Qed.

Lemma locatedIn_later u x l j el :
  uid x <> u -> locatedIn u l j el -> locatedIn u (x :: l) (S j) el.
Proof.
  intros Hne (H1 & H2 & H3). repeat split; auto.
  apply findIndex_later; auto.
Qed.

(** The loop inherits the statement from its iterations. *)
Lemma listLocates_of_nodes u els :
  Forall (nodeLocates u) els -> listLocates u els.
Proof.
  induction 1 as [|x r Hx _ IH]; intros i; simpl.
  - split; [reflexivity|constructor].
  - specialize (Hx i).
    destruct (findParentInElement u i x) as [[p j]|].
    + destruct Hx as (found & Hf & Hcase). exists found. rewrite Hf.
      split; [reflexivity|].
      destruct Hcase as [(-> & -> & -> & Hu)|(p' & ch & arr & -> & He & Ha & Hl)].
      * split; [lia|]. replace (i - i) with 0 by lia.
        repeat split; auto. apply findIndex_here; auto.
      * split; [lia|]. exists x, ch, arr. replace (i - i) with 0 by lia.
        auto.
    + destruct Hx as [Hnone Hne]. rewrite Hnone.
      specialize (IH (S i)).
      destruct (firstSomeFrom (findParentInElement u) (S i) r) as [[p j]|].
      * destruct IH as (found & Hf & Hp). exists found. split; [exact Hf|].
        destruct p as [|k p'].
        -- destruct Hp as [Hle Hl]. split; [lia|].
           replace (j - i) with (S (j - S i)) by lia.
           apply locatedIn_later; auto.
        -- destruct Hp as (Hle & y & ch & arr & Hy & Hrest). split; [lia|].
           exists y, ch, arr. replace (k - i) with (S (k - S i)) by lia.
           auto.
      * destruct IH as [Hf Hall]. split; [exact Hf|]. constructor; auto.
Qed.

Lemma nodeLocates_all u el : nodeLocates u el.
Proof.
  induction el as [el IH] using node_nested_ind. intros i.
  destruct el as [ty nm ud lb cf vs sy es]. simpl in *.
  destruct (String.eqb ud u) eqn:E.
  - apply String.eqb_eq in E. exists (Node ty nm ud lb cf vs sy es).
    split; [reflexivity|]. left. auto.
  - apply String.eqb_neq in E. destruct es as [ch|].
    + pose proof (listLocates_of_nodes u ch (IH ch eq_refl) 0) as H.
      fold (findParentInElement u) in *. fold (findInElement u) in *.
      destruct (firstSomeFrom (findParentInElement u) 0 ch) as [[p j]|].
      * destruct H as (found & Hf & Hp). exists found. split; [exact Hf|].
        right. destruct p as [|k p'].
        -- destruct Hp as [_ Hl]. replace (j - 0) with j in Hl by lia.
           exists [], ch, ch. repeat split; auto; apply Hl.
        -- destruct Hp as (_ & x & c2 & arr & Hx & He & Ha & Hl).
           replace (k - 0) with k in Hx by lia.
           exists (k :: p'), ch, arr. repeat split; try apply Hl; auto.
           simpl. rewrite Hx, He. exact Ha.
      * destruct H as [Hf _]. split; auto.
    + split; auto.
Qed.

(** [findParentOf] and [findElementByUid] agree: the array and index of
    the first is where the element of the second sits, and
    [findIndex] on that array returns that index. *)
Lemma findParentOf_spec els u :
  match findParentOf els u with
  | Some (p, j) =>
      exists arr el,
        arrayAt p els = Some arr /\ locatedIn u arr j el /\
        findElementByUid els u = Some el
  | None => findElementByUid els u = None
  end.
Proof.
  pose proof (listLocates_of_nodes u els) as H.
  assert (Hall : Forall (nodeLocates u) els).
  { apply forest_ind. intros el _. apply nodeLocates_all. }
  specialize (H Hall 0). unfold findParentOf, findElementByUid.
  destruct (firstSomeFrom (findParentInElement u) 0 els) as [[p j]|].
  - destruct H as (found & Hf & Hp). destruct p as [|k p'].
    + destruct Hp as [_ Hl]. replace (j - 0) with j in Hl by lia.
      exists els, found. auto.
    + destruct Hp as (_ & x & ch & arr & Hx & He & Ha & Hl).
      replace (k - 0) with k in Hx by lia.
      exists arr, found. repeat split; try apply Hl; auto.
      simpl. rewrite Hx, He. exact Ha.
  - apply H.
Qed.

(** ** Failed and cyclic moves *)

(** C1. A [move] whose destination does not resolve is not skipped as a
    whole: the source has already been taken out of its array, so the
    node (here the text [x]) is missing from the returned document. *)
Theorem move_unknown_destination_loses_source :
  exists d',
    applyOperations sampleEnv sampleDoc [moveOp "x" "missing" "after"]
      = Some d' /\
    findElementByUid (stencilElements sampleDoc) "x"
      = Some (textNode "x" "Footer") /\
    findElementByUid (stencilElements sampleDoc) "missing" = None /\
    findElementByUid (stencilElements d') "x" = None /\
    nodeCount (stencilElements sampleDoc) = 4 /\
    nodeCount (stencilElements d') = 3.
Proof.
  eexists. split; [vm_compute; reflexivity|].
  repeat split; vm_compute; reflexivity.
Qed.

(** C2. A [move] of a node into its own subtree is not rejected with
    the document unchanged: the destination is searched after the node
    has been taken out, it is not found, and the node and its subtree
    (here the section [g] with [t] and [f]) are missing from the
    returned document. *)
Theorem move_into_own_subtree_loses_subtree :
  exists d',
    applyOperations sampleEnv sampleDoc [moveOp "g" "t" "inside"] = Some d' /\
    uidsOf (stencilElements sampleDoc) = ["g"; "t"; "f"; "x"] /\
    uidsOf (stencilElements d') = ["x"].
Proof.
  eexists. split; [vm_compute; reflexivity|].
  split; vm_compute; reflexivity.
Qed.

(** ** Registry and shape invariants *)

(** C3. A Field-reference node that [replace_subtree] brings in gets no
    registry entry: the input document has all its fields registered,
    the returned one holds the field [budget] without an entry. *)
Theorem replace_subtree_leaves_field_unregistered :
  exists d',
    applyOperations sampleEnv sampleDoc
      [replaceSubtreeOp "x" "after" (fieldNode "new" "budget")] = Some d' /\
    fieldsRegistered sampleDoc = true /\
    (name <$> findElementByUid (stencilElements d') "uid-0")
      = Some (Some "budget") /\
    registered (Some "budget") (modelAttribute d') = false /\
    fieldsRegistered d' = false.
Proof.
  eexists. split; [vm_compute; reflexivity|].
  repeat split; vm_compute; reflexivity.
Qed.

(** C4. An [add] with position [inside] whose target is a Text node
    gives that node a child, and so does a [move]. *)
Theorem inside_text_node_gets_children :
  exists d1 d2,
    applyOperations sampleEnv sampleDoc
      [addOp "text" "x" "inside" None None (Some "child") None] = Some d1 /\
    applyOperations sampleEnv sampleDoc [moveOp "f" "x" "inside_start"]
      = Some d2 /\
    onlyGroupsHaveChildren (stencilElements sampleDoc) = true /\
    (uidsOf <$> (children <$> findElementByUid (stencilElements d1) "x"))
      = Some ["uid-0"] /\
    (uidsOf <$> (children <$> findElementByUid (stencilElements d2) "x"))
      = Some ["f"] /\
    (element_type <$> findElementByUid (stencilElements d1) "x")
      = Some "text" /\
    onlyGroupsHaveChildren (stencilElements d1) = false /\
    onlyGroupsHaveChildren (stencilElements d2) = false.
Proof.
  do 2 eexists. split; [vm_compute; reflexivity|].
  split; [vm_compute; reflexivity|].
  repeat split; vm_compute; reflexivity.
Qed.

(** ** The root reference *)

(** C5. The destination of a [move] is looked up in the alias table
    also when it is the root reference: once an [add] has registered the
    alias [root], a move to [$root] goes into the aliased group, while
    the same reference as the target of an [add] is not resolved. *)
Theorem move_destination_root_is_alias_lookup :
  exists d',
    applyOperations sampleEnv sampleDoc
      [addOp "group" "$root" "inside" (Some "root") (Some "Aliased") None None;
       moveOp "x" "$root" "inside"] = Some d' /\
    moveDestination (moveOp "x" "$root" "inside") {["root" := "uid-0"]}
      = Some "uid-0" /\
    resolveTarget
      (addOp "text" "$root" "inside" None None None None)
      {["root" := "uid-0"]} = Some "$root" /\
    (uidsOf <$> (children <$> findElementByUid (stencilElements d') "uid-0"))
      = Some ["x"].
Proof.
  eexists. split; [vm_compute; reflexivity|].
  repeat split; vm_compute; reflexivity.
Qed.

(** ** The caller's document *)

(** *** Ownership *)

Lemma owned_element_iff n (x : element) :
  owned n x <->
  owned n (e_config x) /\ owned n (e_visibility x) /\
  owned n (e_styling x) /\ owned n (e_elements x).
Proof.
  unfold owned at 1, owned_element, owned, owned_cell. cbn [refs].
  rewrite !Forall_app.
  assert (Hopt : forall o : option loc,
             Forall (fun r => n <= addr r) (option_list o) <-> owned n o).
  { intros [l|]; cbn; [|split; auto].
    rewrite Forall_singleton. reflexivity. }
  rewrite !Hopt. reflexivity.
Qed.

Lemma owned_array n (items : list loc) :
  owned n (CArray items) <-> owned n items.
Proof. reflexivity. Qed.

Lemma owned_app n (a b : list loc) :
  owned n a -> owned n b -> owned n (a ++ b).
Proof. intros Ha Hb. apply Forall_app. split; assumption. Qed.

Lemma owned_take n i (a : list loc) : owned n a -> owned n (take i a).
Proof. apply Forall_take. Qed.

Lemma owned_drop n i (a : list loc) : owned n a -> owned n (drop i a).
Proof. apply Forall_drop. Qed.

Lemma owned_spliceRefs n start del (ins items : list loc) :
  owned n ins -> owned n items -> owned n (spliceRefs start del ins items).
Proof.
  intros Hi Ha. unfold spliceRefs.
  auto using owned_app, owned_take, owned_drop.
Qed.

Lemma owned_lookup n (items : list loc) i l :
  owned n items -> items !! i = Some l -> owned n l.
Proof. intros H Hl. exact (proj1 (Forall_lookup _ _) H i l Hl). Qed.

(** *** The rules of [safe] *)

Lemma safe_ret {A : Type} `{Owned A} n (a : A) :
  owned n a -> safe n (mret a).
Proof.
  intros Ha h Hn Hc. cbn. repeat split; auto.
  intros a' [= <-]. exact Ha.
Qed.

Lemma safe_raise {A : Type} `{Owned A} n : safe n (raise : action A).
Proof. intros h Hn Hc. cbn. repeat split; auto. discriminate. Qed.

Lemma safe_bind {A B : Type} `{Owned A} `{Owned B} n (m : action A)
    (k : A -> action B) :
  safe n m -> (forall a, owned n a -> safe n (k a)) -> safe n (m ≫= k).
Proof.
  intros Hm Hk h Hn Hc.
  destruct (Hm h Hn Hc) as (Ht & Hl & Hc1 & Ha).
  unfold mbind, action_bind.
  destruct (m h) as [[a|] h1]; cbn in *.
  - destruct (Hk a (Ha a eq_refl) h1 ltac:(lia) Hc1) as (Ht2 & Hl2 & Hc2 & Hb).
    repeat split; auto; try congruence; lia.
  - repeat split; auto. discriminate.
Qed.

Lemma safe_read {A : Type} `{Owned A} n (f : store -> option A) :
  (forall h a, n <= length h -> closed n h -> f h = Some a -> owned n a) ->
  safe n (read f).
Proof.
  intros Hf h Hn Hc. unfold read. cbn. repeat split; auto.
  intros a Ha. eauto.
Qed.

Lemma safe_new n c : owned n c -> safe n (new c).
Proof.
  intros Hown h Hn Hc. unfold new. cbn. repeat split.
  - rewrite take_app_le by exact Hn. reflexivity.
  - rewrite length_app. lia.
  - intros l c' Hl Hlook.
    apply lookup_app_Some in Hlook as [Hlook|[_ Hlook]]; [eauto|].
    apply list_lookup_singleton_Some in Hlook as [_ <-]. exact Hown.
  - intros a [= <-]. exact Hn.
Qed.

Lemma safe_getCell n l : owned n l -> safe n (getCell l).
Proof.
  intros Hl. apply safe_read. intros h c _ Hc Hlook. exact (Hc _ _ Hl Hlook).
Qed.

Lemma safe_setCell n l c : owned n l -> owned n c -> safe n (setCell l c).
Proof.
  intros Hl Hown h Hn Hc. unfold setCell.
  destruct (Nat.ltb (addr l) (length h)) eqn:E; cbn.
  - repeat split.
    + apply take_insert_ge. exact Hl.
    + rewrite length_insert. lia.
    + intros i c' Hi Hlook.
      apply list_lookup_insert_Some in Hlook
        as [(_ & <- & _)|(_ & Hlook)]; eauto.
  - repeat split; auto; discriminate.
Qed.

Lemma safe_steps n : safe n steps.
Proof. apply safe_read. intros. exact I. Qed.

Lemma safe_getElement n l : owned n l -> safe n (getElement l).
Proof.
  intros Hl. apply safe_bind; [apply safe_getCell; exact Hl|].
  intros [x| | | |] Hc; try apply safe_raise. apply safe_ret. exact Hc.
Qed.

Lemma safe_getObject n l : owned n l -> safe n (getObject l).
Proof.
  intros Hl. apply safe_bind; [apply safe_getCell; exact Hl|].
  intros [|o| | |] Hc; try apply safe_raise. apply safe_ret. exact I.
Qed.

Lemma safe_getArray n l : owned n l -> safe n (getArray l).
Proof.
  intros Hl. apply safe_bind; [apply safe_getCell; exact Hl|].
  intros [| |items| |] Hc; try apply safe_raise. apply safe_ret. exact Hc.
Qed.

Lemma safe_getRegistry n l : owned n l -> safe n (getRegistry l).
Proof.
  intros Hl. apply safe_bind; [apply safe_getCell; exact Hl|].
  intros [| | |attrs|] Hc; try apply safe_raise. apply safe_ret.
  unfold owned, owned_list. apply Forall_forall. intros; exact I.
Qed.

Lemma safe_foldEach {A S : Type} `{Owned A} `{Owned S} n
    (f : A -> S -> action S) (l : list A) :
  (forall x s, owned n x -> owned n s -> safe n (f x s)) ->
  owned n l -> forall s, owned n s -> safe n (foldEach f l s).
Proof.
  intros Hf. induction l as [|x r IH]; intros Hl s Hs; cbn [foldEach].
  - apply safe_ret. exact Hs.
  - apply Forall_cons in Hl as [Hx Hr].
    apply safe_bind; [apply Hf; assumption|].
    intros s' Hs'. apply IH; assumption.
Qed.

(** A loop over values that hold no references. *)
Lemma safe_foldValues {A S : Type} `{Owned S} n
    (f : A -> S -> action S) (l : list A) :
  (forall x s, owned n s -> safe n (f x s)) ->
  forall s, owned n s -> safe n (foldEach f l s).
Proof.
  intros Hf. induction l as [|x r IH]; intros s Hs; cbn [foldEach].
  - apply safe_ret. exact Hs.
  - apply safe_bind; [apply Hf; assumption|].
    intros s' Hs'. apply IH; assumption.
Qed.

Lemma safe_mapM {A B : Type} `{Owned B} n (f : A -> action B) (l : list A) :
  Forall (fun x => safe n (f x)) l -> safe n (mapM f l).
Proof.
  induction 1 as [|x r Hx Hr IH]; cbn [mapM].
  - apply safe_ret. constructor.
  - apply safe_bind; [exact Hx|]. intros y Hy.
    apply safe_bind; [exact IH|]. intros ys Hys.
    apply safe_ret. constructor; assumption.
Qed.

Lemma safe_whenDefined {A : Type} `{Owned A} n (v : option A)
    (f : A -> action unit) :
  owned n v -> (forall x, owned n x -> safe n (f x)) ->
  safe n (whenDefined v f).
Proof.
  intros Hv Hf. destruct v as [x|]; cbn [whenDefined].
  - apply Hf. exact Hv.
  - apply safe_ret. exact I.
Qed.

(** The same for a value that holds no references. *)
Lemma safe_whenValue {A : Type} n (v : option A) (f : A -> action unit) :
  (forall x, safe n (f x)) -> safe n (whenDefined v f).
Proof.
  intros Hf. destruct v as [x|]; cbn [whenDefined].
  - apply Hf.
  - apply safe_ret. exact I.
Qed.

(** *** The copy *)

Lemma safe_newObject n o : safe n (newObject o).
Proof.
  destruct o as [o|]; cbn [newObject].
  - apply safe_bind; [apply safe_new; constructor|].
    intros l Hl. apply safe_ret. exact Hl.
  - apply safe_ret. exact I.
Qed.

Lemma safe_newElement n el : safe n (newElement el).
Proof.
  induction el as [el IH] using node_nested_ind.
  destruct el as [ty nm u lb cfg vis sty els]. cbn [newElement].
  cbn [config visibility styling elements element_type name uid label] in *.
  apply safe_bind; [apply safe_newObject|]. intros c Hc.
  apply safe_bind; [apply safe_newObject|]. intros v Hv.
  apply safe_bind; [apply safe_newObject|]. intros s Hs.
  apply safe_bind.
  - destruct els as [ch|].
    + apply safe_bind; [apply safe_mapM, (IH ch eq_refl)|].
      intros items Hitems.
      apply safe_bind; [apply safe_new; exact Hitems|].
      intros a Ha. apply safe_ret. exact Ha.
    + apply safe_ret. exact I.
  - intros a Ha. apply safe_new.
    change (owned n (Element ty nm u lb c v s a)).
    apply owned_element_iff. cbn. auto.
Qed.

Lemma safe_newDocument n d : safe n (newDocument d).
Proof.
  unfold newDocument.
  apply safe_bind.
  { apply safe_mapM, Forall_forall. intros x _. apply safe_newElement. }
  intros items Hitems.
  apply safe_bind; [apply safe_new; exact Hitems|]. intros a Ha.
  apply safe_bind; [apply safe_new; constructor|]. intros r Hr.
  apply safe_new. repeat constructor; assumption.
Qed.

(** *** The locator *)

Lemma findElementByUidAt_owned n h u :
  closed n h ->
  forall fuel arr r,
    owned n arr -> findElementByUidAt fuel h u arr = Some r -> owned n r.
Proof.
  intros Hc. induction fuel as [|fuel IH]; intros arr r Harr H;
    [discriminate|].
  cbn [findElementByUidAt] in H.
  destruct (h !! addr arr) as [[| |items| |]|] eqn:Ea; try discriminate.
  pose proof (Hc _ _ Harr Ea) as Hitems. cbn [refs] in Hitems.
  clear Ea. induction items as [|el rest IHr]; [injection H as <-; exact I|].
  apply Forall_cons in Hitems as [Hel Hrest].
  destruct (h !! addr el) as [[x| | | |]|] eqn:Ee; try discriminate.
  destruct (uidIs u x); [injection H as <-; exact Hel|].
  pose proof (Hc _ _ Hel Ee) as Hx. apply owned_element_iff in Hx.
  destruct (e_elements x) as [a|] eqn:Ex; [|auto].
  destruct (findElementByUidAt fuel h u a) as [[found|]|] eqn:Ef;
    try discriminate.
  - injection H as <-. apply (IH a (Some found)); [apply Hx|exact Ef].
  - auto.
Qed.

Lemma findParentOfAt_owned n h u :
  closed n h ->
  forall fuel arr r,
    owned n arr -> findParentOfAt fuel h u arr = Some r -> owned n r.
Proof.
  intros Hc. induction fuel as [|fuel IH]; intros arr r Harr H;
    [discriminate|].
  cbn [findParentOfAt] in H.
  destruct (h !! addr arr) as [[| |items| |]|] eqn:Ea; try discriminate.
  pose proof (Hc _ _ Harr Ea) as Hitems. cbn [refs] in Hitems.
  clear Ea. revert H. generalize 0.
  induction items as [|el rest IHr]; intros i H;
    [injection H as <-; exact I|].
  apply Forall_cons in Hitems as [Hel Hrest].
  destruct (h !! addr el) as [[x| | | |]|] eqn:Ee; try discriminate.
  destruct (uidIs u x); [injection H as <-; split; [exact Harr|exact I]|].
  pose proof (Hc _ _ Hel Ee) as Hx. apply owned_element_iff in Hx.
  destruct (e_elements x) as [a|] eqn:Ex; [|eauto].
  destruct (findParentOfAt fuel h u a) as [[found|]|] eqn:Ef;
    try discriminate.
  - injection H as <-. apply (IH a (Some found)); [apply Hx|exact Ef].
  - eauto.
Qed.

Lemma safe_findElement n u elements :
  owned n elements -> safe n (findElement u elements).
Proof.
  intros He. apply safe_read. intros h r _ Hc H.
  exact (findElementByUidAt_owned n h u Hc _ _ _ He H).
Qed.

Lemma safe_findParent n u elements :
  owned n elements -> safe n (findParent u elements).
Proof.
  intros He. apply safe_read. intros h r _ Hc H.
  exact (findParentOfAt_owned n h u Hc _ _ _ He H).
Qed.

Lemma safe_indexOfUid n u items : safe n (indexOfUid u items).
Proof. apply safe_read. intros. exact I. Qed.

(** *** Writes to arrays and objects *)

Lemma safe_addChildAt n front x target :
  owned n x -> owned n target -> safe n (addChildAt front x target).
Proof.
  intros Hx Ht. unfold addChildAt.
  apply safe_bind; [apply safe_getElement; exact Ht|]. intros t Hel.
  pose proof (proj1 (owned_element_iff n t) Hel) as (Hc & Hv & Hs & He).
  apply safe_bind.
  - destruct (e_elements t) as [a|].
    + apply safe_ret. exact He.
    + apply safe_bind; [apply safe_new; constructor|]. intros a Ha.
      apply safe_bind; [|intros _ _; apply safe_ret; exact Ha].
      apply safe_setCell; [exact Ht|].
      change (owned n (putElements (Some a) t)).
      apply owned_element_iff. cbn. auto.
  - intros a Ha.
    apply safe_bind; [apply safe_getArray; exact Ha|]. intros items Hitems.
    apply safe_setCell; [exact Ha|]. apply owned_array.
    destruct front.
    + constructor; assumption.
    + apply owned_app; [assumption|]. constructor; [assumption|constructor].
Qed.

Lemma safe_insertNextToAt n before x u elements :
  owned n x -> owned n elements ->
  safe n (insertNextToAt before x u elements).
Proof.
  intros Hx He. unfold insertNextToAt.
  apply safe_bind; [apply safe_findParent; exact He|].
  intros [[arr i]|] Hr; [|apply safe_ret; exact I].
  destruct Hr as [Harr _]. cbn in Harr.
  apply safe_bind; [apply safe_getArray; exact Harr|]. intros items Hitems.
  apply safe_bind; [apply safe_indexOfUid|]. intros idx _.
  apply safe_setCell; [exact Harr|]. apply owned_array.
  apply owned_spliceRefs; [|assumption].
  constructor; [assumption|constructor].
Qed.

Lemma safe_spliceOutAt n del ins offset u elements :
  owned n ins -> owned n elements ->
  safe n (spliceOutAt del ins offset u elements).
Proof.
  intros Hx He. unfold spliceOutAt.
  apply safe_bind; [apply safe_findParent; exact He|].
  intros [[arr i]|] Hr; [|apply safe_ret; exact I].
  destruct Hr as [Harr _]. cbn in Harr.
  apply safe_bind; [apply safe_getArray; exact Harr|]. intros items Hitems.
  apply safe_bind; [apply safe_indexOfUid|]. intros idx _.
  destruct (idx =? -1)%Z; [apply safe_ret; exact I|].
  apply safe_setCell; [exact Harr|]. apply owned_array.
  apply owned_spliceRefs; assumption.
Qed.

Lemma safe_setPropAt n c k v : owned n c -> safe n (setPropAt c k v).
Proof.
  intros Hc. unfold setPropAt.
  apply safe_bind; [apply safe_getObject; exact Hc|]. intros o _.
  apply safe_setCell; [exact Hc|]. constructor.
Qed.

Lemma safe_copyPropAt n c k src : owned n c -> safe n (copyPropAt c k src).
Proof.
  intros Hc. apply safe_whenValue. intros v. apply safe_setPropAt, Hc.
Qed.

Lemma safe_copyTruthyAt n c k dst src :
  owned n c -> safe n (copyTruthyAt c k dst src).
Proof.
  intros Hc. apply safe_whenValue. intros v.
  destruct (truthy v); [apply safe_setPropAt, Hc|apply safe_ret; exact I].
Qed.

Lemma safe_ensureObjectAt n get put el :
  objectProperty get put -> owned n el -> safe n (ensureObjectAt get put el).
Proof.
  intros Hp Hel. unfold ensureObjectAt.
  apply safe_bind; [apply safe_getElement; exact Hel|]. intros x Hx.
  pose proof (proj1 (owned_element_iff n x) Hx) as (Hc & Hv & Hs & He).
  destruct (get x) as [c|] eqn:Eg.
  - apply safe_ret. destruct Hp; rewrite Eg in *; assumption.
  - apply safe_bind; [apply safe_new; constructor|]. intros c Hcn.
    apply safe_bind; [|intros _ _; apply safe_ret; exact Hcn].
    apply safe_setCell; [exact Hel|].
    change (owned n (put (Some c) x)).
    apply owned_element_iff. destruct Hp; cbn; auto.
Qed.

(** *** The operations *)

Ltac safe_unit := apply safe_ret; exact I.

Lemma safe_ensureModelAttributeAt n e fieldName attributeType modelAttrs l :
  owned n modelAttrs ->
  safe n (ensureModelAttributeAt e fieldName attributeType modelAttrs l).
Proof.
  intros Hm. unfold ensureModelAttributeAt.
  apply safe_bind; [apply safe_getRegistry; exact Hm|]. intros attrs _.
  destruct (existsb _ attrs); [safe_unit|].
  apply safe_bind; [apply safe_setCell; [exact Hm|constructor]|].
  intros _ _. safe_unit.
Qed.

Lemma safe_buildElementAt n e op modelAttrs l :
  owned n modelAttrs -> safe n (buildElementAt e op modelAttrs l).
Proof.
  intros Hm. unfold buildElementAt.
  destruct (typeIs _ "group").
  { apply safe_bind; [apply safe_newElement|]. intros x Hx.
    apply safe_ret. split; [exact Hx|exact I]. }
  destruct (typeIs _ "text").
  { apply safe_bind; [apply safe_newElement|]. intros x Hx.
    apply safe_ret. split; [exact Hx|exact I]. }
  destruct (typeIs _ "field").
  { apply safe_bind; [apply safe_ensureModelAttributeAt; exact Hm|].
    intros l1 _.
    apply safe_bind; [apply safe_newElement|]. intros x Hx.
    apply safe_ret. split; [exact Hx|exact I]. }
  apply safe_ret. split; exact I.
Qed.

Lemma safe_execAddAt n e op isRoot targetUid elements modelAttrs l :
  owned n elements -> owned n modelAttrs ->
  safe n (execAddAt e op isRoot targetUid elements modelAttrs l).
Proof.
  intros He Hm. unfold execAddAt.
  apply safe_bind; [apply safe_buildElementAt; exact Hm|].
  intros [[x|] l1] [Hx _]; [|safe_unit]. cbn in Hx.
  apply safe_bind; [apply safe_getElement; exact Hx|]. intros nx _.
  apply safe_bind; [|intros _ _; safe_unit].
  destruct isRoot.
  { apply safe_bind; [apply safe_getArray; exact He|]. intros items Hitems.
    assert (Hpush : owned n (CArray (items ++ [x]))).
    { apply owned_array, owned_app; [assumption|].
      constructor; [assumption|constructor]. }
    destruct (positionIs op "inside"); [apply safe_setCell; assumption|].
    destruct (positionIs op "before"); apply safe_setCell; try assumption.
    apply owned_array. constructor; assumption. }
  destruct (positionIs op "inside" || positionIs op "inside_end").
  { apply safe_bind; [apply safe_findElement; exact He|]. intros t Ht.
    apply safe_whenDefined; [exact Ht|]. intros t' Ht'.
    apply safe_addChildAt; assumption. }
  destruct (positionIs op "inside_start" || positionIs op "inside_top").
  { apply safe_bind; [apply safe_findElement; exact He|]. intros t Ht.
    apply safe_whenDefined; [exact Ht|]. intros t' Ht'.
    apply safe_addChildAt; assumption. }
  apply safe_insertNextToAt; assumption.
Qed.

Lemma owned_putLabel n l x : owned n x -> owned n (CElement (putLabel l x)).
Proof.
  intros Hx. change (owned n (putLabel l x)).
  apply owned_element_iff. apply owned_element_iff in Hx. exact Hx.
Qed.

Lemma owned_putUid n u x : owned n x -> owned n (CElement (putUid u x)).
Proof.
  intros Hx. change (owned n (putUid u x)).
  apply owned_element_iff. apply owned_element_iff in Hx. exact Hx.
Qed.

Lemma owned_putName n u x : owned n x -> owned n (CElement (putName u x)).
Proof.
  intros Hx. change (owned n (putName u x)).
  apply owned_element_iff. apply owned_element_iff in Hx. exact Hx.
Qed.

Lemma safe_execEditAt n op targetUid elements :
  owned n elements -> safe n (execEditAt op targetUid elements).
Proof.
  intros He. unfold execEditAt.
  apply safe_bind; [apply safe_findElement; exact He|]. intros found Hf.
  apply safe_whenDefined; [exact Hf|]. intros el Hel.
  apply safe_bind;
    [apply safe_ensureObjectAt; [constructor|exact Hel]|]. intros cfg Hcfg.
  apply safe_bind.
  { destruct (nonEmpty (op_label op)); [|safe_unit].
    apply safe_whenValue. intros l.
    apply safe_bind; [apply safe_setPropAt; exact Hcfg|]. intros _ _.
    apply safe_bind; [apply safe_getElement; exact Hel|]. intros x Hx.
    destruct (e_label x); [|safe_unit].
    apply safe_setCell; [exact Hel|]. apply owned_putLabel, Hx. }
  intros _ _.
  apply safe_bind;
    [apply safe_whenValue; intros v; apply safe_setPropAt, Hcfg|].
  intros _ _.
  apply safe_bind;
    [apply safe_whenValue; intros v; apply safe_setPropAt, Hcfg|].
  intros _ _.
  apply safe_bind; [apply safe_getElement; exact Hel|]. intros x Hx.
  apply safe_bind.
  { destruct (_ && _); [|safe_unit].
    apply safe_whenValue. intros c. apply safe_setPropAt, Hcfg. }
  intros _ _.
  apply safe_bind.
  { apply safe_whenValue. intros c.
    repeat (apply safe_bind; [apply safe_copyPropAt, Hcfg|intros _ _]).
    apply safe_copyPropAt, Hcfg. }
  intros _ _.
  apply safe_bind.
  { apply safe_whenValue. intros c.
    repeat (apply safe_bind; [apply safe_copyTruthyAt, Hcfg|intros _ _]).
    apply safe_copyTruthyAt, Hcfg. }
  intros _ _.
  apply safe_bind.
  { apply safe_whenValue. intros s.
    apply safe_bind;
      [apply safe_ensureObjectAt; [constructor|exact Hel]|]. intros sty Hsty.
    unfold forEach. apply safe_foldValues; [|exact I].
    intros kv _ _.
    destruct (_ && _); [safe_unit|apply safe_setPropAt, Hsty]. }
  intros _ _.
  apply safe_whenValue. intros v.
  apply safe_bind;
    [apply safe_ensureObjectAt; [constructor|exact Hel]|]. intros vis Hvis.
  repeat (apply safe_bind; [apply safe_copyPropAt, Hvis|intros _ _]).
  apply safe_copyPropAt, Hvis.
Qed.

Lemma safe_execMoveAt n op targetUid elements l :
  owned n elements -> safe n (execMoveAt op targetUid elements l).
Proof.
  intros He. unfold execMoveAt.
  apply safe_bind; [apply safe_findParent; exact He|].
  intros [[arr i]|] Hr; [|safe_unit].
  destruct Hr as [Harr _]. cbn in Harr.
  apply safe_bind; [apply safe_getArray; exact Harr|]. intros items Hitems.
  apply safe_bind; [apply safe_indexOfUid|]. intros idx _.
  apply safe_bind.
  { apply safe_setCell; [exact Harr|]. apply owned_array.
    apply owned_spliceRefs; [constructor|assumption]. }
  intros _ _.
  destruct (items !! _) as [removed|] eqn:Er; [|apply safe_raise].
  pose proof (owned_lookup _ _ _ _ Hitems Er) as Hrem.
  destruct (positionIs op "inside" || positionIs op "inside_end").
  { apply safe_bind; [apply safe_findElement; exact He|]. intros t Ht.
    apply safe_whenDefined; [exact Ht|]. intros t' Ht'.
    apply safe_addChildAt; assumption. }
  destruct (positionIs op "inside_start" || positionIs op "inside_top").
  { apply safe_bind; [apply safe_findElement; exact He|]. intros t Ht.
    apply safe_whenDefined; [exact Ht|]. intros t' Ht'.
    apply safe_addChildAt; assumption. }
  apply safe_insertNextToAt; assumption.
Qed.

Lemma safe_bulkElementAt n op el : owned n el -> safe n (bulkElementAt op el).
Proof.
  intros Hel. unfold bulkElementAt.
  apply safe_bind;
    [apply safe_ensureObjectAt; [constructor|exact Hel]|]. intros cfg Hcfg.
  assert (Hset : forall k (v : option json),
             safe n (whenDefined v (setPropAt cfg k))).
  { intros k v. apply safe_whenValue. intros x. apply safe_setPropAt, Hcfg. }
  apply safe_bind; [apply Hset|]. intros _ _.
  apply safe_bind; [apply Hset|]. intros _ _.
  apply safe_bind.
  { apply safe_whenValue. intros hidden.
    apply safe_bind;
      [apply safe_ensureObjectAt; [constructor|exact Hel]|]. intros vis Hvis.
    apply safe_bind; [apply safe_setPropAt, Hvis|]. intros _ _.
    apply safe_setPropAt, Hvis. }
  intros _ _.
  apply safe_bind; [apply safe_getElement; exact Hel|]. intros x Hx.
  cbv zeta.
  do 3 (apply safe_bind;
        [destruct (String.eqb (e_type x) "group"); [apply Hset|safe_unit]|];
        intros _ _).
  apply safe_bind; [apply Hset|]. intros _ _.
  apply safe_bind; [apply safe_getObject; exact Hcfg|]. intros o _.
  destruct (getProp "text" o) as [t|]; [|safe_unit].
  destruct (_ && _).
  { destruct t; try apply safe_raise.
    destruct (op_find_color op); try apply safe_raise.
    destruct (op_replace_color op); try apply safe_raise.
    destruct (replaceColorsInHtml _ _ _); [|apply safe_raise].
    apply safe_setPropAt, Hcfg. }
  destruct (_ && _); [|safe_unit].
  destruct t; try apply safe_raise.
  destruct (op_find op); try apply safe_raise.
  destruct (op_replace op); try apply safe_raise.
  apply safe_setPropAt, Hcfg.
Qed.

Lemma safe_execBulkReplaceAt n op elements :
  owned n elements -> safe n (execBulkReplaceAt op elements).
Proof.
  intros He. unfold execBulkReplaceAt, forEach.
  apply safe_foldValues; [|exact I]. intros u _ _.
  apply safe_bind; [apply safe_findElement; exact He|]. intros found Hf.
  apply safe_whenDefined; [exact Hf|]. intros el Hel.
  apply safe_bulkElementAt, Hel.
Qed.

Lemma safe_regenerateUidsAt n e fuel :
  forall el k, owned n el -> safe n (regenerateUidsAt fuel e el k).
Proof.
  induction fuel as [|fuel IH]; intros el k Hel; cbn [regenerateUidsAt];
    [apply safe_raise|].
  apply safe_bind; [apply safe_getElement; exact Hel|]. intros x Hx.
  apply safe_bind;
    [apply safe_setCell; [exact Hel|apply owned_putUid, Hx]|]. intros _ _.
  pose proof (proj1 (owned_element_iff n x) Hx) as (_ & _ & _ & Ha).
  destruct (e_elements x) as [a|]; [|safe_unit].
  apply safe_bind; [apply safe_getArray; exact Ha|]. intros items Hitems.
  apply safe_foldEach; [|exact Hitems|exact I].
  intros child s Hch _. apply IH, Hch.
Qed.

Lemma safe_execReplaceSubtreeAt n e op elements l :
  owned n elements -> safe n (execReplaceSubtreeAt e op elements l).
Proof.
  intros He. unfold execReplaceSubtreeAt.
  destruct (op_structure op) as [structure|]; [|safe_unit].
  apply safe_bind; [apply safe_newElement|]. intros x Hx.
  apply safe_bind; [apply safe_steps|]. intros fuel _.
  apply safe_bind; [apply safe_regenerateUidsAt, Hx|]. intros k _.
  assert (Hins : owned n [x]) by (constructor; [assumption|constructor]).
  apply safe_bind; [|intros _ _; safe_unit].
  destruct (String.eqb _ "replace"); apply safe_spliceOutAt; assumption.
Qed.

Lemma safe_transformElementAt n e labelFind labelReplace fieldSuffix fuel :
  forall el k,
    owned n el ->
    safe n (transformElementAt fuel e labelFind labelReplace fieldSuffix el k).
Proof.
  induction fuel as [|fuel IH]; intros el k Hel; cbn [transformElementAt];
    [apply safe_raise|].
  apply safe_bind; [apply safe_getElement; exact Hel|]. intros x Hx.
  apply safe_bind;
    [apply safe_setCell; [exact Hel|apply owned_putUid, Hx]|]. intros _ _.
  pose proof (proj1 (owned_element_iff n x) Hx) as (Hc & _ & _ & Ha).
  apply safe_bind.
  { destruct (_ && _); [|safe_unit].
    destruct labelFind as [f|]; [|safe_unit].
    destruct labelReplace as [r|]; [|safe_unit].
    apply safe_bind.
    { apply safe_whenDefined; [exact Hc|]. intros c Hc'.
      apply safe_bind; [apply safe_getObject; exact Hc'|]. intros o _.
      apply safe_whenValue. intros v.
      destruct (truthy v); [|safe_unit].
      destruct v; try apply safe_raise. apply safe_setPropAt, Hc'. }
    intros _ _.
    apply safe_bind; [apply safe_getElement; exact Hel|]. intros x1 Hx1.
    destruct (nonEmpty _); [|safe_unit].
    apply safe_whenValue. intros s.
    apply safe_setCell; [exact Hel|apply owned_putLabel, Hx1]. }
  intros _ _.
  apply safe_bind; [apply safe_getElement; exact Hel|]. intros x2 Hx2.
  apply safe_bind.
  { destruct (_ && _); [|safe_unit].
    apply safe_whenValue. intros nm.
    apply safe_setCell; [exact Hel|apply owned_putName, Hx2]. }
  intros _ _.
  destruct (e_elements x) as [a|]; [|safe_unit].
  apply safe_bind; [apply safe_getArray; exact Ha|]. intros items Hitems.
  apply safe_foldEach; [|exact Hitems|exact I].
  intros child s Hch _. apply IH, Hch.
Qed.

Lemma safe_execCloneSubtreeAt n e op elements modelAttrs l :
  owned n elements -> owned n modelAttrs ->
  safe n (execCloneSubtreeAt e op elements modelAttrs l).
Proof.
  intros He Hm. unfold execCloneSubtreeAt.
  apply safe_bind; [apply safe_findElement; exact He|].
  intros [sourceEl|] Hs; [|safe_unit].
  apply safe_bind; [apply safe_read; intros; exact I|]. intros value _.
  apply safe_bind; [apply safe_newElement|]. intros cloned Hcl.
  apply safe_bind; [apply safe_steps|]. intros fuel _.
  apply safe_bind; [apply safe_transformElementAt, Hcl|]. intros k _.
  apply safe_bind.
  { destruct (negb _); [|safe_unit].
    apply safe_bind.
    { apply safe_read. intros h names _ _ _.
      apply Forall_forall. intros; exact I. }
    intros names _.
    apply safe_foldValues; [|exact I]. intros fieldName acc _.
    apply safe_ensureModelAttributeAt, Hm. }
  intros l2 _.
  apply safe_bind; [|intros _ _; safe_unit].
  apply safe_spliceOutAt; [|exact He].
  constructor; [assumption|constructor].
Qed.

Lemma safe_execOperationAt n e elements modelAttrs op l :
  owned n elements -> owned n modelAttrs ->
  safe n (execOperationAt e elements modelAttrs op l).
Proof.
  intros He Hm. unfold execOperationAt.
  destruct (String.eqb _ "add"); [apply safe_execAddAt; assumption|].
  destruct (String.eqb _ "edit").
  { apply safe_bind; [apply safe_execEditAt, He|]. intros _ _. safe_unit. }
  destruct (String.eqb _ "move").
  { apply safe_bind; [apply safe_execMoveAt, He|]. intros _ _. safe_unit. }
  destruct (String.eqb _ "delete").
  { apply safe_bind; [|intros _ _; safe_unit].
    apply safe_spliceOutAt; [constructor|exact He]. }
  destruct (String.eqb _ "bulk_replace").
  { apply safe_bind; [apply safe_execBulkReplaceAt, He|].
    intros _ _. safe_unit. }
  destruct (String.eqb _ "replace_subtree");
    [apply safe_execReplaceSubtreeAt, He|].
  destruct (String.eqb _ "clone_subtree");
    [apply safe_execCloneSubtreeAt; assumption|].
  safe_unit.
Qed.

Lemma safe_runBatch n e data operations :
  owned n data -> safe n (runBatch e data operations).
Proof.
  intros Hd. unfold runBatch.
  apply safe_bind; [apply safe_getCell; exact Hd|].
  intros [| | | |elements modelAttrs] Hc; try apply safe_raise.
  apply Forall_cons in Hc as [He Hm]. apply Forall_cons in Hm as [Hm _].
  apply safe_bind; [|intros _ _; apply safe_ret; exact Hd].
  apply safe_foldValues; [|exact I]. intros op l _.
  apply safe_execOperationAt; assumption.
Qed.

(** The batch writes to the objects of the working copy only: the
    store of the caller is the beginning of the store afterwards, and
    the document returned is a new object. *)
Lemma applyOperationsAt_frame e exportData operations (h : store) :
  take (length h) (applyOperationsAt e exportData operations h).2 = h /\
  forall data,
    (applyOperationsAt e exportData operations h).1 = Some data ->
    length h <= addr data.
Proof.
  assert (Hsafe : safe (length h) (applyOperationsAt e exportData operations)).
  { unfold applyOperationsAt.
    apply safe_bind; [apply safe_read; intros; exact I|]. intros value _.
    apply safe_bind; [apply safe_newDocument|]. intros data Hd.
    apply safe_runBatch, Hd. }
  destruct (Hsafe h (le_n _)) as (Ht & _ & _ & Hr).
  - intros l c Hl Hlook. apply lookup_lt_Some in Hlook. lia.
  - split; [|exact Hr]. rewrite Ht. apply firstn_all.
Qed.

(** *** The value of the document *)

Lemma readObject_extend (h k : store) r o :
  readObject h r = Some o -> readObject (h ++ k) r = Some o.
Proof.
  unfold readObject. destruct r as [l|]; [|auto].
  destruct (h !! addr l) as [c|] eqn:E; [|discriminate].
  rewrite (lookup_app_l_Some _ _ _ _ E). auto.
Qed.

Lemma mapM_extend {A B : Type} (f g : A -> option B) (l : list A) k :
  Forall (fun x => forall y, f x = Some y -> g x = Some y) l ->
  mapM f l = Some k -> mapM g l = Some k.
Proof.
  intros Hall H. apply mapM_Some in H. apply mapM_Some.
  induction H as [|x y r k' Hxy Hr IH]; constructor.
  - apply Forall_cons in Hall as [Hx _]. auto.
  - apply Forall_cons in Hall as [_ Hr']. auto.
Qed.

(** More objects and more steps do not change the value that is read. *)
Lemma readElement_extend (h k : store) :
  forall fuel fuel' l el,
    fuel <= fuel' ->
    readElement fuel h l = Some el -> readElement fuel' (h ++ k) l = Some el.
Proof.
  induction fuel as [|fuel IH]; intros fuel' l el Hle H; [discriminate|].
  destruct fuel' as [|fuel']; [lia|].
  cbn [readElement] in *.
  destruct (h !! addr l) as [c|] eqn:E; [|discriminate].
  rewrite (lookup_app_l_Some _ _ _ _ E).
  destruct c as [x| | | |]; try discriminate.
  destruct (readObject h (e_config x)) as [cfg|] eqn:Ec; [|discriminate].
  rewrite (readObject_extend _ k _ _ Ec).
  destruct (readObject h (e_visibility x)) as [vis|] eqn:Ev; [|discriminate].
  rewrite (readObject_extend _ k _ _ Ev).
  destruct (readObject h (e_styling x)) as [sty|] eqn:Es; [|discriminate].
  rewrite (readObject_extend _ k _ _ Es).
  cbn [mbind option_bind] in *.
  destruct (e_elements x) as [a|]; [|exact H].
  destruct (h !! addr a) as [c|] eqn:Ea; [|discriminate].
  rewrite (lookup_app_l_Some _ _ _ _ Ea).
  destruct c as [| |items| |]; try discriminate.
  destruct (mapM (readElement fuel h) items) as [ch|] eqn:Em;
    [|discriminate].
  rewrite (mapM_extend (readElement fuel h) (readElement fuel' (h ++ k))
             items ch); [exact H| |exact Em].
  apply Forall_forall. intros child _ y Hy. apply IH; [lia|exact Hy].
Qed.

Lemma readDocument_extend (h k : store) l d :
  readDocument h l = Some d -> readDocument (h ++ k) l = Some d.
Proof.
  unfold readDocument. intros H.
  destruct (h !! addr l) as [c|] eqn:E; [|discriminate].
  rewrite (lookup_app_l_Some _ _ _ _ E).
  destruct c as [| | | |a r]; try discriminate.
  destruct (h !! addr a) as [c|] eqn:Ea; [|discriminate].
  rewrite (lookup_app_l_Some _ _ _ _ Ea).
  destruct c as [| |items| |]; try discriminate.
  destruct (h !! addr r) as [c|] eqn:Er; [|discriminate].
  rewrite (lookup_app_l_Some _ _ _ _ Er).
  destruct c as [| | |attrs|]; try discriminate.
  destruct (mapM (readElement (length h) h) items) as [els|] eqn:Em;
    [|discriminate].
  rewrite (mapM_extend (readElement (length h) h)
             (readElement (length (h ++ k)) (h ++ k)) items els);
    [exact H| |exact Em].
  apply Forall_forall. intros child _ y Hy.
  apply (readElement_extend h k (length h)); [rewrite length_app; lia|exact Hy].
Qed.

(** On the sample batch and on each of its beginnings the interpreter
    on the store returns the document that [applyOperations] computes
    from the value of the input. *)
Lemma applyOperationsAt_on_sampleBatch :
  Forall
    (fun k =>
       returnedValue sampleEnv sampleDoc (take k sampleBatch)
       = applyOperations sampleEnv sampleDoc (take k sampleBatch)
       /\ is_Some (applyOperations sampleEnv sampleDoc (take k sampleBatch)))
    (seq 0 13).
Proof. repeat constructor; vm_compute; eauto. Qed.

(** The loop itself writes in place: run on the document of the caller,
    it changes that document. *)
Lemma runBatch_writes_in_place :
  exists e h data operations d,
    readDocument h data = Some d /\
    readDocument (runBatch e data operations h).2 data <> Some d.
Proof.
  exists sampleEnv, (newDocument sampleDoc []).2, (Loc 19),
    [withUid "t" (bareOp "delete")], sampleDoc.
  split; [vm_compute; reflexivity|]. vm_compute. discriminate.
Qed.

(** C6. [applyOperations] does not modify the caller-supplied input.
    For every store of the caller, every reference [exportData] and
    every batch: each object that the store held before the call is
    after the call what it was before, whether the call returns or
    raises; so the value of the input document is after the call its
    value before the call; and the document returned is a new object,
    none of the caller's. *)
Theorem applyOperations_leaves_input_unchanged
    (e : env) (exportData : loc) (operations : list operation) (h : store) :
  (forall l c,
     h !! l = Some c ->
     (applyOperationsAt e exportData operations h).2 !! l = Some c) /\
  readDocument (applyOperationsAt e exportData operations h).2 exportData
  = readDocument h exportData /\
  (forall data,
     (applyOperationsAt e exportData operations h).1 = Some data ->
     h !! addr data = None).
Proof.
  destruct (applyOperationsAt_frame e exportData operations h) as [Ht Hnew].
  assert (Hext : (applyOperationsAt e exportData operations h).2
                 = h ++ drop (length h)
                          (applyOperationsAt e exportData operations h).2).
  { rewrite <- (take_drop (length h)
                   (applyOperationsAt e exportData operations h).2) at 1.
    rewrite Ht. reflexivity. }
  split; [|split].
  - intros l c Hl. rewrite Hext. apply lookup_app_l_Some, Hl.
  - destruct (readDocument h exportData) as [d|] eqn:Ed.
    + rewrite Hext. apply readDocument_extend, Ed.
    + unfold applyOperationsAt, read, mbind, action_bind. rewrite Ed.
      cbn. exact Ed.
  - intros data Hd. apply lookup_ge_None. apply Hnew, Hd.
Qed.

(** ** Objects *)

Lemma getProp_setProp_eq k v o : getProp k (setProp k v o) = Some v.
Proof.
  induction o as [|[k' v'] o IH]; simpl.
  - rewrite String.eqb_refl. reflexivity.
  - destruct (String.eqb k' k) eqn:E; simpl.
    + rewrite String.eqb_refl. reflexivity.
    + rewrite E. exact IH.
Qed.

Lemma getProp_setProp_ne k k' v o :
  k <> k' -> getProp k (setProp k' v o) = getProp k o.
Proof.
  intros Hne. induction o as [|[k2 v2] o IH]; simpl.
  - destruct (String.eqb k' k) eqn:E; [|reflexivity].
    apply String.eqb_eq in E. congruence.
  - destruct (String.eqb k2 k') eqn:E; simpl.
    + apply String.eqb_eq in E. subst k2.
      destruct (String.eqb k' k) eqn:E2; [|reflexivity].
      apply String.eqb_eq in E2. congruence.
    + destruct (String.eqb k2 k); [reflexivity|exact IH].
Qed.

Lemma getProp_setIfDefined_ne k k' v o :
  k <> k' -> getProp k (setIfDefined k' v o) = getProp k o.
Proof.
  intros Hne. destruct v; simpl; [apply getProp_setProp_ne; exact Hne|].
  reflexivity.
Qed.

(** ** The text rewrite of [bulk_replace] *)

(** The toggles of [bulk_replace] leave [config.text] as it is. *)
Lemma bulk_toggles_keep_text (op : operation) (isGroup : bool) (cfg : obj) :
  getProp "text"
    (setIfDefined "hide_label" (op_set_hide_label op)
       (let c3 :=
          let c2 :=
            let c1 := setIfDefined "read_only" (op_set_read_only op)
                        (setIfDefined "required" (op_set_required op) cfg) in
            if isGroup
            then setIfDefined "collapsible" (op_set_collapsible op) c1
            else c1 in
          if isGroup
          then setIfDefined "show_in_toc" (op_set_show_in_toc op) c2
          else c2 in
        if isGroup
        then setIfDefined "default_open" (op_set_default_open op) c3
        else c3))
  = getProp "text" cfg.
Proof.
  destruct isGroup; cbn zeta;
    repeat (rewrite getProp_setIfDefined_ne by discriminate); reflexivity.
Qed.

Lemma nonEmpty_Some s : s <> "" -> nonEmpty (Some s) = true.
Proof.
  intros H. simpl. destruct (String.eqb s "") eqn:E; [|reflexivity].
  apply String.eqb_eq in E. contradiction.
Qed.

(** With a color pair, the literal pair does not reach the patch. *)
Lemma bulkElement_ignores_literal (op : operation) (el : node) (fc rc : string) :
  op_find_color op = Some fc -> fc <> "" ->
  op_replace_color op = Some rc -> rc <> "" ->
  forall f r,
    bulkElement (withLiteral f r op) el
      = bulkElement (withLiteral None None op) el.
Proof.
  intros Hfc Hfc' Hrc Hrc' f r.
  pose proof (nonEmpty_Some fc Hfc') as Nfc.
  pose proof (nonEmpty_Some rc Hrc') as Nrc.
  unfold bulkElement. cbn [withLiteral op_find op_replace
    op_find_color op_replace_color op_set_required op_set_read_only
    op_set_hidden op_set_collapsible op_set_show_in_toc
    op_set_default_open op_set_hide_label].
  rewrite Hfc, Hrc, Nfc, Nrc.
  match goal with
  | |- match ?g with _ => _ end = _ => destruct g as [t|]; [|reflexivity]
  end.
  destruct (truthy t); reflexivity.
Qed.

(** With a color pair, the text of an element with text content becomes
    its color rewrite. *)
Lemma bulkElement_color_text (op : operation) (el : node)
    (fc rc html : string) :
  op_find_color op = Some fc -> fc <> "" ->
  op_replace_color op = Some rc -> rc <> "" ->
  textOf el = Some (JStr html) -> html <> "" ->
  match replaceColorsInHtml html fc rc with
  | Some html' =>
      exists el',
        bulkElement op el = Some el' /\ textOf el' = Some (JStr html')
  | None => bulkElement op el = None
  end.
Proof.
  intros Hfc Hfc' Hrc Hrc' Ht Hne.
  pose proof (nonEmpty_Some fc Hfc') as Nfc.
  pose proof (nonEmpty_Some rc Hrc') as Nrc.
  unfold textOf in Ht. unfold bulkElement.
  rewrite bulk_toggles_keep_text, Ht, Hfc, Hrc, Nfc, Nrc.
  cbn [truthy].
  destruct (String.eqb html "") eqn:E;
    [apply String.eqb_eq in E; contradiction|].
  cbn [negb andb].
  destruct (replaceColorsInHtml html fc rc) as [html'|]; simpl;
    [|reflexivity].
  eexists. split; [reflexivity|]. unfold textOf. simpl.
  apply getProp_setProp_eq.
Qed.

(** The whole branch does not depend on the literal pair either. *)
Lemma execBulkReplace_ignores_literal (op : operation) (fc rc : string)
    (st : state) :
  op_find_color op = Some fc -> fc <> "" ->
  op_replace_color op = Some rc -> rc <> "" ->
  forall f r,
    execBulkReplace (withLiteral f r op) st
      = execBulkReplace (withLiteral None None op) st.
Proof.
  intros Hfc Hfc' Hrc Hrc' f r. unfold execBulkReplace.
  change (op_uids (withLiteral f r op)) with (op_uids op).
  change (op_uids (withLiteral None None op)) with (op_uids op).
  f_equal. generalize (st_elements st) as els.
  induction (default [] (op_uids op)) as [|u rest IH]; intros els;
    [reflexivity|].
  cbn [bulkLoop]. destruct (findElementByUid els u) as [el|]; [|apply IH].
  rewrite (bulkElement_ignores_literal op el fc rc Hfc Hfc' Hrc Hrc' f r).
  destruct (bulkElement (withLiteral None None op) el) as [el'|];
    [|reflexivity].
  simpl. apply IH.
Qed.

(** ** Paths *)

Lemma arrayAt_modifyArrayAt p f :
  forall els arr,
    arrayAt p els = Some arr ->
    arrayAt p (modifyArrayAt p f els) = Some (f arr).
Proof.
  induction p as [|i p IH]; intros els arr H; simpl in *.
  - congruence.
  - destruct (els !! i) as [el|] eqn:Hi; [|discriminate].
    destruct (elements el) as [ch|] eqn:Hc; [|discriminate].
    rewrite list_lookup_alter_eq, Hi. simpl. rewrite Hc.
    destruct el; simpl in *. subst. apply IH. exact H.
Qed.

Lemma spliceAt_insert_lookup (i : nat) (x : node) (arr : list node) :
  i <= length arr ->
  spliceAt (Z.of_nat i) 0 [x] arr !! i = Some x.
Proof.
  intros Hle. unfold spliceAt, splice, clampStart.
  assert ((Z.of_nat i <? 0)%Z = false) as -> by lia.
  rewrite Nat2Z.id, Nat.min_l by exact Hle.
  rewrite lookup_app_r by (rewrite length_take; lia).
  rewrite length_take, Nat.min_l by exact Hle.
  replace (i - i) with 0 by lia. reflexivity.
Qed.

(** The guarded splice of [clone_subtree] puts the new element next to
    the element that [findParentOf] located. *)
Lemma spliceOut_insert_lookup (before : bool) x els u p i :
  findParentOf els u = Some (p, i) ->
  nodeAt p (if before then i else S i)
         (spliceOut 0 [x] (if before then 0 else 1) els (Some u))
    = Some x.
Proof.
  intros H. unfold spliceOut, findParentOpt. rewrite H.
  pose proof (findParentOf_spec els u) as Hs. rewrite H in Hs.
  destruct Hs as (arr & el & Harr & (Hi & Hu & Hidx) & _).
  unfold nodeAt. rewrite (arrayAt_modifyArrayAt _ _ _ _ Harr).
  rewrite Hidx.
  assert ((Z.of_nat i =? -1)%Z = false) as -> by lia.
  apply lookup_lt_Some in Hi.
  destruct before.
  - rewrite Z.add_0_r. apply spliceAt_insert_lookup. lia.
  - replace (Z.of_nat i + 1)%Z with (Z.of_nat (S i)) by lia.
    apply spliceAt_insert_lookup. lia.
Qed.

(** ** Clone/transform engine *)

Lemma transformOne_shape e lf lr sfx el n el1 :
  transformOne e lf lr sfx el n = Some el1 ->
  element_type el1 = element_type el /\
  name el1 = suffixName sfx el /\
  elements el1 = elements el.
Proof.
  unfold transformOne. intros H.
  destruct (if nonEmpty lf && nonEmpty lr then _ else _) as [[c l]|];
    [|discriminate].
  injection H as <-. auto.
Qed.

Lemma mapThreadOpt_all2 (R : node -> node -> Prop)
    (f : node -> nat -> option (node * nat)) (ch : list node) :
  Forall (fun x => forall n y n', f x n = Some (y, n') -> R x y) ch ->
  forall n ch' n', mapThreadOpt f ch n = Some (ch', n') -> all2 R ch ch'.
Proof.
  induction 1 as [|x r Hx _ IH]; intros n ch' n' H; simpl in H.
  - injection H as <- _. exact I.
  - destruct (f x n) as [[y n1]|] eqn:Ef; [|discriminate].
    destruct (mapThreadOpt f r n1) as [[ys n2]|] eqn:Er; [|discriminate].
    injection H as <- _. simpl. split; [eapply Hx; eauto|eapply IH; eauto].
Qed.

Lemma suffixName_named sfx el n :
  sfx <> "" -> isAttribute el = true -> name el = Some n -> n <> "" ->
  suffixName sfx el = Some (String.append n sfx).
Proof.
  intros Hs Ha Hn Hne. unfold suffixName. unfold isAttribute in Ha.
  rewrite Ha, Hn, (nonEmpty_Some n Hne).
  destruct (String.eqb sfx "") eqn:E;
    [apply String.eqb_eq in E; contradiction|].
  reflexivity.
Qed.

(** [transformElement] with a suffix yields a copy of its argument with
    the suffix on the field names that are not empty. *)
Lemma transformElement_suffixes e lf lr sfx :
  sfx <> "" ->
  forall src n cloned n',
    transformElement e lf lr sfx src n = Some (cloned, n') ->
    suffixedWhereNamed sfx src cloned.
Proof.
  intros Hs src. induction src as [src IH] using node_nested_ind.
  intros n cloned n' H.
  destruct src as [ty nm ud lb cf vs sy es]. cbn [transformElement] in H.
  destruct (transformOne e lf lr sfx _ n) as [el1|] eqn:E1; [|discriminate].
  apply transformOne_shape in E1. destruct E1 as (Hty & Hnm & Hes).
  assert (HQ : forall c, name c = name el1 ->
                         nameSuffixedIfNamed sfx
                           (Node ty nm ud lb cf vs sy es) c).
  { intros c Hc Ha k Hk Hne. rewrite Hc, Hnm.
    apply suffixName_named; assumption. }
  cbn [elements element_type] in *.
  destruct es as [ch|].
  - destruct (mapThreadOpt _ ch (S n)) as [[ch' n2]|] eqn:Em; [|discriminate].
    injection H as <- _. unfold suffixedWhereNamed. cbn [copyWith].
    cbn [setElements element_type name elements].
    split; [exact Hty|]. split; [apply HQ; reflexivity|].
    eapply mapThreadOpt_all2; [|exact Em].
    eapply Forall_impl; [exact (IH ch eq_refl)|].
    intros x Hx k y k'. apply Hx.
  - injection H as <- _. unfold suffixedWhereNamed. cbn [copyWith].
    cbn [element_type name elements]. rewrite Hes.
    split; [exact Hty|]. split; [apply HQ; reflexivity|exact I].
Qed.

Lemma transformOne_raises e lf lr sfx el n :
  transformOne e lf lr sfx el n = None ->
  nonEmpty lf && nonEmpty lr = true.
Proof.
  unfold transformOne.
  destruct (nonEmpty lf && nonEmpty lr); [reflexivity|discriminate].
Qed.

Lemma mapThreadOpt_raises (f : node -> nat -> option (node * nat))
    (ch : list node) (Q : Prop) :
  Forall (fun x => forall n, f x n = None -> Q) ch ->
  forall n, mapThreadOpt f ch n = None -> Q.
Proof.
  induction 1 as [|x r Hx _ IH]; intros n H; simpl in H; [discriminate|].
  destruct (f x n) as [[y n1]|] eqn:Ef; [|eapply Hx; eauto].
  destruct (mapThreadOpt f r n1) as [[ys n2]|] eqn:Er; [discriminate|].
  eapply IH; eauto.
Qed.

(** [transformElement] raises only inside the label rewrite. *)
Lemma transformElement_raises e lf lr sfx :
  forall src n,
    transformElement e lf lr sfx src n = None ->
    nonEmpty lf && nonEmpty lr = true.
Proof.
  intros src. induction src as [src IH] using node_nested_ind. intros n H.
  destruct src as [ty nm ud lb cf vs sy es]. cbn [transformElement] in H.
  destruct (transformOne e lf lr sfx _ n) as [el1|] eqn:E1;
    [|eapply transformOne_raises; eauto].
  cbn [elements] in *. destruct es as [ch|]; [|discriminate].
  destruct (mapThreadOpt _ ch (S n)) as [[ch' n2]|] eqn:Em; [discriminate|].
  eapply mapThreadOpt_raises; [|exact Em]. exact (IH ch eq_refl).
Qed.

(** ** Attribute registry *)

Lemma hasName_createModelAttribute e t n d ty :
  hasName (Some n) (createModelAttribute e t (Some n) d ty) = true.
Proof.
  unfold hasName, createModelAttribute. cbn. apply String.eqb_refl.
Qed.

Lemma registered_app n xs ys :
  registered n (xs ++ ys) = registered n xs || registered n ys.
Proof. apply existsb_app. Qed.

Lemma ensureModelAttribute_registers e n ty st :
  registered (Some n)
    (st_modelAttrs (ensureModelAttribute e (Some n) ty st)) = true.
Proof.
  unfold ensureModelAttribute.
  destruct (existsb (hasName (Some n)) (st_modelAttrs st)) eqn:E;
    [exact E|].
  cbn [st_modelAttrs]. rewrite registered_app. apply orb_true_iff. right.
  unfold registered. cbn [existsb].
  rewrite hasName_createModelAttribute. reflexivity.
Qed.

(** The registry only grows. *)
Lemma ensureModelAttribute_keeps e m n ty st :
  registered m (st_modelAttrs st) = true ->
  registered m (st_modelAttrs (ensureModelAttribute e n ty st)) = true.
Proof.
  intros H. unfold ensureModelAttribute.
  destruct (existsb (hasName n) (st_modelAttrs st)); [exact H|].
  cbn [st_modelAttrs]. rewrite registered_app, H. reflexivity.
Qed.

Lemma ensureModelAttribute_elements e n ty st :
  st_elements (ensureModelAttribute e n ty st) = st_elements st.
Proof.
  unfold ensureModelAttribute.
  destruct (existsb (hasName n) (st_modelAttrs st)); reflexivity.
Qed.

Lemma ensureAll_keeps e m names :
  forall st,
    registered m (st_modelAttrs st) = true ->
    registered m
      (st_modelAttrs
         (fold_left (fun acc fieldName =>
                       ensureModelAttribute e (Some fieldName) "string" acc)
                    names st)) = true.
Proof.
  induction names as [|k r IH]; intros st H; simpl; [exact H|].
  apply IH, ensureModelAttribute_keeps, H.
Qed.

Lemma ensureAll_registers e names :
  forall st n,
    In n names ->
    registered (Some n)
      (st_modelAttrs
         (fold_left (fun acc fieldName =>
                       ensureModelAttribute e (Some fieldName) "string" acc)
                    names st)) = true.
Proof.
  induction names as [|k r IH]; intros st n Hin; simpl; [destruct Hin|].
  destruct Hin as [->|Hin]; [|apply IH, Hin].
  apply ensureAll_keeps, ensureModelAttribute_registers.
Qed.

(** [collectFieldNames] lists the field name of every Field-reference
    node that has one. *)
Lemma collectFieldNames_complete el :
  Forall (fun c => isAttribute c = true ->
                   forall n, name c = Some n -> n <> "" ->
                             In n (collectFieldNames el))
         (nodesOf el).
Proof.
  induction el as [el IH] using node_nested_ind.
  destruct el as [ty nm ud lb cf vs sy es].
  cbn [nodesOf collectFieldNames elements element_type name].
  constructor.
  - intros Ha n Hn Hne. unfold isAttribute in Ha. cbn in Ha, Hn.
    rewrite Ha. subst nm. rewrite (nonEmpty_Some n Hne). cbn. auto.
  - destruct es as [ch|]; [|constructor].
    specialize (IH ch eq_refl). apply List.Forall_forall.
    intros c Hc Ha n Hn Hne. apply in_flat_map in Hc.
    destruct Hc as (x & Hx & Hcx). apply in_or_app. right.
    apply in_flat_map. exists x. split; [exact Hx|].
    rewrite List.Forall_forall in IH. specialize (IH x Hx).
    rewrite List.Forall_forall in IH. exact (IH c Hcx Ha n Hn Hne).
Qed.

(** C7, as the code has it. For a [clone_subtree] with a non-empty
    field suffix whose source exists: unless the label rewrite raises,
    a clone is inserted next to the source (before it or after it, as
    the position says); it is a copy of the source in which every
    Field-reference node with a non-empty field name has that name
    followed by the suffix; and the registry afterwards has an entry
    for every non-empty field name of the clone. *)
Theorem clone_subtree_suffixes_named_fields
    (e : env) (op : operation) (st : state) (sfx src : string)
    (sourceEl : node) :
  op_field_suffix op = Some sfx -> sfx <> "" ->
  op_source_uid op = Some src ->
  findElementByUid (st_elements st) src = Some sourceEl ->
  match execCloneSubtree e op st with
  | Some st' =>
      exists p i cloned,
        findParentOf (st_elements st) src = Some (p, i) /\
        nodeAt p (cloneIndex op i) (st_elements st') = Some cloned /\
        suffixedWhereNamed sfx sourceEl cloned /\
        namedFieldsRegistered (st_modelAttrs st') cloned
  | None =>
      nonEmpty (op_label_find op) && nonEmpty (op_label_replace op) = true
  end.
Proof.
  intros Hsfx Hne Hsrc Hfind. unfold execCloneSubtree.
  rewrite Hsfx, Hsrc. change (default "" (Some sfx)) with sfx.
  cbn [mbind option_bind]. rewrite Hfind.
  destruct (transformElement e (op_label_find op) (op_label_replace op) sfx
              sourceEl (st_uids st)) as [[cloned n]|] eqn:Et;
    cbn [mbind option_bind];
    [|eapply transformElement_raises; eauto].
  pose proof (findParentOf_spec (st_elements st) src) as Hs.
  destruct (findParentOf (st_elements st) src) as [[p i]|] eqn:Ep;
    [|congruence].
  exists p, i, cloned. split; [reflexivity|].
  destruct (String.eqb sfx "") eqn:E;
    [apply String.eqb_eq in E; contradiction|].
  cbn [negb]. split; [|split].
  - unfold withElements, cloneIndex. cbn [st_elements].
    apply (spliceOut_insert_lookup
             (String.eqb (positionOrAfter op) "before")). exact Ep.
  - eapply transformElement_suffixes; eauto.
  - unfold namedFieldsRegistered, withElements. cbn [st_modelAttrs].
    eapply Forall_impl; [apply collectFieldNames_complete|].
    intros c Hc Ha k Hk Hk'. apply ensureAll_registers.
    exact (Hc Ha k Hk Hk').
Qed.

(** The theorem at the sample document: the section [g] is cloned with
    the suffix [_y2]. *)
Lemma clone_subtree_suffixes_named_fields_witness :
  let op := cloneSubtreeOp "g" "after" "_y2" in
  let st := initialState sampleDoc in
  let sourceEl :=
    groupNode "g" "Section 1"
      [textNode "t" "Hello"; fieldNode "f" "amount"] in
  (op_field_suffix op = Some "_y2" /\ "_y2" <> "" /\
   op_source_uid op = Some "g" /\
   findElementByUid (st_elements st) "g" = Some sourceEl) /\
  match execCloneSubtree sampleEnv op st with
  | Some st' =>
      exists p i cloned,
        findParentOf (st_elements st) "g" = Some (p, i) /\
        nodeAt p (cloneIndex op i) (st_elements st') = Some cloned /\
        suffixedWhereNamed "_y2" sourceEl cloned /\
        namedFieldsRegistered (st_modelAttrs st') cloned
  | None =>
      nonEmpty (op_label_find op) && nonEmpty (op_label_replace op) = true
  end.
Proof.
  intros op st sourceEl. split.
  - repeat split; (reflexivity || discriminate).
  - apply (clone_subtree_suffixes_named_fields sampleEnv op st "_y2" "g"
             sourceEl); (reflexivity || discriminate).
Defined.

(** C7 as stated fails on a Field-reference node whose field name is the
    empty string: [transformElement] appends the suffix only to a field
    name that is truthy, so the clone of such a node keeps the empty
    name, the clone is no copy with the suffix on every field name, and
    the registry gets no entry for the suffix alone. *)
Lemma clone_subtree_empty_field_name_counterexample :
  let op := cloneSubtreeOp "g" "after" "_y2" in
  let st := initialState unnamedFieldDoc in
  let sourceEl :=
    groupNode "g" "Section 1" [fieldNode "f" "amount"; fieldNode "u" ""] in
  op_field_suffix op = Some "_y2" /\
  op_source_uid op = Some "g" /\
  findElementByUid (st_elements st) "g" = Some sourceEl /\
  exists st' cloned,
    execCloneSubtree sampleEnv op st = Some st' /\
    findParentOf (st_elements st) "g" = Some ([], 0) /\
    nodeAt [] (cloneIndex op 0) (st_elements st') = Some cloned /\
    (name <$> children cloned) = [Some "amount_y2"; Some ""] /\
    ~ suffixedCopy "_y2" sourceEl cloned /\
    registered (Some "_y2") (st_modelAttrs st') = false.
Proof.
  intros op st sourceEl.
  split; [reflexivity|]. split; [reflexivity|]. split; [reflexivity|].
  eexists. eexists.
  split; [vm_compute; reflexivity|].
  split; [reflexivity|].
  split; [vm_compute; reflexivity|].
  split; [reflexivity|].
  split; [|vm_compute; reflexivity].
  unfold suffixedCopy. cbn [copyWith elements]. intros (_ & _ & H).
  cbn [sourceEl groupNode setElements elements all2] in H.
  destruct H as (_ & (_ & Hu & _) & _).
  specialize (Hu eq_refl "" eq_refl). discriminate Hu.
Qed.

(** ** The scan of [replace] *)


Lemma scanFrom_skip (m : matcher) (a : text) :
  forall before s,
    scanFrom m (length a) before (a ++ s) = scanFrom m 0 (before ++ a) s.
Proof.
  induction a as [|c a IH]; intros before s; simpl.
  - rewrite app_nil_r. destruct s; reflexivity.
  - rewrite IH, <- app_assoc. reflexivity.
Qed.

(** The relation describes what the scan computes. *)
Lemma scansFrom_scanFrom (m : matcher) before s out :
  scansFrom m before s out -> scanFrom m 0 before s = out.
Proof.
  induction 1 as [b|b c s out Hm _ IH|b tok z sub out Hm Hne _ IH].
  - reflexivity.
  - simpl. rewrite Hm, IH. reflexivity.
  - destruct tok as [|c tok]; [contradiction|].
    change ((c :: tok) ++ z) with (c :: (tok ++ z)) in *.
    cbn [scanFrom]. rewrite Hm. cbn [length pred].
    rewrite scanFrom_skip, <- app_assoc. simpl. rewrite IH. reflexivity.
Qed.

Lemma scanFrom_scansFrom (m : matcher) :
  matchesWithin m ->
  forall s before, scansFrom m before s (scanFrom m 0 before s).
Proof.
  intros Hw s. remember (length s) as k eqn:Hk. revert s Hk.
  induction k as [k IH] using lt_wf_ind. intros s Hk before.
  assert (IH' : forall s', length s' < length s ->
                 forall b, scansFrom m b s' (scanFrom m 0 b s')).
  { intros s' Hlt b. eapply (IH (length s')); eauto. lia. }
  clear IH. destruct s as [|c s]; [constructor|].
  cbn [scanFrom]. destruct (m (c :: s)) as [[n sub]|] eqn:Hm.
  - destruct (Hw _ _ _ Hm) as [H1 Hn]. simpl in Hn.
    destruct n as [|n]; [lia|]. cbn [pred].
    rewrite <- (take_drop n s) at 2.
    replace n with (length (take n s)) at 1
      by (rewrite length_take; lia).
    rewrite scanFrom_skip.
    rewrite <- (take_drop n s) at 1.
    change (c :: take n s ++ drop n s) with ((c :: take n s) ++ drop n s).
    replace (before ++ [c] ++ take n s) with (before ++ (c :: take n s))
      by reflexivity.
    rewrite <- app_assoc.
    apply scans_hit.
    + simpl. rewrite take_drop, length_take, Nat.min_l by lia. exact Hm.
    + discriminate.
    + apply IH'. simpl. rewrite length_drop. lia.
  - apply scans_miss; [exact Hm|]. apply IH'. simpl. lia.
Qed.

(** ** The pieces of the expressions *)

Lemma sameChar_eq a b : sameChar a b = true <-> canon a = canon b.
Proof. unfold sameChar. apply Ascii.eqb_eq. Qed.

(** A literal that matches is there, up to case. *)
Lemma matchLit_sound pat :
  forall s rest,
    matchLit pat s = Some rest ->
    exists mt, s = mt ++ rest /\ sameText mt pat /\ length mt = length pat.
Proof.
  induction pat as [|p pat IH]; intros s rest H; simpl in H.
  - injection H as <-. exists []. repeat split.
  - destruct s as [|c s]; [discriminate|].
    destruct (sameChar p c) eqn:E; [|discriminate].
    destruct (IH _ _ H) as (mt & -> & Hs & Hl).
    exists (c :: mt). repeat split.
    + unfold sameText in *. simpl. apply sameChar_eq in E. congruence.
    + simpl. congruence.
Qed.

Lemma takeWhile_skipWhile P s : takeWhile P s ++ skipWhile P s = s.
Proof.
  induction s as [|c s IH]; simpl; [reflexivity|].
  destruct (P c); simpl; congruence.
Qed.

Lemma takeWhile_all P s : forallb P (takeWhile P s) = true.
Proof.
  induction s as [|c s IH]; simpl; [reflexivity|].
  destruct (P c) eqn:E; simpl; [rewrite E; exact IH|reflexivity].
Qed.

Lemma expect_sound c s rest : expect c s = Some rest -> s = c :: rest.
Proof.
  destruct s as [|x s]; simpl; [discriminate|].
  destruct (Ascii.eqb x c) eqn:E; [|discriminate].
  apply Ascii.eqb_eq in E. congruence.
Qed.

Lemma matchProperty_sound s rest :
  matchProperty s = Some rest ->
  exists p, s = p ++ rest /\ isPropertyName p.
Proof.
  unfold matchProperty, isPropertyName. intros H.
  destruct (matchLit (chars "color") s) as [t|] eqn:E1.
  - injection H as <-. destruct (matchLit_sound _ _ _ E1) as (p & ? & ? & _).
    eauto.
  - destruct (matchLit (chars "background-color") s) as [t|] eqn:E2.
    + injection H as <-.
      destruct (matchLit_sound _ _ _ E2) as (p & ? & ? & _). eauto.
    + destruct (matchLit_sound _ _ _ H) as (p & ? & ? & _). eauto 6.
Qed.

(** A match of the keyword expression is a declaration context, the
    keyword, and a word boundary. *)
Lemma matchKeyword_sound kw s s3 s4 :
  matchKeyword kw s = Some (s3, s4) ->
  exists ctx k,
    s = ctx ++ k ++ s4 /\ s3 = k ++ s4 /\ declarationContext ctx /\
    sameText k kw /\ length k = length kw /\ boundary s4 = true.
Proof.
  unfold matchKeyword. intros H.
  destruct (matchProperty s) as [s1|] eqn:E1; simpl in H; [|discriminate].
  destruct (expect ":" (skipWhile isSpace s1)) as [s2|] eqn:E2; simpl in H;
    [|discriminate].
  destruct (matchLit kw (skipWhile isSpace s2)) as [s4'|] eqn:E3; simpl in H;
    [|discriminate].
  destruct (boundary s4') eqn:E4; [|discriminate].
  injection H as <- <-.
  destruct (matchProperty_sound _ _ E1) as (p & -> & Hp).
  apply expect_sound in E2.
  destruct (matchLit_sound _ _ _ E3) as (k & Hk & Hsame & Hlen).
  exists (p ++ takeWhile isSpace s1 ++ ":"%char :: takeWhile isSpace s2), k.
  split; [|split; [exact Hk|split; [|auto]]].
  - rewrite <- (takeWhile_skipWhile isSpace s1) at 1. rewrite E2.
    rewrite <- (takeWhile_skipWhile isSpace s2) at 1. rewrite Hk.
    repeat (rewrite <- app_assoc; simpl). reflexivity.
  - constructor; auto using takeWhile_all.
Qed.

Lemma declarationContext_length ctx : declarationContext ctx -> 1 <= length ctx.
Proof.
  intros [p w1 w2 Hp _ _]. rewrite !length_app. simpl. lia.
Qed.

(** The template of the keyword rewrite starts with the first group. *)
Lemma getSubstitution_group1 g matched before after target :
  exists repl,
    getSubstitution [g] matched before after (chars "$1" ++ target)
      = g ++ repl.
Proof.
  cbn [chars list_ascii_of_string app getSubstitution].
  change (Ascii.eqb "$" "$") with true. cbv iota.
  change (Ascii.eqb "1" "$") with false.
  change (Ascii.eqb "1" "&") with false.
  change (Ascii.eqb "1" "`") with false.
  change (Ascii.eqb "1" "'") with false.
  change (isDigit "1") with true. cbv iota.
  destruct target as [|d2 r2].
  - exists []. rewrite app_nil_r. reflexivity.
  - assert (validRef [g] (10 * digitVal "1" + digitVal d2) = false) as ->.
    { unfold validRef. change (digitVal "1") with 1. simpl length.
      apply andb_false_iff. right. apply Nat.leb_gt. lia. }
    rewrite andb_false_r. change (validRef [g] (digitVal "1")) with true.
    cbv iota. change (nth (digitVal "1" - 1) [g] []) with g. eauto.
Qed.

Lemma keywordMatcher_within kw target : matchesWithin (keywordMatcher kw target).
Proof.
  intros s n sub H. unfold keywordMatcher in H.
  destruct (matchKeyword kw s) as [[s3 s4]|] eqn:E; [|discriminate].
  injection H as <- _.
  destruct (matchKeyword_sound _ _ _ _ E) as (ctx & k & -> & _ & Hc & _).
  apply declarationContext_length in Hc. rewrite !length_app. lia.
Qed.

(** A match of the keyword matcher spelled out. *)
Lemma keywordMatcher_hit kw target s n sub :
  keywordMatcher kw target s = Some (n, sub) ->
  exists ctx k z,
    s = (ctx ++ k) ++ z /\ n = length (ctx ++ k) /\
    declarationContext ctx /\ sameText k kw /\ length k = length kw /\
    boundary z = true /\
    forall before,
      sub before
        = getSubstitution [ctx] (ctx ++ k) before z (chars "$1" ++ target).
Proof.
  unfold keywordMatcher. intros H.
  destruct (matchKeyword kw s) as [[s3 s4]|] eqn:E; [|discriminate].
  destruct (matchKeyword_sound _ _ _ _ E)
    as (ctx & k & -> & -> & Hc & Hk & Hl & Hb).
  exists ctx, k, s4.
  assert (Hn : length (ctx ++ k ++ s4) - length s4 = length (ctx ++ k))
    by (rewrite !length_app; lia).
  assert (Hg : length (ctx ++ k ++ s4) - length (k ++ s4) = length ctx)
    by (rewrite !length_app; lia).
  rewrite Hn, Hg in H.
  rewrite take_app_length in H.
  rewrite (app_assoc ctx k s4), take_app_length in H.
  injection H as <- <-.
  rewrite <- app_assoc. repeat split; auto.
Qed.

(** * Idempotence of the color rewrite *)

(** ** Character classes *)

Ltac by_cases_on c :=
  destruct c as [[] [] [] [] [] [] [] []]; vm_compute;
  try reflexivity; try discriminate; intros; try discriminate; try reflexivity.

Lemma isHex_isWord c : isHex c = true -> isWord c = true.
Proof. by_cases_on c. Qed.

Lemma isDigit_isHex c : isDigit c = true -> isHex c = true.
Proof. by_cases_on c. Qed.

Lemma isDigit_isWord c : isDigit c = true -> isWord c = true.
Proof. by_cases_on c. Qed.

Lemma isSpace_not_word c : isSpace c = true -> isWord c = false.
Proof. by_cases_on c. Qed.

Lemma isLetter_isWord c : isLetter c = true -> isWord c = true.
Proof. by_cases_on c. Qed.

Lemma isLetter_not_digit c : isLetter c = true -> isDigit c = false.
Proof. by_cases_on c. Qed.

Lemma isLetter_not_space c : isLetter c = true -> isSpace c = false.
Proof. by_cases_on c. Qed.

(** A code unit that equals a letter up to case is a letter. *)
Lemma canon_upper_letter c :
  inRange 65 90 (canon c) = true -> isLetter c = true.
Proof. by_cases_on c. Qed.

Lemma canon_of_lower c :
  inRange 97 122 c = true -> inRange 65 90 (canon c) = true.
Proof. by_cases_on c. Qed.

Lemma sameChar_letter p c :
  inRange 97 122 p = true -> sameChar p c = true -> isLetter c = true.
Proof.
  intros Hp H. apply sameChar_eq in H. apply canon_upper_letter.
  rewrite <- H. apply canon_of_lower, Hp.
Qed.

Lemma sameChar_refl c : sameChar c c = true.
Proof. apply sameChar_eq. reflexivity. Qed.

Lemma sameChar_hash c : sameChar c "#" = true -> c = "#"%char.
Proof. by_cases_on c. Qed.

(** ** Runs of a class *)

Lemma skipWhile_app_stop P w s :
  forallb P w = true -> stops P s = true -> skipWhile P (w ++ s) = s.
Proof.
  intros Hw Hs. induction w as [|c w IH]; simpl in *.
  - destruct s as [|d s]; [reflexivity|]. simpl in *.
    destruct (P d); [discriminate|reflexivity].
  - apply andb_true_iff in Hw. destruct Hw as [-> Hw]. auto.
Qed.

Lemma takeWhile_app_stop P w s :
  forallb P w = true -> stops P s = true -> takeWhile P (w ++ s) = w.
Proof.
  intros Hw Hs. induction w as [|c w IH]; simpl in *.
  - destruct s as [|d s]; [reflexivity|]. simpl in *.
    destruct (P d); [discriminate|reflexivity].
  - apply andb_true_iff in Hw. destruct Hw as [-> Hw]. f_equal. auto.
Qed.

Lemma skipWhile_stops P s : stops P (skipWhile P s) = true.
Proof.
  induction s as [|c s IH]; simpl; [reflexivity|].
  destruct (P c) eqn:E; [exact IH|]. simpl. rewrite E. reflexivity.
Qed.

Lemma stops_app P a s : a <> [] -> stops P (a ++ s) = stops P a.
Proof. destruct a; [contradiction|reflexivity]. Qed.

Lemma stops_all_other (P Q : ascii -> bool) w s :
  (forall c, Q c = true -> P c = false) ->
  forallb Q w = true -> stops P s = true -> stops P (w ++ s) = true.
Proof.
  intros H Hw Hs. destruct w as [|c w]; [exact Hs|]. simpl in *.
  apply andb_true_iff in Hw. destruct Hw as [Hc _]. rewrite (H c Hc).
  reflexivity.
Qed.

Lemma matchLit_complete pat :
  forall mt s, sameText mt pat -> matchLit pat (mt ++ s) = Some s.
Proof.
  induction pat as [|p pat IH]; intros mt s H; unfold sameText in H.
  - destruct mt; [reflexivity|discriminate].
  - destruct mt as [|c mt]; [discriminate|]. simpl in *.
    injection H as Hc Ht.
    assert (sameChar p c = true) as -> by (apply sameChar_eq; congruence).
    apply IH. exact Ht.
Qed.

Lemma expect_here c s : expect c (c :: s) = Some s.
Proof. simpl. rewrite Ascii.eqb_refl. reflexivity. Qed.

Lemma digits1_sound s d rest :
  digits1 s = Some (d, rest) ->
  s = d ++ rest /\ d <> [] /\ forallb isDigit d = true /\
  stops isDigit rest = true.
Proof.
  unfold digits1. intros H.
  destruct (takeWhile isDigit s) as [|c d'] eqn:E; [discriminate|].
  injection H as <- <-. rewrite <- E.
  repeat split.
  - symmetry. apply takeWhile_skipWhile.
  - rewrite E. discriminate.
  - apply takeWhile_all.
  - apply skipWhile_stops.
Qed.

Lemma digits1_complete d s :
  d <> [] -> forallb isDigit d = true -> stops isDigit s = true ->
  digits1 (d ++ s) = Some (d, s).
Proof.
  intros Hne Hd Hs. unfold digits1.
  rewrite takeWhile_app_stop, skipWhile_app_stop by assumption.
  destruct d; [contradiction|reflexivity].
Qed.

(** ** The scan of a token function *)

Lemma tokenOf_rewrites m mu :
  tokenOf m mu ->
  forall before s out, scansFrom m before s out -> rewrites mu s out.
Proof.
  intros Ht before s out H.
  induction H as [b|b c s out Hm _ IH|b tok z sub out Hm Hne _ IH].
  - constructor.
  - constructor; [|exact IH]. specialize (Ht (c :: s)). rewrite Hm in Ht.
    exact Ht.
  - specialize (Ht (tok ++ z)). rewrite Hm in Ht.
    destruct Ht as (rep & Hmu & Hsub). rewrite Hsub.
    constructor; assumption.
Qed.

Lemma rewrites_scanFrom m mu :
  tokenOf m mu ->
  forall s out, rewrites mu s out ->
                forall before, scanFrom m 0 before s = out.
Proof.
  intros Ht s out H.
  induction H as [|c s out Hm _ IH|tok z rep out Hm Hne _ IH];
    intros before.
  - reflexivity.
  - pose proof (Ht (c :: s)) as Hc. rewrite Hm in Hc.
    cbn [scanFrom].
    destruct (m (c :: s)) as [[n sub]|].
    + destruct Hc as (r & Hr & _). discriminate.
    + rewrite IH. reflexivity.
  - pose proof (Ht (tok ++ z)) as Hc. rewrite Hm in Hc.
    destruct tok as [|c tok]; [contradiction|].
    change ((c :: tok) ++ z) with (c :: (tok ++ z)) in *.
    cbn [scanFrom].
    destruct (m (c :: tok ++ z)) as [[n sub]|]; [|discriminate].
    destruct Hc as (r & Hr & Hsub). injection Hr as <- <-.
    cbn [length pred]. rewrite scanFrom_skip, Hsub, IH. reflexivity.
Qed.

(** What the matcher computes is the scan of its token function, and a
    text that the scan leaves as it is is a fixed point. *)
Lemma replaceAll_rewrites m mu s :
  tokenOf m mu -> matchesWithin m -> rewrites mu s (replaceAll m s).
Proof.
  intros Ht Hw. eapply tokenOf_rewrites; [exact Ht|].
  apply scanFrom_scansFrom, Hw.
Qed.

Lemma replaceAll_fixed m mu u :
  tokenOf m mu -> rewrites mu u u -> replaceAll m u = u.
Proof.
  intros Ht H. unfold replaceAll. eapply rewrites_scanFrom; eauto.
Qed.

(** ** The structure of an [rgb] match *)

Lemma isSpace_not_a c : isSpace c = true -> sameChar "a" c = false.
Proof. by_cases_on c. Qed.

Lemma isSpace_not_digit c : isSpace c = true -> isDigit c = false.
Proof. by_cases_on c. Qed.

Lemma isDigit_not_space c : isDigit c = true -> isSpace c = false.
Proof. by_cases_on c. Qed.

Lemma stops_space_digits d s :
  d <> [] -> forallb isDigit d = true -> stops isSpace (d ++ s) = true.
Proof.
  intros Hne Hd. destruct d as [|c d]; [contradiction|]. simpl in *.
  apply andb_true_iff in Hd. destruct Hd as [Hc _].
  rewrite (isDigit_not_space c Hc). reflexivity.
Qed.

Lemma stops_digit_spaces w c s :
  forallb isSpace w = true -> isDigit c = false ->
  stops isDigit (w ++ c :: s) = true.
Proof.
  intros Hw Hc. apply (stops_all_other isDigit isSpace).
  - apply isSpace_not_digit.
  - exact Hw.
  - simpl. rewrite Hc. reflexivity.
Qed.

Ltac flatten_apps := repeat (rewrite <- app_assoc; cbn [app]).

(** A head followed by a text that stops the digits: the expression
    matches if and only if a closing parenthesis follows. *)
Lemma matchRgb_head a r g b hd s8 :
  rgbHeadOf a r g b hd -> stops isDigit s8 = true ->
  matchRgb (hd ++ s8) =
    (s9 ← expect ")" (skipWhile notClose s8);
     Some (RgbMatch a r g b (takeWhile notClose s8) s9)).
Proof.
  intros [m3 ma w0 w1 w2 w3 w4 w5 Hm Ha H0 H1 H2 H3 H4 H5
          Hr Hr' Hg Hg' Hb Hb'] Hs.
  unfold matchRgb. flatten_apps.
  rewrite (matchLit_complete _ _ _ Hm). cbn [mbind option_bind].
  assert (Hphase :
    (match ma ++ w0 ++ "("%char :: w1 ++ r ++ w2 ++ ","%char :: w3 ++ g
             ++ w4 ++ ","%char :: w5 ++ b ++ s8 with
     | c :: t =>
         if sameChar "a" c
         then (true, t)
         else (false, ma ++ w0 ++ "("%char :: w1 ++ r ++ w2 ++ ","%char
                         :: w3 ++ g ++ w4 ++ ","%char :: w5 ++ b ++ s8)
     | [] => (false, ma ++ w0 ++ "("%char :: w1 ++ r ++ w2 ++ ","%char
                           :: w3 ++ g ++ w4 ++ ","%char :: w5 ++ b ++ s8)
     end)
    = (a, w0 ++ "("%char :: w1 ++ r ++ w2 ++ ","%char :: w3 ++ g
             ++ w4 ++ ","%char :: w5 ++ b ++ s8)).
  { destruct a.
    - destruct Ha as (c & -> & Hc). cbn [app]. rewrite Hc. reflexivity.
    - subst ma. cbn [app]. destruct w0 as [|c w0]; cbn [app].
      + reflexivity.
      + simpl in H0. apply andb_true_iff in H0. destruct H0 as [Hc _].
        rewrite (isSpace_not_a c Hc). reflexivity. }
  rewrite Hphase. clear Hphase.
  rewrite (skipWhile_app_stop isSpace w0) by (assumption || reflexivity).
  rewrite expect_here. cbn [mbind option_bind].
  rewrite (skipWhile_app_stop isSpace w1)
    by (assumption || (apply stops_space_digits; assumption)).
  rewrite (digits1_complete r)
    by (assumption || (apply stops_digit_spaces; [assumption|reflexivity])).
  cbn [mbind option_bind].
  rewrite (skipWhile_app_stop isSpace w2) by (assumption || reflexivity).
  rewrite expect_here. cbn [mbind option_bind].
  rewrite (skipWhile_app_stop isSpace w3)
    by (assumption || (apply stops_space_digits; assumption)).
  rewrite (digits1_complete g)
    by (assumption || (apply stops_digit_spaces; [assumption|reflexivity])).
  cbn [mbind option_bind].
  rewrite (skipWhile_app_stop isSpace w4) by (assumption || reflexivity).
  rewrite expect_here. cbn [mbind option_bind].
  rewrite (skipWhile_app_stop isSpace w5)
    by (assumption || (apply stops_space_digits; assumption)).
  rewrite (digits1_complete b) by assumption.
  cbn [mbind option_bind]. reflexivity.
Qed.

Lemma stops_notClose_close s : stops notClose (")"%char :: s) = true.
Proof. reflexivity. Qed.

(** Completeness of the expression. *)
Lemma matchRgb_complete a r g b hd rest after :
  rgbHeadOf a r g b hd -> forallb notClose rest = true ->
  stops isDigit (rest ++ ")"%char :: after) = true ->
  matchRgb (hd ++ rest ++ ")"%char :: after)
    = Some (RgbMatch a r g b rest after).
Proof.
  intros Hh Hr Hs. rewrite (matchRgb_head a r g b hd _ Hh Hs).
  rewrite skipWhile_app_stop, takeWhile_app_stop
    by (assumption || reflexivity).
  rewrite expect_here. reflexivity.
Qed.

(** Soundness of the expression. *)
Lemma matchRgb_sound s m :
  matchRgb s = Some m ->
  exists hd,
    rgbHeadOf (rgb_a m) (rgb_r m) (rgb_g m) (rgb_b m) hd /\
    s = hd ++ rgb_rest m ++ ")"%char :: rgb_after m /\
    forallb notClose (rgb_rest m) = true /\
    stops isDigit (rgb_rest m ++ ")"%char :: rgb_after m) = true.
Proof.
  unfold matchRgb. intros H.
  destruct (matchLit (chars "rgb") s) as [s1|] eqn:E1;
    cbn [mbind option_bind] in H; [|discriminate].
  destruct (matchLit_sound _ _ _ E1) as (m3 & -> & Hm3 & _).
  set (phase := match s1 with
                | c :: t => if sameChar "a" c then (true, t) else (false, s1)
                | [] => (false, s1)
                end) in H.
  assert (Hphase : exists ma,
             s1 = ma ++ phase.2 /\
             (if phase.1 then exists c, ma = [c] /\ sameChar "a" c = true
              else ma = [])).
  { subst phase. destruct s1 as [|c t].
    - exists (@nil ascii). simpl. auto.
    - destruct (sameChar "a" c) eqn:Ea.
      + exists (c :: nil). simpl. eauto.
      + exists (@nil ascii). simpl. auto. }
  destruct phase as [a s2]. destruct Hphase as (ma & -> & Hma).
  cbn [fst snd] in *.
  destruct (expect "(" (skipWhile isSpace s2)) as [s3|] eqn:E3;
    cbn [mbind option_bind] in H; [|discriminate].
  apply expect_sound in E3.
  destruct (digits1 (skipWhile isSpace s3)) as [[r s4]|] eqn:E4;
    cbn [mbind option_bind] in H; [|discriminate].
  apply digits1_sound in E4. destruct E4 as (E4 & Hr & Hr' & Hrs).
  destruct (expect "," (skipWhile isSpace s4)) as [s5|] eqn:E5;
    cbn [mbind option_bind] in H; [|discriminate].
  apply expect_sound in E5.
  destruct (digits1 (skipWhile isSpace s5)) as [[g s6]|] eqn:E6;
    cbn [mbind option_bind] in H; [|discriminate].
  apply digits1_sound in E6. destruct E6 as (E6 & Hg & Hg' & Hgs).
  destruct (expect "," (skipWhile isSpace s6)) as [s7|] eqn:E7;
    cbn [mbind option_bind] in H; [|discriminate].
  apply expect_sound in E7.
  destruct (digits1 (skipWhile isSpace s7)) as [[b s8]|] eqn:E8;
    cbn [mbind option_bind] in H; [|discriminate].
  apply digits1_sound in E8. destruct E8 as (E8 & Hb & Hb' & Hbs).
  destruct (expect ")" (skipWhile notClose s8)) as [s9|] eqn:E9;
    cbn [mbind option_bind] in H; [|discriminate].
  apply expect_sound in E9.
  injection H as <-. cbn [rgb_a rgb_r rgb_g rgb_b rgb_rest rgb_after].
  exists (m3 ++ ma ++ takeWhile isSpace s2 ++ "("%char
             :: takeWhile isSpace s3 ++ r ++ takeWhile isSpace s4
             ++ ","%char :: takeWhile isSpace s5 ++ g
             ++ takeWhile isSpace s6 ++ ","%char
             :: takeWhile isSpace s7 ++ b).
  split; [|split; [|split]].
  - constructor; auto using takeWhile_all.
  - flatten_apps. do 2 f_equal.
    rewrite <- (takeWhile_skipWhile isSpace s2) at 1. rewrite E3.
    f_equal. f_equal.
    rewrite <- (takeWhile_skipWhile isSpace s3) at 1. rewrite E4.
    f_equal. f_equal.
    rewrite <- (takeWhile_skipWhile isSpace s4) at 1. rewrite E5.
    f_equal. f_equal.
    rewrite <- (takeWhile_skipWhile isSpace s5) at 1. rewrite E6.
    f_equal. f_equal.
    rewrite <- (takeWhile_skipWhile isSpace s6) at 1. rewrite E7.
    f_equal. f_equal.
    rewrite <- (takeWhile_skipWhile isSpace s7) at 1. rewrite E8.
    f_equal. f_equal.
    rewrite <- (takeWhile_skipWhile notClose s8) at 1. rewrite E9.
    reflexivity.
  - apply takeWhile_all.
  - rewrite <- E9, takeWhile_skipWhile. exact Hbs.
Qed.

(** ** Properties of every suffix *)

Lemma everySuffix_nil (P : text -> Prop) : P [] -> everySuffix P [].
Proof.
  intros H pre suf E. symmetry in E. apply app_eq_nil in E.
  destruct E as [_ ->]. exact H.
Qed.

Lemma everySuffix_here (P : text -> Prop) u : everySuffix P u -> P u.
Proof. intros H. apply (H [] u). reflexivity. Qed.

Lemma everySuffix_app_r (P : text -> Prop) a b :
  everySuffix P (a ++ b) -> everySuffix P b.
Proof.
  intros H pre suf E. apply (H (a ++ pre) suf). rewrite E, app_assoc.
  reflexivity.
Qed.

Lemma everySuffix_app_l (P : text -> Prop) a b :
  everySuffix P (a ++ b) -> forall a1 a2, a = a1 ++ a2 -> P (a2 ++ b).
Proof.
  intros H a1 a2 ->. apply (H a1 (a2 ++ b)). rewrite app_assoc. reflexivity.
Qed.

Lemma everySuffix_cons (P : text -> Prop) c u :
  P (c :: u) -> everySuffix P u -> everySuffix P (c :: u).
Proof.
  intros H1 H2 pre suf E. destruct pre as [|d pre]; simpl in E.
  - subst suf. exact H1.
  - injection E as _ E. exact (H2 pre suf E).
Qed.

Lemma everySuffix_app (P : text -> Prop) a b :
  (forall a1 a2, a = a1 ++ a2 -> a2 <> [] -> P (a2 ++ b)) ->
  everySuffix P b -> everySuffix P (a ++ b).
Proof.
  induction a as [|c a IH]; intros Ha Hb; [exact Hb|].
  apply everySuffix_cons.
  - apply (Ha [] (c :: a)); [reflexivity|discriminate].
  - apply IH; [|exact Hb]. intros a1 a2 E Hne.
    apply (Ha (c :: a1) a2); [rewrite E; reflexivity|exact Hne].
Qed.

(** A property of the suffixes of the output of a scan, from a property
    of the suffixes of its input: it is enough to look at the code units
    that the scan copies and at the suffixes of the replacements. *)
Lemma suffixes_preserved (mu : text -> option (nat * text))
    (Qin P : text -> Prop) :
  (forall c s out,
      mu (c :: s) = None -> Qin (c :: s) -> rewrites mu s out ->
      P (c :: out)) ->
  (forall tok z rep out,
      mu (tok ++ z) = Some (length tok, rep) -> tok <> [] ->
      (forall t1 t2, tok = t1 ++ t2 -> Qin (t2 ++ z)) ->
      rewrites mu z out ->
      forall q1 q2, rep = q1 ++ q2 -> q2 <> [] -> P (q2 ++ out)) ->
  P [] ->
  forall x out, rewrites mu x out -> everySuffix Qin x -> everySuffix P out.
Proof.
  intros Hmiss Hhit Hnil x out H.
  induction H as [|c s out Hm Hr IH|tok z rep out Hm Hne Hr IH]; intros HQ.
  - apply everySuffix_nil, Hnil.
  - apply everySuffix_cons.
    + apply (Hmiss c s out Hm); [apply everySuffix_here, HQ|exact Hr].
    + apply IH. apply (everySuffix_app_r Qin [c] s). exact HQ.
  - apply everySuffix_app.
    + intros q1 q2 E Hq. eapply Hhit; eauto.
      intros t1 t2 Et. eapply everySuffix_app_l; eauto.
    + apply IH. eapply everySuffix_app_r; eauto.
Qed.

(** ** Hex literals *)

(** Whether a hex literal starts a text is decided before, or at, the
    first code unit that is no hex digit; there only its being a word
    character counts. *)
Lemma matchHex_blind w c d x y :
  w <> [] -> isHex c = false -> isHex d = false -> isWord c = isWord d ->
  matchHex (w ++ c :: x) = matchHex (w ++ d :: y) /\
  forall n, matchHex (w ++ c :: x) = Some n ->
            take n (w ++ c :: x) = take n (w ++ d :: y).
Proof.
  intros Hw Hc Hd Hcd. destruct w as [|h w]; [contradiction|]. clear Hw.
  cbn [app matchHex]. destruct (Ascii.eqb h "#"); [|split; [reflexivity|discriminate]].
  destruct w as [|h1 [|h2 [|h3 [|h4 [|h5 [|h6 [|h7 w]]]]]]];
    cbn [app take drop length forallb boundary Nat.eqb];
    rewrite ?Hc, ?Hd, ?Hcd, ?andb_false_r; cbn [andb];
    (split; [reflexivity|]);
    intros n Hn;
    repeat match type of Hn with
           | (if ?b then _ else _) = _ => destruct b
           end;
    try discriminate; injection Hn as <-; reflexivity.
Qed.

Lemma hex_agreement mu s out :
  hexBlind mu -> rewrites mu s out ->
  forall a, a <> [] ->
    matchHex (a ++ s) = matchHex (a ++ out) /\
    forall n, matchHex (a ++ s) = Some n ->
              take n (a ++ s) = take n (a ++ out).
Proof.
  intros Hb H.
  induction H as [|c s out Hm _ IH|tok z rep out Hm Hne _ IH]; intros a Ha.
  - split; [reflexivity|]. auto.
  - specialize (IH (a ++ [c])). rewrite <- !app_assoc in IH. apply IH.
    destruct a; discriminate.
  - destruct (Hb tok z rep Hm Hne) as (p & c & d & t & r & -> & -> & Hc & Hd & Hw).
    rewrite <- !app_assoc. cbn [app]. rewrite !(app_assoc a p).
    apply matchHex_blind; auto. destruct a; [contradiction|discriminate].
Qed.

Lemma boundary_kept mu s out :
  headWordKept mu -> rewrites mu s out -> boundary out = boundary s.
Proof.
  intros Hk H. destruct H as [|c s out Hm _|tok z rep out Hm Hne _].
  - reflexivity.
  - reflexivity.
  - destruct (Hk tok z rep Hm Hne) as (c & t & d & r & -> & -> & Hw).
    simpl. rewrite Hw. reflexivity.
Qed.

Lemma isHex_not_hash c : isHex c = true -> Ascii.eqb c "#" = false.
Proof. by_cases_on c. Qed.

Lemma not_word_not_hex c : isWord c = false -> isHex c = false.
Proof.
  intros H. destruct (isHex c) eqn:E; [|reflexivity].
  apply isHex_isWord in E. congruence.
Qed.

(** A hex literal spelled out. *)
Lemma matchHex_sound s n :
  matchHex s = Some n ->
  exists ds z,
    s = "#"%char :: ds ++ z /\ n = S (length ds) /\
    forallb isHex ds = true /\ boundary z = true /\
    (length ds = 3 \/ length ds = 6).
Proof.
  destruct s as [|c t]; [discriminate|]. cbn [matchHex].
  destruct (Ascii.eqb c "#") eqn:E; [|discriminate].
  apply Ascii.eqb_eq in E. subst c.
  destruct ((length (take 6 t) =? 6)%nat && forallb isHex (take 6 t)
            && boundary (drop 6 t)) eqn:E6.
  - intros [= <-]. apply andb_true_iff in E6. destruct E6 as [E6 Hb].
    apply andb_true_iff in E6. destruct E6 as [Hl Hh].
    apply Nat.eqb_eq in Hl. exists (take 6 t), (drop 6 t).
    rewrite take_drop. auto 6.
  - destruct ((length (take 3 t) =? 3)%nat && forallb isHex (take 3 t)
              && boundary (drop 3 t)) eqn:E3; [|discriminate].
    intros [= <-]. apply andb_true_iff in E3. destruct E3 as [E3 Hb].
    apply andb_true_iff in E3. destruct E3 as [Hl Hh].
    apply Nat.eqb_eq in Hl. exists (take 3 t), (drop 3 t).
    rewrite take_drop. auto 6.
Qed.

(** At the end of the text, or in front of a code unit that is no word
    character. *)
Lemma matchHex_blind_end w d y :
  w <> [] -> isWord d = false ->
  matchHex w = matchHex (w ++ d :: y) /\
  forall n, matchHex w = Some n -> take n w = take n (w ++ d :: y).
Proof.
  intros Hw Hd. pose proof (not_word_not_hex d Hd) as Hh.
  destruct w as [|h w]; [contradiction|]. clear Hw.
  cbn [app matchHex].
  destruct (Ascii.eqb h "#"); [|split; [reflexivity|discriminate]].
  destruct w as [|h1 [|h2 [|h3 [|h4 [|h5 [|h6 [|h7 w]]]]]]];
    cbn [app take drop length forallb boundary Nat.eqb];
    rewrite ?Hd, ?Hh, ?andb_false_r; cbn [andb negb];
    rewrite ?andb_true_r;
    (split; [reflexivity|]);
    intros n Hn;
    repeat match type of Hn with
           | (if ?b then _ else _) = _ => destruct b
           end;
    try discriminate; injection Hn as <-; reflexivity.
Qed.

Lemma matchHex_boundary_ext w x y :
  w <> [] -> boundary x = true -> boundary y = true ->
  matchHex (w ++ x) = matchHex (w ++ y) /\
  forall n, matchHex (w ++ x) = Some n -> take n (w ++ x) = take n (w ++ y).
Proof.
  intros Hw Hx Hy.
  destruct x as [|c x], y as [|d y]; rewrite ?app_nil_r.
  - auto.
  - simpl in Hy. apply negb_true_iff in Hy.
    apply matchHex_blind_end; assumption.
  - simpl in Hx. apply negb_true_iff in Hx.
    destruct (matchHex_blind_end w c x Hw Hx) as [H1 H2].
    split; [congruence|]. intros n Hn. symmetry. apply H2. congruence.
  - simpl in Hx, Hy. apply negb_true_iff in Hx. apply negb_true_iff in Hy.
    apply matchHex_blind; auto using not_word_not_hex. congruence.
Qed.

(** A hex color in front of any text: the literal found there, if any,
    is the color itself. *)
Lemma matchHex_target T y n :
  isHexColor T = true -> matchHex (T ++ y) = Some n -> take n (T ++ y) = T.
Proof.
  intros HT H. destruct T as [|c ds]; [discriminate|]. cbn [isHexColor] in HT.
  apply andb_true_iff in HT. destruct HT as [HT Hh].
  apply andb_true_iff in HT. destruct HT as [Hc Hl].
  apply Nat.eqb_eq in Hl.
  destruct ds as [|h1 [|h2 [|h3 [|h4 [|h5 [|h6 [|h7 ds]]]]]]];
    try discriminate.
  cbn [app matchHex] in H. rewrite Hc in H.
  cbn [take drop app length forallb Nat.eqb] in H.
  cbn [forallb] in Hh.
  repeat (apply andb_true_iff in Hh; destruct Hh as [? Hh]).
  assert (Hw : boundary (h4 :: h5 :: h6 :: y) = false).
  { simpl. rewrite (isHex_isWord h4); auto. }
  rewrite Hw, andb_false_r in H.
  match type of H with
  | (if ?b then _ else _) = _ => destruct b
  end; [|discriminate].
  injection H as <-. reflexivity.
Qed.

Lemma matchHex_not_hash c s : Ascii.eqb c "#" = false -> matchHex (c :: s) = None.
Proof. intros H. simpl. rewrite H. reflexivity. Qed.

Lemma matchHex_starts s n :
  matchHex s = Some n -> exists t, s = "#"%char :: t.
Proof.
  intros H. destruct (matchHex_sound s n H) as (ds & z & -> & _). eauto.
Qed.

(** ** The three token functions *)

Lemma isHexColor_shape T :
  isHexColor T = true ->
  exists ds, T = "#"%char :: ds /\ length ds = 6 /\ forallb isHex ds = true.
Proof.
  destruct T as [|c ds]; [discriminate|]. cbn [isHexColor]. intros H.
  apply andb_true_iff in H. destruct H as [H Hh].
  apply andb_true_iff in H. destruct H as [Hc Hl].
  apply Ascii.eqb_eq in Hc. apply Nat.eqb_eq in Hl. subst c. eauto.
Qed.

(** A match of the hex token function spelled out. *)
Lemma hexToken_hit f T tok z rep :
  hexToken f T (tok ++ z) = Some (length tok, rep) ->
  exists ds,
    tok = "#"%char :: ds /\ forallb isHex ds = true /\ boundary z = true /\
    matchHex (tok ++ z) = Some (length tok) /\
    rep = (if isColorInFamily tok f then T else tok).
Proof.
  unfold hexToken. intros H.
  destruct (matchHex (tok ++ z)) as [n|] eqn:E; [|discriminate].
  injection H as -> <-.
  destruct (matchHex_sound _ _ E) as (ds & z' & Heq & Hn & Hh & Hb & _).
  assert (tok = "#"%char :: ds /\ z = z') as [-> ->].
  { apply app_inj_1; [simpl; lia|exact Heq]. }
  exists ds. rewrite take_app_length. auto.
Qed.

Lemma hexToken_miss f T s : hexToken f T s = None -> matchHex s = None.
Proof. unfold hexToken. destruct (matchHex s); [discriminate|reflexivity]. Qed.

Lemma hash_not_hex : isHex "#" = false.
Proof. reflexivity. Qed.

Lemma hexToken_blind f T : isHexColor T = true -> hexBlind (hexToken f T).
Proof.
  intros HT tok z rep H _.
  destruct (hexToken_hit _ _ _ _ _ H) as (ds & -> & _ & _ & _ & ->).
  destruct (isHexColor_shape T HT) as (dt & -> & _).
  exists [], "#"%char, "#"%char, ds.
  destruct (isColorInFamily ("#"%char :: ds) f);
    [exists dt|exists ds]; repeat split; reflexivity.
Qed.

Lemma hexToken_headWord f T : isHexColor T = true -> headWordKept (hexToken f T).
Proof.
  intros HT tok z rep H _.
  destruct (hexToken_hit _ _ _ _ _ H) as (ds & -> & _ & _ & _ & ->).
  destruct (isHexColor_shape T HT) as (dt & -> & _).
  exists "#"%char, ds, "#"%char.
  destruct (isColorInFamily ("#"%char :: ds) f);
    [exists dt|exists ds]; repeat split; reflexivity.
Qed.

(** No hex literal starts inside a run of hex digits. *)
Lemma matchHex_inside_digits ds d1 d2 y :
  forallb isHex ds = true -> ds = d1 ++ d2 -> d2 <> [] ->
  matchHex (d2 ++ y) = None.
Proof.
  intros Hh -> Hne. rewrite forallb_app in Hh.
  apply andb_true_iff in Hh. destruct Hh as [_ Hh].
  destruct d2 as [|c d2]; [contradiction|]. simpl in Hh.
  apply andb_true_iff in Hh. destruct Hh as [Hc _].
  apply matchHex_not_hash, isHex_not_hash, Hc.
Qed.

(** After the first rewrite, every hex literal of the family is the
    target color. *)
Lemma hex_settled_by_hex f T t v :
  isHexColor T = true ->
  rewrites (hexToken f T) t v -> everySuffix (hexSettled f T) v.
Proof.
  intros HT H.
  refine (suffixes_preserved (hexToken f T) (fun _ => True) (hexSettled f T)
            _ _ _ t v H _).
  4: { intros a b _. exact I. }
  - intros c s out Hm _ Hr n Hn.
    apply hexToken_miss in Hm.
    destruct (hex_agreement _ _ _ (hexToken_blind f T HT) Hr [c])
      as [He _]; [discriminate|].
    cbn [app] in He. congruence.
  - intros tok z rep out Hm Hne _ Hr q1 q2 Hq Hq2 n Hn Hfam.
    destruct (hexToken_hit _ _ _ _ _ Hm) as (ds & -> & Hh & Hb & Hmz & Hrep).
    assert (Hbo : boundary out = true).
    { rewrite (boundary_kept _ _ _ (hexToken_headWord f T HT) Hr). exact Hb. }
    destruct q1 as [|c q1].
    + cbn [app] in Hq. subst q2.
      destruct (isColorInFamily ("#"%char :: ds) f) eqn:Ef; subst rep.
      * eapply matchHex_target; eauto.
      * exfalso.
        destruct (matchHex_boundary_ext ("#"%char :: ds) z out)
          as [He Ht]; [discriminate|assumption|assumption|].
        rewrite He in Hmz. rewrite Hmz in Hn. injection Hn as <-.
        change (S (length ds)) with (length ("#"%char :: ds)) in Hfam.
        rewrite take_app_length in Hfam. congruence.
    + exfalso.
      assert (exists dr, rep = "#"%char :: dr /\ forallb isHex dr = true)
        as (dr & Hdr & Hhr).
      { destruct (isColorInFamily ("#"%char :: ds) f); subst rep.
        - destruct (isHexColor_shape T HT) as (dt & -> & _ & ?). eauto.
        - eauto. }
      rewrite Hdr in Hq. injection Hq as _ Hq.
      rewrite (matchHex_inside_digits dr q1 q2 out Hhr Hq Hq2) in Hn.
      discriminate.
  - intros n Hn. discriminate.
Qed.

(** ** The [rgb] token function *)

Lemma forallb_weaken (P Q : ascii -> bool) (w : text) :
  (forall c, P c = true -> Q c = true) ->
  forallb P w = true -> forallb Q w = true.
Proof.
  intros HPQ. induction w as [|c w IH]; simpl; [reflexivity|].
  intros H. apply andb_true_iff in H. destruct H as [Hc Hw].
  rewrite (HPQ c Hc), IH; auto.
Qed.

Lemma sameChar_r_class c :
  sameChar "r" c = true ->
  isHex c = false /\ isWord c = true /\ isDigit c = false /\
  Ascii.eqb c "#" = false /\ notClose c = true.
Proof. by_cases_on c; repeat split. Qed.

Lemma sameChar_g_class c :
  sameChar "g" c = true ->
  Ascii.eqb c "#" = false /\ sameChar "r" c = false /\ notClose c = true.
Proof. by_cases_on c; repeat split. Qed.

Lemma sameChar_b_class c :
  sameChar "b" c = true ->
  Ascii.eqb c "#" = false /\ sameChar "r" c = false /\ notClose c = true.
Proof. by_cases_on c; repeat split. Qed.

Lemma headTailChar_class c :
  headTailChar c = true ->
  Ascii.eqb c "#" = false /\ sameChar "r" c = false /\ notClose c = true /\
  sameChar "c" c = false /\ sameChar "b" c = false /\
  sameChar "o" c = false.
Proof. by_cases_on c; repeat split. Qed.

Lemma space_headTail c : isSpace c = true -> headTailChar c = true.
Proof. by_cases_on c. Qed.

Lemma digit_headTail c : isDigit c = true -> headTailChar c = true.
Proof. by_cases_on c. Qed.

Lemma sameText_three m3 p0 p1 p2 :
  sameText m3 [p0; p1; p2] ->
  exists c0 c1 c2,
    m3 = [c0; c1; c2] /\ sameChar p0 c0 = true /\ sameChar p1 c1 = true /\
    sameChar p2 c2 = true.
Proof.
  unfold sameText. intros H.
  destruct m3 as [|c0 [|c1 [|c2 [|]]]]; try discriminate.
  injection H as H0 H1 H2. exists c0, c1, c2.
  unfold sameChar. rewrite H0, H1, H2, !Ascii.eqb_refl. auto.
Qed.

(** The head of an [rgb] match: an [r], a [g], a [b], then at least two
    code units among [a], white space, digits, the parenthesis and the
    comma. *)
Lemma rgbHead_shape a r g b hd :
  rgbHeadOf a r g b hd ->
  exists c0 c1 c2 tl,
    hd = c0 :: c1 :: c2 :: tl /\ sameChar "r" c0 = true /\
    sameChar "g" c1 = true /\ sameChar "b" c2 = true /\
    forallb headTailChar tl = true /\ 2 <= length tl.
Proof.
  intros [m3 ma w0 w1 w2 w3 w4 w5 Hm Ha H0 H1 H2 H3 H4 H5
          Hr Hr' Hg Hg' Hb Hb'].
  destruct (sameText_three m3 "r" "g" "b" Hm)
    as (c0 & c1 & c2 & -> & E0 & E1 & E2).
  exists c0, c1, c2. eexists. split; [reflexivity|].
  repeat split; auto.
  - assert (Hma : forallb headTailChar ma = true).
    { destruct a.
      - destruct Ha as (c & -> & Hc). simpl. unfold headTailChar.
        rewrite Hc. reflexivity.
      - subst ma. reflexivity. }
    repeat (rewrite forallb_app || cbn [forallb]).
    rewrite Hma.
    rewrite (forallb_weaken _ _ w0 space_headTail H0),
      (forallb_weaken _ _ w1 space_headTail H1),
      (forallb_weaken _ _ w2 space_headTail H2),
      (forallb_weaken _ _ w3 space_headTail H3),
      (forallb_weaken _ _ w4 space_headTail H4),
      (forallb_weaken _ _ w5 space_headTail H5),
      (forallb_weaken _ _ r digit_headTail Hr'),
      (forallb_weaken _ _ g digit_headTail Hg'),
      (forallb_weaken _ _ b digit_headTail Hb').
    reflexivity.
  - rewrite !length_app. cbn [length]. rewrite !length_app.
    destruct r; [contradiction|]. simpl. lia.
Qed.

Lemma rgbHead_no_hash a r g b hd :
  rgbHeadOf a r g b hd ->
  forallb (fun c => negb (Ascii.eqb c "#")) hd = true.
Proof.
  intros H.
  destruct (rgbHead_shape _ _ _ _ _ H)
    as (c0 & c1 & c2 & tl & -> & E0 & E1 & E2 & Ht & _).
  cbn [forallb].
  destruct (sameChar_r_class _ E0) as (_ & _ & _ & -> & _).
  destruct (sameChar_g_class _ E1) as (-> & _).
  destruct (sameChar_b_class _ E2) as (-> & _).
  simpl. eapply forallb_weaken; [|exact Ht].
  intros c Hc. destruct (headTailChar_class _ Hc) as (-> & _). reflexivity.
Qed.

(** The decimal text of a byte given by two hex digits is a run of
    digits. *)
Lemma isHex_listed c :
  isHex c = true -> In c (chars "0123456789abcdefABCDEF").
Proof.
  by_cases_on c; repeat (first [left; reflexivity | right]).
Qed.

Lemma byte_text_table :
  forallb (fun h1 =>
    forallb (fun h2 =>
      let d := numberText (parseIntHex [h1; h2]) in
      negb (length d =? 0)%nat && forallb isDigit d)
      (chars "0123456789abcdefABCDEF"))
    (chars "0123456789abcdefABCDEF") = true.
Proof. vm_compute. reflexivity. Qed.

Lemma byte_text_digits h1 h2 :
  isHex h1 = true -> isHex h2 = true ->
  numberText (parseIntHex [h1; h2]) <> [] /\
  forallb isDigit (numberText (parseIntHex [h1; h2])) = true.
Proof.
  intros H1 H2.
  pose proof byte_text_table as Ht.
  rewrite forallb_forall in Ht.
  specialize (Ht h1 (isHex_listed h1 H1)).
  rewrite forallb_forall in Ht.
  specialize (Ht h2 (isHex_listed h2 H2)). cbv zeta in Ht.
  apply andb_true_iff in Ht. destruct Ht as [Hl Hd]. split; [|exact Hd].
  intros E. rewrite E in Hl. discriminate.
Qed.

(** The text that replaces a match of the family is itself the text of
    a match: a head, the text up to the parenthesis if the optional
    letter is there, and the parenthesis. *)
Lemma rgbCanonical_head T a :
  isHexColor T = true ->
  exists hdc tr tg tb,
    rgbHeadOf a tr tg tb hdc /\
    forall rest,
      rgbCanonical T a rest = hdc ++ (if a then rest else []) ++ [")"%char].
Proof.
  intros HT. destruct (isHexColor_shape T HT) as (ds & -> & Hl & Hh).
  destruct ds as [|d1 [|d2 [|d3 [|d4 [|d5 [|d6 [|]]]]]]]; try discriminate.
  cbn [forallb] in Hh.
  repeat (apply andb_true_iff in Hh; destruct Hh as [? Hh]).
  unfold rgbCanonical.
  change (slice 1 3 ("#"%char :: [d1; d2; d3; d4; d5; d6])) with [d1; d2].
  change (slice 3 5 ("#"%char :: [d1; d2; d3; d4; d5; d6])) with [d3; d4].
  change (slice 5 7 ("#"%char :: [d1; d2; d3; d4; d5; d6])) with [d5; d6].
  destruct (byte_text_digits d1 d2) as [Nr Dr]; auto.
  destruct (byte_text_digits d3 d4) as [Ng Dg]; auto.
  destruct (byte_text_digits d5 d6) as [Nb Db]; auto.
  set (tr := numberText (parseIntHex [d1; d2])) in *.
  set (tg := numberText (parseIntHex [d3; d4])) in *.
  set (tb := numberText (parseIntHex [d5; d6])) in *.
  exists (chars "rgb" ++ (if a then [ "a"%char ] else []) ++ []
            ++ "("%char :: [] ++ tr ++ [] ++ ","%char :: [" "%char] ++ tg
            ++ [] ++ ","%char :: [" "%char] ++ tb), tr, tg, tb.
  split.
  - constructor; auto; try reflexivity.
    destruct a; [exists "a"%char; split; reflexivity|reflexivity].
  - intros rest. destruct a; cbn [app chars list_ascii_of_string];
      repeat (rewrite <- ?app_assoc; cbn [app]); reflexivity.
Qed.

(** A match of the [rgb] token function spelled out. *)
Lemma rgbToken_hit f T tok z rep :
  rgbToken f T (tok ++ z) = Some (length tok, rep) ->
  exists a r g b hd rest,
    tok = hd ++ rest ++ [")"%char] /\ rgbHeadOf a r g b hd /\
    forallb notClose rest = true /\
    stops isDigit (rest ++ ")"%char :: z) = true /\
    matchRgb (tok ++ z) = Some (RgbMatch a r g b rest z) /\
    rep = (if isRgbInFamily (numberOf (parseDec r)) (numberOf (parseDec g))
           (numberOf (parseDec b)) f
           then rgbCanonical T a rest else tok).
Proof.
  unfold rgbToken. intros H.
  destruct (matchRgb (tok ++ z)) as [m|] eqn:E; [|discriminate].
  destruct (matchRgb_sound _ _ E) as (hd & Hhd & Hs & Hn & Hst).
  destruct m as [a r g b rest after]. cbn [rgb_a rgb_r rgb_g rgb_b rgb_rest
    rgb_after inRgbFamily] in *.
  injection H as Hlen Hrep.
  assert (Hs' : tok ++ z = (hd ++ rest ++ [")"%char]) ++ after).
  { rewrite Hs, <- !app_assoc. reflexivity. }
  assert (tok = hd ++ rest ++ [")"%char] /\ z = after) as [Htok ->].
  { apply app_inj_2; [|exact Hs'].
    apply (f_equal (@length ascii)) in Hs'. rewrite !length_app in Hs'.
    rewrite length_app in Hlen. lia. }
  exists a, r, g, b, hd, rest. repeat split; auto.
  rewrite <- Hrep. rewrite Hlen, take_app_length. reflexivity.
Qed.

Lemma rgbToken_miss f T s : rgbToken f T s = None -> matchRgb s = None.
Proof. unfold rgbToken. destruct (matchRgb s); [discriminate|reflexivity]. Qed.

(** Match and replacement as a head, a text without parenthesis and the
    parenthesis. *)
Lemma rgbToken_shapes f T tok z rep :
  isHexColor T = true ->
  rgbToken f T (tok ++ z) = Some (length tok, rep) ->
  exists a r g b hd rest a' r' g' b' hd' rest',
    tok = hd ++ rest ++ [")"%char] /\ rgbHeadOf a r g b hd /\
    forallb notClose rest = true /\
    rep = hd' ++ rest' ++ [")"%char] /\ rgbHeadOf a' r' g' b' hd' /\
    (rest' = rest \/ rest' = []).
Proof.
  intros HT H.
  destruct (rgbToken_hit _ _ _ _ _ H)
    as (a & r & g & b & hd & rest & Htok & Hhd & Hn & _ & _ & Hrep).
  destruct (rgbCanonical_head T a HT) as (hdc & tr & tg & tb & Hc & Hcan).
  exists a, r, g, b, hd, rest.
  destruct (isRgbInFamily (numberOf (parseDec r)) (numberOf (parseDec g))
           (numberOf (parseDec b)) f).
  - exists a, tr, tg, tb, hdc, (if a then rest else []).
    rewrite Hrep, Hcan. repeat split; auto. destruct a; auto.
  - exists a, r, g, b, hd, rest. subst rep. repeat split; auto.
Qed.

Lemma rgbToken_blind f T : isHexColor T = true -> hexBlind (rgbToken f T).
Proof.
  intros HT tok z rep H _.
  destruct (rgbToken_shapes _ _ _ _ _ HT H)
    as (a & r & g & b & hd & rest & a' & r' & g' & b' & hd' & rest'
        & -> & Hhd & _ & -> & Hhd' & _).
  destruct (rgbHead_shape _ _ _ _ _ Hhd)
    as (c0 & c1 & c2 & tl & -> & E0 & _).
  destruct (rgbHead_shape _ _ _ _ _ Hhd')
    as (d0 & d1 & d2 & tl' & -> & F0 & _).
  destruct (sameChar_r_class _ E0) as (? & ? & _).
  destruct (sameChar_r_class _ F0) as (? & ? & _).
  exists [], c0, d0. do 2 eexists. cbn [app].
  repeat split; auto. congruence.
Qed.

Lemma rgbToken_headWord f T :
  isHexColor T = true -> headWordKept (rgbToken f T).
Proof.
  intros HT tok z rep H Hne.
  destruct (rgbToken_blind f T HT tok z rep H Hne)
    as (p & c & d & t & r & Ht & Hr & Hc & Hd & Hw).
  destruct (rgbToken_shapes _ _ _ _ _ HT H)
    as (a & r0 & g & b & hd & rest & a' & r' & g' & b' & hd' & rest'
        & -> & Hhd & _ & -> & Hhd' & _).
  destruct (rgbHead_shape _ _ _ _ _ Hhd)
    as (c0 & c1 & c2 & tl & -> & E0 & _).
  destruct (rgbHead_shape _ _ _ _ _ Hhd')
    as (d0 & d1 & d2 & tl' & -> & F0 & _).
  destruct (sameChar_r_class _ E0) as (_ & ? & _).
  destruct (sameChar_r_class _ F0) as (_ & ? & _).
  exists c0. eexists. exists d0. eexists. cbn [app].
  repeat split; congruence.
Qed.

Lemma hexSettled_transfer f T s s' :
  matchHex s = matchHex s' ->
  (forall n, matchHex s = Some n -> take n s = take n s') ->
  hexSettled f T s -> hexSettled f T s'.
Proof.
  intros He Ht Hs n Hn Hfam. rewrite <- He in Hn.
  rewrite <- (Ht n Hn) in *. apply Hs; assumption.
Qed.

Lemma hexSettled_no_hash f T c s :
  Ascii.eqb c "#" = false -> hexSettled f T (c :: s).
Proof. intros Hc n Hn. rewrite (matchHex_not_hash c s Hc) in Hn. discriminate. Qed.

Lemma suffix_of_snoc (l q2 w : text) (x : ascii) :
  l ++ q2 = w ++ [x] -> q2 <> [] -> exists r2, q2 = r2 ++ [x] /\ w = l ++ r2.
Proof.
  intros H Hq.
  destruct (exists_last Hq) as (r2 & y & ->).
  rewrite app_assoc in H. apply app_inj_tail in H. destruct H as [<- <-].
  eauto.
Qed.

(** The second rewrite keeps the hex literals settled. *)
Lemma hex_settled_by_rgb f T x out :
  isHexColor T = true ->
  rewrites (rgbToken f T) x out ->
  everySuffix (hexSettled f T) x -> everySuffix (hexSettled f T) out.
Proof.
  intros HT.
  apply (suffixes_preserved (rgbToken f T) (hexSettled f T) (hexSettled f T)).
  - intros c s o Hm Hq Hr.
    destruct (hex_agreement _ _ _ (rgbToken_blind f T HT) Hr [c])
      as [He Ht]; [discriminate|].
    exact (hexSettled_transfer f T _ _ He Ht Hq).
  - intros tok z rep o Hm Hne Hq Hr q1 q2 Hsplit Hq2.
    destruct (rgbToken_shapes _ _ _ _ _ HT Hm)
      as (a & r & g & b & hd & rest & a' & r' & g' & b' & hd' & rest'
          & Htok & Hhd & Hn & Hrep & Hhd' & Hrest).
    rewrite Hrep in Hsplit.
    apply app_eq_app in Hsplit. destruct Hsplit as (l & [[E1 E2]|[E1 E2]]).
    + destruct l as [|c l].
      * cbn [app] in E2. subst q2.
        destruct rest' as [|c r2].
        { apply hexSettled_no_hash. reflexivity. }
        destruct Hrest as [Hrest|]; [|discriminate].
        assert (Hin : hexSettled f T (((c :: r2) ++ [")"%char]) ++ z)).
        { apply (Hq hd). rewrite Htok, Hrest. reflexivity. }
        rewrite <- app_assoc in *. cbn [app] in *.
        change (c :: r2 ++ ")"%char :: z)
          with ((c :: r2) ++ ")"%char :: z) in Hin.
        change (c :: r2 ++ ")"%char :: o)
          with ((c :: r2) ++ ")"%char :: o).
        destruct (matchHex_blind (c :: r2) ")" ")" z o) as [He Ht];
          try reflexivity; [discriminate|].
        exact (hexSettled_transfer f T _ _ He Ht Hin).
      * subst q2. cbn [app]. apply hexSettled_no_hash.
        pose proof (rgbHead_no_hash _ _ _ _ _ Hhd') as Hnh.
        rewrite E1, forallb_app in Hnh. apply andb_true_iff in Hnh.
        destruct Hnh as [_ Hnh]. cbn [forallb] in Hnh.
        apply andb_true_iff in Hnh. destruct Hnh as [Hc _].
        apply negb_true_iff in Hc. exact Hc.
    + destruct (suffix_of_snoc l q2 rest' ")"%char) as (r2 & Eq & Er);
        [symmetry; exact E2|exact Hq2|].
      subst q2.
      destruct r2 as [|c r2].
      { apply hexSettled_no_hash. reflexivity. }
      destruct Hrest as [Hrest|Hrest];
        [|rewrite Hrest in Er; destruct l; discriminate].
      assert (Hin : hexSettled f T (((c :: r2) ++ [")"%char]) ++ z)).
      { apply (Hq (hd ++ l)). rewrite Htok, <- Hrest, Er, <- !app_assoc.
        reflexivity. }
      rewrite <- app_assoc in *. cbn [app] in *.
      change (c :: r2 ++ ")"%char :: z)
        with ((c :: r2) ++ ")"%char :: z) in Hin.
      change (c :: r2 ++ ")"%char :: o)
        with ((c :: r2) ++ ")"%char :: o).
      destruct (matchHex_blind (c :: r2) ")" ")" z o) as [He Ht];
        try reflexivity; [discriminate|].
      exact (hexSettled_transfer f T _ _ He Ht Hin).
  - intros n Hn. discriminate.
Qed.

(** ** The keyword token function *)

Lemma sameText_cons c a p b :
  sameText (c :: a) (p :: b) -> sameChar p c = true /\ sameText a b.
Proof.
  unfold sameText, sameChar. cbn [map]. intros H. injection H as H1 H2.
  rewrite H1, Ascii.eqb_refl. auto.
Qed.

Lemma sameText_nil_r a : sameText a [] -> a = [].
Proof. destruct a; [reflexivity|discriminate]. Qed.

Lemma sameText_class (Q Q' : ascii -> bool) :
  (forall p c, Q p = true -> sameChar p c = true -> Q' c = true) ->
  forall a b, sameText a b -> forallb Q b = true -> forallb Q' a = true.
Proof.
  intros HQ. induction a as [|c a IH]; intros [|p b] H Hb;
    try discriminate; [reflexivity|].
  apply sameText_cons in H. destruct H as [Hc Ha].
  cbn [forallb] in *. apply andb_true_iff in Hb. destruct Hb as [Hp Hb].
  rewrite (HQ p c Hp Hc), (IH b Ha Hb). reflexivity.
Qed.

Lemma sameChar_dash c : sameChar "-" c = true -> c = "-"%char.
Proof. by_cases_on c. Qed.

Lemma nameChar_context p c :
  nameChar p = true -> sameChar p c = true -> contextChar c = true.
Proof.
  unfold nameChar, contextChar. intros Hp Hc.
  apply orb_true_iff in Hp. destruct Hp as [Hp|Hp].
  - rewrite (sameChar_letter p c Hp Hc). reflexivity.
  - apply Ascii.eqb_eq in Hp. subst p. rewrite (sameChar_dash c Hc).
    reflexivity.
Qed.

Lemma space_context c : isSpace c = true -> contextChar c = true.
Proof. by_cases_on c. Qed.

Lemma contextChar_class c :
  contextChar c = true ->
  Ascii.eqb c "#" = false /\ isDigit c = false /\ notClose c = true.
Proof. by_cases_on c; repeat split. Qed.

Lemma isPropertyName_chars p :
  isPropertyName p -> forallb contextChar p = true /\ p <> [].
Proof.
  intros [H|[H|H]]; (split;
    [eapply (sameText_class nameChar contextChar nameChar_context);
       [exact H|reflexivity]
    |intros ->; discriminate]).
Qed.

Lemma declarationContext_chars ctx :
  declarationContext ctx -> forallb contextChar ctx = true.
Proof.
  intros [p w1 w2 Hp H1 H2].
  destruct (isPropertyName_chars p Hp) as [Hc _].
  rewrite !forallb_app. cbn [forallb]. rewrite forallb_app || idtac.
  rewrite Hc, (forallb_weaken _ _ w1 space_context H1),
    (forallb_weaken _ _ w2 space_context H2).
  reflexivity.
Qed.

Lemma forallb_first (P : ascii -> bool) c l :
  forallb P (c :: l) = true -> P c = true.
Proof. cbn [forallb]. intros H. apply andb_true_iff in H. tauto. Qed.

Lemma forallb_suffix (P : ascii -> bool) a b :
  forallb P (a ++ b) = true -> forallb P b = true.
Proof. rewrite forallb_app. intros H. apply andb_true_iff in H. tauto. Qed.

(** A match of the keyword token function spelled out. *)
Lemma keywordToken_hit kw T tok z rep :
  keywordToken kw T (tok ++ z) = Some (length tok, rep) ->
  exists ctx k,
    tok = ctx ++ k /\ rep = ctx ++ T /\ declarationContext ctx /\
    sameText k kw /\ length k = length kw /\ boundary z = true /\
    matchKeyword kw (tok ++ z) = Some (k ++ z, z).
Proof.
  unfold keywordToken. intros H.
  destruct (matchKeyword kw (tok ++ z)) as [[s3 s4]|] eqn:E; [|discriminate].
  destruct (matchKeyword_sound _ _ _ _ E)
    as (ctx & k & Hs & -> & Hc & Hk & Hl & Hb).
  injection H as Hlen Hrep.
  assert (Hs' : tok ++ z = (ctx ++ k) ++ s4)
    by (rewrite Hs, <- app_assoc; reflexivity).
  assert (tok = ctx ++ k /\ z = s4) as [-> ->].
  { apply app_inj_2; [|exact Hs'].
    apply (f_equal (@length ascii)) in Hs'. rewrite !length_app in Hs'.
    rewrite !length_app in Hlen. lia. }
  exists ctx, k. repeat split; auto.
  rewrite <- Hrep. f_equal.
  replace (length ((ctx ++ k) ++ s4) - length (k ++ s4)) with (length ctx)
    by (rewrite !length_app; lia).
  rewrite <- app_assoc. apply take_app_length.
Qed.

Lemma keywordToken_miss kw T s :
  keywordToken kw T s = None -> matchKeyword kw s = None.
Proof.
  unfold keywordToken. destruct (matchKeyword kw s) as [[? ?]|];
    [discriminate|reflexivity].
Qed.

Lemma keywordToken_blind kw T : hexBlind (keywordToken kw T).
Proof.
  intros tok z rep H _.
  destruct (keywordToken_hit _ _ _ _ _ H)
    as (ctx & k & -> & -> & [p w1 w2 Hp H1 H2] & _).
  exists (p ++ w1), ":"%char, ":"%char, (w2 ++ k), (w2 ++ T).
  rewrite <- !app_assoc. repeat split; reflexivity.
Qed.

Lemma keywordToken_headWord kw T : headWordKept (keywordToken kw T).
Proof.
  intros tok z rep H _.
  destruct (keywordToken_hit _ _ _ _ _ H)
    as (ctx & k & -> & -> & [p w1 w2 Hp H1 H2] & _).
  destruct (isPropertyName_chars p Hp) as [_ Hne].
  destruct p as [|c p]; [contradiction|].
  exists c. eexists. exists c. eexists. cbn [app]. repeat split; reflexivity.
Qed.

(** The third rewrite keeps the hex literals settled. *)
Lemma hex_settled_by_keyword f kw T x out :
  isHexColor T = true ->
  rewrites (keywordToken kw T) x out ->
  everySuffix (hexSettled f T) x -> everySuffix (hexSettled f T) out.
Proof.
  intros HT.
  apply (suffixes_preserved (keywordToken kw T) (hexSettled f T)
           (hexSettled f T)).
  - intros c s o Hm Hq Hr.
    destruct (hex_agreement _ _ _ (keywordToken_blind kw T) Hr [c])
      as [He Ht]; [discriminate|].
    exact (hexSettled_transfer f T _ _ He Ht Hq).
  - intros tok z rep o Hm Hne Hq Hr q1 q2 Hsplit Hq2.
    destruct (keywordToken_hit _ _ _ _ _ Hm)
      as (ctx & k & -> & -> & Hctx & _).
    assert (Htarget : hexSettled f T (T ++ o)).
    { intros n Hn _. eapply matchHex_target; eauto. }
    apply app_eq_app in Hsplit. destruct Hsplit as (l & [[E1 E2]|[E1 E2]]).
    + destruct l as [|c l].
      * cbn [app] in E2. subst q2. exact Htarget.
      * subst q2. cbn [app]. apply hexSettled_no_hash.
        pose proof (declarationContext_chars ctx Hctx) as Hch.
        rewrite E1 in Hch. apply forallb_suffix in Hch.
        apply forallb_first in Hch.
        apply contextChar_class in Hch. tauto.
    + destruct l as [|c l].
      * cbn [app] in E2. subst q2. exact Htarget.
      * destruct (isHexColor_shape T HT) as (dt & Edt & _ & Hh).
        rewrite Edt in E2. cbn [app] in E2. injection E2 as _ E2.
        intros n Hn. 
        rewrite (matchHex_inside_digits dt l q2 o Hh E2 Hq2) in Hn.
        discriminate.
  - intros n Hn. discriminate.
Qed.

(** ** Keywords after the third rewrite *)

Lemma sameChar_trans_l p q c :
  sameChar p c = true -> sameChar q c = sameChar q p.
Proof.
  unfold sameChar. intros H. apply Ascii.eqb_eq in H. rewrite H. reflexivity.
Qed.

Lemma matchLit_head_differs p pat c s :
  sameChar p c = false -> matchLit (p :: pat) (c :: s) = None.
Proof. intros H. cbn [matchLit]. rewrite H. reflexivity. Qed.

(** Completeness of the three alternatives of the property name. *)
Lemma matchProperty_complete p s :
  isPropertyName p -> matchProperty (p ++ s) = Some s.
Proof.
  unfold matchProperty. intros [H|[H|H]].
  - rewrite (matchLit_complete _ _ _ H). reflexivity.
  - rewrite (matchLit_complete (chars "background-color") _ _ H).
    destruct p as [|c0 p]; [discriminate|].
    apply sameText_cons in H. destruct H as [H0 _].
    cbn [chars list_ascii_of_string app].
    rewrite matchLit_head_differs; [reflexivity|].
    rewrite (sameChar_trans_l "b" "c" c0 H0). reflexivity.
  - rewrite (matchLit_complete (chars "border-color") _ _ H).
    destruct p as [|c0 [|c1 p]]; try discriminate.
    apply sameText_cons in H. destruct H as [H0 H].
    apply sameText_cons in H. destruct H as [H1 _].
    cbn [chars list_ascii_of_string app].
    rewrite matchLit_head_differs
      by (rewrite (sameChar_trans_l "b" "c" c0 H0); reflexivity).
    cbn [matchLit]. rewrite (sameChar_trans_l "b" "b" c0 H0).
    change (sameChar "b" "b") with true. cbv iota.
    rewrite (sameChar_trans_l "o" "a" c1 H1).
    change (sameChar "a" "o") with false. reflexivity.
Qed.

Lemma keywordShaped_parts kw :
  keywordShaped kw = true ->
  kw <> [] /\ forallb (inRange 97 122) kw = true /\ rgFree kw = true.
Proof.
  unfold keywordShaped. intros H.
  apply andb_true_iff in H. destruct H as [H Hr].
  apply andb_true_iff in H. destruct H as [Hn Hl].
  repeat split; auto. intros ->. discriminate.
Qed.

Lemma keyword_letters kw k :
  keywordShaped kw = true -> sameText k kw ->
  k <> [] /\ forallb isLetter k = true.
Proof.
  intros Hs Hk. destruct (keywordShaped_parts kw Hs) as (Hne & Hl & _).
  split.
  - intros ->. destruct kw; [contradiction|discriminate].
  - eapply (sameText_class (inRange 97 122) isLetter sameChar_letter); eauto.
Qed.

(** Completeness of the keyword expression. *)
Lemma matchKeyword_complete kw ctx k z :
  keywordShaped kw = true -> declarationContext ctx -> sameText k kw ->
  boundary z = true ->
  matchKeyword kw (ctx ++ k ++ z) = Some (k ++ z, z).
Proof.
  intros Hs [p w1 w2 Hp H1 H2] Hk Hb.
  destruct (keyword_letters kw k Hs Hk) as [Hne Hl].
  unfold matchKeyword. rewrite <- !app_assoc.
  rewrite (matchProperty_complete p _ Hp). cbn [mbind option_bind].
  rewrite skipWhile_app_stop by (assumption || reflexivity).
  cbn [app]. rewrite expect_here. cbn [mbind option_bind].
  rewrite skipWhile_app_stop; [| assumption |].
  - rewrite (matchLit_complete kw k z Hk). cbn [mbind option_bind].
    rewrite Hb. reflexivity.
  - destruct k as [|c k]; [contradiction|]. cbn [app stops].
    apply forallb_first in Hl. rewrite (isLetter_not_space c Hl).
    reflexivity.
Qed.

Lemma lacks_prefix x a b w z :
  a ++ x :: b = w ++ z -> lacks x w = true ->
  exists v, a = w ++ v /\ z = v ++ x :: b.
Proof.
  revert w. induction a as [|c a IH]; intros [|d w] H Hw.
  - exists []. auto.
  - cbn [app] in H. injection H as <- _. cbn [lacks forallb] in Hw.
    rewrite Ascii.eqb_refl in Hw. discriminate.
  - exists (c :: a). auto.
  - cbn [app] in H. injection H as <- H. cbn [lacks forallb] in Hw.
    apply andb_true_iff in Hw. destruct Hw as [_ Hw].
    destruct (IH w H Hw) as (v & -> & ->). exists v. auto.
Qed.

Lemma split_at_unique x A B C D :
  A ++ x :: B = C ++ x :: D -> lacks x C = true -> lacks x D = true ->
  B = D.
Proof.
  revert C. induction A as [|a A IH]; intros [|c C] H HC HD.
  - injection H as ->. reflexivity.
  - cbn [app] in H. injection H as <- _. cbn [lacks forallb] in HC.
    rewrite Ascii.eqb_refl in HC. discriminate.
  - cbn [app] in H. injection H as -> H. subst D.
    unfold lacks in HD. rewrite forallb_app in HD. cbn [forallb] in HD.
    rewrite Ascii.eqb_refl in HD. cbn in HD.
    rewrite andb_false_r in HD. discriminate.
  - cbn [app] in H. injection H as _ H. cbn [lacks forallb] in HC.
    apply andb_true_iff in HC. destruct HC as [_ HC]. eauto.
Qed.

Lemma lacks_class (P : ascii -> bool) x w :
  (forall c, P c = true -> Ascii.eqb c x = false) ->
  forallb P w = true -> lacks x w = true.
Proof.
  intros HP H. unfold lacks. eapply forallb_weaken; [|exact H].
  intros c Hc. rewrite (HP c Hc). reflexivity.
Qed.

Lemma context_no_hash c : contextChar c = true -> Ascii.eqb c "#" = false.
Proof. intros H. apply contextChar_class in H. tauto. Qed.

Lemma letter_no_hash c : isLetter c = true -> Ascii.eqb c "#" = false.
Proof. by_cases_on c. Qed.

Lemma space_no_colon c : isSpace c = true -> Ascii.eqb c ":" = false.
Proof. by_cases_on c. Qed.

Lemma nameChar_no_colon p c :
  nameChar p = true -> sameChar p c = true ->
  negb (Ascii.eqb c ":") = true.
Proof.
  intros Hp Hc. pose proof (nameChar_context p c Hp Hc) as H.
  unfold nameChar in Hp. apply orb_true_iff in Hp. destruct Hp as [Hp|Hp].
  - pose proof (sameChar_letter p c Hp Hc) as Hl. revert Hl. clear.
    by_cases_on c.
  - apply Ascii.eqb_eq in Hp. subst p. rewrite (sameChar_dash c Hc).
    reflexivity.
Qed.

Lemma isPropertyName_no_colon p : isPropertyName p -> lacks ":" p = true.
Proof.
  unfold lacks.
  intros [H|[H|H]];
    (eapply (sameText_class nameChar _ nameChar_no_colon);
       [exact H|reflexivity]).
Qed.

(** A declaration context ends in a code unit that is no word
    character. *)
Lemma context_last ctx w0 l :
  declarationContext ctx -> ctx = w0 ++ [l] -> isWord l = false.
Proof.
  intros [p w1 w2 Hp H1 H2] E.
  destruct w2 as [|c w2].
  - rewrite !app_assoc in E.
    change (((p ++ w1) ++ [":"%char]) = w0 ++ [l]) in E.
    apply app_inj_tail in E. destruct E as [_ <-]. reflexivity.
  - destruct (@exists_last _ (c :: w2)) as (w2' & y & Ey); [discriminate|].
    rewrite Ey in E, H2.
    replace (p ++ w1 ++ ":"%char :: w2' ++ [y])
      with ((p ++ w1 ++ ":"%char :: w2') ++ [y]) in E
      by (rewrite <- !app_assoc; reflexivity).
    apply app_inj_tail in E. destruct E as [_ <-].
    apply forallb_suffix in H2. apply forallb_first in H2.
    apply isSpace_not_word, H2.
Qed.

Lemma boundary_cons c s s' : boundary (c :: s) = boundary (c :: s').
Proof. reflexivity. Qed.

(** A text without [#] that ends in a word character and is a prefix
    of the output of a keyword rewrite is a prefix of the input, with
    the same kind of code unit behind it. *)
Lemma word_prefix_kept kw T s out :
  isHexColor T = true ->
  rewrites (keywordToken kw T) s out ->
  forall w z',
    out = w ++ z' -> lacks "#" w = true ->
    (w = [] \/ exists w0 l, w = w0 ++ [l] /\ isWord l = true) ->
    exists y, s = w ++ y /\ boundary y = boundary z'.
Proof.
  intros HT H.
  induction H as [|c s out Hm Hr IH|tok z rep out Hm Hne Hr IH];
    intros w z' E Hw Hend.
  - destruct w; [|discriminate]. cbn [app] in E. subst z'. exists []. auto.
  - destruct w as [|d w].
    + cbn [app] in E. subst z'. exists (c :: s). auto.
    + cbn [app] in E. injection E as <- E.
      cbn [lacks forallb] in Hw. apply andb_true_iff in Hw.
      destruct Hw as [_ Hw].
      destruct (IH w z' E Hw) as (y & -> & Hy).
      * destruct Hend as [|(w0 & l & E0 & Hl)]; [discriminate|].
        destruct w0 as [|e w0].
        -- injection E0 as _ ->. left. reflexivity.
        -- injection E0 as _ ->. right. eauto.
      * exists y. auto.
  - destruct w as [|d w].
    + cbn [app] in E. subst z'. exists (tok ++ z). split; [reflexivity|].
      destruct (keywordToken_headWord kw T tok z rep Hm Hne)
        as (c & t & d & r & -> & -> & Hcd).
      cbn [app boundary]. rewrite Hcd. reflexivity.
    + destruct (keywordToken_hit _ _ _ _ _ Hm)
        as (ctx & k & -> & -> & Hctx & _).
      destruct (isHexColor_shape T HT) as (dt & -> & _).
      rewrite <- app_assoc in E. cbn [app] in E.
      change (d :: w ++ z') with ((d :: w) ++ z') in E.
      destruct (lacks_prefix _ _ _ _ _ E Hw) as (v & Ev & Ez).
      destruct v as [|e v].
      * exfalso. rewrite app_nil_r in Ev.
        destruct Hend as [|(w0 & l & E0 & Hl)]; [discriminate|].
        rewrite E0 in Ev.
        rewrite (context_last ctx w0 l Hctx Ev) in Hl. discriminate.
      * exists ((e :: v) ++ k ++ z). split.
        -- rewrite Ev, <- !app_assoc. reflexivity.
        -- rewrite Ez. reflexivity.
Qed.

Lemma ends_in_letter k :
  k <> [] -> forallb isLetter k = true ->
  exists k0 l, k = k0 ++ [l] /\ isWord l = true.
Proof.
  intros Hne Hl. destruct (exists_last Hne) as (k0 & l & ->).
  exists k0, l. split; [reflexivity|].
  apply forallb_suffix, forallb_first in Hl. apply isLetter_isWord, Hl.
Qed.

(** The text of a keyword match. *)
Lemma keyword_match_text kw ctx k :
  keywordShaped kw = true -> declarationContext ctx -> sameText k kw ->
  lacks "#" (ctx ++ k) = true /\
  exists c w, ctx ++ k = c :: w /\
    (w = [] \/ exists w0 l, w = w0 ++ [l] /\ isWord l = true).
Proof.
  intros Hs Hc Hk. destruct (keyword_letters kw k Hs Hk) as [Hne Hl].
  split.
  - unfold lacks. rewrite forallb_app. apply andb_true_iff. split.
    + apply (lacks_class contextChar), declarationContext_chars, Hc.
      apply context_no_hash.
    + apply (lacks_class isLetter); [apply letter_no_hash|exact Hl].
  - destruct (ends_in_letter k Hne Hl) as (k0 & l & -> & Hw).
    pose proof (declarationContext_length ctx Hc) as Hlen.
    destruct ctx as [|c ctx]; [simpl in Hlen; lia|].
    exists c, (ctx ++ k0 ++ [l]). split; [reflexivity|].
    right. exists (ctx ++ k0), l. rewrite <- app_assoc. auto.
Qed.

(** A keyword match in the output of a keyword rewrite, at a place
    that was copied, is a match in the input. *)
Lemma keyword_miss_kept kw kw' T c s out :
  isHexColor T = true -> keywordShaped kw = true ->
  rewrites (keywordToken kw' T) s out ->
  matchKeyword kw (c :: s) = None -> matchKeyword kw (c :: out) = None.
Proof.
  intros HT Hs Hr Hin.
  destruct (matchKeyword kw (c :: out)) as [[s3 s4]|] eqn:E; [|reflexivity].
  exfalso.
  destruct (matchKeyword_sound _ _ _ _ E)
    as (ctx & k & Eo & _ & Hc & Hk & _ & Hb).
  destruct (keyword_match_text kw ctx k Hs Hc Hk)
    as (Hl & d & w & Ew & Hend).
  rewrite app_assoc, Ew in Eo. cbn [app] in Eo. injection Eo as <- Eo.
  rewrite Ew in Hl. cbn [lacks forallb] in Hl.
  apply andb_true_iff in Hl. destruct Hl as [_ Hl].
  destruct (word_prefix_kept kw' T s out HT Hr w s4 Eo Hl Hend)
    as (y & -> & Hy).
  change (c :: w ++ y) with ((c :: w) ++ y) in Hin.
  rewrite <- Ew, <- app_assoc in Hin.
  rewrite (matchKeyword_complete kw ctx k y Hs Hc Hk) in Hin;
    [discriminate|congruence].
Qed.

Lemma sameText_four p p0 p1 p2 p3 pr :
  sameText p (p0 :: p1 :: p2 :: p3 :: pr) ->
  exists c0 c1 c2 c3 t,
    p = c0 :: c1 :: c2 :: c3 :: t /\ sameChar p0 c0 = true /\
    sameChar p1 c1 = true /\ sameChar p2 c2 = true /\
    sameChar p3 c3 = true.
Proof.
  intros H. destruct p as [|c0 [|c1 [|c2 [|c3 t]]]]; try discriminate.
  apply sameText_cons in H. destruct H as [H0 H].
  apply sameText_cons in H. destruct H as [H1 H].
  apply sameText_cons in H. destruct H as [H2 H].
  apply sameText_cons in H. destruct H as [H3 H].
  exists c0, c1, c2, c3, t. auto.
Qed.

Lemma sameChar_o_not_hex c : sameChar "o" c = true -> isHex c = false.
Proof. by_cases_on c. Qed.

Lemma sameChar_k_not_hex c : sameChar "k" c = true -> isHex c = false.
Proof. by_cases_on c. Qed.

Lemma sameChar_word p c :
  sameChar p c = true -> inRange 97 122 p = true -> isWord c = true.
Proof. intros Hc Hp. apply isLetter_isWord, (sameChar_letter p c Hp Hc). Qed.

(** The first four code units of a property name are word characters,
    and the second or the fourth of them is no hex digit. *)
Lemma property_head4 p :
  isPropertyName p ->
  exists c0 c1 c2 c3 t,
    p = c0 :: c1 :: c2 :: c3 :: t /\ isWord c0 = true /\ isWord c1 = true /\
    isWord c2 = true /\ isWord c3 = true /\
    (isHex c1 = false \/ isHex c3 = false).
Proof.
  intros [H|[H|H]]; apply sameText_four in H;
    destruct H as (c0 & c1 & c2 & c3 & t & -> & H0 & H1 & H2 & H3);
    exists c0, c1, c2, c3, t;
    (split; [reflexivity|]);
    rewrite (sameChar_word _ c0 H0 eq_refl), (sameChar_word _ c1 H1 eq_refl),
      (sameChar_word _ c2 H2 eq_refl), (sameChar_word _ c3 H3 eq_refl);
    repeat split.
  - left. apply sameChar_o_not_hex, H1.
  - right. apply sameChar_k_not_hex, H3.
  - left. apply sameChar_o_not_hex, H1.
Qed.

(** No property name starts inside a run of hex digits that a word
    boundary follows. *)
Lemma property_not_in_digits t2 o :
  t2 <> [] -> forallb isHex t2 = true -> boundary o = true ->
  matchProperty (t2 ++ o) = None.
Proof.
  intros Hne Hh Hb.
  destruct (matchProperty (t2 ++ o)) as [r|] eqn:E; [|reflexivity].
  exfalso.
  destruct (matchProperty_sound _ _ E) as (p & Ep & Hp).
  destruct (property_head4 p Hp)
    as (c0 & c1 & c2 & c3 & t & -> & W0 & W1 & W2 & W3 & Hx).
  destruct t2 as [|a [|b [|c [|d t2]]]]; [contradiction|..];
    cbn [app] in Ep.
  - injection Ep as _ Ep. subst o. cbn [boundary] in Hb.
    rewrite W1 in Hb. discriminate.
  - injection Ep as _ _ Ep. subst o. cbn [boundary] in Hb.
    rewrite W2 in Hb. discriminate.
  - injection Ep as _ _ _ Ep. subst o. cbn [boundary] in Hb.
    rewrite W3 in Hb. discriminate.
  - injection Ep as _ E1 _ E3 _. subst b d. cbn [forallb] in Hh.
    repeat (apply andb_true_iff in Hh; destruct Hh as [? Hh]).
    destruct Hx; congruence.
Qed.

(** No keyword match starts inside the replacement of a keyword
    match. *)
Lemma keyword_rep_free kw kw' T tok z rep o q1 q2 :
  isHexColor T = true -> keywordShaped kw = true ->
  keywordToken kw' T (tok ++ z) = Some (length tok, rep) ->
  rewrites (keywordToken kw' T) z o ->
  rep = q1 ++ q2 -> q2 <> [] -> matchKeyword kw (q2 ++ o) = None.
Proof.
  intros HT Hs Hm Hr Hsplit Hq2.
  destruct (keywordToken_hit _ _ _ _ _ Hm)
    as (ctx & k & -> & -> & Hctx & _ & _ & Hbz & _).
  assert (Hbo : boundary o = true).
  { rewrite (boundary_kept _ _ _ (keywordToken_headWord kw' T) Hr).
    exact Hbz. }
  destruct (matchKeyword kw (q2 ++ o)) as [[s3 s4]|] eqn:E; [|reflexivity].
  exfalso.
  destruct (matchKeyword_sound _ _ _ _ E)
    as (ctx' & k' & Eo & _ & Hc' & Hk' & _ & Hb').
  destruct (keyword_letters kw k' Hs Hk') as [Hne' Hl'].
  destruct (isHexColor_shape T HT) as (dt & ET & _ & Hh).
  assert (Hstart : forall y, q2 ++ o = "#"%char :: y -> False).
  { intros y Ey. rewrite Ey in Eo.
    pose proof (declarationContext_chars ctx' Hc') as Hch.
    pose proof (declarationContext_length ctx' Hc') as Hlen.
    destruct ctx' as [|c ctx']; [simpl in Hlen; lia|].
    cbn [app] in Eo. injection Eo as <- _.
    apply forallb_first in Hch. discriminate. }
  apply app_eq_app in Hsplit. destruct Hsplit as (l & [[E1 E2]|[E1 E2]]).
  - destruct l as [|c l].
    { cbn [app] in E2. subst q2. rewrite ET in Hstart.
      eapply Hstart. reflexivity. }
    destruct (keyword_match_text kw ctx' k' Hs Hc' Hk') as (Hl & _).
    subst q2. rewrite ET, <- app_assoc in Eo. cbn [app] in Eo.
    rewrite app_assoc in Eo.
    change (c :: l ++ "#"%char :: dt ++ o)
      with ((c :: l) ++ "#"%char :: dt ++ o) in Eo.
    destruct (lacks_prefix _ _ _ _ _ Eo Hl) as (v & Ev & _).
    destruct Hctx as [p w1 w2 Hp H1 H2].
    destruct Hc' as [p' w1' w2' Hp' H1' H2'].
    rewrite Ev in E1.
    assert (Heq : (q1 ++ p' ++ w1') ++ ":"%char :: (w2' ++ k' ++ v)
                  = (p ++ w1) ++ ":"%char :: w2).
    { rewrite <- !app_assoc. cbn [app]. rewrite E1, <- !app_assoc.
      cbn [app]. rewrite <- ?app_assoc. reflexivity. }
    apply split_at_unique in Heq.
    + rewrite <- Heq in H2. apply forallb_suffix in H2.
      destruct k' as [|e k']; [contradiction|]. cbn [app] in H2.
      apply forallb_first in H2. apply forallb_first in Hl'.
      rewrite (isLetter_not_space e Hl') in H2. discriminate.
    + unfold lacks. rewrite forallb_app.
      fold (lacks ":" p). rewrite (isPropertyName_no_colon p Hp).
      apply (lacks_class isSpace); [apply space_no_colon|exact H1].
    + apply (lacks_class isSpace); [apply space_no_colon|exact H2].
  - destruct l as [|c l].
    { cbn [app] in E2. subst q2. rewrite ET in Hstart.
      eapply Hstart. reflexivity. }
    rewrite ET in E2. cbn [app] in E2. injection E2 as _ E2.
    assert (Hq : forallb isHex q2 = true).
    { rewrite E2 in Hh. apply forallb_suffix in Hh. exact Hh. }
    pose proof (property_not_in_digits q2 o Hq2 Hq Hbo) as Hnone.
    destruct Hc' as [p' w1' w2' Hp' H1' H2'].
    rewrite Eo, <- !app_assoc in Hnone.
    rewrite (matchProperty_complete p' _ Hp') in Hnone. discriminate.
Qed.

(** After the rewrite of a keyword, the keyword has no match left. *)
Lemma keyword_free_established kw T x out :
  isHexColor T = true -> keywordShaped kw = true ->
  rewrites (keywordToken kw T) x out -> everySuffix (keywordFree kw) out.
Proof.
  intros HT Hs H.
  refine (suffixes_preserved (keywordToken kw T) (fun _ => True)
            (keywordFree kw) _ _ _ x out H _).
  - intros c s o Hm _ Hr. apply keywordToken_miss in Hm.
    exact (keyword_miss_kept kw kw T c s o HT Hs Hr Hm).
  - intros tok z rep o Hm Hne _ Hr q1 q2 Hsplit Hq2.
    exact (keyword_rep_free kw kw T tok z rep o q1 q2 HT Hs Hm Hr Hsplit Hq2).
  - reflexivity.
  - intros a b _. exact I.
Qed.

(** The rewrite of another keyword brings no match back. *)
Lemma keyword_free_preserved kw kw' T x out :
  isHexColor T = true -> keywordShaped kw = true ->
  rewrites (keywordToken kw' T) x out ->
  everySuffix (keywordFree kw) x -> everySuffix (keywordFree kw) out.
Proof.
  intros HT Hs.
  apply (suffixes_preserved (keywordToken kw' T) (keywordFree kw)
           (keywordFree kw)).
  - intros c s o _ Hq Hr.
    exact (keyword_miss_kept kw kw' T c s o HT Hs Hr Hq).
  - intros tok z rep o Hm Hne _ Hr q1 q2 Hsplit Hq2.
    exact (keyword_rep_free kw kw' T tok z rep o q1 q2 HT Hs Hm Hr Hsplit Hq2).
  - reflexivity.
Qed.

(** A text without matches is left as it is. *)
Lemma keyword_free_fixed kw T u :
  everySuffix (keywordFree kw) u -> rewrites (keywordToken kw T) u u.
Proof.
  induction u as [|c u IH]; intros H; [constructor|].
  constructor.
  - unfold keywordToken.
    rewrite (everySuffix_here _ _ H : matchKeyword kw (c :: u) = None).
    reflexivity.
  - apply IH. exact (everySuffix_app_r _ [c] u H).
Qed.

(** A text whose hex literals are settled is left as it is by the
    first rewrite. *)
Lemma hex_settled_fixed f T u :
  everySuffix (hexSettled f T) u -> rewrites (hexToken f T) u u.
Proof.
  remember (length u) as k eqn:Hk. revert u Hk.
  induction k as [k IH] using lt_wf_ind. intros u Hk H.
  destruct u as [|c s]; [constructor|].
  destruct (hexToken f T (c :: s)) as [[n rep]|] eqn:E.
  - unfold hexToken in E.
    destruct (matchHex (c :: s)) as [n'|] eqn:En; [|discriminate].
    injection E as -> Hrep.
    destruct (matchHex_sound _ _ En) as (ds & z & Es & Hn & _).
    assert (Htake : take n (c :: s) = "#"%char :: ds).
    { rewrite Es, Hn.
      change ("#"%char :: ds ++ z) with (("#"%char :: ds) ++ z).
      apply (take_app_length ("#"%char :: ds)). }
    assert (Hsame : rep = "#"%char :: ds).
    { rewrite <- Hrep.
      destruct (isColorInFamily (take n (c :: s)) f) eqn:Ef;
        [|exact Htake].
      rewrite <- Htake. symmetry.
      exact (everySuffix_here _ _ H n En Ef). }
    rewrite Es. change ("#"%char :: ds ++ z) with (("#"%char :: ds) ++ z).
    apply rewrites_hit with (rep := "#"%char :: ds); [| discriminate |].
    + unfold hexToken.
      change (("#"%char :: ds) ++ z) with ("#"%char :: ds ++ z).
      rewrite <- Es, En, Hrep, Hsame, Hn. reflexivity.
    + apply (IH (length z)); [|reflexivity|].
      * subst k. rewrite Es. cbn [length]. rewrite length_app. lia.
      * rewrite Es in H.
        change ("#"%char :: ds ++ z) with (("#"%char :: ds) ++ z) in H.
        exact (everySuffix_app_r _ _ _ H).
  - constructor; [exact E|].
    apply (IH (length s)); [subst k; simpl; lia|reflexivity|].
    exact (everySuffix_app_r _ [c] s H).
Qed.

(** ** [rgb] matches after the second rewrite *)

Lemma quiet_rewrites mu u : quiet mu u -> rewrites mu u u.
Proof. induction 1; econstructor; eauto. Qed.

(** A prefix of the output that no replacement can start in is a prefix
    of the input. *)
Lemma prefix_in_misses mu (bad : text -> bool) :
  (forall tok z rep o,
      mu (tok ++ z) = Some (length tok, rep) -> tok <> [] ->
      bad (rep ++ o) = true) ->
  forall s out, rewrites mu s out ->
  forall w x',
    out = w ++ x' ->
    (forall w1 w2, w = w1 ++ w2 -> w2 <> [] -> bad (w2 ++ x') = false) ->
    exists x, s = w ++ x /\ rewrites mu x x'.
Proof.
  intros Hbad s out H.
  induction H as [|c s out Hm Hr IH|tok z rep out Hm Hne Hr IH];
    intros w x' E Hw.
  - destruct w; [|discriminate]. cbn [app] in E. subst x'.
    exists []. split; [reflexivity|constructor].
  - destruct w as [|d w].
    + cbn [app] in E. subst x'. exists (c :: s).
      split; [reflexivity|constructor; assumption].
    + cbn [app] in E. injection E as <- E.
      destruct (IH w x' E) as (x & -> & Hx).
      * intros w1 w2 Ew. apply (Hw (c :: w1)). rewrite Ew. reflexivity.
      * exists x. auto.
  - destruct w as [|d w].
    + cbn [app] in E. subst x'. exists (tok ++ z).
      split; [reflexivity|constructor; assumption].
    + exfalso. pose proof (Hbad tok z rep out Hm Hne) as Hb.
      rewrite E in Hb. rewrite (Hw [] (d :: w)) in Hb; try discriminate.
      reflexivity.
Qed.

(** The class of the first code unit survives a rewrite whose
    replacements keep it. *)
Lemma first_class_kept mu (Q : ascii -> bool) :
  (forall tok z rep,
      mu (tok ++ z) = Some (length tok, rep) -> tok <> [] ->
      exists c t d r, tok = c :: t /\ rep = d :: r /\ Q c = Q d) ->
  forall s out, rewrites mu s out -> stops Q out = stops Q s.
Proof.
  intros HQ s out H. destruct H as [|c s out Hm Hr|tok z rep out Hm Hne Hr].
  - reflexivity.
  - reflexivity.
  - destruct (HQ tok z rep Hm Hne) as (c & t & d & r & -> & -> & E).
    cbn [app stops]. rewrite E. reflexivity.
Qed.

Lemma lacks_app x a b : lacks x (a ++ b) = lacks x a && lacks x b.
Proof. apply forallb_app. Qed.

Lemma lacks_kept mu x :
  (forall tok z rep,
      mu (tok ++ z) = Some (length tok, rep) -> tok <> [] ->
      lacks x tok = lacks x rep) ->
  forall s out, rewrites mu s out -> lacks x out = lacks x s.
Proof.
  intros Hx s out H.
  induction H as [|c s out Hm Hr IH|tok z rep out Hm Hne Hr IH].
  - reflexivity.
  - cbn [lacks forallb]. fold (lacks x out). fold (lacks x s).
    rewrite IH. reflexivity.
  - rewrite !lacks_app, IH, (Hx tok z rep Hm Hne). reflexivity.
Qed.

Lemma has_close x :
  lacks ")" x = false ->
  exists r z, x = r ++ ")"%char :: z /\ forallb notClose r = true.
Proof.
  induction x as [|c x IH]; [discriminate|].
  cbn [lacks forallb]. fold (lacks ")" x).
  destruct (Ascii.eqb c ")") eqn:E.
  - apply Ascii.eqb_eq in E. subst c. intros _. exists [], x. auto.
  - cbn [negb andb]. intros H. destruct (IH H) as (r & z & -> & Hr).
    exists (c :: r), z. split; [reflexivity|].
    cbn [forallb]. unfold notClose at 1. rewrite E, Hr. reflexivity.
Qed.

Lemma lacks_close_notClose r : lacks ")" r = forallb notClose r.
Proof. reflexivity. Qed.

(** Behind a head, the expression matches exactly when no digit follows
    and a closing parenthesis is there. *)
Lemma matchRgb_behind_head a r g b hd x :
  rgbHeadOf a r g b hd -> stops isDigit x = true -> lacks ")" x = false ->
  matchRgb (hd ++ x) <> None.
Proof.
  intros Hh Hs Hc. destruct (has_close x Hc) as (rest & z & -> & Hr).
  rewrite (matchRgb_complete a r g b hd rest z Hh Hr Hs). discriminate.
Qed.

Lemma matchRgb_rgAt s m : matchRgb s = Some m -> rgAt s = true.
Proof.
  intros H. destruct (matchRgb_sound _ _ H) as (hd & Hh & -> & _).
  destruct (rgbHead_shape _ _ _ _ _ Hh)
    as (c0 & c1 & c2 & tl & -> & E0 & E1 & _).
  cbn [app rgAt]. rewrite E0, E1. reflexivity.
Qed.

(** A failure of the [rgb] expression at a copied place survives a
    rewrite whose replacements cannot start inside a head, keep the
    class of their first code unit and have a closing parenthesis
    exactly when the match has one. *)
Lemma rgb_miss_kept mu (bad : text -> bool) :
  (forall tok z rep o,
      mu (tok ++ z) = Some (length tok, rep) -> tok <> [] ->
      bad (rep ++ o) = true) ->
  (forall a r g b hd h1 h2 x,
      rgbHeadOf a r g b hd -> hd = h1 ++ h2 -> h1 <> [] -> h2 <> [] ->
      bad (h2 ++ x) = false) ->
  (forall tok z rep,
      mu (tok ++ z) = Some (length tok, rep) -> tok <> [] ->
      exists c t d r, tok = c :: t /\ rep = d :: r /\ isDigit c = isDigit d) ->
  (forall tok z rep,
      mu (tok ++ z) = Some (length tok, rep) -> tok <> [] ->
      lacks ")" tok = lacks ")" rep) ->
  forall c s out,
    rewrites mu s out -> matchRgb (c :: s) = None ->
    matchRgb (c :: out) = None.
Proof.
  intros Hbad Hhead Hfirst Hclose c s out Hr Hin.
  destruct (matchRgb (c :: out)) as [m|] eqn:E; [|reflexivity].
  exfalso.
  destruct (matchRgb_sound _ _ E) as (hd & Hh & Eo & Hn & Hst).
  destruct (rgbHead_shape _ _ _ _ _ Hh)
    as (c0 & c1 & c2 & tl & Ehd & _).
  set (x' := rgb_rest m ++ ")"%char :: rgb_after m) in *.
  assert (Eout : out = (c1 :: c2 :: tl) ++ x' /\ c = c0).
  { rewrite Ehd in Eo. cbn [app] in Eo. injection Eo as -> ->. auto. }
  destruct Eout as [Eout ->].
  destruct (prefix_in_misses mu bad Hbad s out Hr _ _ Eout)
    as (x & Es & Hx).
  { intros w1 w2 Ew Hw2.
    apply (Hhead _ _ _ _ hd (c0 :: w1) w2 x' Hh); try assumption.
    - rewrite Ehd, Ew. reflexivity.
    - discriminate. }
  apply (matchRgb_behind_head _ _ _ _ hd x Hh).
  - rewrite <- (first_class_kept mu isDigit Hfirst x x' Hx). exact Hst.
  - rewrite <- (lacks_kept mu ")" Hclose x x' Hx).
    unfold x'. rewrite lacks_app. rewrite andb_comm. reflexivity.
  - rewrite Ehd. rewrite Es in Hin. exact Hin.
Qed.

Lemma rgAt_first e s : sameChar "r" e = false -> rgAt (e :: s) = false.
Proof. intros H. destruct s; cbn [rgAt]; [reflexivity|]. rewrite H. reflexivity. Qed.

(** Behind its first code unit, a head has no [r]. *)
Lemma head_inner_no_r a r g b hd h1 e h2 :
  rgbHeadOf a r g b hd -> hd = h1 ++ e :: h2 -> h1 <> [] ->
  sameChar "r" e = false.
Proof.
  intros Hh E Hne.
  destruct (rgbHead_shape _ _ _ _ _ Hh)
    as (c0 & c1 & c2 & tl & -> & _ & E1 & E2 & Ht & _).
  destruct h1 as [|d h1]; [contradiction|].
  cbn [app] in E. injection E as _ E.
  assert (Hall : forallb (fun c => negb (sameChar "r" c)) (c1 :: c2 :: tl)
                 = true).
  { cbn [forallb].
    destruct (sameChar_g_class _ E1) as (_ & -> & _).
    destruct (sameChar_b_class _ E2) as (_ & -> & _).
    cbn [negb andb]. eapply forallb_weaken; [|exact Ht].
    intros c Hc. destruct (headTailChar_class _ Hc) as (_ & -> & _).
    reflexivity. }
  rewrite E in Hall. apply forallb_suffix, forallb_first in Hall.
  apply negb_true_iff in Hall. exact Hall.
Qed.

Lemma rgAt_not_in_head a r g b hd h1 h2 x :
  rgbHeadOf a r g b hd -> hd = h1 ++ h2 -> h1 <> [] -> h2 <> [] ->
  rgAt (h2 ++ x) = false.
Proof.
  intros Hh E H1 H2. destruct h2 as [|e h2]; [contradiction|].
  cbn [app]. apply rgAt_first.
  exact (head_inner_no_r _ _ _ _ _ _ _ _ Hh E H1).
Qed.

Lemma lacks_snoc x w : lacks x (w ++ [x]) = false.
Proof.
  rewrite lacks_app. cbn [lacks forallb]. rewrite Ascii.eqb_refl.
  cbn [negb andb]. apply andb_false_r.
Qed.

(** Match and replacement of the [rgb] token function start with an
    [r] and a [g] and end in the closing parenthesis. *)
Lemma rgbToken_ends f T tok z rep :
  isHexColor T = true ->
  rgbToken f T (tok ++ z) = Some (length tok, rep) ->
  (forall o, rgAt (rep ++ o) = true) /\
  (exists c t d r,
      tok = c :: t /\ rep = d :: r /\ sameChar "r" c = true /\
      sameChar "r" d = true) /\
  lacks ")" tok = false /\ lacks ")" rep = false.
Proof.
  intros HT H.
  destruct (rgbToken_shapes _ _ _ _ _ HT H)
    as (a & r & g & b & hd & rest & a' & r' & g' & b' & hd' & rest'
        & -> & Hhd & _ & -> & Hhd' & _).
  destruct (rgbHead_shape _ _ _ _ _ Hhd)
    as (c0 & c1 & c2 & tl & -> & E0 & _).
  destruct (rgbHead_shape _ _ _ _ _ Hhd')
    as (d0 & d1 & d2 & tl' & -> & F0 & F1 & _).
  repeat split.
  - intros o. cbn [app rgAt]. rewrite F0, F1. reflexivity.
  - exists c0. eexists. exists d0. eexists. cbn [app]. auto.
  - rewrite app_assoc. apply lacks_snoc.
  - rewrite app_assoc. apply lacks_snoc.
Qed.

Lemma rgb_miss_by_rgb f T c s out :
  isHexColor T = true ->
  rewrites (rgbToken f T) s out ->
  rgbToken f T (c :: s) = None -> rgbToken f T (c :: out) = None.
Proof.
  intros HT Hr Hm. apply rgbToken_miss in Hm.
  unfold rgbToken.
  rewrite (rgb_miss_kept (rgbToken f T) rgAt) with (s := s); auto.
  - intros tok z rep o H _.
    destruct (rgbToken_ends _ _ _ _ _ HT H) as (Hrg & _). apply Hrg.
  - apply rgAt_not_in_head.
  - intros tok z rep H _.
    destruct (rgbToken_ends _ _ _ _ _ HT H)
      as (_ & (c' & t & d & r & -> & -> & Hc & Hd) & _).
    exists c', t, d, r. repeat split.
    destruct (sameChar_r_class _ Hc) as (_ & _ & -> & _).
    destruct (sameChar_r_class _ Hd) as (_ & _ & -> & _). reflexivity.
  - intros tok z rep H _.
    destruct (rgbToken_ends _ _ _ _ _ HT H) as (_ & _ & -> & ->).
    reflexivity.
Qed.

(** The token function on the text of a match. *)
Lemma rgbToken_complete f T a r g b hd rest o :
  rgbHeadOf a r g b hd -> forallb notClose rest = true ->
  stops isDigit (rest ++ ")"%char :: o) = true ->
  rgbToken f T ((hd ++ rest ++ [")"%char]) ++ o)
    = Some (length (hd ++ rest ++ [")"%char]),
            if isRgbInFamily (numberOf (parseDec r)) (numberOf (parseDec g))
           (numberOf (parseDec b)) f
            then rgbCanonical T a rest else hd ++ rest ++ [")"%char]).
Proof.
  intros Hh Hr Hs. unfold rgbToken.
  replace ((hd ++ rest ++ [")"%char]) ++ o)
    with (hd ++ rest ++ ")"%char :: o)
    by (rewrite <- !app_assoc; reflexivity).
  rewrite (matchRgb_complete a r g b hd rest o Hh Hr Hs).
  cbn [rgb_after rgb_a rgb_rest inRgbFamily rgb_r rgb_g rgb_b].
  replace (length (hd ++ rest ++ ")"%char :: o) - length o)
    with (length (hd ++ rest ++ [")"%char]))
    by (rewrite !length_app; cbn [length]; rewrite ?length_app; simpl; lia).
  replace (hd ++ rest ++ ")"%char :: o)
    with ((hd ++ rest ++ [")"%char]) ++ o)
    by (rewrite <- !app_assoc; reflexivity).
  rewrite take_app_length. reflexivity.
Qed.

Lemma stops_app_same (P : ascii -> bool) w c x y :
  stops P (w ++ c :: x) = stops P (w ++ c :: y).
Proof. destruct w; reflexivity. Qed.

(** A replacement of the second rewrite is replaced by itself. *)
Lemma rgb_rep_self f T tok z rep o :
  isHexColor T = true ->
  rgbToken f T (tok ++ z) = Some (length tok, rep) ->
  rgbToken f T (rep ++ o) = Some (length rep, rep).
Proof.
  intros HT H.
  destruct (rgbToken_hit _ _ _ _ _ H)
    as (a & r & g & b & hd & rest & Htok & Hhd & Hn & Hst & _ & Hrep).
  destruct (isRgbInFamily (numberOf (parseDec r)) (numberOf (parseDec g))
           (numberOf (parseDec b)) f) eqn:Ef.
  - destruct (rgbCanonical_head T a HT) as (hdc & tr & tg & tb & Hc & Hcan).
    rewrite Hrep, Hcan.
    rewrite (rgbToken_complete f T a tr tg tb hdc _ o Hc).
    + f_equal. f_equal.
      destruct (isRgbInFamily (numberOf (parseDec tr)) (numberOf (parseDec tg))
           (numberOf (parseDec tb)) f);
        [|reflexivity].
      rewrite Hcan. destruct a; reflexivity.
    + destruct a; [exact Hn|reflexivity].
    + destruct a; [|reflexivity].
      rewrite (stops_app_same isDigit rest ")" o z). exact Hst.
  - rewrite Hrep, Htok.
    rewrite (rgbToken_complete f T a r g b hd rest o Hhd Hn).
    + rewrite Ef. reflexivity.
    + rewrite (stops_app_same isDigit rest ")" o z). exact Hst.
Qed.

Lemma rgbToken_rep_nonempty f T tok z rep :
  isHexColor T = true ->
  rgbToken f T (tok ++ z) = Some (length tok, rep) -> rep <> [].
Proof.
  intros HT H.
  destruct (rgbToken_ends _ _ _ _ _ HT H)
    as (_ & (c & t & d & r & _ & -> & _) & _).
  discriminate.
Qed.

(** After the second rewrite, the scan of the [rgb] expression
    replaces every match by itself. *)
Lemma rgb_quiet_by_rgb f T s out :
  isHexColor T = true ->
  rewrites (rgbToken f T) s out -> quiet (rgbToken f T) out.
Proof.
  intros HT H.
  induction H as [|c s out Hm Hr IH|tok z rep out Hm Hne Hr IH].
  - constructor.
  - constructor; [|exact IH].
    exact (rgb_miss_by_rgb f T c s out HT Hr Hm).
  - constructor; [|exact (rgbToken_rep_nonempty _ _ _ _ _ HT Hm)|exact IH].
    exact (rgb_rep_self f T tok z rep out HT Hm).
Qed.

(** ** [rgb] matches after the third rewrite *)

Lemma propertyStart_first c s :
  sameChar "c" c = false -> sameChar "b" c = false ->
  propertyStart (c :: s) = false.
Proof.
  intros Hc Hb. destruct s as [|c1 [|c2 s]]; cbn [propertyStart];
    try reflexivity.
  rewrite Hc, Hb. reflexivity.
Qed.

Lemma property_starts p o : isPropertyName p -> propertyStart (p ++ o) = true.
Proof.
  intros [H|[H|H]]; apply sameText_four in H;
    destruct H as (c0 & c1 & c2 & c3 & t & -> & H0 & H1 & H2 & H3);
    cbn [app propertyStart]; rewrite H0, H1, H2; cbn [andb orb];
    rewrite ?orb_true_r; reflexivity.
Qed.

Lemma context_starts ctx o :
  declarationContext ctx -> propertyStart (ctx ++ o) = true.
Proof.
  intros [p w1 w2 Hp _ _]. rewrite <- app_assoc. apply property_starts, Hp.
Qed.

Lemma matchKeyword_starts kw s :
  propertyStart s = false -> matchKeyword kw s = None.
Proof.
  intros H. destruct (matchKeyword kw s) as [[s3 s4]|] eqn:E; [|reflexivity].
  destruct (matchKeyword_sound _ _ _ _ E) as (ctx & k & -> & _ & Hc & _).
  rewrite (context_starts ctx _ Hc) in H. discriminate.
Qed.

(** No property name starts inside the head of an [rgb] match. *)
Lemma property_not_in_head a r g b hd h1 h2 x :
  rgbHeadOf a r g b hd -> hd = h1 ++ h2 -> h2 <> [] ->
  propertyStart (h2 ++ x) = false.
Proof.
  intros Hh E Hne.
  destruct (rgbHead_shape _ _ _ _ _ Hh)
    as (c0 & c1 & c2 & tl & -> & E0 & E1 & E2 & Ht & Hlen).
  destruct tl as [|t3 [|t4 tl]]; try (simpl in Hlen; lia).
  assert (H4 : headTailChar t4 = true).
  { cbn [forallb] in Ht. apply andb_true_iff in Ht. destruct Ht as [_ Ht].
    apply andb_true_iff in Ht. tauto. }
  destruct (headTailChar_class _ H4) as (_ & R4 & _ & C4 & _).
  destruct h1 as [|d0 [|d1 [|d2 h1]]]; cbn [app] in E.
  - subst h2. cbn [app]. apply propertyStart_first.
    + rewrite (sameChar_trans_l "r" "c" c0 E0). reflexivity.
    + rewrite (sameChar_trans_l "r" "b" c0 E0). reflexivity.
  - injection E as _ <-. cbn [app]. apply propertyStart_first.
    + rewrite (sameChar_trans_l "g" "c" c1 E1). reflexivity.
    + rewrite (sameChar_trans_l "g" "b" c1 E1). reflexivity.
  - injection E as _ _ <-. cbn [app propertyStart].
    rewrite (sameChar_trans_l "b" "c" c2 E2), R4, C4.
    change (sameChar "c" "b") with false. cbn [andb orb].
    rewrite !andb_false_r. reflexivity.
  - injection E as _ _ _ E.
    destruct h2 as [|e h2]; [contradiction|].
    rewrite E in Ht. apply forallb_suffix, forallb_first in Ht.
    destruct (headTailChar_class _ Ht) as (_ & _ & _ & Hc & Hb & _).
    cbn [app]. apply propertyStart_first; assumption.
Qed.

Lemma hex_notClose c : isHex c = true -> notClose c = true.
Proof. by_cases_on c. Qed.

Lemma letter_notClose c : isLetter c = true -> notClose c = true.
Proof. by_cases_on c. Qed.

Lemma context_notClose c : contextChar c = true -> notClose c = true.
Proof. intros H. apply contextChar_class in H. tauto. Qed.

Lemma target_no_close T : isHexColor T = true -> forallb notClose T = true.
Proof.
  intros HT. destruct (isHexColor_shape T HT) as (dt & -> & _ & Hh).
  cbn [forallb]. rewrite (forallb_weaken _ _ dt hex_notClose Hh). reflexivity.
Qed.

(** Match and replacement of a keyword have no closing parenthesis. *)
Lemma keyword_texts_no_close kw T tok z rep :
  isHexColor T = true -> keywordShaped kw = true ->
  keywordToken kw T (tok ++ z) = Some (length tok, rep) ->
  forallb notClose tok = true /\ forallb notClose rep = true.
Proof.
  intros HT Hs H.
  destruct (keywordToken_hit _ _ _ _ _ H)
    as (ctx & k & -> & -> & Hc & Hk & _).
  destruct (keyword_letters kw k Hs Hk) as [_ Hl].
  pose proof (forallb_weaken _ _ ctx context_notClose
                (declarationContext_chars ctx Hc)) as Hctx.
  rewrite !forallb_app, Hctx, (target_no_close T HT),
    (forallb_weaken _ _ k letter_notClose Hl).
  auto.
Qed.

Lemma keywordToken_first kw T tok z rep :
  keywordToken kw T (tok ++ z) = Some (length tok, rep) ->
  exists c t r, tok = c :: t /\ rep = c :: r /\ contextChar c = true.
Proof.
  intros H.
  destruct (keywordToken_hit _ _ _ _ _ H)
    as (ctx & k & -> & -> & Hc & _).
  pose proof (declarationContext_chars ctx Hc) as Hch.
  pose proof (declarationContext_length ctx Hc) as Hlen.
  destruct ctx as [|c ctx]; [simpl in Hlen; lia|].
  apply forallb_first in Hch.
  exists c, (ctx ++ k), (ctx ++ T). auto.
Qed.

Lemma rgb_miss_by_keyword f kw T c s out :
  isHexColor T = true -> keywordShaped kw = true ->
  rewrites (keywordToken kw T) s out ->
  rgbToken f T (c :: s) = None -> rgbToken f T (c :: out) = None.
Proof.
  intros HT Hs Hr Hm. apply rgbToken_miss in Hm.
  unfold rgbToken.
  rewrite (rgb_miss_kept (keywordToken kw T) propertyStart) with (s := s);
    auto.
  - intros tok z rep o H _.
    destruct (keywordToken_hit _ _ _ _ _ H)
      as (ctx & k & -> & -> & Hc & _).
    rewrite <- app_assoc. apply context_starts, Hc.
  - intros a r g b hd h1 h2 x Hh E _ Hne.
    exact (property_not_in_head a r g b hd h1 h2 x Hh E Hne).
  - intros tok z rep H _.
    destruct (keywordToken_first _ _ _ _ _ H) as (d & t & r & -> & -> & _).
    exists d, t, d, r. auto.
  - intros tok z rep H _.
    destruct (keyword_texts_no_close kw T tok z rep HT Hs H) as [H1 H2].
    rewrite !lacks_close_notClose, H1, H2. reflexivity.
Qed.

(** *** Texts without an [r] before a [g] *)

Lemma rgFree_suffix x y : rgFree (x ++ y) = true -> rgFree y = true.
Proof.
  induction x as [|c x IH]; [auto|].
  cbn [app rgFree]. intros H. apply andb_true_iff in H. tauto.
Qed.

Lemma rgFree_rgAt y : rgFree y = true -> rgAt y = false.
Proof.
  destruct y as [|c y]; [reflexivity|].
  cbn [rgFree]. intros H. apply andb_true_iff in H. destruct H as [H _].
  apply negb_true_iff in H. exact H.
Qed.

Lemma rgAt_take1 a2 z : a2 <> [] -> rgAt (a2 ++ z) = rgAt (a2 ++ take 1 z).
Proof.
  intros Hne. destruct a2 as [|c [|d a2]]; [contradiction| |reflexivity].
  destruct z; reflexivity.
Qed.

Lemma rgFree_single c : rgFree [c] = true.
Proof. reflexivity. Qed.

Lemma rgFree_class w :
  forallb (fun c => negb (sameChar "r" c)) w = true -> rgFree w = true.
Proof.
  induction w as [|c w IH]; [reflexivity|].
  cbn [forallb rgFree]. intros H. apply andb_true_iff in H.
  destruct H as [Hc Hw]. apply negb_true_iff in Hc.
  rewrite (rgAt_first c w Hc), (IH Hw). reflexivity.
Qed.

Lemma rgFree_app_l a b :
  rgFree a = true -> rgFree b = true ->
  (forall a0 l, a = a0 ++ [l] -> sameChar "r" l = false) ->
  rgFree (a ++ b) = true.
Proof.
  induction a as [|c a IH]; intros Ha Hb Hl; [exact Hb|].
  cbn [rgFree] in Ha. apply andb_true_iff in Ha. destruct Ha as [Hc Ha].
  cbn [app rgFree]. rewrite IH; auto.
  - rewrite andb_true_r. destruct a as [|d a].
    + cbn [app]. rewrite (rgAt_first c b); [reflexivity|].
      apply (Hl []). reflexivity.
    + exact Hc.
  - intros a0 l E. apply (Hl (c :: a0)). rewrite E. reflexivity.
Qed.

Lemma rgFree_app_r a b :
  rgFree a = true -> rgFree b = true -> stops (sameChar "g") b = true ->
  rgFree (a ++ b) = true.
Proof.
  induction a as [|c a IH]; intros Ha Hb Hs; [exact Hb|].
  cbn [rgFree] in Ha. apply andb_true_iff in Ha. destruct Ha as [Hc Ha].
  cbn [app rgFree]. rewrite IH; auto.
  rewrite andb_true_r. destruct a as [|d a]; [|exact Hc].
  destruct b as [|e b]; [reflexivity|].
  cbn [app rgAt]. cbn [stops] in Hs. apply negb_true_iff in Hs.
  rewrite Hs, andb_false_r. reflexivity.
Qed.

Lemma rgAt_sameText c d a c' d' b :
  sameChar c' c = true -> sameChar d' d = true ->
  rgAt (c :: d :: a) = rgAt (c' :: d' :: b).
Proof.
  intros Hc Hd. cbn [rgAt].
  rewrite (sameChar_trans_l c' "r" c Hc), (sameChar_trans_l d' "g" d Hd).
  reflexivity.
Qed.

Lemma rgFree_sameText a :
  forall b, sameText a b -> rgFree b = true -> rgFree a = true.
Proof.
  induction a as [|c a IH]; intros [|c' b] H Hb; try discriminate;
    [reflexivity|].
  apply sameText_cons in H. destruct H as [Hc H].
  cbn [rgFree] in *. apply andb_true_iff in Hb. destruct Hb as [Hat Hb].
  rewrite (IH b H Hb), andb_true_r.
  destruct a as [|d a]; [reflexivity|].
  destruct b as [|d' b]; [discriminate|].
  pose proof H as H'. apply sameText_cons in H'. destruct H' as [Hd _].
  rewrite (rgAt_sameText c d a c' d' b Hc Hd). exact Hat.
Qed.

Lemma space_not_r c : isSpace c = true -> negb (sameChar "r" c) = true.
Proof. by_cases_on c. Qed.

Lemma space_not_g c : isSpace c = true -> sameChar "g" c = false.
Proof. by_cases_on c. Qed.

Lemma not_word_not_r c : isWord c = false -> sameChar "r" c = false.
Proof. by_cases_on c. Qed.

Lemma not_word_not_g c : isWord c = false -> sameChar "g" c = false.
Proof. by_cases_on c. Qed.

Lemma hex_not_r c : isHex c = true -> negb (sameChar "r" c) = true.
Proof. by_cases_on c. Qed.

Lemma isPropertyName_rgFree p : isPropertyName p -> rgFree p = true.
Proof.
  intros [H|[H|H]]; (eapply rgFree_sameText; [exact H|reflexivity]).
Qed.

Lemma declarationContext_rgFree ctx :
  declarationContext ctx -> rgFree ctx = true.
Proof.
  intros [p w1 w2 Hp H1 H2].
  apply rgFree_app_r.
  - apply isPropertyName_rgFree, Hp.
  - apply rgFree_class. rewrite forallb_app. cbn [forallb].
    rewrite (forallb_weaken _ _ w1 space_not_r H1),
      (forallb_weaken _ _ w2 space_not_r H2). reflexivity.
  - destruct w1 as [|c w1]; [reflexivity|].
    apply forallb_first in H1. cbn [app stops].
    rewrite (space_not_g c H1). reflexivity.
Qed.

Lemma context_last_not_r ctx a0 l :
  declarationContext ctx -> ctx = a0 ++ [l] -> sameChar "r" l = false.
Proof.
  intros Hc E. apply not_word_not_r. exact (context_last ctx a0 l Hc E).
Qed.

Lemma boundary_take1 z :
  boundary z = true ->
  rgFree (take 1 z) = true /\ stops (sameChar "g") (take 1 z) = true.
Proof.
  destruct z as [|c z]; [auto|]. cbn [boundary]. intros H.
  apply negb_true_iff in H. cbn [take stops].
  rewrite (not_word_not_g c H). auto.
Qed.

(** No [rgb] match starts inside a keyword match or inside its
    replacement. *)
Lemma no_rgb_in_keyword f kw T tok z rep :
  isHexColor T = true -> keywordShaped kw = true ->
  keywordToken kw T (tok ++ z) = Some (length tok, rep) ->
  (forall a1 a2, tok = a1 ++ a2 -> a2 <> [] ->
                 rgbToken f T (a2 ++ z) = None) /\
  (forall o a1 a2, rep = a1 ++ a2 -> a2 <> [] ->
                   rgbToken f T (a2 ++ o) = None).
Proof.
  intros HT Hs H.
  destruct (keywordToken_hit _ _ _ _ _ H)
    as (ctx & k & -> & -> & Hc & Hk & _ & Hb & _).
  destruct (keywordShaped_parts kw Hs) as (_ & _ & Hkw).
  pose proof (rgFree_sameText k kw Hk Hkw) as Hkf.
  pose proof (declarationContext_rgFree ctx Hc) as Hcf.
  assert (Hfail : forall w x a1 a2,
             rgFree (w ++ take 1 x) = true -> w = a1 ++ a2 -> a2 <> [] ->
             rgbToken f T (a2 ++ x) = None).
  { intros w x a1 a2 Hf E Hne. unfold rgbToken.
    destruct (matchRgb (a2 ++ x)) as [m|] eqn:Em; [|reflexivity].
    apply matchRgb_rgAt in Em. rewrite (rgAt_take1 a2 x Hne) in Em.
    rewrite E, <- app_assoc in Hf. apply rgFree_suffix, rgFree_rgAt in Hf.
    congruence. }
  split.
  - intros a1 a2. apply Hfail.
    destruct (boundary_take1 z Hb) as [Hz1 Hz2].
    apply rgFree_app_r; auto.
    apply rgFree_app_l; auto.
    intros a0 l E. exact (context_last_not_r ctx a0 l Hc E).
  - intros o a1 a2. apply Hfail.
    destruct (isHexColor_shape T HT) as (dt & -> & _ & Hh).
    assert (HT' : forallb (fun c => negb (sameChar "r" c)) ("#"%char :: dt)
                  = true).
    { cbn [forallb]. rewrite (forallb_weaken _ _ dt hex_not_r Hh).
      reflexivity. }
    apply rgFree_app_l.
    + apply rgFree_app_l; auto.
      * apply rgFree_class, HT'.
      * intros a0 l E. exact (context_last_not_r ctx a0 l Hc E).
    + destruct o; reflexivity.
    + intros a0 l E.
      assert (Hin : forallb (fun c => negb (sameChar "r" c)) [l] = true).
      { destruct (exists_last (l := "#"%char :: dt)) as (t0 & y & Et);
          [discriminate|].
        rewrite Et in E, HT'. rewrite app_assoc in E.
        apply app_inj_tail in E. destruct E as [_ ->].
        apply forallb_suffix in HT'. exact HT'. }
      cbn [forallb] in Hin. rewrite andb_true_r in Hin.
      apply negb_true_iff in Hin. exact Hin.
Qed.

Lemma quiet_drop mu a z :
  (forall a1 a2, a = a1 ++ a2 -> a2 <> [] -> mu (a2 ++ z) = None) ->
  quiet mu (a ++ z) -> quiet mu z.
Proof.
  induction a as [|c a IH]; intros Hnone H; [exact H|].
  apply IH.
  - intros a1 a2 E. apply (Hnone (c :: a1)). rewrite E. reflexivity.
  - pose proof (Hnone [] (c :: a) eq_refl) as Hc.
    cbn [app] in H. inversion H as [|c' s' Hm Hq|tok z0 Hm Hne Hq E].
    + exact Hq.
    + rewrite E in Hm. cbn [app] in Hc. rewrite Hc in Hm;
        [discriminate|discriminate].
Qed.

Lemma quiet_prepend mu a z :
  (forall a1 a2, a = a1 ++ a2 -> a2 <> [] -> mu (a2 ++ z) = None) ->
  quiet mu z -> quiet mu (a ++ z).
Proof.
  induction a as [|c a IH]; intros Hnone H; [exact H|].
  cbn [app]. constructor.
  - apply (Hnone [] (c :: a)); [reflexivity|discriminate].
  - apply IH; [|exact H].
    intros a1 a2 E. apply (Hnone (c :: a1)). rewrite E. reflexivity.
Qed.

(** The scan copies a text in which no match starts. *)
Lemma scan_skip mu a y :
  forall out,
    (forall a1 a2, a = a1 ++ a2 -> a2 <> [] -> mu (a2 ++ y) = None) ->
    rewrites mu (a ++ y) out ->
    exists o, out = a ++ o /\ rewrites mu y o.
Proof.
  induction a as [|c a IH]; intros out Hnone H.
  - exists out. auto.
  - pose proof (Hnone [] (c :: a) eq_refl) as Hc.
    cbn [app] in H, Hc.
    inversion H as [|c' s' out' Hm Hr|tok z0 rep out' Hm Hne Hr E].
    + subst. destruct (IH out') as (o & -> & Ho); [|exact Hr|].
      * intros a1 a2 E. apply (Hnone (c :: a1)). rewrite E. reflexivity.
      * exists o. auto.
    + rewrite E in Hm. rewrite Hc in Hm; [discriminate|discriminate].
Qed.

(** The scan of a keyword up to the first closing parenthesis. *)
Lemma keyword_scan_to_close kw T s o1 :
  isHexColor T = true -> keywordShaped kw = true ->
  rewrites (keywordToken kw T) s o1 ->
  forall rest z,
    s = rest ++ ")"%char :: z -> forallb notClose rest = true ->
    exists rest' oz,
      o1 = rest' ++ ")"%char :: oz /\ forallb notClose rest' = true /\
      rewrites (keywordToken kw T) z oz /\ (rest = [] -> rest' = []) /\
      stops isDigit (rest' ++ ")"%char :: oz)
        = stops isDigit (rest ++ ")"%char :: z).
Proof.
  intros HT Hs H.
  induction H as [|c s out Hm Hr IH|tok z0 rep out Hm Hne Hr IH];
    intros rest z E Hn.
  - destruct rest; discriminate.
  - destruct rest as [|d rest].
    + cbn [app] in E. injection E as -> ->.
      exists [], out. repeat split; auto.
    + cbn [app] in E. injection E as -> ->.
      cbn [forallb] in Hn. apply andb_true_iff in Hn. destruct Hn as [Hd Hn].
      destruct (IH rest z eq_refl Hn) as (rest' & oz & -> & Hn' & Hz & _ & _).
      exists (d :: rest'), oz. repeat split; auto.
      * cbn [forallb]. rewrite Hd, Hn'. reflexivity.
      * discriminate.
  - destruct (keyword_texts_no_close kw T tok z0 rep HT Hs Hm) as [Ht Hrep].
    symmetry in E.
    destruct (lacks_prefix _ _ _ _ _ E Ht) as (v & -> & ->).
    rewrite forallb_app in Hn. apply andb_true_iff in Hn.
    destruct Hn as [_ Hv].
    destruct (IH v z eq_refl Hv) as (v' & oz & -> & Hv' & Hz & _ & _).
    exists (rep ++ v'), oz. rewrite <- !app_assoc. repeat split; auto.
    + rewrite forallb_app, Hrep, Hv'. reflexivity.
    + intros E0. destruct tok; [contradiction|discriminate].
    + destruct (keywordToken_first _ _ _ _ _ Hm) as (c & t & r & -> & -> & _).
      reflexivity.
Qed.

(** A match that is replaced by itself stays so when the text up to
    its parenthesis changes. *)
Lemma rgb_self_kept f T a r g b hd rest z rest' oz :
  isHexColor T = true -> rgbHeadOf a r g b hd ->
  forallb notClose rest = true ->
  stops isDigit (rest ++ ")"%char :: z) = true ->
  rgbToken f T ((hd ++ rest ++ [")"%char]) ++ z)
    = Some (length (hd ++ rest ++ [")"%char]), hd ++ rest ++ [")"%char]) ->
  forallb notClose rest' = true ->
  stops isDigit (rest' ++ ")"%char :: oz) = true ->
  (rest = [] -> rest' = []) ->
  rgbToken f T ((hd ++ rest' ++ [")"%char]) ++ oz)
    = Some (length (hd ++ rest' ++ [")"%char]), hd ++ rest' ++ [")"%char]).
Proof.
  intros HT Hh Hn Hst H Hn' Hst' Hnil.
  rewrite (rgbToken_complete f T a r g b hd rest z Hh Hn Hst) in H.
  rewrite (rgbToken_complete f T a r g b hd rest' oz Hh Hn' Hst').
  destruct (isRgbInFamily (numberOf (parseDec r)) (numberOf (parseDec g))
           (numberOf (parseDec b)) f);
    [|reflexivity].
  injection H as H. f_equal. f_equal.
  destruct (rgbCanonical_head T a HT) as (hdc & tr & tg & tb & Hc & Hcan).
  rewrite Hcan in *. destruct a.
  - rewrite !app_assoc in H. apply app_inv_tail in H.
    apply app_inv_tail in H. subst hdc. reflexivity.
  - assert (Hrest : rest = []).
    { pose proof (matchRgb_complete false tr tg tb hdc [] z Hc eq_refl eq_refl)
        as M1.
      pose proof (matchRgb_complete false r g b hd rest z Hh Hn Hst) as M2.
      replace (hdc ++ [] ++ ")"%char :: z)
        with ((hdc ++ [] ++ [")"%char]) ++ z) in M1
        by (rewrite <- !app_assoc; reflexivity).
      rewrite H, <- !app_assoc in M1. cbn [app] in M1.
      rewrite M2 in M1. injection M1 as _ _ _ M1. exact M1. }
    rewrite (Hnil Hrest). subst rest. cbn [app] in H.
    apply app_inv_tail in H. subst hdc. reflexivity.
Qed.

(** The third rewrite keeps the scan of the [rgb] expression quiet. *)
Lemma rgb_quiet_by_keyword f kw T :
  isHexColor T = true -> keywordShaped kw = true ->
  forall u1 u,
    quiet (rgbToken f T) u1 -> rewrites (keywordToken kw T) u1 u ->
    quiet (rgbToken f T) u.
Proof.
  intros HT Hs u1. remember (length u1) as n eqn:Hn. revert u1 Hn.
  induction n as [n IH] using lt_wf_ind. intros u1 Hn u Hq Hr.
  pose proof Hr as Hr0.
  inversion Hr0 as [E1 E2|c s out Hm Hrs E1 E2|tok z rep out Hm Hne Hrz E1 E2].
  - constructor.
  - subst u1 u.
    inversion Hq as [|c' s' Rm Rq|rtok rz Rm Rne Rq E].
    + subst. constructor.
      * exact (rgb_miss_by_keyword f kw T c s out HT Hs Hrs Rm).
      * apply (IH (length s)) with (u1 := s); auto.
    + destruct (rgbToken_hit _ _ _ _ _ Rm)
        as (a & r & g & b & hd & rest & Htok & Hhd & Hnc & Hst & _ & _).
      rewrite <- E in Hr. rewrite Htok, <- app_assoc in Hr.
      assert (Hskip : forall h1 h2, hd = h1 ++ h2 -> h2 <> [] ->
                keywordToken kw T (h2 ++ (rest ++ [")"%char]) ++ rz) = None).
      { intros h1 h2 Eh Hne. unfold keywordToken.
        rewrite matchKeyword_starts; [reflexivity|].
        exact (property_not_in_head a r g b hd h1 h2 _ Hhd Eh Hne). }
      destruct (scan_skip (keywordToken kw T) hd _ _ Hskip Hr)
        as (o1 & Eo & Ho).
      rewrite <- app_assoc in Ho. cbn [app] in Ho.
      destruct (keyword_scan_to_close kw T _ o1 HT Hs Ho rest rz eq_refl Hnc)
        as (rest' & oz & -> & Hnc' & Hz & Hnil & Hst').
      rewrite Eo.
      replace (hd ++ rest' ++ ")"%char :: oz)
        with ((hd ++ rest' ++ [")"%char]) ++ oz)
        by (rewrite <- !app_assoc; reflexivity).
      constructor.
      * apply (rgb_self_kept f T a r g b hd rest rz rest' oz); auto.
        -- rewrite <- Htok. exact Rm.
        -- rewrite Hst'. exact Hst.
      * destruct hd; [|discriminate].
        destruct (rgbHead_shape _ _ _ _ _ Hhd) as (? & ? & ? & ? & ? & _).
        discriminate.
      * apply (IH (length rz)) with (u1 := rz); auto.
        apply (f_equal (@length ascii)) in E. rewrite length_app in E.
        destruct rtok; [contradiction|]. simpl in *. lia.
  - subst u1 u.
    destruct (no_rgb_in_keyword f kw T tok z rep HT Hs Hm) as [Hin Hout].
    apply quiet_prepend; [apply Hout|].
    apply (IH (length z)) with (u1 := z); auto.
    + rewrite Hn, length_app. destruct tok; [contradiction|]. simpl. lia.
    + exact (quiet_drop _ tok z Hin Hq).
Qed.

(** ** The three rewrites as scans of token functions *)

Lemma hexMatcher_token f T : tokenOf (hexMatcher f T) (hexToken f T).
Proof.
  intros s. unfold hexMatcher, hexToken.
  destruct (matchHex s) as [n|]; [|reflexivity]. eauto.
Qed.

Lemma hexMatcher_within f T : matchesWithin (hexMatcher f T).
Proof.
  intros s n sub H. unfold hexMatcher in H.
  destruct (matchHex s) as [n'|] eqn:E; [|discriminate].
  injection H as <- _.
  destruct (matchHex_sound _ _ E) as (ds & z & -> & -> & _).
  cbn [length]. rewrite length_app. lia.
Qed.

Lemma hexColor_startsWith T :
  isHexColor T = true -> startsWith (chars "#") T = true.
Proof.
  intros HT. destruct (isHexColor_shape T HT) as (dt & -> & _). reflexivity.
Qed.

Lemma rgbMatcher_token f T :
  isHexColor T = true -> tokenOf (rgbMatcher f T) (rgbToken f T).
Proof.
  intros HT s. unfold rgbMatcher, rgbToken.
  destruct (matchRgb s) as [m|]; [|reflexivity].
  rewrite (hexColor_startsWith T HT). eexists. split; reflexivity.
Qed.

Lemma rgbMatcher_within f T : matchesWithin (rgbMatcher f T).
Proof.
  intros s n sub H. unfold rgbMatcher in H.
  destruct (matchRgb s) as [m|] eqn:E; [|discriminate].
  injection H as <- _.
  destruct (matchRgb_sound _ _ E) as (hd & Hh & -> & _).
  destruct (rgbHead_shape _ _ _ _ _ Hh) as (c0 & c1 & c2 & tl & -> & _).
  cbn [app length]. rewrite !length_app. cbn [length]. lia.
Qed.

Lemma getSubstitution_plain caps m b a t :
  lacks "$" t = true -> getSubstitution caps m b a t = t.
Proof.
  induction t as [|c t IH]; [reflexivity|].
  cbn [lacks forallb]. fold (lacks "$" t). intros H.
  apply andb_true_iff in H. destruct H as [Hc Ht].
  apply negb_true_iff in Hc. cbn [getSubstitution]. rewrite Hc, (IH Ht).
  reflexivity.
Qed.

Lemma hex_no_dollar c : isHex c = true -> Ascii.eqb c "$" = false.
Proof. by_cases_on c. Qed.

(** The template of the keyword rewrite with a hex target. *)
Lemma getSubstitution_target g m b a T :
  isHexColor T = true ->
  getSubstitution [g] m b a (chars "$1" ++ T) = g ++ T.
Proof.
  intros HT. destruct (isHexColor_shape T HT) as (dt & -> & _ & Hh).
  cbn [chars list_ascii_of_string app getSubstitution].
  change (Ascii.eqb "$" "$") with true. cbv iota.
  change (Ascii.eqb "1" "$") with false.
  change (Ascii.eqb "1" "&") with false.
  change (Ascii.eqb "1" "`") with false.
  change (Ascii.eqb "1" "'") with false.
  change (isDigit "1") with true. cbv iota.
  change (isDigit "#") with false. cbn [andb].
  change (validRef [g] (digitVal "1")) with true. cbv iota.
  change (nth (digitVal "1" - 1) [g] []) with g.
  change (Ascii.eqb "#" "$") with false. cbv iota.
  rewrite getSubstitution_plain; [reflexivity|].
  apply (lacks_class isHex); [apply hex_no_dollar|exact Hh].
Qed.

Lemma keywordMatcher_token kw T :
  isHexColor T = true -> tokenOf (keywordMatcher kw T) (keywordToken kw T).
Proof.
  intros HT s. unfold keywordMatcher, keywordToken.
  destruct (matchKeyword kw s) as [[s3 s4]|]; [|reflexivity].
  eexists. split; [reflexivity|].
  intros b. apply getSubstitution_target, HT.
Qed.

(** ** The keywords of the table *)

Lemma lookupTable_In {A : Type} k (t : list (string * A)) v :
  lookupTable k t = Some v -> exists k', In (k', v) t.
Proof.
  induction t as [|[k' v'] t IH]; [discriminate|].
  cbn [lookupTable]. destruct (String.eqb k' k).
  - intros H. injection H as <-. exists k'. left. reflexivity.
  - intros H. destruct (IH H) as (k2 & Hin). exists k2. right. exact Hin.
Qed.

Lemma keywords_shaped f kws :
  lookupTable f keywords = Some kws ->
  Forall (fun kw => keywordShaped (chars kw) = true) kws.
Proof.
  intros H. destruct (lookupTable_In _ _ _ H) as (k' & Hin).
  assert (Hall : forallb (fun e : string * list string =>
                   forallb (fun kw => keywordShaped (chars kw)) (snd e))
                   keywords = true) by (vm_compute; reflexivity).
  rewrite forallb_forall in Hall. specialize (Hall _ Hin). cbn [snd] in Hall.
  rewrite forallb_forall in Hall.
  apply List.Forall_forall. exact Hall.
Qed.

(** ** The result of the color rewrite is a fixed point of its three
    rewrites *)

Lemma keywords_keep_settled f T kws :
  isHexColor T = true ->
  Forall (fun kw => keywordShaped (chars kw) = true) kws ->
  forall s,
    everySuffix (hexSettled f T) s -> quiet (rgbToken f T) s ->
    everySuffix (hexSettled f T) (replaceKeywords kws T s) /\
    quiet (rgbToken f T) (replaceKeywords kws T s).
Proof.
  intros HT Hk. unfold replaceKeywords.
  induction Hk as [|kw kws Hs _ IH]; intros s Hh Hq; [auto|].
  cbn [fold_left]. 
  pose proof (replaceAll_rewrites _ _ s
                (keywordMatcher_token (chars kw) T HT)
                (keywordMatcher_within (chars kw) T)) as Hr.
  apply IH.
  - exact (hex_settled_by_keyword f (chars kw) T _ _ HT Hr Hh).
  - exact (rgb_quiet_by_keyword f (chars kw) T HT Hs _ _ Hq Hr).
Qed.

Lemma keywords_keep_free kw T kws :
  isHexColor T = true -> keywordShaped kw = true ->
  forall s,
    everySuffix (keywordFree kw) s ->
    everySuffix (keywordFree kw) (replaceKeywords kws T s).
Proof.
  intros HT Hs. unfold replaceKeywords.
  induction kws as [|kw' kws IH]; intros s Hf; [exact Hf|].
  cbn [fold_left]. apply IH.
  pose proof (replaceAll_rewrites _ _ s
                (keywordMatcher_token (chars kw') T HT)
                (keywordMatcher_within (chars kw') T)) as Hr.
  exact (keyword_free_preserved kw (chars kw') T _ _ HT Hs Hr Hf).
Qed.

Lemma keywords_all_free T kws :
  isHexColor T = true ->
  Forall (fun kw => keywordShaped (chars kw) = true) kws ->
  forall s,
    Forall (fun kw => everySuffix (keywordFree (chars kw))
                        (replaceKeywords kws T s)) kws.
Proof.
  intros HT Hk.
  induction Hk as [|kw kws Hs Hk IH]; intros s; constructor.
  - change (replaceKeywords (kw :: kws) T s)
      with (replaceKeywords kws T
              (replaceAll (keywordMatcher (chars kw) T) s)).
    apply (keywords_keep_free (chars kw) T kws HT Hs).
    pose proof (replaceAll_rewrites _ _ s
                  (keywordMatcher_token (chars kw) T HT)
                  (keywordMatcher_within (chars kw) T)) as Hr.
    exact (keyword_free_established (chars kw) T _ _ HT Hs Hr).
  - apply IH.
Qed.

Lemma keywords_fixed T kws u :
  isHexColor T = true ->
  Forall (fun kw => everySuffix (keywordFree (chars kw)) u) kws ->
  replaceKeywords kws T u = u.
Proof.
  intros HT H. unfold replaceKeywords.
  induction H as [|kw kws Hf _ IH]; [reflexivity|].
  cbn [fold_left].
  rewrite (replaceAll_fixed _ _ u (keywordMatcher_token (chars kw) T HT)
             (keyword_free_fixed (chars kw) T u Hf)).
  exact IH.
Qed.

(** The text after the three rewrites is left as it is by each of
    them. *)
Lemma color_rewrite_settled f T kws t :
  isHexColor T = true ->
  Forall (fun kw => keywordShaped (chars kw) = true) kws ->
  let u := replaceKeywords kws T
             (replaceAll (rgbMatcher f T) (replaceAll (hexMatcher f T) t)) in
  replaceAll (hexMatcher f T) u = u /\ replaceAll (rgbMatcher f T) u = u /\
  replaceKeywords kws T u = u.
Proof.
  intros HT Hk u.
  pose proof (replaceAll_rewrites _ _ t (hexMatcher_token f T)
                (hexMatcher_within f T)) as H1.
  pose proof (replaceAll_rewrites _ _ (replaceAll (hexMatcher f T) t)
                (rgbMatcher_token f T HT) (rgbMatcher_within f T)) as H2.
  pose proof (hex_settled_by_hex f T _ _ HT H1) as S1.
  pose proof (hex_settled_by_rgb f T _ _ HT H2 S1) as S2.
  pose proof (rgb_quiet_by_rgb f T _ _ HT H2) as Q2.
  destruct (keywords_keep_settled f T kws HT Hk _ S2 Q2) as [S3 Q3].
  fold u in S3, Q3.
  repeat split.
  - apply (replaceAll_fixed _ _ u (hexMatcher_token f T)).
    apply hex_settled_fixed, S3.
  - apply (replaceAll_fixed _ _ u (rgbMatcher_token f T HT)).
    apply quiet_rewrites, Q3.
  - apply keywords_fixed; [exact HT|].
    apply keywords_all_free; assumption.
Qed.

Lemma chars_str t : chars (str t) = t.
Proof. apply list_ascii_of_string_of_list_ascii. Qed.

(** The names of the color table and the six-digit literals give a hex
    target. *)
Lemma colors_are_hex :
  forallb (fun e : string * string => isHexColor (chars (snd e))) colors
    = true.
Proof. vm_compute. reflexivity. Qed.

(** A name of the color table stands for a hex color. *)
Lemma getTargetColor_table_name replaceColor hex :
  startsWith (chars "#") (chars replaceColor) = false ->
  lookupTable (toLowerCase replaceColor) colors = Some hex ->
  getTargetColor replaceColor = ColorText hex /\
  isHexColor (chars hex) = true.
Proof.
  intros Hs Hl. unfold getTargetColor. rewrite Hs, Hl.
  split; [reflexivity|].
  destruct (lookupTable_In _ _ _ Hl) as (k & Hin).
  pose proof colors_are_hex as Hall. rewrite forallb_forall in Hall.
  exact (Hall _ Hin).
Qed.

(** C8, for a hex target.  When the target color that [getTargetColor]
    gives for [replaceColor] is a hex color of six digits, which is the
    case for the names of the color table and for such a literal, a
    second application of [replaceColorsInHtml] to the result of the
    first one with the same pair of colors changes nothing. *)
Theorem color_rewrite_idempotent_for_hex_target
    (html findColor replaceColor targetColor once : string) :
  getTargetColor replaceColor = ColorText targetColor ->
  isHexColor (chars targetColor) = true ->
  replaceColorsInHtml html findColor replaceColor = Some once ->
  replaceColorsInHtml once findColor replaceColor = Some once.
Proof.
  intros Hg HT H. unfold replaceColorsInHtml in *.
  rewrite Hg in *. cbn [mbind option_bind colorText] in *.
  destruct (lookupTable findColor keywords) as [kws|] eqn:Ek.
  - injection H as <-. rewrite chars_str.
    destruct (color_rewrite_settled findColor (chars targetColor) kws
                (chars html) HT (keywords_shaped _ _ Ek)) as (E1 & E2 & E3).
    rewrite E1, E2, E3. reflexivity.
  - destruct (isPrototypeName findColor); [discriminate|].
    injection H as <-. rewrite chars_str.
    destruct (color_rewrite_settled findColor (chars targetColor) []
                (chars html) HT (@List.Forall_nil string _))
      as (E1 & E2 & _).
    cbn [replaceKeywords fold_left] in E1, E2.
    rewrite E1, E2. reflexivity.
Qed.

(** The theorem at a text with a keyword, an [rgb] literal and a hex
    literal of the red family, rewritten to blue. *)
Lemma color_rewrite_idempotent_for_hex_target_witness :
  let html :=
    "color: red; border: 1px solid rgb(255, 0, 0); background: #ff0000" in
  let once :=
    "color: #0066cc; border: 1px solid rgb(0, 102, 204); background: #0066cc"
  in
  getTargetColor "blue" = ColorText "#0066cc" /\
  isHexColor (chars "#0066cc") = true /\
  replaceColorsInHtml html "red" "blue" = Some once /\
  replaceColorsInHtml once "red" "blue" = Some once.
Proof.
  intros html once.
  split; [reflexivity|]. split; [reflexivity|].
  split; [vm_compute; reflexivity|].
  apply (color_rewrite_idempotent_for_hex_target html "red" "blue"
           "#0066cc" once); vm_compute; reflexivity.
Defined.

(** C8 as stated fails when the target color is no hex color and
    starts with a keyword of the family that a word boundary follows:
    the keyword rewrite puts the target behind the declaration context,
    and the second application finds the keyword at the head of that
    target and replaces it once more. *)
Lemma color_rewrite_not_idempotent_counterexample :
  getTargetColor "red-orange" = ColorText "red-orange" /\
  replaceColorsInHtml "color: red" "red" "red-orange"
    = Some "color: red-orange" /\
  replaceColorsInHtml "color: red-orange" "red" "red-orange"
    = Some "color: red-orange-orange" /\
  "color: red-orange-orange" <> "color: red-orange".
Proof.
  split; [vm_compute; reflexivity|].
  split; [vm_compute; reflexivity|].
  split; [vm_compute; reflexivity|discriminate].
Qed.

(** * Keywords are rewritten in a declaration context only *)

Lemma startsWith_app p s : startsWith p (p ++ s) = true.
Proof.
  induction p as [|a p IH]; [reflexivity|].
  cbn [app startsWith]. rewrite Ascii.eqb_refl. exact IH.
Qed.











Lemma scanFrom_none (m : matcher) s :
  (forall pre suf, s = pre ++ suf -> m suf = None) ->
  forall before, scanFrom m 0 before s = s.
Proof.
  induction s as [|c s IH]; intros Hn before; [reflexivity|].
  cbn [scanFrom]. rewrite (Hn [] (c :: s) eq_refl). f_equal.
  apply IH. intros pre suf E. apply (Hn (c :: pre)). rewrite E. reflexivity.
Qed.

Lemma lacks_suffix x pre suf : lacks x (pre ++ suf) = true -> lacks x suf = true.
Proof. rewrite lacks_app. intros H. apply andb_true_iff in H. tauto. Qed.

Lemma lacks_head x s : lacks x (x :: s) = false.
Proof. cbn [lacks forallb]. rewrite Ascii.eqb_refl. reflexivity. Qed.

Lemma lacks_inner x a b : lacks x (a ++ x :: b) = false.
Proof. rewrite lacks_app, lacks_head. apply andb_false_r. Qed.

Lemma matchRgb_has_paren s m : matchRgb s = Some m -> lacks "(" s = false.
Proof.
  intros H. destruct (matchRgb_sound _ _ H) as (hd & Hh & -> & _).
  destruct Hh as [m3 ma w0 w1 w2 w3 w4 w5].
  rewrite <- !app_assoc. rewrite !lacks_app, lacks_head.
  rewrite !andb_false_r. reflexivity.
Qed.





(** ** The claim without the condition on the target *)




Lemma sameText_app a a' b b' :
  sameText a a' -> sameText b b' -> sameText (a ++ b) (a' ++ b').
Proof. unfold sameText. rewrite !map_app. intros -> ->. reflexivity. Qed.







(** * Further properties of the engine *)

(** ** Forests *)

Lemma nodesOf_eq el : nodesOf el = el :: allNodes (children el).
Proof. destruct el as [ty nm ud lb cf vs sy [ch|]]; reflexivity. Qed.

Lemma allNodes_app a b : allNodes (a ++ b) = allNodes a ++ allNodes b.
Proof. apply flat_map_app. Qed.

Lemma allNodes_cons el r :
  allNodes (el :: r) = el :: allNodes (children el) ++ allNodes r.
Proof.
  unfold allNodes at 1. cbn [flat_map]. rewrite nodesOf_eq. reflexivity.
Qed.

Lemma uidsOf_app a b : uidsOf (a ++ b) = uidsOf a ++ uidsOf b.
Proof. unfold uidsOf. rewrite allNodes_app. apply fmap_app. Qed.

Lemma uidsOf_cons el r :
  uidsOf (el :: r) = uid el :: uidsOf (children el) ++ uidsOf r.
Proof. unfold uidsOf. rewrite allNodes_cons, fmap_cons, fmap_app. reflexivity. Qed.

Lemma nodeCount_app a b : nodeCount (a ++ b) = nodeCount a + nodeCount b.
Proof. unfold nodeCount. rewrite allNodes_app. apply length_app. Qed.

Lemma children_setElements ch el : children (setElements (Some ch) el) = ch.
Proof. reflexivity. Qed.

Lemma alter_middle {A : Type} (F : A -> A) (l : list A) i x :
  l !! i = Some x -> alter F i l = take i l ++ F x :: drop (S i) l.
Proof.
  revert i. induction l as [|y l IH]; intros [|i] H; try discriminate.
  - injection H as ->. reflexivity.
  - cbn. f_equal. apply IH. exact H.
Qed.

(** The nodes around the array reached by a path stay as they are, up
    to the child lists of the ancestors, when the array changes. *)
Lemma modifyArrayAt_context {X : Type} (g : node -> X) :
  (forall es el, g (setElements es el) = g el) ->
  forall p els arr,
    arrayAt p els = Some arr ->
    exists l1 l2,
      forall f,
        g <$> allNodes (modifyArrayAt p f els)
          = l1 ++ (g <$> allNodes (f arr)) ++ l2.
Proof.
  intros Hg. induction p as [|i p IH]; intros els arr H.
  - injection H as ->. exists [], []. intros f. cbn [modifyArrayAt app].
    rewrite app_nil_r. reflexivity.
  - cbn [arrayAt] in H.
    destruct (els !! i) as [el|] eqn:Ei; [|discriminate].
    destruct (elements el) as [ch|] eqn:Ec; [|discriminate].
    destruct (IH ch arr H) as (l1 & l2 & Hctx).
    exists ((g <$> allNodes (take i els)) ++ g el :: l1),
           (l2 ++ (g <$> allNodes (drop (S i) els))).
    intros f. cbn [modifyArrayAt].
    rewrite (alter_middle _ els i el Ei), Ec.
    rewrite allNodes_app, allNodes_cons, children_setElements.
    rewrite !fmap_app, fmap_cons, fmap_app, Hg, Hctx.
    repeat (rewrite <- ?app_assoc; cbn [app]). reflexivity.
Qed.

Lemma setElements_same el ch : elements el = Some ch -> setElements (Some ch) el = el.
Proof. destruct el. cbn. intros ->. reflexivity. Qed.

Lemma modifyArrayAt_same p :
  forall els arr f,
    arrayAt p els = Some arr -> f arr = arr -> modifyArrayAt p f els = els.
Proof.
  induction p as [|i p IH]; intros els arr f H Hf.
  - injection H as ->. exact Hf.
  - cbn [arrayAt] in H.
    destruct (els !! i) as [el|] eqn:Ei; [|discriminate].
    destruct (elements el) as [ch|] eqn:Ec; [|discriminate].
    cbn [modifyArrayAt]. rewrite (alter_middle _ els i el Ei), Ec.
    rewrite (IH ch arr f H Hf), (setElements_same el ch Ec).
    apply take_drop_middle, Ei.
Qed.

(** The same with the nodes of the array as they are. *)
Lemma arrayAt_context {X : Type} (g : node -> X) :
  (forall es el, g (setElements es el) = g el) ->
  forall p els arr,
    arrayAt p els = Some arr ->
    exists l1 l2,
      g <$> allNodes els = l1 ++ (g <$> allNodes arr) ++ l2 /\
      forall f,
        g <$> allNodes (modifyArrayAt p f els)
          = l1 ++ (g <$> allNodes (f arr)) ++ l2.
Proof.
  intros Hg p els arr H.
  destruct (modifyArrayAt_context g Hg p els arr H) as (l1 & l2 & Hctx).
  exists l1, l2. split; [|exact Hctx].
  rewrite <- (Hctx (fun a => a)).
  rewrite (modifyArrayAt_same p els arr _ H eq_refl). reflexivity.
Qed.

Lemma uid_setElements es el : uid (setElements es el) = uid el.
Proof. reflexivity. Qed.

Lemma identityOf_setElements es el : identityOf (setElements es el) = identityOf el.
Proof. reflexivity. Qed.

(** ** The locator *)

Lemma findElementByUid_found_node u :
  forall els,
    match findElementByUid els u with
    | Some el => uid el = u /\ In el (allNodes els)
    | None => ~ In u (uidsOf els)
    end.
Proof.
  assert (Hall : forall els,
    Forall (fun el => match findInElement u el with
                      | Some x => uid x = u /\ In x (nodesOf el)
                      | None => ~ In u (uid <$> nodesOf el)
                      end) els ->
    match findElementByUid els u with
    | Some el => uid el = u /\ In el (allNodes els)
    | None => ~ In u (uidsOf els)
    end).
  { induction 1 as [|x r Hx _ IH]; [intros []|].
    unfold findElementByUid in *. cbn [firstSome].
    unfold uidsOf, allNodes in *. cbn [flat_map]. rewrite fmap_app.
    destruct (findInElement u x) as [y|].
    - destruct Hx as [Hu Hin]. split; [exact Hu|]. apply in_or_app. auto.
    - destruct (firstSome (findInElement u) r) as [y|].
      + destruct IH as [Hu Hin]. split; [exact Hu|]. apply in_or_app. auto.
      + intros Hin. apply in_app_or in Hin. tauto. }
  intros els. apply Hall. apply forest_ind. clear els.
  intros el IH. destruct el as [ty nm ud lb cf vs sy es].
  cbn [findInElement uid elements].
  destruct (String.eqb ud u) eqn:E.
  - apply String.eqb_eq in E. split; [exact E|]. left. reflexivity.
  - apply String.eqb_neq in E. cbn [nodesOf elements].
    destruct es as [ch|].
    + specialize (Hall ch (IH ch eq_refl)).
      unfold findElementByUid in Hall.
      fold (findInElement u).
      destruct (firstSome (findInElement u) ch) as [y|].
      * destruct Hall as [Hu Hin]. split; [exact Hu|]. right. exact Hin.
      * rewrite fmap_cons. intros [H|H]; [exact (E H)|exact (Hall H)].
    + intros [H|[]]. exact (E H).
Qed.

Lemma identitiesOf_app a b :
  identitiesOf (a ++ b) = identitiesOf a ++ identitiesOf b.
Proof. unfold identitiesOf. rewrite allNodes_app. apply fmap_app. Qed.

Lemma identitiesOf_cons el r :
  identitiesOf (el :: r)
    = identityOf el :: identitiesOf (children el) ++ identitiesOf r.
Proof.
  unfold identitiesOf. rewrite allNodes_cons, fmap_cons, fmap_app.
  reflexivity.
Qed.

Lemma uidsOf_identities els : uidsOf els = (fun t => t.1.1) <$> identitiesOf els.
Proof.
  unfold uidsOf, identitiesOf. rewrite <- list_fmap_compose. reflexivity.
Qed.

Lemma nodeCount_identities els : nodeCount els = length (identitiesOf els).
Proof. unfold nodeCount, identitiesOf. rewrite length_fmap. reflexivity. Qed.

(** The array and the index that [findParentOf] returns. *)
Lemma findParentOf_found els u p j :
  findParentOf els u = Some (p, j) ->
  exists arr el,
    arrayAt p els = Some arr /\ arr !! j = Some el /\ uid el = u /\
    findIndex u arr = Z.of_nat j /\ findElementByUid els u = Some el.
Proof.
  intros H. pose proof (findParentOf_spec els u) as Hs. rewrite H in Hs.
  destruct Hs as (arr & el & Ha & (Hj & Hu & Hi) & Hf). eauto 10.
Qed.

Lemma findParentOf_none els u :
  findElementByUid els u = None -> findParentOf els u = None.
Proof.
  intros H. pose proof (findParentOf_spec els u) as Hs.
  destruct (findParentOf els u) as [[p j]|]; [|reflexivity].
  destruct Hs as (arr & el & _ & _ & Hf). congruence.
Qed.

Lemma findParentOf_some els u el :
  findElementByUid els u = Some el ->
  exists p j arr,
    findParentOf els u = Some (p, j) /\ arrayAt p els = Some arr /\
    arr !! j = Some el /\ uid el = u /\ findIndex u arr = Z.of_nat j.
Proof.
  intros H. pose proof (findParentOf_spec els u) as Hs.
  destruct (findParentOf els u) as [[p j]|]; [|congruence].
  destruct Hs as (arr & el' & Ha & (Hj & Hu & Hi) & Hf).
  assert (el' = el) by congruence. subst el'. eauto 10.
Qed.

Lemma clampStart_index j len :
  j < len -> clampStart (Z.of_nat j) len = j.
Proof.
  intros H. unfold clampStart.
  destruct (Z.of_nat j <? 0)%Z eqn:E; [apply Z.ltb_lt in E; lia|].
  rewrite Nat2Z.id. lia.
Qed.

Lemma clampStart_next j len :
  j < len -> clampStart (Z.of_nat j + 1) len = S j.
Proof.
  intros H. unfold clampStart.
  destruct (Z.of_nat j + 1 <? 0)%Z eqn:E; [apply Z.ltb_lt in E; lia|].
  replace (Z.of_nat j + 1)%Z with (Z.of_nat (S j)) by lia.
  rewrite Nat2Z.id. lia.
Qed.

(** Removal of the element at an index of an array. *)
Lemma spliceAt_remove arr j el :
  arr !! j = Some el ->
  spliceAt (Z.of_nat j) 1 [] arr = take j arr ++ drop (S j) arr.
Proof.
  intros H. unfold spliceAt, splice.
  rewrite clampStart_index by (eapply lookup_lt_Some; eauto).
  cbn [app]. replace (j + 1) with (S j) by lia. reflexivity.
Qed.

(** Replacement of the element at an index. *)
Lemma spliceAt_replace arr j el ins :
  arr !! j = Some el ->
  spliceAt (Z.of_nat j) 1 ins arr = take j arr ++ ins ++ drop (S j) arr.
Proof.
  intros H. unfold spliceAt, splice.
  rewrite clampStart_index by (eapply lookup_lt_Some; eauto).
  replace (j + 1) with (S j) by lia. reflexivity.
Qed.

(** Insertion before or behind the element at an index. *)
Lemma spliceAt_insert arr j el ins (before : bool) :
  arr !! j = Some el ->
  spliceAt (if before then Z.of_nat j else (Z.of_nat j + 1)%Z) 0 ins arr
    = if before then take j arr ++ ins ++ drop j arr
      else take (S j) arr ++ ins ++ drop (S j) arr.
Proof.
  intros H. pose proof (lookup_lt_Some _ _ _ H) as Hlt.
  unfold spliceAt, splice. destruct before.
  - rewrite clampStart_index by exact Hlt. rewrite Nat.add_0_r. reflexivity.
  - rewrite clampStart_next by exact Hlt. rewrite Nat.add_0_r. reflexivity.
Qed.

Lemma identities_middle arr j el :
  arr !! j = Some el ->
  identitiesOf arr
    = identitiesOf (take j arr) ++ identitiesOf [el]
        ++ identitiesOf (drop (S j) arr).
Proof.
  intros H. rewrite <- (take_drop_middle arr j el H) at 1.
  rewrite identitiesOf_app. change (el :: drop (S j) arr)
    with ([el] ++ drop (S j) arr). rewrite identitiesOf_app. reflexivity.
Qed.

(** A change of one element that keeps its identity and its children
    keeps the identities of the array. *)
Lemma identities_alter (f : node -> node) arr j el :
  arr !! j = Some el -> identityOf (f el) = identityOf el ->
  elements (f el) = elements el ->
  identitiesOf (alter f j arr) = identitiesOf arr.
Proof.
  intros H Hi He. rewrite (alter_middle f arr j el H).
  rewrite (identities_middle arr j el H).
  rewrite identitiesOf_app, !identitiesOf_cons.
  unfold children. rewrite Hi, He.
  change (identitiesOf []) with (@nil (string * string * option string)).
  rewrite app_nil_r. cbn [app]. rewrite <- ?app_assoc. reflexivity.
Qed.

Lemma identities_modifyNodeAt (f : node -> node) els p j arr el :
  arrayAt p els = Some arr -> arr !! j = Some el ->
  identityOf (f el) = identityOf el -> elements (f el) = elements el ->
  identitiesOf (modifyNodeAt p j f els) = identitiesOf els.
Proof.
  intros Ha Hj Hi He.
  destruct (arrayAt_context identityOf identityOf_setElements p els arr Ha)
    as (l1 & l2 & E0 & Ef).
  unfold modifyNodeAt, identitiesOf in *. rewrite Ef, E0.
  f_equal. f_equal. exact (identities_alter f arr j el Hj Hi He).
Qed.

Lemma modifyArrayAt_ext p :
  forall els arr f g,
    arrayAt p els = Some arr -> f arr = g arr ->
    modifyArrayAt p f els = modifyArrayAt p g els.
Proof.
  induction p as [|i p IH]; intros els arr f g H Hfg.
  - injection H as ->. exact Hfg.
  - cbn [arrayAt] in H.
    destruct (els !! i) as [el|] eqn:Ei; [|discriminate].
    destruct (elements el) as [ch|] eqn:Ec; [|discriminate].
    cbn [modifyArrayAt]. rewrite !(alter_middle _ els i el Ei), Ec.
    rewrite (IH ch arr f g H Hfg). reflexivity.
Qed.

(** The guarded splice on an element that exists. *)
Lemma spliceOut_found del ins off els u el :
  findElementByUid els u = Some el ->
  exists p j arr,
    arrayAt p els = Some arr /\ arr !! j = Some el /\
    spliceOut del ins off els (Some u)
      = modifyArrayAt p (spliceAt (Z.of_nat j + off) del ins) els.
Proof.
  intros H. destruct (findParentOf_some els u el H)
    as (p & j & arr & Hp & Ha & Hj & Hu & Hi).
  exists p, j, arr. repeat split; auto.
  unfold spliceOut, findParentOpt. rewrite Hp.
  apply (modifyArrayAt_ext p els arr); [exact Ha|].
  cbv zeta. rewrite Hi.
  destruct (Z.of_nat j =? -1)%Z eqn:E; [apply Z.eqb_eq in E; lia|].
  reflexivity.
Qed.

Lemma spliceOut_missing del ins off els u :
  (u ≫= findElementByUid els) = None ->
  spliceOut del ins off els u = els.
Proof.
  intros H. unfold spliceOut. destruct u as [u|]; [|reflexivity].
  cbn in H. unfold findParentOpt. rewrite (findParentOf_none els u H).
  reflexivity.
Qed.

(** ** The loop of [bulk_replace] *)

(** The index and the path that [findParentOf] returns, one place
    further on in the array. *)
Lemma findParentInElement_next u i x :
  findParentInElement u (S i) x
    = (fun r : list nat * nat =>
         match r.1 with
         | [] => ([], S r.2)
         | k :: p => (S k :: p, r.2)
         end) <$> findParentInElement u i x.
Proof.
  destruct x as [ty nm ud lb cf vs sy es]. cbn [findParentInElement uid elements].
  destruct (String.eqb ud u); [reflexivity|].
  destruct es as [ch|]; [|reflexivity].
  destruct (firstSomeFrom (findParentInElement u) 0 ch) as [[p j]|];
    reflexivity.
Qed.

Lemma firstSomeFrom_next u els :
  forall i,
    firstSomeFrom (findParentInElement u) (S i) els
      = (fun r : list nat * nat =>
           match r.1 with
           | [] => ([], S r.2)
           | k :: p => (S k :: p, r.2)
           end) <$> firstSomeFrom (findParentInElement u) i els.
Proof.
  induction els as [|x r IH]; intros i; [reflexivity|].
  cbn [firstSomeFrom]. rewrite findParentInElement_next.
  destruct (findParentInElement u i x) as [[p j]|]; [reflexivity|].
  cbn [fmap option_fmap option_map]. apply IH.
Qed.

(** The loop of [findParentOf], as the source writes it. *)
Lemma findParentOf_cons el rest u :
  findParentOf (el :: rest) u =
    if String.eqb (uid el) u then Some ([], 0)
    else match
           match elements el with
           | Some ch => findParentOf ch u
           | None => None
           end
         with
         | Some (p, j) => Some (0 :: p, j)
         | None =>
             match findParentOf rest u with
             | Some ([], j) => Some ([], S j)
             | Some (k :: p, j) => Some (S k :: p, j)
             | None => None
             end
         end.
Proof.
  unfold findParentOf. cbn [firstSomeFrom].
  rewrite firstSomeFrom_next.
  destruct el as [ty nm ud lb cf vs sy es].
  cbn [findParentInElement uid elements].
  destruct (String.eqb ud u); [reflexivity|].
  destruct es as [ch|].
  - destruct (firstSomeFrom (findParentInElement u) 0 ch) as [[p j]|];
      [reflexivity|].
    destruct (firstSomeFrom (findParentInElement u) 0 rest) as [[[|k p] j]|];
      reflexivity.
  - destruct (firstSomeFrom (findParentInElement u) 0 rest) as [[[|k p] j]|];
      reflexivity.
Qed.

Lemma findParentOf_is_Some els u :
  is_Some (findParentOf els u) <-> is_Some (findElementByUid els u).
Proof.
  pose proof (findParentOf_spec els u) as H.
  destruct (findParentOf els u) as [[p j]|].
  - destruct H as (arr & el & _ & _ & ->). split; eauto.
  - rewrite H. split; intros [? ?]; discriminate.
Qed.

(** The patch of the first element with an identifier, along the
    loop. *)
Lemma patched_cons f u el rest :
  patched f u (el :: rest) =
    if String.eqb (uid el) u then f el :: rest
    else
      match elements el with
      | Some ch =>
          match findElementByUid ch u with
          | Some _ => setElements (Some (patched f u ch)) el :: rest
          | None => el :: patched f u rest
          end
      | None => el :: patched f u rest
      end.
Proof.
  unfold patched, updateElementByUid. rewrite findParentOf_cons.
  destruct (String.eqb (uid el) u); [reflexivity|].
  destruct (elements el) as [ch|] eqn:Ec.
  - pose proof (findParentOf_is_Some ch u) as Hs.
    destruct (findParentOf ch u) as [[p j]|].
    + destruct (findElementByUid ch u);
        [|exfalso; destruct Hs as [Hs _];
          destruct (Hs ltac:(eauto)); discriminate].
      cbn [orSame]. unfold modifyNodeAt. cbn [modifyArrayAt alter list_alter].
      rewrite Ec. reflexivity.
    + destruct (findElementByUid ch u);
        [exfalso; destruct Hs as [_ Hs];
         destruct (Hs ltac:(eauto)); discriminate|].
      destruct (findParentOf rest u) as [[[|k p] j]|]; reflexivity.
  - destruct (findParentOf rest u) as [[[|k p] j]|]; reflexivity.
Qed.

Lemma lookupKept_refl f u0 els :
  findElementByUid els u0 = None -> lookupKept f u0 els els.
Proof.
  intros Hn u. destruct (findElementByUid els u) as [el|] eqn:E;
    [|reflexivity].
  exists el. split; [reflexivity|]. split; [|reflexivity].
  intros ->. congruence.
Qed.

Lemma patched_missing f u els :
  findElementByUid els u = None -> patched f u els = els.
Proof.
  intros H. unfold patched, updateElementByUid.
  rewrite (findParentOf_none els u H). reflexivity.
Qed.

Lemma lookupKept_nodes f u0 x0 :
  uid (f x0) = u0 -> elements (f x0) = elements x0 ->
  forall els,
    Forall (fun el => forall ch, elements el = Some ch ->
                        findElementByUid ch u0 = Some x0 ->
                        lookupKept f u0 ch (patched f u0 ch)) els ->
    findElementByUid els u0 = Some x0 ->
    lookupKept f u0 els (patched f u0 els).
Proof.
  intros Hu He els Hall. induction Hall as [|x r Hx _ IH]; [discriminate|].
  intros Hfind. rewrite patched_cons.
  rewrite findElementByUid_cons in Hfind.
  destruct (String.eqb (uid x) u0) eqn:E0.
  - (* the element itself *)
    injection Hfind as ->. apply String.eqb_eq in E0.
    intros u. rewrite !findElementByUid_cons, Hu, He.
    destruct (String.eqb u0 u) eqn:E.
    + apply String.eqb_eq in E. subst u. rewrite E0, String.eqb_refl.
      exists (f x0). split; [reflexivity|]. split; [reflexivity|].
      intros H. contradiction.
    + rewrite E0, E.
      destruct (match elements x0 with
                | Some ch => findElementByUid ch u
                | None => None
                end) as [y|].
      * exists y. split; [reflexivity|]. apply String.eqb_neq in E.
        split; [congruence|reflexivity].
      * destruct (findElementByUid r u) as [y|]; [|reflexivity].
        exists y. split; [reflexivity|]. apply String.eqb_neq in E.
        split; [congruence|reflexivity].
  - apply String.eqb_neq in E0.
    destruct (elements x) as [ch|] eqn:Ec.
    + destruct (findElementByUid ch u0) as [y|] eqn:Ech.
      * (* below the element *)
        injection Hfind as ->. specialize (Hx ch eq_refl Ech).
        intros u. rewrite !findElementByUid_cons.
        cbn [uid setElements elements].
        destruct (String.eqb (uid x) u) eqn:E.
        -- apply String.eqb_eq in E. eexists. split; [reflexivity|].
           split; [congruence|reflexivity].
        -- rewrite Ec. specialize (Hx u).
           destruct (findElementByUid ch u) as [z|] eqn:Ez.
           ++ destruct Hx as (z' & -> & Hz). exists z'. auto.
           ++ rewrite Hx. destruct (findElementByUid r u) as [z|];
                [|reflexivity].
              exists z. split; [reflexivity|]. split; [|reflexivity].
              intros ->. congruence.
      * (* behind the element *)
        specialize (IH Hfind). intros u. rewrite !findElementByUid_cons, Ec.
        destruct (String.eqb (uid x) u) eqn:E.
        -- apply String.eqb_eq in E. eexists. split; [reflexivity|].
           split; [congruence|reflexivity].
        -- destruct (findElementByUid ch u) as [z|] eqn:Ez.
           ++ exists z. split; [reflexivity|]. split; [|reflexivity].
              intros ->. congruence.
           ++ apply IH.
    + specialize (IH Hfind). intros u. rewrite !findElementByUid_cons, Ec.
      destruct (String.eqb (uid x) u) eqn:E.
      * apply String.eqb_eq in E. eexists. split; [reflexivity|].
        split; [congruence|reflexivity].
      * apply IH.
Qed.

Lemma lookupKept_patched f u0 x0 els :
  findElementByUid els u0 = Some x0 ->
  uid (f x0) = u0 -> elements (f x0) = elements x0 ->
  lookupKept f u0 els (patched f u0 els).
Proof.
  intros Hfind Hu He. apply (lookupKept_nodes f u0 x0 Hu He); [|exact Hfind].
  apply forest_ind. intros el IH ch Hc Hch.
  exact (lookupKept_nodes f u0 x0 Hu He ch (IH ch Hc) Hch).
Qed.

Lemma textOf_withoutChildren a b :
  withoutChildren a = withoutChildren b -> textOf a = textOf b.
Proof.
  destruct a as [t n u l c v s e], b as [t' n' u' l' c' v' s' e'].
  unfold withoutChildren, textOf, setElements.
  cbn [element_type name uid label config visibility styling].
  intros H. injection H as _ _ _ _ -> _ _. reflexivity.
Qed.

Lemma colorRewriteTimes_empty n fc rc :
  colorRewriteTimes n fc rc "" = Some "".
Proof. destruct n; reflexivity. Qed.

(** One turn of the loop on the element it finds. *)
Lemma bulkElement_kept op el el' :
  bulkElement op el = Some el' ->
  uid el' = uid el /\ elements el' = elements el.
Proof.
  unfold bulkElement. cbv zeta. intros H.
  repeat (match type of H with
          | match ?x with _ => _ end = _ => destruct x
          | (?x ≫= _) = _ => destruct x; cbn [mbind option_bind] in H
          end; try discriminate).
  all: injection H as <-; split; reflexivity.
Qed.

Lemma bulkElement_empty_text op el el' :
  textOf el = Some (JStr "") -> bulkElement op el = Some el' ->
  textOf el' = Some (JStr "").
Proof.
  intros Ht. unfold textOf in Ht. unfold bulkElement.
  rewrite bulk_toggles_keep_text, Ht. cbn [truthy String.eqb negb andb].
  intros H. injection H as <-. unfold textOf. cbn [config orEmpty].
  rewrite bulk_toggles_keep_text. exact Ht.
Qed.

(** The loop of [bulk_replace] with a color pair: the text of every
    element afterwards. *)
Lemma bulkLoop_color_text op fc rc :
  op_find_color op = Some fc -> fc <> "" ->
  op_replace_color op = Some rc -> rc <> "" ->
  forall uids els els',
    bulkLoop op uids els = Some els' ->
    forall u el html,
      findElementByUid els u = Some el ->
      textOf el = Some (JStr html) ->
      exists el' html',
        findElementByUid els' u = Some el' /\
        colorRewriteTimes (count_occ string_dec uids u) fc rc html
          = Some html' /\
        textOf el' = Some (JStr html').
Proof.
  intros Hfc Hfc' Hrc Hrc'.
  induction uids as [|u0 rest IH]; intros els els' H u el html Hf Ht.
  - injection H as <-. exists el, html. auto.
  - cbn [bulkLoop] in H.
    destruct (findElementByUid els u0) as [el0|] eqn:E0.
    + destruct (bulkElement op el0) as [el0'|] eqn:Eb;
        cbn [mbind option_bind] in H; [|discriminate].
      destruct (bulkElement_kept _ _ _ Eb) as [Hu He].
      pose proof (findElementByUid_found_node u0 els) as Hn.
      rewrite E0 in Hn. destruct Hn as [Hu0 _].
      pose proof (lookupKept_patched (fun _ => el0') u0 el0 els E0
                    (eq_trans Hu Hu0) He u) as Hk.
      fold (patched (fun _ => el0') u0 els) in H.
      rewrite Hf in Hk. destruct Hk as (el1 & Hf1 & Hsame & Hother).
      cbn [count_occ]. destruct (string_dec u0 u) as [->|Hne].
      * (* the element of this turn *)
        assert (el0 = el) by congruence. subst el0.
        rewrite (Hsame eq_refl) in Hf1.
        destruct (String.eqb html "") eqn:Eh.
        -- apply String.eqb_eq in Eh. subst html.
           pose proof (bulkElement_empty_text _ _ _ Ht Eb) as Ht'.
           destruct (IH _ _ H u el0' "" Hf1 Ht') as (el' & html' & A & B & C).
           exists el', html'. split; [exact A|]. split; [|exact C].
           rewrite colorRewriteTimes_empty in B.
           rewrite colorRewriteTimes_empty. exact B.
        -- apply String.eqb_neq in Eh.
           pose proof (bulkElement_color_text op el fc rc html Hfc Hfc' Hrc
                         Hrc' Ht Eh) as Hc.
           destruct (replaceColorsInHtml html fc rc) as [html1|] eqn:Er;
             [|congruence].
           destruct Hc as (el2 & Hel2 & Ht2).
           assert (el2 = el0') by congruence. subst el2.
           destruct (IH _ _ H u el0' html1 Hf1 Ht2)
             as (el' & html' & A & B & C).
           exists el', html'. split; [exact A|]. split; [|exact C].
           cbn [colorRewriteTimes].
           destruct (String.eqb html "") eqn:Eh';
             [apply String.eqb_eq in Eh'; contradiction|].
           rewrite Er. exact B.
      * (* another element *)
        assert (Ht1 : textOf el1 = Some (JStr html)).
        { rewrite (textOf_withoutChildren el1 el); [exact Ht|].
          apply Hother. congruence. }
        exact (IH _ _ H u el1 html Hf1 Ht1).
    + cbn [count_occ]. destruct (string_dec u0 u) as [->|Hne];
        [congruence|].
      exact (IH _ _ H u el html Hf Ht).
Qed.

(** C10. A [bulk_replace] with a color pair: whatever the literal pair
    of the operation is, the outcome of the operation, a raise
    included, is the one without a literal pair; and when the
    operation returns, the text of every element of the document is
    the color rewrite of the text it had, applied once for each time
    the identifier of the element is listed in [uids] (not at all when
    the text is empty): the literal replacement is not performed on any
    element. *)
Theorem bulk_replace_color_takes_precedence
    (e : env) (op : operation) (st : state) (fc rc : string)
    (uids : list string) :
  op_type op = "bulk_replace" ->
  op_find_color op = Some fc -> fc <> "" ->
  op_replace_color op = Some rc -> rc <> "" ->
  op_uids op = Some uids ->
  (forall f r,
      execOperation e (withLiteral f r op) st
        = execOperation e (withLiteral None None op) st) /\
  (forall st',
      execOperation e op st = Some st' ->
      forall u el html,
        findElementByUid (st_elements st) u = Some el ->
        textOf el = Some (JStr html) ->
        exists el' html',
          findElementByUid (st_elements st') u = Some el' /\
          colorRewriteTimes (count_occ string_dec uids u) fc rc html
            = Some html' /\
          textOf el' = Some (JStr html')).
Proof.
  intros Hty Hfc Hfc' Hrc Hrc' Hu. split.
  - intros f r. unfold execOperation.
    cbn [withLiteral op_type st_aliases]. rewrite Hty.
    cbn [String.eqb Ascii.eqb Bool.eqb].
    apply (execBulkReplace_ignores_literal op fc rc); assumption.
  - intros st' H u el html Hf Ht. unfold execOperation in H.
    rewrite Hty in H. cbn [String.eqb Ascii.eqb Bool.eqb] in H.
    unfold execBulkReplace in H. rewrite Hu in H.
    change (default [] (Some uids)) with uids in H.
    destruct (bulkLoop op uids (st_elements st)) as [els'|] eqn:El;
      cbn [mbind option_bind] in H; [|discriminate].
    injection H as <-. cbn [withElements st_elements].
    exact (bulkLoop_color_text op fc rc Hfc Hfc' Hrc Hrc' uids _ _ El
             u el html Hf Ht).
Qed.

(** The theorem at a section whose text holds a red declaration, a hex
    literal and an [rgb] literal, with a literal pair that would turn
    [red] into [green]: the text after the operation is the color
    rewrite of the text before. *)
Lemma bulk_replace_color_takes_precedence_witness :
  let op := bulkReplaceOp ["t"; "g"] (Some "red") (Some "blue")
              (Some "red") (Some "green") in
  let st := initialState coloredDoc in
  let html := "color: red; #cc0000 rgb(200,0,0)" in
  (op_type op = "bulk_replace" /\ op_find_color op = Some "red" /\
   "red" <> "" /\ op_replace_color op = Some "blue" /\ "blue" <> "" /\
   op_uids op = Some ["t"; "g"]) /\
  exists st',
    execOperation sampleEnv op st = Some st' /\
    findElementByUid (st_elements st) "t" = Some (textNode "t" html) /\
    exists el' html',
      findElementByUid (st_elements st') "t" = Some el' /\
      colorRewriteTimes (count_occ string_dec ["t"; "g"] "t") "red" "blue"
        html = Some html' /\
      textOf el' = Some (JStr html') /\
      replaceColorsInHtml html "red" "blue"
        = Some "color: #0066cc; #0066cc rgb(0, 102, 204)".
Proof.
  intros op st html.
  split; [repeat split; (reflexivity || discriminate)|].
  destruct (execOperation sampleEnv op st) as [st'|] eqn:E;
    [|vm_compute in E; discriminate E].
  exists st'. split; [reflexivity|]. split; [reflexivity|].
  destruct (bulk_replace_color_takes_precedence sampleEnv op st "red" "blue"
              ["t"; "g"] eq_refl eq_refl ltac:(discriminate) eq_refl
              ltac:(discriminate) eq_refl) as [_ H].
  destruct (H st' E "t" (textNode "t" html) html eq_refl eq_refl)
    as (el' & html' & A & B & C).
  exists el', html'. split; [exact A|]. split; [exact B|].
  split; [exact C|]. vm_compute. reflexivity.
Defined.

(** ** The locator finds every identifier of the tree *)

(** X1. [findElementByUid] returns an element exactly when the identifier
    occurs in the tree, at any depth; the element it returns is a node
    of the tree with that identifier. *)
Theorem findElementByUid_finds_every_uid els u :
  (is_Some (findElementByUid els u) <-> In u (uidsOf els)) /\
  (forall el, findElementByUid els u = Some el ->
              uid el = u /\ In el (allNodes els)).
Proof.
  pose proof (findElementByUid_found_node u els) as H.
  destruct (findElementByUid els u) as [el|].
  - destruct H as [Hu Hin]. split.
    + split; [|eauto]. intros _. subst u. unfold uidsOf.
      apply in_map. exact Hin.
    + intros el' E. injection E as <-. auto.
  - split; [|discriminate]. split.
    + intros [x Hx]. discriminate.
    + intros Hin. contradiction.
Qed.

(** X2. [findParentOf] returns [null] exactly when [findElementByUid]
    does; otherwise the element at the index of the array it returns
    is the element that [findElementByUid] returns, and [findIndex] on
    that array gives the same index. *)
Theorem findParentOf_points_at_found_element els u :
  match findParentOf els u with
  | Some (p, j) =>
      is_Some (findElementByUid els u) /\
      nodeAt p j els = findElementByUid els u /\
      exists arr, arrayAt p els = Some arr /\ findIndex u arr = Z.of_nat j
  | None => findElementByUid els u = None
  end.
Proof.
  destruct (findParentOf els u) as [[p j]|] eqn:E.
  - destruct (findParentOf_found els u p j E)
      as (arr & el & Ha & Hj & Hu & Hi & Hf).
    rewrite Hf. split; [eauto|]. split; [|eauto].
    unfold nodeAt. rewrite Ha. exact Hj.
  - pose proof (findParentOf_spec els u) as Hs. rewrite E in Hs. exact Hs.
Qed.

(** ** The element counter *)

Lemma countElements_fold els :
  Forall (fun el => forall c, countElement el c = c + length (nodesOf el))
         els ->
  forall c, countElements els c = c + nodeCount els.
Proof.
  unfold countElements, nodeCount, allNodes.
  induction 1 as [|x r Hx _ IH]; intros c; cbn [fold_left flat_map].
  - simpl. lia.
  - rewrite IH, Hx, length_app. lia.
Qed.

(** X3. [countElements(elements, count)] adds the number of nodes of the
    forest, at all depths, to the count it is given. *)
Theorem countElements_counts_all_nodes els count :
  countElements els count = count + nodeCount els.
Proof.
  apply countElements_fold. apply forest_ind. clear.
  intros el IH c. destruct el as [ty nm ud lb cf vs sy es].
  cbn [countElement nodesOf elements]. destruct es as [ch|].
  - pose proof (countElements_fold ch (IH ch eq_refl) (S c)) as H.
    unfold countElements, nodeCount, allNodes in H.
    fold countElement. rewrite H. cbn [length]. lia.
  - cbn. lia.
Qed.

(** ** Delete *)

Lemma execOperation_delete e op st :
  op_type op = "delete" ->
  execOperation e op st
    = Some (execDelete (resolveTarget op (st_aliases st)) st).
Proof. intros H. unfold execOperation. rewrite H. reflexivity. Qed.

Lemma delete_identities els u el :
  findElementByUid els u = Some el ->
  exists before after,
    identitiesOf els = before ++ identitiesOf [el] ++ after /\
    identitiesOf (spliceOut 1 [] 0 els (Some u)) = before ++ after.
Proof.
  intros Hf.
  destruct (spliceOut_found 1 [] 0 els u el Hf)
    as (p & j & arr & Ha & Hj & Hs).
  destruct (arrayAt_context identityOf identityOf_setElements p _ arr Ha)
    as (l1 & l2 & E0 & Ef).
  exists (l1 ++ identitiesOf (take j arr)),
         (identitiesOf (drop (S j) arr) ++ l2).
  rewrite Hs. unfold identitiesOf in *.
  rewrite Ef, E0, Z.add_0_r, (spliceAt_remove arr j el Hj).
  fold (identitiesOf arr). rewrite (identities_middle arr j el Hj).
  fold (identitiesOf (take j arr ++ drop (S j) arr)).
  rewrite identitiesOf_app. unfold identitiesOf.
  rewrite <- !app_assoc. auto.
Qed.

(** X4. A [delete] whose target is an element of the tree takes out that
    element with everything below it and nothing else: the other nodes
    stay, in their order, and the Attribute Registry is not touched. *)
Theorem delete_removes_the_subtree e op st u el :
  op_type op = "delete" ->
  resolveTarget op (st_aliases st) = Some u ->
  findElementByUid (st_elements st) u = Some el ->
  exists st' before after,
    execOperation e op st = Some st' /\
    identitiesOf (st_elements st) = before ++ identitiesOf [el] ++ after /\
    identitiesOf (st_elements st') = before ++ after /\
    st_modelAttrs st' = st_modelAttrs st.
Proof.
  intros Hty Hu Hf. rewrite (execOperation_delete e op st Hty), Hu.
  destruct (delete_identities (st_elements st) u el Hf)
    as (before & after & E0 & E1).
  eexists. exists before, after. split; [reflexivity|].
  cbn [execDelete withElements st_elements st_modelAttrs]. auto.
Qed.

(** The theorem at the sample document: the section [g] goes with its
    two children. *)
Lemma delete_removes_the_subtree_witness :
  exists st' before after,
    execOperation sampleEnv (deleteOp "g") (initialState sampleDoc)
      = Some st' /\
    identitiesOf (st_elements (initialState sampleDoc))
      = before
          ++ identitiesOf
               [groupNode "g" "Section 1"
                  [textNode "t" "Hello"; fieldNode "f" "amount"]]
          ++ after /\
    identitiesOf (st_elements st') = before ++ after /\
    st_modelAttrs st' = st_modelAttrs (initialState sampleDoc).
Proof.
  apply (delete_removes_the_subtree sampleEnv (deleteOp "g")
           (initialState sampleDoc) "g"); reflexivity.
Defined.

Lemma uids_of_identities l1 l2 els :
  identitiesOf els = l1 ++ l2 ->
  uidsOf els = ((fun t => t.1.1) <$> l1) ++ ((fun t => t.1.1) <$> l2).
Proof. intros H. rewrite uidsOf_identities, H. apply fmap_app. Qed.

Lemma findElementByUid_none_iff els u :
  findElementByUid els u = None <-> ~ In u (uidsOf els).
Proof.
  pose proof (findElementByUid_found_node u els) as H.
  destruct (findElementByUid els u) as [el|].
  - destruct H as [Hu Hin]. split; [discriminate|].
    intros Hn. exfalso. apply Hn. subst u. apply in_map. exact Hin.
  - tauto.
Qed.

Lemma findElementByUid_some_iff els u :
  is_Some (findElementByUid els u) <-> In u (uidsOf els).
Proof.
  pose proof (findElementByUid_none_iff els u) as H.
  destruct (findElementByUid els u) as [el|].
  - split; [|eauto]. intros _.
    destruct (in_dec string_dec u (uidsOf els)) as [Hin|Hn]; [exact Hin|].
    apply H in Hn. discriminate.
  - split; [intros [x Hx]; discriminate|]. intros Hin. exfalso.
    apply (proj1 H); auto.
Qed.

(** X5. In a tree whose identifiers are pairwise different, a deleted
    element and everything below it can no longer be found, and every
    other element still can. *)
Theorem deleted_subtree_is_gone e op st u el :
  op_type op = "delete" ->
  resolveTarget op (st_aliases st) = Some u ->
  findElementByUid (st_elements st) u = Some el ->
  NoDup (uidsOf (st_elements st)) ->
  exists st',
    execOperation e op st = Some st' /\
    forall v,
      In v (uidsOf (st_elements st)) ->
      (In v (uidsOf [el]) -> findElementByUid (st_elements st') v = None) /\
      (~ In v (uidsOf [el]) ->
       is_Some (findElementByUid (st_elements st') v)).
Proof.
  intros Hty Hu Hf Hnd. rewrite (execOperation_delete e op st Hty), Hu.
  destruct (delete_identities (st_elements st) u el Hf)
    as (before & after & E0 & E1).
  eexists. split; [reflexivity|].
  cbn [execDelete withElements st_elements].
  set (els' := spliceOut 1 [] 0 (st_elements st) (Some u)) in *.
  set (pick := fun t : string * string * option string => t.1.1).
  assert (U0 : uidsOf (st_elements st)
               = (pick <$> before) ++ uidsOf [el] ++ (pick <$> after)).
  { rewrite uidsOf_identities, E0, !fmap_app, <- uidsOf_identities.
    reflexivity. }
  assert (U1 : uidsOf els' = (pick <$> before) ++ (pick <$> after)).
  { rewrite uidsOf_identities, E1, fmap_app. reflexivity. }
  rewrite U0 in Hnd. intros v Hv. rewrite U0 in Hv. split.
  - intros Hin. apply findElementByUid_none_iff. rewrite U1.
    apply NoDup_app in Hnd. destruct Hnd as (_ & Hb & Hnd).
    apply NoDup_app in Hnd. destruct Hnd as (_ & Ha & _).
    intros Hc. apply in_app_or in Hc. destruct Hc as [Hc|Hc].
    + apply (Hb v); [apply list_elem_of_In; exact Hc|].
      apply list_elem_of_In, in_or_app. auto.
    + apply (Ha v); apply list_elem_of_In; assumption.
  - intros Hn. apply findElementByUid_some_iff. rewrite U1.
    apply in_app_or in Hv. destruct Hv as [Hv|Hv];
      [apply in_or_app; auto|].
    apply in_app_or in Hv. destruct Hv as [Hv|Hv]; [contradiction|].
    apply in_or_app. auto.
Qed.

Lemma deleted_subtree_is_gone_witness :
  exists st',
    execOperation sampleEnv (deleteOp "g") (initialState sampleDoc)
      = Some st' /\
    forall v,
      In v (uidsOf (st_elements (initialState sampleDoc))) ->
      (In v (uidsOf [groupNode "g" "Section 1"
                       [textNode "t" "Hello"; fieldNode "f" "amount"]]) ->
       findElementByUid (st_elements st') v = None) /\
      (~ In v (uidsOf [groupNode "g" "Section 1"
                         [textNode "t" "Hello"; fieldNode "f" "amount"]]) ->
       is_Some (findElementByUid (st_elements st') v)).
Proof.
  apply (deleted_subtree_is_gone sampleEnv (deleteOp "g")
           (initialState sampleDoc) "g"); try reflexivity.
  apply (bool_decide_unpack _). vm_compute. reflexivity.
Defined.

(** ** Targets that do not resolve *)

Lemma withElements_same st : withElements (st_elements st) st = st.
Proof. destruct st; reflexivity. Qed.

Lemma updateElementByUid_missing f els u :
  (u ≫= findElementByUid els) = None -> updateElementByUid f els u = None.
Proof.
  intros H. destruct u as [u|]; [|reflexivity]. cbn in *.
  rewrite (findParentOf_none els u H). reflexivity.
Qed.

(** X6. An [edit] or a [delete] whose target is absent, is an alias that is
    not bound, or names no element of the tree leaves the document, the
    registry and the alias table as they are. *)
Theorem unresolved_edit_or_delete_is_skipped e op st :
  op_type op = "edit" \/ op_type op = "delete" ->
  (resolveTarget op (st_aliases st) ≫= findElementByUid (st_elements st))
    = None ->
  execOperation e op st = Some st.
Proof.
  intros [Hty|Hty] H; unfold execOperation; rewrite Hty; cbn.
  - unfold execEdit. rewrite (updateElementByUid_missing _ _ _ H).
    cbn [orSame]. rewrite withElements_same. reflexivity.
  - unfold execDelete. rewrite (spliceOut_missing _ _ _ _ _ H).
    rewrite withElements_same. reflexivity.
Qed.

Lemma unresolved_edit_or_delete_is_skipped_witness :
  execOperation sampleEnv (deleteOp "$nobody") (initialState sampleDoc)
    = Some (initialState sampleDoc).
Proof.
  apply unresolved_edit_or_delete_is_skipped; [right|]; reflexivity.
Defined.

(** ** Edit and bulk replace *)

Lemma editElement_identity op el :
  identityOf (editElement op el) = identityOf el /\
  elements (editElement op el) = elements el.
Proof.
  unfold editElement.
  destruct (match op_label op with
            | Some l =>
                if nonEmpty (Some l)
                then (setProp "label" (JStr l) (orEmpty (config el)),
                      match label el with
                      | Some _ => Some l
                      | None => None
                      end)
                else (orEmpty (config el), label el)
            | None => (orEmpty (config el), label el)
            end) as [cfg lbl].
  split; reflexivity.
Qed.

Lemma bulkElement_identity op el el' :
  bulkElement op el = Some el' ->
  identityOf el' = identityOf el /\ elements el' = elements el.
Proof.
  unfold bulkElement. cbv zeta. intros H.
  repeat (match type of H with
          | match ?x with _ => _ end = _ => destruct x
          | (?x ≫= _) = _ => destruct x; cbn [mbind option_bind] in H
          end; try discriminate).
  all: injection H as <-; split; reflexivity.
Qed.

Lemma updateElementByUid_identities f els u el :
  findElementByUid els u = Some el ->
  identityOf (f el) = identityOf el -> elements (f el) = elements el ->
  exists els',
    updateElementByUid f els (Some u) = Some els' /\
    identitiesOf els' = identitiesOf els.
Proof.
  intros Hf Hi He.
  destruct (findParentOf_some els u el Hf)
    as (p & j & arr & Hp & Ha & Hj & _).
  cbn [updateElementByUid]. rewrite Hp. eexists. split; [reflexivity|].
  exact (identities_modifyNodeAt f els p j arr el Ha Hj Hi He).
Qed.

Lemma bulkLoop_identities op uids :
  forall els els',
    bulkLoop op uids els = Some els' ->
    identitiesOf els' = identitiesOf els.
Proof.
  induction uids as [|u uids IH]; intros els els' H; cbn [bulkLoop] in H.
  - injection H as <-. reflexivity.
  - destruct (findElementByUid els u) as [el|] eqn:Ef; [|eauto].
    destruct (bulkElement op el) as [el1|] eqn:Eb;
      cbn [mbind option_bind] in H; [|discriminate].
    destruct (bulkElement_identity op el el1 Eb) as [Hi He].
    destruct (updateElementByUid_identities (fun _ => el1) els u el Ef Hi He)
      as (els1 & Hu & Hid).
    rewrite Hu in H. cbn [orSame] in H.
    rewrite (IH _ _ H). exact Hid.
Qed.

(** X7. An [edit] and a [bulk_replace] change properties of elements only:
    they add, remove, move, rename and re-type no element, and they
    leave the registry and the alias table as they are. *)
Theorem edit_and_bulk_replace_keep_the_tree e op st st' :
  op_type op = "edit" \/ op_type op = "bulk_replace" ->
  execOperation e op st = Some st' ->
  identitiesOf (st_elements st') = identitiesOf (st_elements st) /\
  st_modelAttrs st' = st_modelAttrs st /\ st_aliases st' = st_aliases st.
Proof.
  intros [Hty|Hty] H; unfold execOperation in H; rewrite Hty in H;
    cbn in H.
  - injection H as <-. unfold execEdit.
    cbn [withElements st_elements st_modelAttrs st_aliases].
    split; [|auto].
    destruct (resolveTarget op (st_aliases st) ≫=
                findElementByUid (st_elements st)) as [el|] eqn:Ef.
    + destruct (resolveTarget op (st_aliases st)) as [u|]; [|discriminate].
      cbn in Ef.
      destruct (editElement_identity op el) as [Hi He].
      destruct (updateElementByUid_identities (editElement op) _ u el Ef
                  Hi He) as (els1 & Hu & Hid).
      rewrite Hu. exact Hid.
    + rewrite (updateElementByUid_missing _ _ _ Ef). reflexivity.
  - unfold execBulkReplace in H.
    destruct (bulkLoop op (default [] (op_uids op)) (st_elements st))
      as [els1|] eqn:Eb; cbn [mbind option_bind] in H; [|discriminate].
    injection H as <-.
    cbn [withElements st_elements st_modelAttrs st_aliases].
    split; [|auto]. exact (bulkLoop_identities op _ _ _ Eb).
Qed.

Lemma edit_and_bulk_replace_keep_the_tree_witness :
  exists st',
    execOperation sampleEnv (editLabelOp "g" "Overview")
      (initialState sampleDoc) = Some st' /\
    identitiesOf (st_elements st')
      = identitiesOf (st_elements (initialState sampleDoc)) /\
    st_modelAttrs st' = st_modelAttrs (initialState sampleDoc) /\
    st_aliases st' = st_aliases (initialState sampleDoc).
Proof.
  eexists. split; [reflexivity|].
  apply (edit_and_bulk_replace_keep_the_tree sampleEnv
           (editLabelOp "g" "Overview") (initialState sampleDoc));
    [left|]; reflexivity.
Defined.





(** X9. On an element that is no group, [edit] writes none of the styling
    keys outside the spacing properties and the alignment: whatever
    the operation says for such a key, the element keeps what it
    had. *)
Theorem edit_styling_of_non_group_is_restricted op el k :
  String.eqb (element_type el) "group" = false ->
  existsb (String.eqb k) spacingProps = false ->
  getProp k (orEmpty (styling (editElement op el)))
    = getProp k (orEmpty (styling el)).
Proof.
  intros Hg Hk. unfold editElement.
  destruct (match op_label op with
            | Some l =>
                if nonEmpty (Some l)
                then (setProp "label" (JStr l) (orEmpty (config el)),
                      match label el with
                      | Some _ => Some l
                      | None => None
                      end)
                else (orEmpty (config el), label el)
            | None => (orEmpty (config el), label el)
            end) as [cfg lbl].
  cbn [styling]. destruct (op_styling op) as [s|]; [|reflexivity].
  cbn [orEmpty]. rewrite Hg. cbn [negb andb].
  generalize (orEmpty (styling el)) as acc.
  induction s as [|[k' v] s IH]; intros acc; [reflexivity|].
  cbn [fold_left fst snd]. rewrite IH.
  destruct (existsb (String.eqb k') spacingProps) eqn:E; [|reflexivity].
  cbn [negb]. apply getProp_setProp_ne. intros ->. congruence.
Qed.

Lemma edit_styling_of_non_group_is_restricted_witness :
  getProp "background"
    (orEmpty (styling (editElement
                         (editStylingOp "t" [("background", JStr "red");
                                             ("margin_top", JStr "4px")])
                         (textNode "t" "Hello"))))
    = getProp "background" (orEmpty (styling (textNode "t" "Hello"))).
Proof.
  apply edit_styling_of_non_group_is_restricted; reflexivity.
Defined.

(** ** Insertion *)


Lemma insertedInto_end x els : insertedInto x els (els ++ [x]).
Proof.
  exists (identitiesOf els), []. rewrite identitiesOf_app, !app_nil_r. auto.
Qed.

Lemma insertedInto_start x els : insertedInto x els (x :: els).
Proof.
  exists [], (identitiesOf els). cbn [app]. split; [reflexivity|].
  change (x :: els) with ([x] ++ els). apply identitiesOf_app.
Qed.

(** An insertion into the array reached by a path. *)
Lemma insertedInto_array x els p arr k :
  arrayAt p els = Some arr ->
  insertedInto x els
    (modifyArrayAt p (fun a => take k a ++ [x] ++ drop k a) els).
Proof.
  intros Ha.
  destruct (arrayAt_context identityOf identityOf_setElements p els arr Ha)
    as (l1 & l2 & E0 & Ef).
  exists (l1 ++ identitiesOf (take k arr)), (identitiesOf (drop k arr) ++ l2).
  unfold identitiesOf in *. rewrite Ef, E0.
  fold (identitiesOf arr). rewrite <- (take_drop k arr) at 1.
  fold (identitiesOf (take k arr ++ [x] ++ drop k arr)).
  rewrite !identitiesOf_app. unfold identitiesOf.
  rewrite <- !app_assoc. auto.
Qed.

Lemma insertNextTo_inserts (before : bool) x els u t :
  findElementByUid els u = Some t ->
  insertedInto x els (insertNextTo before x els (Some u)).
Proof.
  intros Hf. destruct (findParentOf_some els u t Hf)
    as (p & j & arr & Hp & Ha & Hj & Hu & Hi).
  unfold insertNextTo, findParentOpt. rewrite Hp.
  rewrite (modifyArrayAt_ext p els arr _
             (fun a => take (if before then j else S j) a ++ [x]
                       ++ drop (if before then j else S j) a) Ha).
  - apply insertedInto_array with (arr := arr). exact Ha.
  - cbv zeta. rewrite Hi.
    rewrite (spliceAt_insert arr j t [x] before Hj).
    destruct before; reflexivity.
Qed.

Lemma spliceOut_inserts (before : bool) x els u t :
  findElementByUid els u = Some t ->
  insertedInto x els
    (spliceOut 0 [x] (if before then 0 else 1) els (Some u)).
Proof.
  intros Hf.
  destruct (spliceOut_found 0 [x] (if before then 0 else 1)%Z els u t Hf)
    as (p & j & arr & Ha & Hj & Hs).
  rewrite Hs.
  rewrite (modifyArrayAt_ext p els arr _
             (fun a => take (if before then j else S j) a ++ [x]
                       ++ drop (if before then j else S j) a) Ha).
  - apply insertedInto_array with (arr := arr). exact Ha.
  - pose proof (spliceAt_insert arr j t [x] before Hj) as H.
    destruct before; [rewrite Z.add_0_r|]; exact H.
Qed.

Lemma identities_context p els arr :
  arrayAt p els = Some arr ->
  exists l1 l2,
    identitiesOf els = l1 ++ identitiesOf arr ++ l2 /\
    forall f,
      identitiesOf (modifyArrayAt p f els) = l1 ++ identitiesOf (f arr) ++ l2.
Proof. apply (arrayAt_context identityOf identityOf_setElements). Qed.

(** A new last or first child of an element of the tree. *)
Lemma child_inserts (first : bool) x els u t :
  findElementByUid els u = Some t ->
  exists els',
    updateElementByUid (if first then unshiftChild x else pushChild x)
      els (Some u) = Some els' /\
    insertedInto x els els'.
Proof.
  intros Hf. destruct (findParentOf_some els u t Hf)
    as (p & j & arr & Hp & Ha & Hj & Hu & Hi).
  cbn [updateElementByUid]. rewrite Hp. eexists. split; [reflexivity|].
  destruct (identities_context p els arr Ha) as (l1 & l2 & E0 & Ef).
  unfold modifyNodeAt.
  set (F := if first then unshiftChild x else pushChild x).
  assert (Hold : identitiesOf arr
                 = identitiesOf (take j arr)
                     ++ identityOf t :: identitiesOf (children t)
                     ++ identitiesOf (drop (S j) arr)).
  { rewrite (identities_middle arr j t Hj), identitiesOf_cons.
    change (identitiesOf []) with (@nil (string * string * option string)).
    rewrite app_nil_r. reflexivity. }
  assert (Hnew : identitiesOf (alter F j arr)
                 = identitiesOf (take j arr)
                     ++ identityOf t
                     :: (if first
                         then identitiesOf [x] ++ identitiesOf (children t)
                         else identitiesOf (children t) ++ identitiesOf [x])
                     ++ identitiesOf (drop (S j) arr)).
  { rewrite (alter_middle F arr j t Hj), identitiesOf_app.
    rewrite (identitiesOf_cons (F t)).
    assert (Hid : identityOf (F t) = identityOf t)
      by (unfold F; destruct first; reflexivity).
    assert (Hch : identitiesOf (children (F t))
                  = if first
                    then identitiesOf [x] ++ identitiesOf (children t)
                    else identitiesOf (children t) ++ identitiesOf [x]).
    { unfold F. destruct first; unfold unshiftChild, pushChild;
        rewrite children_setElements.
      - change (x :: children t) with ([x] ++ children t).
        apply identitiesOf_app.
      - apply identitiesOf_app. }
    rewrite Hid, Hch. reflexivity. }
  exists (l1 ++ identitiesOf (take j arr) ++ identityOf t
             :: (if first then [] else identitiesOf (children t))),
         ((if first then identitiesOf (children t) else [])
            ++ identitiesOf (drop (S j) arr) ++ l2).
  rewrite Ef, E0, Hold, Hnew.
  destruct first; repeat (rewrite <- ?app_assoc; cbn [app]); auto.
Qed.

(** ** Add *)

Lemma ensureModelAttribute_state e n ty st :
  st_elements (ensureModelAttribute e n ty st) = st_elements st /\
  st_aliases (ensureModelAttribute e n ty st) = st_aliases st /\
  st_uids (ensureModelAttribute e n ty st) = st_uids st /\
  extends (st_modelAttrs st) (st_modelAttrs (ensureModelAttribute e n ty st)).
Proof.
  unfold ensureModelAttribute, extends.
  destruct (existsb (hasName n) (st_modelAttrs st)); cbn; repeat split;
    eauto.
  exists []. rewrite app_nil_r. reflexivity.
Qed.

Lemma extends_refl attrs : extends attrs attrs.
Proof. exists []. rewrite app_nil_r. reflexivity. Qed.

Lemma extends_trans a b c : extends a b -> extends b c -> extends a c.
Proof.
  intros [x ->] [y ->]. exists (x ++ y). rewrite app_assoc. reflexivity.
Qed.

(** The element that [add] builds: a single node with the identifier
    drawn next. *)
Lemma buildElement_some e op st x st1 :
  buildElement e op st = (Some x, st1) ->
  uid x = randomUUID e (st_uids st) /\ children x = [] /\
  st_elements st1 = st_elements st /\ st_aliases st1 = st_aliases st /\
  st_uids st1 = S (st_uids st) /\
  extends (st_modelAttrs st) (st_modelAttrs st1).
Proof.
  unfold buildElement.
  destruct (typeIs (op_element_type op) "group").
  { intros H. injection H as <- <-. cbn. repeat split.
    apply extends_refl. }
  destruct (typeIs (op_element_type op) "text").
  { intros H. injection H as <- <-. cbn. repeat split.
    apply extends_refl. }
  destruct (typeIs (op_element_type op) "field"); [|discriminate].
  set (ty := match orElse (op_field_type op) (Some "string") with
             | Some t => t
             | None => "string"
             end).
  destruct (ensureModelAttribute_state e (op_field_name op) ty st)
    as (He & Ha & Hu & Hx).
  intros H. cbn [generateUid] in H. injection H as <- <-.
  cbn [uid createAttributeElement children elements st_elements st_aliases
       st_uids st_modelAttrs].
  rewrite Hu. repeat split; assumption.
Qed.


Lemma execOperation_add e op st :
  op_type op = "add" ->
  execOperation e op st
    = Some (execAdd e op (typeIs (rawTarget op) "$root")
              (resolveTarget op (st_aliases st)) st).
Proof. intros H. unfold execOperation. rewrite H. reflexivity. Qed.

(** The elements after the branch, for the element [x] built. *)
Lemma execAdd_elements e op isRoot targetUid st x st1 :
  buildElement e op st = (Some x, st1) ->
  let els := st_elements st in
  let els' := st_elements (execAdd e op isRoot targetUid st) in
  if isRoot then insertedInto x els els'
  else
    match targetUid ≫= findElementByUid els with
    | Some _ => insertedInto x els els'
    | None => els' = els
    end.
Proof.
  intros Hb. destruct (buildElement_some e op st x st1 Hb)
    as (_ & _ & He & _).
  cbv zeta. unfold execAdd. rewrite Hb.
  set (st2 := match op_alias op with
              | Some a =>
                  if nonEmpty (Some a)
                  then State (st_elements st1) (st_modelAttrs st1)
                         (aliasSet a (uid x) (st_aliases st1))
                         (st_uids st1) (st_ticks st1)
                  else st1
              | None => st1
              end).
  assert (He2 : st_elements st2 = st_elements st).
  { unfold st2. destruct (op_alias op) as [a|]; [|exact He].
    destruct (nonEmpty (Some a)); exact He. }
  cbn [withElements st_elements]. rewrite He2.
  destruct isRoot.
  - destruct (positionIs op "inside"); [apply insertedInto_end|].
    destruct (positionIs op "before");
      [apply insertedInto_start|apply insertedInto_end].
  - destruct (targetUid ≫= findElementByUid (st_elements st)) as [t|] eqn:Ef.
    + destruct targetUid as [u|]; [|discriminate]. cbn in Ef.
      destruct (positionIs op "inside" || positionIs op "inside_end").
      { destruct (child_inserts false x _ u t Ef) as (els1 & -> & Hi).
        exact Hi. }
      destruct (positionIs op "inside_start" || positionIs op "inside_top").
      { destruct (child_inserts true x _ u t Ef) as (els1 & -> & Hi).
        exact Hi. }
      exact (insertNextTo_inserts _ x _ u t Ef).
    + rewrite !(updateElementByUid_missing _ _ _ Ef). cbn [orSame].
      assert (Hn : insertNextTo (positionIs op "before") x (st_elements st)
                     targetUid = st_elements st).
      { unfold insertNextTo. destruct targetUid as [u|]; [|reflexivity].
        cbn in Ef. unfold findParentOpt.
        rewrite (findParentOf_none _ u Ef). reflexivity. }
      rewrite Hn.
      destruct (positionIs op "inside" || positionIs op "inside_end");
        [reflexivity|].
      destruct (positionIs op "inside_start" || positionIs op "inside_top");
        reflexivity.
Qed.



(** X11. An [add] of a field whose target names no element of the tree puts
    in nothing, but the field name is in the Attribute Registry
    afterwards all the same. *)
Theorem add_field_to_unknown_target_still_registers e op st n :
  op_type op = "add" ->
  typeIs (op_element_type op) "field" = true ->
  op_field_name op = Some n ->
  typeIs (rawTarget op) "$root" = false ->
  (resolveTarget op (st_aliases st) ≫= findElementByUid (st_elements st))
    = None ->
  exists st',
    execOperation e op st = Some st' /\
    st_elements st' = st_elements st /\
    registered (Some n) (st_modelAttrs st') = true.
Proof.
  intros Hty Hf Hn Hroot Hmiss. rewrite (execOperation_add e op st Hty).
  rewrite Hroot. eexists. split; [reflexivity|].
  destruct (buildElement e op st) as [[x|] st1] eqn:Eb.
  - pose proof (execAdd_elements e op false
                  (resolveTarget op (st_aliases st)) st x st1 Eb) as He.
    cbv zeta in He. rewrite Hmiss in He. split; [exact He|].
    unfold execAdd. rewrite Eb.
    assert (Hreg : registered (Some n) (st_modelAttrs st1) = true).
    { unfold buildElement in Eb.
      destruct (typeIs (op_element_type op) "group") eqn:Eg.
      { destruct (op_element_type op) as [t|]; [|discriminate].
        cbn [typeIs] in Eg, Hf. apply String.eqb_eq in Eg, Hf.
        subst t. discriminate. }
      destruct (typeIs (op_element_type op) "text") eqn:Et.
      { destruct (op_element_type op) as [t|]; [|discriminate].
        cbn [typeIs] in Et, Hf. apply String.eqb_eq in Et, Hf.
        subst t. discriminate. }
      rewrite Hf, Hn in Eb. cbn [generateUid] in Eb.
      injection Eb as _ <-. cbn [st_modelAttrs].
      apply ensureModelAttribute_registers. }
    destruct (op_alias op) as [a|]; [destruct (nonEmpty (Some a))|];
      cbn [withElements st_modelAttrs]; exact Hreg.
  - exfalso. unfold buildElement in Eb.
    destruct (typeIs (op_element_type op) "group"); [discriminate|].
    destruct (typeIs (op_element_type op) "text"); [discriminate|].
    rewrite Hf in Eb. discriminate.
Qed.

Lemma add_field_to_unknown_target_still_registers_witness :
  exists st',
    execOperation sampleEnv (addFieldOp "budget" "nowhere" "after")
      (initialState sampleDoc) = Some st' /\
    st_elements st' = st_elements (initialState sampleDoc) /\
    registered (Some "budget") (st_modelAttrs st') = true.
Proof.
  apply (add_field_to_unknown_target_still_registers sampleEnv
           (addFieldOp "budget" "nowhere" "after") (initialState sampleDoc));
    reflexivity.
Defined.

(** ** Aliases *)

(** X12. After an [add] with an alias, a reference to the alias in a later
    operation of the batch resolves to the identifier of the element
    that the [add] built, whether or not that element found a place in
    the tree.  The alias must not be empty, nor the name [__proto__],
    nor [root]: the reference to the alias [root] is the root
    reference, which is never looked up. *)
Theorem alias_resolves_to_the_added_element e op st a :
  op_type op = "add" ->
  is_Some (fst (buildElement e op st)) ->
  op_alias op = Some a ->
  a <> "" -> a <> "__proto__" -> a <> "root" ->
  exists st',
    execOperation e op st = Some st' /\
    forall op2,
      rawTarget op2 = Some (String "$" a) ->
      resolveTarget op2 (st_aliases st') = Some (randomUUID e (st_uids st)).
Proof.
  intros Hty [x Hx] Ha Hne Hproto Hroot.
  rewrite (execOperation_add e op st Hty). eexists. split; [reflexivity|].
  destruct (buildElement e op st) as [[y|] st1] eqn:Eb; [|discriminate].
  cbn [fst] in Hx. injection Hx as ->.
  destruct (buildElement_some e op st x st1 Eb) as (Hu & _).
  intros op2 Hraw. unfold resolveTarget. rewrite Hraw.
  assert (Hr : String.eqb (String "$" a) "$root" = false).
  { apply String.eqb_neq. intros E. injection E as E. exact (Hroot E). }
  cbn [nonEmpty]. rewrite Hr.
  change (String.eqb (String "$" a) "") with false.
  change (isAliasRef (String "$" a)) with true. cbn [negb andb slice1].
  unfold execAdd. rewrite Eb, Ha. cbn [nonEmpty].
  apply String.eqb_neq in Hne. rewrite Hne. cbn [negb].
  cbn [withElements st_aliases]. unfold aliasGet, aliasSet.
  apply String.eqb_neq in Hproto. rewrite Hproto.
  rewrite lookup_insert_eq, Hu. reflexivity.
Qed.

Lemma alias_resolves_to_the_added_element_witness :
  exists st',
    execOperation sampleEnv (addGroupOp "missing" "after" "sec" "Budget")
      (initialState sampleDoc) = Some st' /\
    forall op2,
      rawTarget op2 = Some (String "$" "sec") ->
      resolveTarget op2 (st_aliases st') = Some (randomUUID sampleEnv 0).
Proof.
  apply (alias_resolves_to_the_added_element sampleEnv
           (addGroupOp "missing" "after" "sec" "Budget")
           (initialState sampleDoc) "sec");
    try reflexivity; try discriminate.
  eexists. reflexivity.
Defined.

(** ** The Attribute Registry over a batch *)

Lemma createModelAttribute_name e t n ty :
  getProp "name" (createModelAttribute e t n n ty) = JStr <$> n.
Proof. destruct n; reflexivity. Qed.

Lemma hasName_of_name n a :
  getProp "name" a = JStr <$> n -> hasName n a = true.
Proof.
  unfold hasName. intros ->. destruct n; cbn; [apply String.eqb_refl|].
  reflexivity.
Qed.

Lemma ensureModelAttribute_unique e n ty st :
  NoDup (registryNames (st_modelAttrs st)) ->
  NoDup (registryNames (st_modelAttrs (ensureModelAttribute e n ty st))).
Proof.
  intros Hnd. unfold ensureModelAttribute.
  destruct (existsb (hasName n) (st_modelAttrs st)) eqn:E; [exact Hnd|].
  cbn [st_modelAttrs]. unfold registryNames in *.
  rewrite fmap_app. apply NoDup_app. split; [exact Hnd|]. split.
  - intros x Hx Hin. apply list_elem_of_fmap in Hin.
    destruct Hin as (y & -> & Hy). apply list_elem_of_singleton in Hy.
    subst y. rewrite createModelAttribute_name in Hx.
    apply list_elem_of_In, in_map_iff in Hx. destruct Hx as (a & Ha & Hin).
    assert (Hex : existsb (hasName n) (st_modelAttrs st) = true).
    { apply existsb_exists. exists a. split; [exact Hin|].
      apply hasName_of_name, Ha. }
    congruence.
  - apply NoDup_singleton.
Qed.

Lemma ensureAll_state e names :
  forall st,
    let st' := fold_left (fun acc fieldName =>
                 ensureModelAttribute e (Some fieldName) "string" acc)
                 names st in
    extends (st_modelAttrs st) (st_modelAttrs st') /\
    (NoDup (registryNames (st_modelAttrs st)) ->
     NoDup (registryNames (st_modelAttrs st'))).
Proof.
  induction names as [|k r IH]; intros st; cbn [fold_left].
  - split; [apply extends_refl|auto].
  - destruct (IH (ensureModelAttribute e (Some k) "string" st)) as [Hx Hn].
    destruct (ensureModelAttribute_state e (Some k) "string" st)
      as (_ & _ & _ & Hx0).
    split; [exact (extends_trans _ _ _ Hx0 Hx)|].
    intros Hnd. apply Hn, ensureModelAttribute_unique, Hnd.
Qed.

(** One operation adds entries behind the registry and adds no name a
    second time. *)
Lemma execOperation_registry e op st st' :
  execOperation e op st = Some st' ->
  extends (st_modelAttrs st) (st_modelAttrs st') /\
  (NoDup (registryNames (st_modelAttrs st)) ->
   NoDup (registryNames (st_modelAttrs st'))).
Proof.
  unfold execOperation.
  destruct (String.eqb (op_type op) "add").
  { intros H. injection H as <-. unfold execAdd, buildElement.
    destruct (typeIs (op_element_type op) "group");
      [|destruct (typeIs (op_element_type op) "text");
        [|destruct (typeIs (op_element_type op) "field")]];
      cbn [generateUid];
      try (destruct (op_alias op) as [a|];
           [destruct (nonEmpty (Some a))|]);
      cbn [withElements st_modelAttrs];
      try (split; [apply extends_refl|auto; fail]).
    all: split;
      [apply ensureModelAttribute_state|apply ensureModelAttribute_unique]. }
  destruct (String.eqb (op_type op) "edit").
  { intros H. injection H as <-. split; [apply extends_refl|auto]. }
  destruct (String.eqb (op_type op) "move").
  { unfold execMove.
    intros H.
    repeat (match type of H with
            | match ?x with _ => _ end = _ => destruct x
            | (let '(_, _) := ?x in _) = _ => destruct x
            end; try discriminate);
      injection H as <-; split; try apply extends_refl; auto. }
  destruct (String.eqb (op_type op) "delete").
  { intros H. injection H as <-. split; [apply extends_refl|auto]. }
  destruct (String.eqb (op_type op) "bulk_replace").
  { unfold execBulkReplace. intros H.
    destruct (bulkLoop op (default [] (op_uids op)) (st_elements st));
      [|discriminate].
    injection H as <-. split; [apply extends_refl|auto]. }
  destruct (String.eqb (op_type op) "replace_subtree").
  { intros H. injection H as <-. unfold execReplaceSubtree.
    destruct (op_structure op) as [s|]; [|split; [apply extends_refl|auto]].
    destruct (regenerateUids e s (st_uids st)) as [ns n].
    split; [apply extends_refl|auto]. }
  destruct (String.eqb (op_type op) "clone_subtree").
  { unfold execCloneSubtree. intros H.
    destruct (op_source_uid op ≫= findElementByUid (st_elements st))
      as [src|]; [|injection H as <-; split; [apply extends_refl|auto]].
    destruct (transformElement e (op_label_find op) (op_label_replace op)
                (default "" (op_field_suffix op)) src (st_uids st))
      as [[cloned n]|]; cbn [mbind option_bind] in H; [|discriminate].
    injection H as <-. cbn [withElements st_modelAttrs].
    destruct (negb (String.eqb (default "" (op_field_suffix op)) ""));
      [|split; [apply extends_refl|auto]].
    exact (ensureAll_state e (collectFieldNames cloned)
             (State (st_elements st) (st_modelAttrs st) (st_aliases st) n
                (st_ticks st))). }
  intros H. injection H as <-. split; [apply extends_refl|auto].
Qed.

Lemma execOperations_registry e ops :
  forall st st',
    execOperations e ops st = Some st' ->
    extends (st_modelAttrs st) (st_modelAttrs st') /\
    (NoDup (registryNames (st_modelAttrs st)) ->
     NoDup (registryNames (st_modelAttrs st'))).
Proof.
  induction ops as [|op ops IH]; intros st st' H; cbn [execOperations] in H.
  - injection H as <-. split; [apply extends_refl|auto].
  - destruct (execOperation e op st) as [st1|] eqn:E; [|discriminate].
    destruct (execOperation_registry e op st st1 E) as [Hx1 Hn1].
    destruct (IH st1 st' H) as [Hx2 Hn2].
    split; [exact (extends_trans _ _ _ Hx1 Hx2)|auto].
Qed.

(** X13. No batch removes or changes an entry of the Attribute Registry:
    the registry of the result is the one of the input with entries
    added behind it.  In particular a [delete] of a field leaves its
    entry where it is. *)
Theorem registry_only_grows e d ops d' :
  applyOperations e d ops = Some d' ->
  extends (modelAttribute d) (modelAttribute d').
Proof.
  unfold applyOperations. intros H.
  destruct (execOperations e ops (initialState d)) as [st'|] eqn:E;
    [|discriminate].
  injection H as <-.
  exact (proj1 (execOperations_registry e ops _ _ E)).
Qed.

Lemma registry_only_grows_witness :
  exists d',
    applyOperations sampleEnv sampleDoc
      [deleteOp "f"; addFieldOp "budget" "t" "after"] = Some d' /\
    extends (modelAttribute sampleDoc) (modelAttribute d').
Proof.
  eexists. split; [reflexivity|].
  apply (registry_only_grows sampleEnv sampleDoc
           [deleteOp "f"; addFieldOp "budget" "t" "after"]).
  reflexivity.
Defined.

(** X14. No batch gives the Attribute Registry a second entry for a name: if
    the names of the entries are pairwise different before, they are
    so afterwards. *)
Theorem registry_names_stay_unique e d ops d' :
  applyOperations e d ops = Some d' ->
  NoDup (registryNames (modelAttribute d)) ->
  NoDup (registryNames (modelAttribute d')).
Proof.
  unfold applyOperations. intros H.
  destruct (execOperations e ops (initialState d)) as [st'|] eqn:E;
    [|discriminate].
  injection H as <-.
  exact (proj2 (execOperations_registry e ops _ _ E)).
Qed.

Lemma registry_names_stay_unique_witness :
  exists d',
    applyOperations sampleEnv sampleDoc
      [addFieldOp "amount" "t" "after"; addFieldOp "budget" "t" "after";
       addFieldOp "budget" "g" "inside"] = Some d' /\
    NoDup (registryNames (modelAttribute d')).
Proof.
  eexists. split; [reflexivity|].
  apply (registry_names_stay_unique sampleEnv sampleDoc
           [addFieldOp "amount" "t" "after"; addFieldOp "budget" "t" "after";
            addFieldOp "budget" "g" "inside"]).
  - reflexivity.
  - vm_compute. apply NoDup_singleton.
Defined.

(** ** Move *)

Lemma execOperation_move e op st :
  op_type op = "move" ->
  execOperation e op st = execMove op (resolveTarget op (st_aliases st)) st.
Proof. intros H. unfold execOperation. rewrite H. reflexivity. Qed.

Lemma insertNextTo_missing before x els u :
  (u ≫= findElementByUid els) = None -> insertNextTo before x els u = els.
Proof.
  intros H. unfold insertNextTo. destruct u as [u|]; [|reflexivity].
  cbn in H. unfold findParentOpt. rewrite (findParentOf_none els u H).
  reflexivity.
Qed.

(** A [move] takes the source out of the tree and then looks for the
    destination among the nodes that remain. *)
Lemma execMove_identities op st u src :
  findElementByUid (st_elements st) u = Some src ->
  exists els' before after,
    execMove op (Some u) st = Some (withElements els' st) /\
    identitiesOf (st_elements st) = before ++ identitiesOf [src] ++ after /\
    match moveDestination op (st_aliases st) with
    | Some d =>
        if bool_decide (d ∈ (fun t => t.1.1) <$> (before ++ after))
        then exists b2 a2,
               before ++ after = b2 ++ a2 /\
               identitiesOf els' = b2 ++ identitiesOf [src] ++ a2
        else identitiesOf els' = before ++ after
    | None => identitiesOf els' = before ++ after
    end.
Proof.
  intros Hf. destruct (findParentOf_some _ u src Hf)
    as (p & j & arr & Hp & Ha & Hj & Hu & Hi).
  destruct (identities_context p _ arr Ha) as (l1 & l2 & E0 & Ef).
  unfold execMove. cbn [findParentOpt]. rewrite Hp, Ha. cbv zeta.
  rewrite Hi, (clampStart_index j (length arr)) by (eapply lookup_lt_Some; eauto).
  rewrite Hj.
  set (els1 := modifyArrayAt p (spliceAt (Z.of_nat j) 1 []) (st_elements st)).
  set (before := l1 ++ identitiesOf (take j arr)).
  set (after := identitiesOf (drop (S j) arr) ++ l2).
  assert (E1 : identitiesOf els1 = before ++ after).
  { unfold els1, before, after.
    rewrite Ef, (spliceAt_remove arr j src Hj), identitiesOf_app.
    rewrite <- !app_assoc. reflexivity. }
  eexists. exists before, after. split; [reflexivity|]. split.
  { unfold before, after. rewrite E0, (identities_middle arr j src Hj).
    rewrite <- !app_assoc. reflexivity. }
  assert (Hmiss : forall d,
            (d ≫= findElementByUid els1) = None ->
            identitiesOf
              (if positionIs op "inside" || positionIs op "inside_end"
               then orSame els1 (updateElementByUid (pushChild src) els1 d)
               else if positionIs op "inside_start"
                       || positionIs op "inside_top"
               then orSame els1 (updateElementByUid (unshiftChild src) els1 d)
               else insertNextTo (positionIs op "before") src els1 d)
            = before ++ after).
  { intros d Hd. rewrite !(updateElementByUid_missing _ _ _ Hd).
    rewrite (insertNextTo_missing _ _ _ _ Hd). cbn [orSame].
    destruct (positionIs op "inside" || positionIs op "inside_end");
      [exact E1|].
    destruct (positionIs op "inside_start" || positionIs op "inside_top");
      exact E1. }
  destruct (moveDestination op (st_aliases st)) as [d|];
    [|apply (Hmiss None); reflexivity].
  rewrite <- E1, <- uidsOf_identities.
  destruct (findElementByUid els1 d) as [t|] eqn:Ed.
  - rewrite bool_decide_true
      by (apply list_elem_of_In, findElementByUid_some_iff; rewrite Ed; eauto).
    assert (Hins : insertedInto src els1
              (if positionIs op "inside" || positionIs op "inside_end"
               then orSame els1
                      (updateElementByUid (pushChild src) els1 (Some d))
               else if positionIs op "inside_start"
                       || positionIs op "inside_top"
               then orSame els1
                      (updateElementByUid (unshiftChild src) els1 (Some d))
               else insertNextTo (positionIs op "before") src els1 (Some d))).
    { destruct (positionIs op "inside" || positionIs op "inside_end").
      { destruct (child_inserts false src _ d t Ed) as (els2 & -> & Hi2).
        exact Hi2. }
      destruct (positionIs op "inside_start" || positionIs op "inside_top").
      { destruct (child_inserts true src _ d t Ed) as (els2 & -> & Hi2).
        exact Hi2. }
      exact (insertNextTo_inserts _ src _ d t Ed). }
    exact Hins.
  - rewrite bool_decide_false.
    + rewrite E1. apply (Hmiss (Some d)). exact Ed.
    + intros Hin. apply list_elem_of_In, findElementByUid_some_iff in Hin.
      rewrite Ed in Hin. destruct Hin as [x Hx]. discriminate.
Qed.

(** X15. A [move] of an element of the tree is a removal followed by an
    insertion: the source goes out with everything below it, and it
    comes back in, next to or inside the destination, exactly when the
    destination is found among the nodes that remain.  Otherwise the
    result is the tree without the source. *)
Theorem move_is_removal_then_insertion e op st u src :
  op_type op = "move" ->
  resolveTarget op (st_aliases st) = Some u ->
  findElementByUid (st_elements st) u = Some src ->
  exists st' before after,
    execOperation e op st = Some st' /\
    identitiesOf (st_elements st) = before ++ identitiesOf [src] ++ after /\
    match moveDestination op (st_aliases st) with
    | Some d =>
        if bool_decide (d ∈ (fun t => t.1.1) <$> (before ++ after))
        then exists b2 a2,
               before ++ after = b2 ++ a2 /\
               identitiesOf (st_elements st')
                 = b2 ++ identitiesOf [src] ++ a2
        else identitiesOf (st_elements st') = before ++ after
    | None => identitiesOf (st_elements st') = before ++ after
    end.
Proof.
  intros Hty Hu Hf. rewrite (execOperation_move e op st Hty), Hu.
  destruct (execMove_identities op st u src Hf)
    as (els' & before & after & -> & E0 & Hd).
  eexists. exists before, after. split; [reflexivity|].
  split; [exact E0|exact Hd].
Qed.

Lemma move_is_removal_then_insertion_witness :
  exists st' before after,
    execOperation sampleEnv (moveOp "t" "x" "after") (initialState sampleDoc)
      = Some st' /\
    identitiesOf (st_elements (initialState sampleDoc))
      = before ++ identitiesOf [textNode "t" "Hello"] ++ after /\
    match moveDestination (moveOp "t" "x" "after")
            (st_aliases (initialState sampleDoc)) with
    | Some d =>
        if bool_decide (d ∈ (fun t => t.1.1) <$> (before ++ after))
        then exists b2 a2,
               before ++ after = b2 ++ a2 /\
               identitiesOf (st_elements st')
                 = b2 ++ identitiesOf [textNode "t" "Hello"] ++ a2
        else identitiesOf (st_elements st') = before ++ after
    | None => identitiesOf (st_elements st') = before ++ after
    end.
Proof.
  apply (move_is_removal_then_insertion sampleEnv (moveOp "t" "x" "after")
           (initialState sampleDoc) "t"); reflexivity.
Defined.



(** ** Fresh identifiers for a structure *)

Lemma seq_fmap_app {A : Type} (f : nat -> A) n a b :
  f <$> seq n (a + b) = (f <$> seq n a) ++ (f <$> seq (n + a) b).
Proof. rewrite seq_app, fmap_app. reflexivity. Qed.

Lemma regenerateUids_forest e ch :
  Forall (fun el => forall n,
            snd (regenerateUids e el n) = n + length (nodesOf el) /\
            uid <$> nodesOf (fst (regenerateUids e el n))
              = randomUUID e <$> seq n (length (nodesOf el)) /\
            kindOf <$> nodesOf (fst (regenerateUids e el n))
              = kindOf <$> nodesOf el) ch ->
  forall n,
    snd (mapThread (regenerateUids e) ch n) = n + length (allNodes ch) /\
    uid <$> allNodes (fst (mapThread (regenerateUids e) ch n))
      = randomUUID e <$> seq n (length (allNodes ch)) /\
    kindOf <$> allNodes (fst (mapThread (regenerateUids e) ch n))
      = kindOf <$> allNodes ch.
Proof.
  induction 1 as [|x r Hx _ IH]; intros n.
  - cbn. repeat split. lia.
  - cbn [mapThread]. specialize (Hx n).
    destruct (regenerateUids e x n) as [y n1].
    cbn [fst snd] in Hx. destruct Hx as (H1 & H2 & H3).
    specialize (IH n1).
    destruct (mapThread (regenerateUids e) r n1) as [ys n2].
    cbn [fst snd] in *. destruct IH as (I1 & I2 & I3).
    unfold allNodes in *. cbn [flat_map].
    rewrite !fmap_app, !length_app, H2, H3, I2, I3, seq_fmap_app, <- H1.
    repeat split. lia.
Qed.

Lemma regenerateUids_node e el n :
  snd (regenerateUids e el n) = n + length (nodesOf el) /\
  uid <$> nodesOf (fst (regenerateUids e el n))
    = randomUUID e <$> seq n (length (nodesOf el)) /\
  kindOf <$> nodesOf (fst (regenerateUids e el n))
    = kindOf <$> nodesOf el.
Proof.
  revert n. induction el as [el IH] using node_nested_ind. intros n.
  destruct el as [ty nm ud lb cf vs sy es].
  cbn [regenerateUids elements]. destruct es as [ch|].
  - pose proof (regenerateUids_forest e ch (IH ch eq_refl) (S n)) as H.
    fold (regenerateUids e).
    destruct (mapThread (regenerateUids e) ch (S n)) as [ch' n'].
    cbn [fst snd] in *. destruct H as (H1 & H2 & H3).
    cbn [nodesOf elements setElements setUid uid]. fold nodesOf.
    unfold allNodes in *. cbn [length seq]. rewrite !fmap_cons, H2, H3.
    repeat split. lia.
  - cbn. repeat split. lia.
Qed.

Lemma regenerateUids_count e s n :
  snd (regenerateUids e s n) = n + nodeCount [s] /\
  uidsOf [fst (regenerateUids e s n)]
    = randomUUID e <$> seq n (nodeCount [s]).
Proof.
  destruct (regenerateUids_node e s n) as (H1 & H2 & H3).
  unfold uidsOf, nodeCount, allNodes. cbn [flat_map].
  rewrite !app_nil_r. auto.
Qed.

(** ** Replace and clone *)

Lemma replace_identities els u old ins :
  findElementByUid els u = Some old ->
  exists before after,
    identitiesOf els = before ++ identitiesOf [old] ++ after /\
    identitiesOf (spliceOut 1 ins 0 els (Some u))
      = before ++ identitiesOf ins ++ after.
Proof.
  intros Hf.
  destruct (spliceOut_found 1 ins 0 els u old Hf)
    as (p & j & arr & Ha & Hj & Hs).
  destruct (identities_context p els arr Ha) as (l1 & l2 & E0 & Ef).
  exists (l1 ++ identitiesOf (take j arr)),
         (identitiesOf (drop (S j) arr) ++ l2).
  rewrite Hs, Ef, E0, Z.add_0_r, (spliceAt_replace arr j old ins Hj).
  rewrite (identities_middle arr j old Hj), !identitiesOf_app.
  rewrite <- !app_assoc. auto.
Qed.

Lemma execOperation_replace_subtree e op st :
  op_type op = "replace_subtree" ->
  execOperation e op st = Some (execReplaceSubtree e op st).
Proof. intros H. unfold execOperation. rewrite H. reflexivity. Qed.

Lemma transformOne_uid e lf lr sfx el n el1 :
  transformOne e lf lr sfx el n = Some el1 -> uid el1 = randomUUID e n.
Proof.
  unfold transformOne. intros H.
  destruct (if nonEmpty lf && nonEmpty lr then _ else _) as [[c l]|];
    [|discriminate].
  injection H as <-. reflexivity.
Qed.

Lemma transformElement_forest e lf lr sfx ch :
  Forall (fun el => forall n el' n',
            transformElement e lf lr sfx el n = Some (el', n') ->
            n' = n + length (nodesOf el) /\
            uid <$> nodesOf el' = randomUUID e <$> seq n (length (nodesOf el))
            /\ element_type <$> nodesOf el' = element_type <$> nodesOf el) ch ->
  forall n ch' n',
    mapThreadOpt (transformElement e lf lr sfx) ch n = Some (ch', n') ->
    n' = n + length (allNodes ch) /\
    uid <$> allNodes ch' = randomUUID e <$> seq n (length (allNodes ch)) /\
    element_type <$> allNodes ch' = element_type <$> allNodes ch.
Proof.
  induction 1 as [|x r Hx _ IH]; intros n ch' n' H; cbn [mapThreadOpt] in H.
  - injection H as <- <-. cbn. repeat split. lia.
  - destruct (transformElement e lf lr sfx x n) as [[y n1]|] eqn:Ex;
      [|discriminate].
    destruct (mapThreadOpt (transformElement e lf lr sfx) r n1)
      as [[ys n2]|] eqn:Er; [|discriminate].
    injection H as <- <-.
    destruct (Hx n y n1 Ex) as (H1 & H2 & H3).
    destruct (IH n1 ys n2 Er) as (I1 & I2 & I3).
    unfold allNodes in *. cbn [flat_map].
    rewrite !fmap_app, !length_app, H2, H3, I2, I3, seq_fmap_app, <- H1.
    repeat split. lia.
Qed.

Lemma transformElement_node e lf lr sfx el :
  forall n el' n',
    transformElement e lf lr sfx el n = Some (el', n') ->
    n' = n + length (nodesOf el) /\
    uid <$> nodesOf el' = randomUUID e <$> seq n (length (nodesOf el)) /\
    element_type <$> nodesOf el' = element_type <$> nodesOf el.
Proof.
  induction el as [el IH] using node_nested_ind. intros n el' n' H.
  destruct el as [ty nm ud lb cf vs sy es]. cbn [transformElement] in H.
  destruct (transformOne e lf lr sfx _ n) as [el1|] eqn:E1; [|discriminate].
  pose proof (transformOne_uid _ _ _ _ _ _ _ E1) as Hu.
  apply transformOne_shape in E1. destruct E1 as (Hty & _ & Hes).
  cbn [elements element_type] in *. destruct es as [ch|].
  - destruct (mapThreadOpt (transformElement e lf lr sfx) ch (S n))
      as [[ch' n2]|] eqn:Em; [|discriminate].
    injection H as <- <-.
    destruct (transformElement_forest e lf lr sfx ch (IH ch eq_refl)
                (S n) ch' n2 Em) as (H1 & H2 & H3).
    rewrite !nodesOf_eq, children_setElements.
    cbn [children elements length seq]. rewrite !fmap_cons.
    rewrite H2, H3, uid_setElements, Hu.
    destruct el1; cbn in *. subst. repeat split. lia.
  - injection H as <- <-. rewrite !nodesOf_eq. unfold children.
    rewrite Hes. cbn. rewrite Hu, Hty. repeat split. lia.
Qed.

Lemma execOperation_clone_subtree e op st :
  op_type op = "clone_subtree" ->
  execOperation e op st = execCloneSubtree e op st.
Proof. intros H. unfold execOperation. rewrite H. reflexivity. Qed.

Lemma mapThread_all2 (R : node -> node -> Prop)
    (f : node -> nat -> node * nat) (ch : list node) :
  Forall (fun x => forall n, R x (fst (f x n))) ch ->
  forall n, all2 R ch (fst (mapThread f ch n)).
Proof.
  induction 1 as [|x r Hx _ IH]; intros n; [exact I|].
  cbn [mapThread]. specialize (Hx n). destruct (f x n) as [y n1].
  specialize (IH n1). destruct (mapThread f r n1) as [ys n2].
  cbn [fst all2] in *. auto.
Qed.

(** [regenerateUids] changes nothing but identifiers. *)
Lemma regenerateUids_copy e s :
  forall n, copyWith sameButUid s (fst (regenerateUids e s n)).
Proof.
  induction s as [s IH] using node_nested_ind. intros n.
  destruct s as [ty nm ud lb cf vs sy es].
  cbn [regenerateUids elements]. destruct es as [ch|].
  - pose proof (mapThread_all2 (copyWith sameButUid) (regenerateUids e) ch
                  (IH ch eq_refl) (S n)) as H.
    fold (regenerateUids e).
    destruct (mapThread (regenerateUids e) ch (S n)) as [ch' n'].
    cbn [fst] in *. cbn [copyWith]. repeat split. exact H.
  - cbn [fst copyWith]. repeat split.
Qed.

(** The element that a guarded splice was told to find stays next to
    what the splice puts in. *)
Lemma spliceOut_neighbour (before : bool) x els u p j :
  findParentOf els u = Some (p, j) ->
  nodeAt p (if before then S j else j)
         (spliceOut 0 [x] (if before then 0 else 1) els (Some u))
    = nodeAt p j els.
Proof.
  intros H. unfold spliceOut, findParentOpt. rewrite H.
  destruct (findParentOf_found els u p j H)
    as (arr & el & Ha & Hj & Hu & Hi & _).
  unfold nodeAt. rewrite (arrayAt_modifyArrayAt _ _ _ _ Ha), Ha, Hi.
  assert ((Z.of_nat j =? -1)%Z = false) as -> by lia.
  pose proof (lookup_lt_Some _ _ _ Hj) as Hlt.
  destruct before.
  - rewrite Z.add_0_r.
    rewrite (spliceAt_insert arr j el [x] true Hj).
    rewrite lookup_app_r by (rewrite length_take; lia).
    rewrite length_take, Nat.min_l by lia.
    replace (S j - j) with 1 by lia.
    change (([x] ++ drop j arr) !! 1) with (drop j arr !! 0).
    rewrite lookup_drop, Nat.add_0_r. reflexivity.
  - rewrite (spliceAt_insert arr j el [x] false Hj).
    rewrite lookup_app_l by (rewrite length_take; lia).
    apply lookup_take_lt. lia.
Qed.

(** The guarded splice of the position [replace] puts the new element
    where the element was that [findParentOf] located. *)
Lemma spliceOut_replace_lookup x els u p j :
  findParentOf els u = Some (p, j) ->
  nodeAt p j (spliceOut 1 [x] 0 els (Some u)) = Some x.
Proof.
  intros H. unfold spliceOut, findParentOpt. rewrite H.
  destruct (findParentOf_found els u p j H)
    as (arr & el & Ha & Hj & Hu & Hi & _).
  unfold nodeAt. rewrite (arrayAt_modifyArrayAt _ _ _ _ Ha), Hi.
  assert ((Z.of_nat j =? -1)%Z = false) as -> by lia.
  pose proof (lookup_lt_Some _ _ _ Hj) as Hlt.
  rewrite Z.add_0_r, (spliceAt_replace arr j el [x] Hj).
  rewrite lookup_app_r by (rewrite length_take; lia).
  rewrite length_take, Nat.min_l by lia.
  replace (j - j) with 0 by lia. reflexivity.
Qed.

(** X17. [regenerateUids] changes nothing but identifiers: the structure
    it returns has the shape of the one it is given, node by node with
    the same element type, field name and other properties, and every
    node of it, at all depths, has an identifier drawn anew, in the
    order parents before children, so that no identifier of the
    structure it is given survives. *)
Theorem regenerateUids_redraws_every_identifier e s n :
  snd (regenerateUids e s n) = n + nodeCount [s] /\
  uidsOf [fst (regenerateUids e s n)]
    = randomUUID e <$> seq n (nodeCount [s]) /\
  copyWith sameButUid s (fst (regenerateUids e s n)).
Proof.
  destruct (regenerateUids_node e s n) as (H1 & H2 & _).
  unfold uidsOf, nodeCount, allNodes. cbn [flat_map].
  rewrite !app_nil_r. split; [exact H1|]. split; [exact H2|].
  apply regenerateUids_copy.
Qed.

(** X18. A [replace_subtree] with a structure draws one identifier for
    every node of the structure and leaves the registry alone.  If
    [target_uid], taken as it stands (an alias is not looked up), names
    an element of the tree, then in the array that holds this element
    the structure with its new identifiers stands at the index of the
    element, in its place (position [replace]) or directly in front
    of it (position [before]), or at the next index, directly behind
    it (any other position), and all other nodes of the tree keep
    their order.  If it names no element, the tree stays as it is. *)
Theorem replace_subtree_puts_in_the_structure e op st s :
  op_type op = "replace_subtree" ->
  op_structure op = Some s ->
  exists st',
    execOperation e op st = Some st' /\
    st_uids st' = st_uids st + nodeCount [s] /\
    st_modelAttrs st' = st_modelAttrs st /\
    let new := fst (regenerateUids e s (st_uids st)) in
    match op_target_uid op ≫= findParentOf (st_elements st) with
    | Some (p, j) =>
        exists old,
          nodeAt p j (st_elements st) = Some old /\
          if String.eqb (positionOrAfter op) "replace"
          then
            nodeAt p j (st_elements st') = Some new /\
            exists before after,
              identitiesOf (st_elements st)
                = before ++ identitiesOf [old] ++ after /\
              identitiesOf (st_elements st')
                = before ++ identitiesOf [new] ++ after
          else
            insertedInto new (st_elements st) (st_elements st') /\
            if String.eqb (positionOrAfter op) "before"
            then nodeAt p j (st_elements st') = Some new /\
                 nodeAt p (S j) (st_elements st') = Some old
            else nodeAt p j (st_elements st') = Some old /\
                 nodeAt p (S j) (st_elements st') = Some new
    | None => st_elements st' = st_elements st
    end.
Proof.
  intros Hty Hs. rewrite (execOperation_replace_subtree e op st Hty).
  eexists. split; [reflexivity|].
  unfold execReplaceSubtree. rewrite Hs.
  destruct (regenerateUids_count e s (st_uids st))
    as [Hn _].
  destruct (regenerateUids e s (st_uids st)) as [new n].
  cbn [fst snd] in *. cbn [st_uids st_modelAttrs st_elements].
  split; [exact Hn|]. split; [reflexivity|].
  destruct (op_target_uid op) as [u|]; cbn [mbind option_bind].
  - destruct (findParentOf (st_elements st) u) as [[p j]|] eqn:Ep.
    + destruct (findParentOf_found _ _ _ _ Ep)
        as (arr & old & Ha & Hj & Hu & Hi & Hf).
      exists old.
      assert (Hold : nodeAt p j (st_elements st) = Some old)
        by (unfold nodeAt; rewrite Ha; exact Hj).
      split; [exact Hold|].
      destruct (String.eqb (positionOrAfter op) "replace").
      * split; [exact (spliceOut_replace_lookup new _ u p j Ep)|].
        exact (replace_identities _ u old [new] Hf).
      * destruct (String.eqb (positionOrAfter op) "before").
        -- split; [exact (spliceOut_inserts true new _ u old Hf)|].
           split; [exact (spliceOut_insert_lookup true new _ u p j Ep)|].
           rewrite <- Hold.
           exact (spliceOut_neighbour true new _ u p j Ep).
        -- split; [exact (spliceOut_inserts false new _ u old Hf)|].
           split; [|exact (spliceOut_insert_lookup false new _ u p j Ep)].
           rewrite <- Hold.
           exact (spliceOut_neighbour false new _ u p j Ep).
    + pose proof (findParentOf_spec (st_elements st) u) as Hsp.
      rewrite Ep in Hsp.
      assert (Ef : (Some u ≫= findElementByUid (st_elements st)) = None)
        by exact Hsp.
      rewrite !(spliceOut_missing _ _ _ _ _ Ef).
      destruct (String.eqb (positionOrAfter op) "replace"); reflexivity.
  - unfold spliceOut.
    destruct (String.eqb (positionOrAfter op) "replace"); reflexivity.
Qed.

Lemma replace_subtree_puts_in_the_structure_witness :
  let op := replaceSubtreeOp "t" "before"
              (groupNode "a" "New" [fieldNode "b" "budget"]) in
  let st := initialState sampleDoc in
  let new :=
    fst (regenerateUids sampleEnv
           (groupNode "a" "New" [fieldNode "b" "budget"]) 0) in
  (op_type op = "replace_subtree" /\
   op_structure op = Some (groupNode "a" "New" [fieldNode "b" "budget"])) /\
  (op_target_uid op ≫= findParentOf (st_elements st)) = Some ([0], 0) /\
  exists st',
    execOperation sampleEnv op st = Some st' /\
    st_uids st' = 0 + nodeCount [groupNode "a" "New" [fieldNode "b" "budget"]]
    /\
    exists old,
      nodeAt [0] 0 (st_elements st) = Some old /\
      insertedInto new (st_elements st) (st_elements st') /\
      nodeAt [0] 0 (st_elements st') = Some new /\
      nodeAt [0] 1 (st_elements st') = Some old.
Proof.
  intros op st new. split; [split; reflexivity|]. split; [reflexivity|].
  destruct (replace_subtree_puts_in_the_structure sampleEnv op st
              (groupNode "a" "New" [fieldNode "b" "budget"])
              eq_refl eq_refl) as (st' & He & Hu & _ & H).
  exists st'. split; [exact He|]. split; [exact Hu|].
  change (op_target_uid op ≫= findParentOf (st_elements st))
    with (Some ([0], 0)) in H.
  cbv zeta in H. destruct H as (old & Ho & H).
  change (String.eqb (positionOrAfter op) "replace") with false in H.
  change (String.eqb (positionOrAfter op) "before") with true in H.
  cbv iota in H. destruct H as (Hi & Hn & Hs).
  exists old. repeat split; assumption.
Defined.

(** [transformElement] keeps the shape and the element types. *)
Lemma transformElement_shape e lf lr sfx :
  forall src n cloned n',
    transformElement e lf lr sfx src n = Some (cloned, n') ->
    sameShape src cloned.
Proof.
  intros src. induction src as [src IH] using node_nested_ind.
  intros n cloned n' H.
  destruct src as [ty nm ud lb cf vs sy es]. cbn [transformElement] in H.
  destruct (transformOne e lf lr sfx _ n) as [el1|] eqn:E1; [|discriminate].
  apply transformOne_shape in E1. destruct E1 as (Hty & Hnm & Hes).
  cbn [elements element_type] in *.
  destruct es as [ch|].
  - destruct (mapThreadOpt _ ch (S n)) as [[ch' n2]|] eqn:Em; [|discriminate].
    injection H as <- _. unfold sameShape. cbn [copyWith].
    cbn [setElements element_type name elements].
    split; [exact Hty|]. split; [exact I|].
    eapply mapThreadOpt_all2; [|exact Em].
    eapply Forall_impl; [exact (IH ch eq_refl)|].
    intros x Hx k y k'. apply Hx.
  - injection H as <- _. unfold sameShape. cbn [copyWith].
    cbn [element_type name elements]. rewrite Hes.
    split; [exact Hty|]. split; exact I.
Qed.

(** X19. A [clone_subtree] whose source is an element of the tree puts
    one copy of the source into the array that holds the source,
    directly in front of the source (position [before]) or directly
    behind it (any other position), and keeps all other nodes in their
    order.  The copy has the shape of the source, node by node with the
    same element type, and every node of it, at all depths, has an
    identifier drawn anew: the clone takes over no identifier of the
    source. *)
Theorem clone_subtree_draws_an_identifier_per_node e op st st' u src :
  op_type op = "clone_subtree" ->
  op_source_uid op = Some u ->
  findElementByUid (st_elements st) u = Some src ->
  execOperation e op st = Some st' ->
  exists p j cloned,
    findParentOf (st_elements st) u = Some (p, j) /\
    nodeAt p j (st_elements st) = Some src /\
    nodeAt p (cloneIndex op j) (st_elements st') = Some cloned /\
    nodeAt p (if String.eqb (positionOrAfter op) "before" then S j else j)
      (st_elements st') = Some src /\
    insertedInto cloned (st_elements st) (st_elements st') /\
    sameShape src cloned /\
    uidsOf [cloned] = randomUUID e <$> seq (st_uids st) (nodeCount [src]) /\
    st_uids st' = st_uids st + nodeCount [src].
Proof.
  intros Hty Hu Hsrc H. rewrite (execOperation_clone_subtree e op st Hty) in H.
  unfold execCloneSubtree in H. rewrite Hu in H.
  cbn [mbind option_bind] in H. rewrite Hsrc in H.
  destruct (transformElement e (op_label_find op) (op_label_replace op)
              (default "" (op_field_suffix op)) src (st_uids st))
    as [[cloned n]|] eqn:Et; cbn [mbind option_bind] in H; [|discriminate].
  injection H as <-.
  destruct (transformElement_node _ _ _ _ _ _ _ _ Et) as (H1 & H2 & H3).
  destruct (findParentOf_some _ _ _ Hsrc)
    as (p & j & arr & Ep & Ha & Hj & _).
  assert (Hold : nodeAt p j (st_elements st) = Some src)
    by (unfold nodeAt; rewrite Ha; exact Hj).
  exists p, j, cloned. cbn [withElements st_elements st_uids].
  unfold uidsOf, nodeCount, allNodes. cbn [flat_map]. rewrite !app_nil_r.
  split; [exact Ep|]. split; [exact Hold|]. unfold cloneIndex.
  split; [|split; [|split; [|split; [|split; [exact H2|]]]]].
  - exact (spliceOut_insert_lookup
             (String.eqb (positionOrAfter op) "before") cloned _ u p j Ep).
  - rewrite <- Hold.
    exact (spliceOut_neighbour
             (String.eqb (positionOrAfter op) "before") cloned _ u p j Ep).
  - destruct (String.eqb (positionOrAfter op) "before").
    + exact (spliceOut_inserts true cloned _ u src Hsrc).
    + exact (spliceOut_inserts false cloned _ u src Hsrc).
  - exact (transformElement_shape _ _ _ _ _ _ _ _ Et).
  - destruct (negb (String.eqb (default "" (op_field_suffix op)) "")).
    + set (st1 := State (st_elements st) (st_modelAttrs st) (st_aliases st) n
                    (st_ticks st)).
      assert (Hfold : forall names s0,
                st_uids (fold_left (fun acc fieldName =>
                           ensureModelAttribute e (Some fieldName) "string"
                             acc) names s0) = st_uids s0).
      { induction names as [|k r IH]; intros s0; [reflexivity|].
        cbn [fold_left]. rewrite IH.
        apply ensureModelAttribute_state. }
      rewrite Hfold. exact H1.
    + exact H1.
Qed.

Lemma clone_subtree_draws_an_identifier_per_node_witness :
  let op := cloneSubtreeOp "g" "after" "_y2" in
  let st := initialState sampleDoc in
  let src := groupNode "g" "Section 1"
               [textNode "t" "Hello"; fieldNode "f" "amount"] in
  (op_type op = "clone_subtree" /\ op_source_uid op = Some "g" /\
   findElementByUid (st_elements st) "g" = Some src) /\
  exists st' p j cloned,
    execOperation sampleEnv op st = Some st' /\
    findParentOf (st_elements st) "g" = Some (p, j) /\
    nodeAt p j (st_elements st) = Some src /\
    nodeAt p (cloneIndex op j) (st_elements st') = Some cloned /\
    nodeAt p (if String.eqb (positionOrAfter op) "before" then S j else j)
      (st_elements st') = Some src /\
    insertedInto cloned (st_elements st) (st_elements st') /\
    sameShape src cloned /\
    uidsOf [cloned] = randomUUID sampleEnv <$> seq 0 (nodeCount [src]) /\
    st_uids st' = 0 + nodeCount [src].
Proof.
  intros op st src. split; [repeat split; reflexivity|]. eexists.
  destruct (clone_subtree_draws_an_identifier_per_node sampleEnv op
              st _ "g" src eq_refl eq_refl eq_refl eq_refl)
    as (p & j & cloned & H).
  exists p, j, cloned. split; [reflexivity|exact H].
Defined.

(** ** The color rewrite on texts and families without matches *)

Lemma scansFrom_self (m : matcher) :
  (forall s n sub, m s = Some (n, sub) -> forall b, sub b = take n s) ->
  forall before s out, scansFrom m before s out -> out = s.
Proof.
  intros Hself before s out H.
  induction H as [b|b c s out Hm _ IH|b tok z sub out Hm Hne _ IH].
  - reflexivity.
  - rewrite IH. reflexivity.
  - rewrite (Hself _ _ _ Hm b), take_app_length, IH. reflexivity.
Qed.

(** A rewrite whose replacements are the matches themselves changes
    nothing. *)
Lemma replaceAll_self (m : matcher) s :
  matchesWithin m ->
  (forall s n sub, m s = Some (n, sub) -> forall b, sub b = take n s) ->
  replaceAll m s = s.
Proof.
  intros Hw Hself. unfold replaceAll.
  exact (scansFrom_self m Hself [] s _ (scanFrom_scansFrom m Hw s [])).
Qed.

Lemma unknown_family_rgb r g b f :
  existsb (String.eqb f) families = false -> isRgbInFamily r g b f = false.
Proof.
  unfold families. cbn [existsb]. intros H.
  repeat (apply orb_false_iff in H; destruct H as [? H]).
  unfold isRgbInFamily.
  repeat match goal with
         | Hx : String.eqb f _ = false |- _ => rewrite Hx; clear Hx
         end.
  reflexivity.
Qed.

Lemma unknown_family_hex hex f :
  existsb (String.eqb f) families = false -> isColorInFamily hex f = false.
Proof.
  intros H. unfold isColorInFamily.
  destruct hex as [|c0 [|c1 [|c2 [|c3 [|c4 [|c5 [|c6 [|]]]]]]]];
    try reflexivity; apply unknown_family_rgb, H.
Qed.

Lemma unknown_family_keywords f :
  existsb (String.eqb f) families = false -> lookupTable f keywords = None.
Proof.
  unfold families. cbn [existsb]. intros H.
  repeat (apply orb_false_iff in H; destruct H as [? H]).
  unfold keywords. cbn [lookupTable].
  rewrite !(String.eqb_sym _ f).
  repeat match goal with
         | Hx : String.eqb f _ = false |- _ => rewrite Hx; clear Hx
         end.
  reflexivity.
Qed.

Lemma str_chars s : str (chars s) = s.
Proof. apply string_of_list_ascii_of_string. Qed.

(** A scan with a callback that returns every match as it is changes
    nothing and does not raise. *)
Lemma scanRaising_skip (m : text -> option (nat * option text)) (a : text) :
  forall s, scanRaising m (length a) (a ++ s) = scanRaising m 0 s.
Proof.
  induction a as [|c a IH]; intros s; [destruct s; reflexivity|].
  cbn [length app scanRaising]. apply IH.
Qed.

Lemma scanRaising_self (m : text -> option (nat * option text)) :
  (forall s n r, m s = Some (n, r) ->
                 1 <= n /\ n <= length s /\ r = Some (take n s)) ->
  forall s, scanRaising m 0 s = Some s.
Proof.
  intros Hm s. remember (length s) as k eqn:Hk. revert s Hk.
  induction k as [k IH] using lt_wf_ind. intros s Hk.
  destruct s as [|c s]; [reflexivity|]. cbn [scanRaising].
  destruct (m (c :: s)) as [[n r]|] eqn:E.
  - destruct (Hm _ _ _ E) as (H1 & Hn & ->). cbn [length] in Hn.
    destruct n as [|n]; [lia|]. cbn [pred take].
    rewrite <- (take_drop n s) at 1.
    replace n with (length (take n s)) at 1 by (rewrite length_take; lia).
    rewrite scanRaising_skip.
    rewrite (IH (length (drop n s))); [|subst k; cbn [length];
      rewrite length_drop; lia|reflexivity].
    cbn [mbind option_bind]. rewrite <- app_comm_cons, take_drop.
    reflexivity.
  - rewrite (IH (length s)); [reflexivity|subst k; cbn [length]; lia|
      reflexivity].
Qed.

Lemma rgbRaiser_match f T s n r :
  rgbRaiser f s = Some (n, r) -> exists sub, rgbMatcher f T s = Some (n, sub).
Proof.
  unfold rgbRaiser, rgbMatcher. destruct (matchRgb s) as [m|]; [|discriminate].
  intros H. injection H as <- _. eauto.
Qed.

(** The name of an inherited member is no key of the keyword table. *)
Lemma prototype_name_no_family f :
  isPrototypeName f = true -> lookupTable f keywords = None.
Proof.
  unfold isPrototypeName. intros H. apply existsb_exists in H.
  destruct H as (k & Hin & E). apply String.eqb_eq in E. subst k.
  cbn [prototypeNames In] in Hin.
  repeat (destruct Hin as [<-|Hin]; [reflexivity|]). destruct Hin.
Qed.

(** X20. With a [findColor] that is none of the nine families, no hex
    literal, no [rgb] literal and no keyword is taken for a member of
    the family, whatever the target color is: the color rewrite
    returns the text as it is, unless [findColor] is the name of a
    member that the keyword table inherits, in which case it raises. *)
Theorem unknown_family_changes_nothing html findColor replaceColor :
  existsb (String.eqb findColor) families = false ->
  replaceColorsInHtml html findColor replaceColor
    = if isPrototypeName findColor then None else Some html.
Proof.
  intros Hf. unfold replaceColorsInHtml.
  rewrite (unknown_family_keywords findColor Hf).
  rewrite (replaceAll_self (hexMatcher findColor _)).
  - assert (E : match getTargetColor replaceColor with
                | ColorText _ =>
                    Some (replaceAll
                            (rgbMatcher findColor
                               (chars (colorText (getTargetColor replaceColor))))
                            (chars html))
                | Inherited _ =>
                    scanRaising (rgbRaiser findColor) 0 (chars html)
                end = Some (chars html)).
    { destruct (getTargetColor replaceColor) as [t|k].
      - rewrite (replaceAll_self (rgbMatcher findColor _)); [reflexivity| |].
        + apply rgbMatcher_within.
        + intros s n sub H b. unfold rgbMatcher in H.
          destruct (matchRgb s) as [m|]; [|discriminate].
          injection H as <- <-. rewrite unknown_family_rgb by exact Hf.
          reflexivity.
      - apply scanRaising_self. intros s n r H.
        destruct (rgbRaiser_match findColor [] s n r H) as (sub & Hs).
        destruct (rgbMatcher_within findColor [] s n sub Hs) as [H1 H2].
        split; [exact H1|]. split; [exact H2|].
        unfold rgbRaiser in H. destruct (matchRgb s) as [m|]; [|discriminate].
        rewrite unknown_family_rgb in H by exact Hf.
        injection H as <- <-. reflexivity. }
    rewrite E. cbn [mbind option_bind]. rewrite str_chars. reflexivity.
  - apply hexMatcher_within.
  - intros s n sub H b. unfold hexMatcher in H.
    destruct (matchHex s) as [k|]; [|discriminate].
    injection H as <- <-. rewrite unknown_family_hex by exact Hf.
    reflexivity.
Qed.

Lemma unknown_family_changes_nothing_witness :
  replaceColorsInHtml "color: pink; background: #ff0000" "pink" "constructor"
    = if isPrototypeName "pink" then None
      else Some "color: pink; background: #ff0000".
Proof.
  apply unknown_family_changes_nothing. reflexivity.
Defined.

Lemma matchKeyword_has_colon kw s r :
  matchKeyword kw s = Some r -> lacks ":" s = false.
Proof.
  destruct r as [s3 s4]. intros H.
  destruct (matchKeyword_sound _ _ _ _ H) as (ctx & k & -> & _ & Hc & _).
  destruct Hc as [p w1 w2]. rewrite <- !app_assoc.
  rewrite !lacks_app, lacks_head. rewrite !andb_false_r. reflexivity.
Qed.

Lemma replaceKeywords_none kws T s :
  lacks ":" s = true -> replaceKeywords kws T s = s.
Proof.
  intros Hl. unfold replaceKeywords.
  induction kws as [|kw kws IH]; [reflexivity|]. cbn [fold_left].
  assert (E0 : replaceAll (keywordMatcher (chars kw) T) s = s).
  { apply scanFrom_none. intros pre suf E. unfold keywordMatcher.
    destruct (matchKeyword (chars kw) suf) as [r|] eqn:Em; [|reflexivity].
    apply matchKeyword_has_colon in Em. rewrite E in Hl.
    apply lacks_suffix in Hl. congruence. }
  rewrite E0. exact IH.
Qed.

Lemma scanRaising_none (m : text -> option (nat * option text)) s :
  (forall pre suf, s = pre ++ suf -> m suf = None) ->
  scanRaising m 0 s = Some s.
Proof.
  induction s as [|c s IH]; intros Hn; [reflexivity|].
  cbn [scanRaising]. rewrite (Hn [] (c :: s) eq_refl).
  rewrite IH; [reflexivity|].
  intros pre suf E. apply (Hn (c :: pre)). rewrite E. reflexivity.
Qed.

(** X21. A text without a number sign, an opening parenthesis and a colon
    has nothing that the color rewrite could take for a color: the
    rewrite returns it as it is, whatever the two colors are, unless
    [findColor] is the name of a member that the keyword table
    inherits, in which case it raises. *)
Theorem text_without_color_syntax_is_kept html findColor replaceColor :
  lacks "#" (chars html) = true -> lacks "(" (chars html) = true ->
  lacks ":" (chars html) = true ->
  replaceColorsInHtml html findColor replaceColor
    = if isPrototypeName findColor then None else Some html.
Proof.
  intros Hh Hp Hc. unfold replaceColorsInHtml.
  assert (E1 : forall T, replaceAll (hexMatcher findColor T) (chars html)
                         = chars html).
  { intros T. apply scanFrom_none. intros pre suf E. unfold hexMatcher.
    destruct (matchHex suf) as [n|] eqn:Em; [|reflexivity].
    destruct (matchHex_starts _ _ Em) as (t & ->).
    rewrite E in Hh. apply lacks_suffix in Hh. rewrite lacks_head in Hh.
    discriminate. }
  assert (E2 : forall T, replaceAll (rgbMatcher findColor T) (chars html)
                         = chars html).
  { intros T. apply scanFrom_none. intros pre suf E. unfold rgbMatcher.
    destruct (matchRgb suf) as [m|] eqn:Em; [|reflexivity].
    apply matchRgb_has_paren in Em. rewrite E in Hp.
    apply lacks_suffix in Hp. congruence. }
  assert (E3 : scanRaising (rgbRaiser findColor) 0 (chars html)
               = Some (chars html)).
  { apply scanRaising_none. intros pre suf E. unfold rgbRaiser.
    destruct (matchRgb suf) as [m|] eqn:Em; [|reflexivity].
    apply matchRgb_has_paren in Em. rewrite E in Hp.
    apply lacks_suffix in Hp. congruence. }
  rewrite E1.
  assert (E : match getTargetColor replaceColor with
              | ColorText _ =>
                  Some (replaceAll
                          (rgbMatcher findColor
                             (chars (colorText (getTargetColor replaceColor))))
                          (chars html))
              | Inherited _ =>
                  scanRaising (rgbRaiser findColor) 0 (chars html)
              end = Some (chars html)).
  { destruct (getTargetColor replaceColor); [rewrite E2; reflexivity|].
    exact E3. }
  rewrite E. cbn [mbind option_bind].
  destruct (lookupTable findColor keywords) as [kws|] eqn:Ek.
  - destruct (isPrototypeName findColor) eqn:Epn.
    + rewrite (prototype_name_no_family _ Epn) in Ek. discriminate.
    + rewrite (replaceKeywords_none kws _ _ Hc), str_chars. reflexivity.
  - rewrite str_chars. reflexivity.
Qed.

Lemma text_without_color_syntax_is_kept_witness :
  replaceColorsInHtml "a red rose, colored red" "red" "blue"
    = if isPrototypeName "red" then None
      else Some "a red rose, colored red".
Proof.
  apply text_without_color_syntax_is_kept; reflexivity.
Defined.

(** ** The target color *)

Lemma lowerChar_not_upper c : inRange 65 90 (lowerChar c) = false.
Proof.
  destruct c as [[] [] [] [] [] [] [] []]; vm_compute; reflexivity.
Qed.

Lemma toLowerCase_not_upper s :
  forallb (fun c => negb (inRange 65 90 c)) (chars (toLowerCase s)) = true.
Proof.
  unfold toLowerCase. rewrite chars_str. apply forallb_forall.
  intros c Hc. apply in_map_iff in Hc. destruct Hc as (c0 & <- & _).
  rewrite lowerChar_not_upper. reflexivity.
Qed.

(** X22. When [getTargetColor] returns a string, it returns that string
    again when it is applied to it: a name of the table becomes its
    hex color, which stands for itself, and every other string stands
    for itself from the start.  It returns something else than a
    string only for [constructor] and [__proto__], in any case of the
    letters. *)
Theorem getTargetColor_is_idempotent colorName :
  match getTargetColor colorName with
  | ColorText target => getTargetColor target = ColorText target
  | Inherited k =>
      k = toLowerCase colorName /\ (k = "constructor" \/ k = "__proto__")
  end.
Proof.
  unfold getTargetColor at 1.
  destruct (startsWith (chars "#") (chars colorName)) eqn:Es.
  - unfold getTargetColor. rewrite Es. reflexivity.
  - destruct (lookupTable (toLowerCase colorName) colors) as [hex|] eqn:El.
    + destruct (getTargetColor_table_name colorName hex Es El) as [_ Hh].
      unfold getTargetColor. rewrite (hexColor_startsWith _ Hh).
      reflexivity.
    + destruct (isPrototypeName (toLowerCase colorName)) eqn:Ep.
      * split; [reflexivity|].
        pose proof (toLowerCase_not_upper colorName) as Hu.
        unfold isPrototypeName in Ep. apply existsb_exists in Ep.
        destruct Ep as (k & Hin & E). apply String.eqb_eq in E.
        rewrite E in *. clear E.
        cbn [prototypeNames In] in Hin.
        repeat (destruct Hin as [<-|Hin];
                [first [left; reflexivity | right; reflexivity
                       | vm_compute in Hu; discriminate Hu]|]).
        destruct Hin.
      * unfold getTargetColor. rewrite Es, El, Ep. reflexivity.
Qed.

(** ** The families on channels of eight bits *)

Lemma upTo_In n z : (0 <= z < Z.of_nat n)%Z -> In z (upTo n).
Proof.
  intros H. unfold upTo. apply in_map_iff. exists (Z.to_nat z).
  split; [lia|]. apply in_seq. lia.
Qed.

Lemma allPairs_spec n m P :
  allPairs n m P = true ->
  forall x y, (0 <= x < Z.of_nat n)%Z -> (0 <= y < Z.of_nat m)%Z ->
              P x (numberOf x) y (numberOf y) = true.
Proof.
  unfold allPairs. intros H x y Hx Hy.
  rewrite forallb_forall in H. specialize (H x (upTo_In _ _ Hx)).
  cbv zeta in H. rewrite forallb_forall in H.
  exact (H y (upTo_In _ _ Hy)).
Qed.

Lemma sameNumber_eq a b : sameNumber a b = true -> a = b.
Proof.
  destruct a as [s|s| |s m e], b as [s'|s'| |s' m' e']; cbn; try discriminate;
    try reflexivity.
  - intros H. apply Bool.eqb_prop in H. congruence.
  - intros H. apply Bool.eqb_prop in H. congruence.
  - intros H. apply andb_true_iff in H. destruct H as [H He].
    apply andb_true_iff in H. destruct H as [Hs Hm].
    apply Bool.eqb_prop in Hs. apply Pos.eqb_eq in Hm. apply Z.eqb_eq in He.
    congruence.
Qed.

Lemma eqb_true_eq (a b : bool) : Bool.eqb a b = true -> a = b.
Proof. apply Bool.eqb_prop. Qed.

(** The order of the Number values of two channels is the order of the
    integers. *)
Lemma channel_order x y :
  (0 <= x < 256)%Z -> (0 <= y < 256)%Z ->
  SFltb (numberOf x) (numberOf y) = (x <? y)%Z.
Proof.
  assert (H : allPairs 256 256
                (fun x fx y fy => Bool.eqb (SFltb fx fy) (x <? y)%Z) = true)
    by (vm_compute; reflexivity).
  intros Hx Hy. apply eqb_true_eq.
  exact (allPairs_spec _ _ _ H x y Hx Hy).
Qed.

Lemma channel_ratio_6_5 x y :
  (0 <= x < 256)%Z -> (0 <= y < 256)%Z ->
  SFltb (SFmul 53 1024 (numberOf y) (literal 6 5)) (numberOf x)
    = (6 * y <? 5 * x)%Z.
Proof.
  assert (E : literal 6 5 = S754_finite false 5404319552844595 (-52))
    by (vm_compute; reflexivity).
  assert (H : allPairs 256 256
                (ratioAgrees (S754_finite false 5404319552844595 (-52)) 6 5)
              = true)
    by (vm_compute; reflexivity).
  intros Hx Hy. rewrite E. apply eqb_true_eq.
  exact (allPairs_spec _ _ _ H x y Hx Hy).
Qed.

Lemma channel_ratio_13_10 x y :
  (0 <= x < 256)%Z -> (0 <= y < 256)%Z ->
  SFltb (SFmul 53 1024 (numberOf y) (literal 13 10)) (numberOf x)
    = (13 * y <? 10 * x)%Z.
Proof.
  assert (E : literal 13 10 = S754_finite false 5854679515581645 (-52))
    by (vm_compute; reflexivity).
  assert (H : allPairs 256 256
                (ratioAgrees (S754_finite false 5854679515581645 (-52)) 13 10)
              = true)
    by (vm_compute; reflexivity).
  intros Hx Hy. rewrite E. apply eqb_true_eq.
  exact (allPairs_spec _ _ _ H x y Hx Hy).
Qed.

Lemma channel_ratio_11_10 x y :
  (0 <= x < 256)%Z -> (0 <= y < 256)%Z ->
  SFltb (SFmul 53 1024 (numberOf y) (literal 11 10)) (numberOf x)
    = (11 * y <? 10 * x)%Z.
Proof.
  assert (E : literal 11 10 = S754_finite false 4953959590107546 (-52))
    by (vm_compute; reflexivity).
  assert (H : allPairs 256 256
                (ratioAgrees (S754_finite false 4953959590107546 (-52)) 11 10)
              = true)
    by (vm_compute; reflexivity).
  intros Hx Hy. rewrite E. apply eqb_true_eq.
  exact (allPairs_spec _ _ _ H x y Hx Hy).
Qed.

(** The sum of three channels is exact. *)
Lemma channel_sum x y :
  (0 <= x < 511)%Z -> (0 <= y < 256)%Z ->
  SFadd 53 1024 (numberOf x) (numberOf y) = numberOf (x + y).
Proof.
  assert (H : allPairs 511 256
                (fun x fx y fy =>
                   sameNumber (SFadd 53 1024 fx fy) (numberOf (x + y)))
              = true)
    by (vm_compute; reflexivity).
  intros Hx Hy. apply sameNumber_eq.
  exact (allPairs_spec _ _ _ H x y Hx Hy).
Qed.

Lemma channel_brightness t :
  (0 <= t < 766)%Z -> brightnessAgrees t = true.
Proof.
  assert (H : forallb brightnessAgrees (upTo 766) = true)
    by (vm_compute; reflexivity).
  intros Ht. rewrite forallb_forall in H. apply H, upTo_In. lia.
Qed.

Lemma andb_excl (a b : bool) :
  (a = true -> b = true -> False) -> a && b = false.
Proof. destruct a, b; intros H; try reflexivity. destruct H; reflexivity. Qed.

(** The mean of three channels against the bounds of the source. *)
Lemma brightness_bounds r g b :
  (0 <= r < 256)%Z -> (0 <= g < 256)%Z -> (0 <= b < 256)%Z ->
  let m := SFdiv 53 1024
             (SFadd 53 1024 (SFadd 53 1024 (numberOf r) (numberOf g))
                (numberOf b))
             (numberOf 3) in
  SFltb m (numberOf 50) = (r + g + b <? 150)%Z /\
  SFltb (numberOf 50) m = (150 <? r + g + b)%Z /\
  SFltb m (numberOf 220) = (r + g + b <? 660)%Z /\
  SFltb (numberOf 220) m = (660 <? r + g + b)%Z.
Proof.
  intros Hr Hg Hb. cbv zeta.
  rewrite (channel_sum r g) by lia. rewrite (channel_sum (r + g) b) by lia.
  pose proof (channel_brightness (r + g + b)) as H.
  unfold brightnessAgrees in H. cbv zeta in H.
  specialize (H ltac:(lia)).
  repeat (apply andb_true_iff in H; destruct H as [H ?]).
  repeat split; apply eqb_true_eq; assumption.
Qed.

Ltac channels :=
  apply andb_excl; intros H1 H2;
  repeat match goal with
         | H : _ && _ = true |- _ =>
             apply andb_true_iff in H; destruct H
         end;
  repeat match goal with
         | H : SFltb (SFmul _ _ _ (literal 6 5)) _ = true |- _ =>
             rewrite channel_ratio_6_5 in H by lia
         | H : SFltb (SFmul _ _ _ (literal 13 10)) _ = true |- _ =>
             rewrite channel_ratio_13_10 in H by lia
         | H : SFltb (SFmul _ _ _ (literal 11 10)) _ = true |- _ =>
             rewrite channel_ratio_11_10 in H by lia
         | H : SFltb (numberOf _) (numberOf _) = true |- _ =>
             rewrite channel_order in H by lia
         | H : (_ <? _)%Z = true |- _ => apply Z.ltb_lt in H
         | H : SFltb _ _ = true |- _ => clear H
         end;
  lia.

(** X23. On channels of eight bits, no color belongs to two of the
    families red, green and blue, none to two of black, gray and white,
    and a black color belongs to none of red, green, blue, orange,
    yellow and purple. *)
Theorem families_that_exclude_each_other r g b :
  (0 <= r <= 255)%Z -> (0 <= g <= 255)%Z -> (0 <= b <= 255)%Z ->
  let fam := isRgbInFamily (numberOf r) (numberOf g) (numberOf b) in
  fam "red" && fam "green" = false /\ fam "red" && fam "blue" = false /\
  fam "green" && fam "blue" = false /\
  fam "black" && fam "gray" = false /\ fam "black" && fam "white" = false /\
  fam "gray" && fam "white" = false /\
  Forall (fun f => fam "black" && fam f = false)
         ["red"; "green"; "blue"; "orange"; "yellow"; "purple"].
Proof.
  intros Hr Hg Hb. cbv zeta.
  destruct (brightness_bounds r g b ltac:(lia) ltac:(lia) ltac:(lia))
    as (B1 & B2 & B3 & B4).
  cbv zeta in B1, B2, B3, B4.
  repeat match goal with
         | |- _ /\ _ => split
         | |- Forall _ (_ :: _) => apply Forall_cons
         | |- Forall _ [] => apply Forall_nil
         end;
    try exact I;
    unfold isRgbInFamily; cbv beta zeta;
    cbn [String.eqb Ascii.eqb Bool.eqb];
    rewrite ?B1, ?B2, ?B3, ?B4; channels.
Qed.

Lemma families_that_exclude_each_other_witness :
  let fam := isRgbInFamily (numberOf 204) (numberOf 0) (numberOf 0) in
  fam "red" = true /\
  fam "red" && fam "green" = false /\ fam "red" && fam "blue" = false /\
  fam "green" && fam "blue" = false /\
  fam "black" && fam "gray" = false /\ fam "black" && fam "white" = false /\
  fam "gray" && fam "white" = false /\
  Forall (fun f => fam "black" && fam f = false)
         ["red"; "green"; "blue"; "orange"; "yellow"; "purple"].
Proof.
  split; [vm_compute; reflexivity|].
  apply (families_that_exclude_each_other 204 0 0); lia.
Defined.

(** ** The literal rewrite *)

Lemma matchLit_sameText p :
  forall p' s, sameText p p' -> matchLit p s = matchLit p' s.
Proof.
  induction p as [|a p IH]; intros [|a' p'] s H; try discriminate;
    [reflexivity|].
  unfold sameText in H. cbn [map] in H. injection H as Ha Hp.
  cbn [matchLit]. destruct s as [|c s]; [reflexivity|].
  unfold sameChar. rewrite Ha. rewrite (IH p' s Hp). reflexivity.
Qed.

Lemma sameText_length (a b : text) : sameText a b -> length a = length b.
Proof.
  unfold sameText. intros H. apply (f_equal (@length ascii)) in H.
  rewrite !length_map in H. exact H.
Qed.

Lemma scanFrom_ext (m m' : matcher) :
  (forall s, m s = m' s) ->
  forall s skip before, scanFrom m skip before s = scanFrom m' skip before s.
Proof.
  intros Hm. induction s as [|c s IH]; intros skip before; [reflexivity|].
  cbn [scanFrom]. destruct skip as [|k]; [|apply IH].
  rewrite <- Hm. destruct (m (c :: s)) as [[n sub]|]; rewrite IH; reflexivity.
Qed.

(** X24. The case of the [find] text of the literal rewrite does not matter:
    two texts that are equal up to case find the same occurrences and
    give the same result. *)
Theorem replaceLiteral_ignores_the_case_of_find find find' repl s :
  sameText (chars find) (chars find') ->
  replaceLiteral find repl s = replaceLiteral find' repl s.
Proof.
  intros H. unfold replaceLiteral, replaceAll. f_equal.
  apply scanFrom_ext. intros t. unfold literalMatcher.
  rewrite (matchLit_sameText _ _ t H), (sameText_length _ _ H). reflexivity.
Qed.

Lemma replaceLiteral_ignores_the_case_of_find_witness :
  replaceLiteral "section" "Part" "Section 1, SECTION 2"
    = replaceLiteral "SECTION" "Part" "Section 1, SECTION 2".
Proof.
  apply replaceLiteral_ignores_the_case_of_find. reflexivity.
Defined.

Lemma literalMatcher_within find repl :
  find <> [] -> matchesWithin (literalMatcher find repl).
Proof.
  intros Hne s n sub H. unfold literalMatcher in H.
  destruct (matchLit find s) as [after|] eqn:E; [|discriminate].
  injection H as <- _.
  destruct (matchLit_sound _ _ _ E) as (mt & -> & _ & Hl).
  rewrite length_app. destruct find; [contradiction|]. simpl in *. lia.
Qed.

(** X25. The [replace] text of the literal rewrite is a template, not a
    text: the pattern [$&] in it stands for the occurrence found.  A
    rewrite to [$&] alone therefore gives the text back as it is, with
    the case of every occurrence kept. *)
Theorem replaceLiteral_template_of_the_match find s :
  find <> "" -> replaceLiteral find "$&" s = s.
Proof.
  intros Hne. unfold replaceLiteral.
  rewrite replaceAll_self; [apply str_chars| |].
  - apply literalMatcher_within. destruct find; [contradiction|discriminate].
  - intros t n sub H b. unfold literalMatcher in H.
    destruct (matchLit (chars find) t) as [after|]; [|discriminate].
    injection H as <- <-. cbn. apply app_nil_r.
Qed.

Lemma replaceLiteral_template_of_the_match_witness :
  replaceLiteral "section" "$&" "Section 1, SECTION 2"
    = "Section 1, SECTION 2".
Proof.
  apply replaceLiteral_template_of_the_match. discriminate.
Defined.

(** ** Display names *)

Lemma capital_rewrite s :
  forall before,
    scanFrom capitalMatcher 0 before s = blankBeforeCapitals s.
Proof.
  induction s as [|c s IH]; intros before; [reflexivity|].
  cbn [scanFrom capitalMatcher blankBeforeCapitals flat_map].
  destruct (inRange 65 90 c); cbn [pred]; rewrite IH; reflexivity.
Qed.

Lemma rev_skip_end (t : text) :
  (t = [] \/ exists t0 l, t = t0 ++ [l] /\ isSpace l = false) ->
  rev (skipWhile isSpace (rev t)) = t.
Proof.
  intros [->|(t0 & l & -> & Hl)]; [reflexivity|].
  rewrite rev_app_distr. cbn [rev app skipWhile]. rewrite Hl.
  cbn [rev]. rewrite rev_involutive. reflexivity.
Qed.

Lemma blankBeforeCapitals_app a b :
  blankBeforeCapitals (a ++ b)
    = blankBeforeCapitals a ++ blankBeforeCapitals b.
Proof. apply flat_map_app. Qed.

Lemma blankBeforeCapitals_end t :
  forallb (fun c => negb (isSpace c)) t = true ->
  forall pre,
    pre ++ blankBeforeCapitals t = [] \/
    (t = [] /\ pre <> []) \/
    exists t0 l, pre ++ blankBeforeCapitals t = t0 ++ [l]
                 /\ isSpace l = false.
Proof.
  intros Hs pre. destruct t as [|c t] using rev_ind.
  - destruct pre; [left; reflexivity|right; left; split; [reflexivity|]].
    discriminate.
  - right. right. rewrite forallb_app in Hs. apply andb_true_iff in Hs.
    destruct Hs as [_ Hc]. cbn [forallb] in Hc. rewrite andb_true_r in Hc.
    apply negb_true_iff in Hc.
    rewrite blankBeforeCapitals_app. cbn [blankBeforeCapitals flat_map].
    rewrite app_nil_r. destruct (inRange 65 90 c).
    + exists (pre ++ blankBeforeCapitals t ++ [" "%char]), c.
      rewrite <- !app_assoc. auto.
    + exists (pre ++ blankBeforeCapitals t), c. rewrite <- !app_assoc. auto.
Qed.

(** X26. For a model type that is not in the table and has no white space,
    the display name is the model type with one blank before every
    capital letter except a leading one. *)
Theorem formatModelType_separates_the_words m :
  m <> "" -> lookupTable m modelNames = None -> isPrototypeName m = false ->
  forallb (fun c => negb (isSpace c)) (chars m) = true ->
  exists c rest,
    chars m = c :: rest /\
    formatModelType (Some m) = Display (str (c :: blankBeforeCapitals rest)).
Proof.
  intros Hne Hl Hp Hs. unfold formatModelType.
  apply String.eqb_neq in Hne. rewrite Hne, Hl, Hp.
  unfold replaceAll. rewrite capital_rewrite.
  destruct (chars m) as [|c rest] eqn:Ec.
  { exfalso. apply String.eqb_neq in Hne. apply Hne.
    rewrite <- (str_chars m), Ec. reflexivity. }
  exists c, rest. split; [reflexivity|]. f_equal. f_equal.
  cbn [forallb] in Hs. apply andb_true_iff in Hs. destruct Hs as [Hc Hr].
  apply negb_true_iff in Hc.
  assert (Hhead : skipWhile isSpace (blankBeforeCapitals (c :: rest))
                  = c :: blankBeforeCapitals rest).
  { cbn [blankBeforeCapitals flat_map]. fold (blankBeforeCapitals rest).
    destruct (inRange 65 90 c); cbn [app skipWhile].
    - change (isSpace " ") with true. cbv iota. cbn [skipWhile].
      rewrite Hc. reflexivity.
    - rewrite Hc. reflexivity. }
  unfold trim. rewrite Hhead. apply rev_skip_end.
  destruct (blankBeforeCapitals_end rest Hr [c]) as [H|[[-> _]|H]].
  - discriminate.
  - right. exists [], c. auto.
  - right. exact H.
Qed.

Lemma formatModelType_separates_the_words_witness :
  exists c rest,
    chars "AdHocReport" = c :: rest /\
    formatModelType (Some "AdHocReport")
      = Display (str (c :: blankBeforeCapitals rest)).
Proof.
  apply formatModelType_separates_the_words; try reflexivity. discriminate.
Defined.

(** ** The identifier of an export link *)

Lemma matchExact_sound pat :
  forall s rest, matchExact pat s = Some rest -> s = pat ++ rest.
Proof.
  induction pat as [|p pat IH]; intros s rest H; cbn [matchExact] in H.
  - injection H as <-. reflexivity.
  - destruct s as [|c s]; [discriminate|].
    destruct (Ascii.eqb p c) eqn:E; [|discriminate].
    apply Ascii.eqb_eq in E. subst c. cbn [app]. f_equal. apply IH, H.
Qed.

Lemma matchExact_complete pat : forall s, matchExact pat (pat ++ s) = Some s.
Proof.
  induction pat as [|p pat IH]; intros s; [reflexivity|].
  cbn [app matchExact]. rewrite Ascii.eqb_refl. apply IH.
Qed.

Lemma includes_inner p a b : includes p (a ++ p ++ b) = true.
Proof.
  induction a as [|c a IH].
  - cbn [app]. destruct (p ++ b) eqn:E; cbn [includes]; rewrite <- E;
      rewrite startsWith_app; reflexivity.
  - cbn [app includes]. rewrite IH. apply orb_true_r.
Qed.

Lemma searchFirst_found {A : Type} (m : text -> option A) s r :
  searchFirst m s = Some r ->
  exists pre suf, s = pre ++ suf /\ m suf = Some r.
Proof.
  induction s as [|c s IH]; cbn [searchFirst].
  - destruct (m []) eqn:E; [|discriminate]. intros H. injection H as <-.
    exists [], []. auto.
  - destruct (m (c :: s)) eqn:E.
    + intros H. injection H as <-. exists [], (c :: s). auto.
    + intros H. destruct (IH H) as (pre & suf & -> & Hm).
      exists (c :: pre), suf. auto.
Qed.

Lemma matchStencilExport_sound s d :
  matchStencilExport s = Some d ->
  d <> [] /\ forallb isDigit d = true /\
  exists rest, s = chars "stencil_export/" ++ d ++ chars ".json" ++ rest.
Proof.
  unfold matchStencilExport. intros H.
  destruct (matchExact (chars "stencil_export/") s) as [s1|] eqn:E1;
    cbn [mbind option_bind] in H; [|discriminate].
  destruct (digits1 s1) as [[d' s2]|] eqn:E2;
    cbn [mbind option_bind] in H; [|discriminate].
  destruct (matchExact (chars ".json") s2) as [s3|] eqn:E3;
    cbn [mbind option_bind] in H; [|discriminate].
  injection H as <-.
  apply matchExact_sound in E1, E3.
  destruct (digits1_sound _ _ _ E2) as (Es & Hne & Hd & _).
  repeat split; auto. exists s3. rewrite E1, Es, E3. reflexivity.
Qed.

Lemma chars_append a b : chars (a ++ b)%string = chars a ++ chars b.
Proof.
  induction a as [|c a IH]; [reflexivity|].
  change (chars (String c a ++ b)%string) with (c :: chars (a ++ b)%string).
  rewrite IH. reflexivity.
Qed.

(** X27. The identifier that [getStencilIdFromLink] reads off a link is a
    run of digits, and it is one for which the test of
    [findExportLink] accepts the link. *)
Theorem stencil_id_of_a_link_finds_the_link href id :
  getStencilIdFromLink (Some (Some href)) = Some id ->
  id <> "" /\ forallb isDigit (chars id) = true /\
  linksToStencil href id = true.
Proof.
  unfold getStencilIdFromLink, linksToStencil. intros H.
  destruct (searchFirst matchStencilExport (chars href)) as [d|] eqn:E;
    [|discriminate].
  cbn in H. injection H as <-.
  destruct (searchFirst_found _ _ _ E) as (pre & suf & Eh & Hm).
  destruct (matchStencilExport_sound _ _ Hm) as (Hne & Hd & rest & ->).
  rewrite chars_str. repeat split; auto.
  - intros Hs. apply Hne. rewrite <- (chars_str d), Hs. reflexivity.
  - rewrite Eh, !chars_append, chars_str.
    replace (chars "stencil_export/" ++ d ++ chars ".json" ++ rest)
      with ((chars "stencil_export/" ++ d ++ chars ".json") ++ rest)
      by (rewrite <- !app_assoc; reflexivity).
    apply includes_inner.
Qed.

Lemma stencil_id_of_a_link_finds_the_link_witness :
  getStencilIdFromLink (Some (Some "/stencil_export/34984.json"))
    = Some "34984" /\
  "34984" <> "" /\ forallb isDigit (chars "34984") = true /\
  linksToStencil "/stencil_export/34984.json" "34984" = true.
Proof.
  split; [reflexivity|].
  apply stencil_id_of_a_link_finds_the_link. reflexivity.
Defined.
